(** * Sysrepo module-info engine: a shallow embedding of [modinfo.c] and of the
      helpers of [common.c] it relies on, with the properties of the design
      document checked against the code. *)

From Stdlib Require Import ZArith List String Ascii Bool Lia Arith Sorted Permutation.
From Stdlib Require Import DecimalString.
Import ListNotations.

Set Default Proof Using "Type".

(** ** Error codes and results shared by all components *)

(** [sr_error_t]: the error codes that the modelled functions can produce. *)
Inductive sr_error_t : Type :=
| SR_ERR_INVAL_ARG
| SR_ERR_LY
| SR_ERR_SYS
| SR_ERR_NOMEM
| SR_ERR_NOT_FOUND
| SR_ERR_INTERNAL
| SR_ERR_UNSUPPORTED
| SR_ERR_UNAUTHORIZED
| SR_ERR_TIME_OUT
| SR_ERR_CALLBACK_FAILED.

Definition sr_error_eqb (a b : sr_error_t) : bool :=
  match a, b with
  | SR_ERR_INVAL_ARG, SR_ERR_INVAL_ARG | SR_ERR_LY, SR_ERR_LY | SR_ERR_SYS, SR_ERR_SYS
  | SR_ERR_NOMEM, SR_ERR_NOMEM | SR_ERR_NOT_FOUND, SR_ERR_NOT_FOUND
  | SR_ERR_INTERNAL, SR_ERR_INTERNAL | SR_ERR_UNSUPPORTED, SR_ERR_UNSUPPORTED
  | SR_ERR_UNAUTHORIZED, SR_ERR_UNAUTHORIZED | SR_ERR_TIME_OUT, SR_ERR_TIME_OUT
  | SR_ERR_CALLBACK_FAILED, SR_ERR_CALLBACK_FAILED => true
  | _, _ => false
  end.

(** [sr_datastore_t]. *)
Inductive sr_datastore_t : Type :=
| SR_DS_STARTUP
| SR_DS_RUNNING
| SR_DS_CANDIDATE
| SR_DS_OPERATIONAL.

Definition ds_eqb (a b : sr_datastore_t) : bool :=
  match a, b with
  | SR_DS_STARTUP, SR_DS_STARTUP | SR_DS_RUNNING, SR_DS_RUNNING
  | SR_DS_CANDIDATE, SR_DS_CANDIDATE | SR_DS_OPERATIONAL, SR_DS_OPERATIONAL => true
  | _, _ => false
  end.

Lemma ds_eqb_eq (a b : sr_datastore_t) : ds_eqb a b = true <-> a = b.
Proof. destruct a, b; simpl; split; intro H; try reflexivity; discriminate H. Qed.

(** What a call can end in: a value, an error ([err_info] with its code), a
    failed [assert], a crash (NULL dereference, or use of memory that was never
    written), or the iteration bound of the model.  The asserts are taken as
    compiled in; the XPath helpers and the operational composer, where what the
    code does past a disabled assert matters, have [NDEBUG] as a parameter. *)
Inductive outcome (A : Type) : Type :=
| Val (a : A)
| Err (e : sr_error_t)
| AssertFail
| Fault
| OutOfFuel.
Arguments Val {A} a.
Arguments Err {A} e.
Arguments AssertFail {A}.
Arguments Fault {A}.
Arguments OutOfFuel {A}.

Definition bind {A B : Type} (m : outcome A) (k : A -> outcome B) : outcome B :=
  match m with
  | Val a => k a
  | Err e => Err e
  | AssertFail => AssertFail
  | Fault => Fault
  | OutOfFuel => OutOfFuel
  end.

Notation "x <- m ;; k" := (bind m (fun x => k))
  (at level 61, m at next level, right associativity).

(** Monadic fold: a [for] loop over an array whose body may fail. *)
Fixpoint fold_outcome {A S : Type} (f : A -> S -> outcome S) (l : list A) (s : S) : outcome S :=
  match l with
  | [] => Val s
  | a :: l' =>
      match f a s with
      | Val s' => fold_outcome f l' s'
      | Err e => Err e
      | AssertFail => AssertFail
      | Fault => Fault
      | OutOfFuel => OutOfFuel
      end
  end.

(** A relation that every iteration establishes holds across the loop. *)
Lemma fold_outcome_rel {A S : Type} (R : S -> S -> Prop) (f : A -> S -> outcome S) :
  (forall s, R s s) ->
  (forall a b c, R a b -> R b c -> R a c) ->
  forall l : list A,
    (forall a s s', In a l -> f a s = Val s' -> R s s') ->
    forall s s', fold_outcome f l s = Val s' -> R s s'.
Proof.
  intros Hrefl Htrans l. induction l as [|a l IH]; simpl; intros Hf s s' H.
  - inversion H; subst. apply Hrefl.
  - destruct (f a s) as [s1| | | |] eqn:E; try discriminate.
    apply Htrans with s1.
    + apply (Hf a); [now left | exact E].
    + apply IH; [|exact H]. intros a' t t' Hin. apply Hf. now right.
Qed.

(** ** XPath helpers of [common.c] and the static prune of [modinfo.c] *)

Module XPath.

Local Open Scope char_scope.
Local Open Scope string_scope.

(** A C string is a [string]; a [const char *] into it is the suffix that starts
    at the pointed character.  [ch p] is [p[0]]: the terminator reads as NUL and
    so does, by convention, any position after it (the C code reads there only
    on XPaths whose predicate is not closed). *)
Definition NUL : ascii := "000".
Definition DQUOT : ascii := "034".
Definition SQUOT : ascii := "'".

Definition ch (p : string) : ascii :=
  match p with
  | EmptyString => NUL
  | String c _ => c
  end.

(** [p + 1]. *)
Definition incr (p : string) : string :=
  match p with
  | EmptyString => EmptyString
  | String _ t => t
  end.

(** [p - q] for [p] a later position of the string [q] points into. *)
Definition ptrdiff (p q : string) : Z :=
  Z.of_nat (String.length q) - Z.of_nat (String.length p).

(** [strncmp(s1, s2, n) == 0]. *)
Fixpoint strncmp_eq (s1 s2 : string) (n : nat) : bool :=
  match n with
  | O => true
  | S n' =>
      if Ascii.eqb (ch s1) (ch s2)
      then if Ascii.eqb (ch s1) NUL then true else strncmp_eq (incr s1) (incr s2) n'
      else false
  end.

Section Build.

(** Whether the code is compiled with [NDEBUG] (asserts removed). *)
Variable NDEBUG : bool.

Definition c_assert {A : Type} (c : bool) (k : outcome A) : outcome A :=
  if NDEBUG then k else if c then k else AssertFail.

(** Out parameters of [sr_xpath_next_name]. *)
Record next_name_t : Type := {
  nn_ret : string;            (* returned pointer *)
  nn_mod : option string;     (* NULL when there is no module prefix *)
  nn_mod_len : Z;
  nn_name : string;
  nn_len : Z;
  nn_double_slash : bool;
  nn_has_predicate : bool
}.

(** The [while (ptr[0] && (ptr[0] != '/'))] loop of [sr_xpath_next_name];
    yields [ptr], [xpath], [*mod], [*mod_len], [*has_predicate]. *)
Fixpoint next_name_scan (ptr xpath : string) (modp : option string) (mod_len : Z)
  : string * string * option string * Z * bool :=
  match ptr with
  | EmptyString => (ptr, xpath, modp, mod_len, false)
  | String c ptr' =>
      if Ascii.eqb c NUL || Ascii.eqb c "/" then (ptr, xpath, modp, mod_len, false)
      else
        let '(xpath1, mod1, mod_len1) :=
          if Ascii.eqb c ":" then (ptr', Some xpath, ptrdiff ptr xpath)
          else (xpath, modp, mod_len) in
        if Ascii.eqb (ch ptr') "[" then (ptr', xpath1, mod1, mod_len1, true)
        else next_name_scan ptr' xpath1 mod1 mod_len1
  end.

Definition sr_xpath_next_name (xpath : string) : outcome next_name_t :=
  c_assert (Ascii.eqb (ch xpath) "/")
    (let xpath := incr xpath in
     let '(xpath, double_slash) :=
       if Ascii.eqb (ch xpath) "/" then (incr xpath, true) else (xpath, false) in
     let '(ptr, xpath, modp, mod_len, has_predicate) :=
       next_name_scan xpath xpath None 0%Z in
     Val {| nn_ret := ptr; nn_mod := modp; nn_mod_len := mod_len;
            nn_name := xpath; nn_len := ptrdiff ptr xpath;
            nn_double_slash := double_slash; nn_has_predicate := has_predicate |}).

(** Out parameters of [sr_xpath_next_predicate]. *)
Record next_predicate_t : Type := {
  np_ret : string;
  np_pred : string;
  np_len : Z;
  np_has_predicate : bool
}.

(** The [for] loop of [sr_xpath_next_predicate]; [quote] is NUL outside a
    quoted literal.  Yields [ptr] and [quote] on exit. *)
Fixpoint next_predicate_scan (ptr : string) (quote : ascii) : string * ascii :=
  match ptr with
  | EmptyString => (ptr, quote)
  | String c ptr' =>
      if Ascii.eqb c NUL then (ptr, quote)
      else if Ascii.eqb quote NUL && Ascii.eqb c "]" then (ptr, quote)
      else
        let quote' :=
          if negb (Ascii.eqb quote NUL) && Ascii.eqb c quote then NUL
          else if Ascii.eqb quote NUL && (Ascii.eqb c SQUOT || Ascii.eqb c DQUOT) then c
          else quote in
        next_predicate_scan ptr' quote'
  end.

(** [sr_xpath_next_predicate]; [None] is the NULL it returns on an open quote.
    The last out parameter is computed as the code writes it:
    [(ptr[0] && (ptr[0] + 1 == '['))]. *)
Definition sr_xpath_next_predicate (xpath : string) : outcome (option next_predicate_t) :=
  c_assert (Ascii.eqb (ch xpath) "[")
    (let '(ptr, quote) := next_predicate_scan (incr xpath) NUL in
     if negb (Ascii.eqb quote NUL) then Val None
     else
       Val (Some {| np_ret := incr ptr;
                    np_pred := incr xpath;
                    np_len := ptrdiff ptr (incr xpath);
                    np_has_predicate :=
                      negb (Ascii.eqb (ch ptr) NUL)
                      && Nat.eqb (nat_of_ascii (ch ptr) + 1) (nat_of_ascii "[") |})).

(** First loop of [sr_xpath_oper_data_predicate_required] (node names).
    [None]: the function returns 1 from inside the loop. *)
Fixpoint pred_names (pred1 pred2 : string) (len1 len2 : Z)
  : outcome (option (string * Z * string * Z)) :=
  if Z.eqb len1 0 || Z.eqb len2 0 then Val (Some (pred1, len1, pred2, len2))
  else
    match pred1 with
    | EmptyString =>
        if Ascii.eqb (ch pred2) NUL then Fault else Val None
    | String c pred1' =>
        if negb (Ascii.eqb c (ch pred2)) then Val None
        else
          let pred2' := incr pred2 in
          if Ascii.eqb (ch pred1') "=" && Ascii.eqb (ch pred2') "="
          then Val (Some (pred1', len1 - 1, pred2', len2 - 1))%Z
          else pred_names pred1' pred2' (len1 - 1)%Z (len2 - 1)%Z
    end.

(** The value loops of the same function: advance to the closing quote. *)
Fixpoint pred_value (quot : ascii) (pred : string) (len : Z) : outcome (string * Z) :=
  if Z.eqb len 0 then Val (pred, len)
  else
    match pred with
    | EmptyString => Fault
    | String c pred' =>
        if Ascii.eqb c quot then Val (pred, len)
        else pred_value quot pred' (len - 1)%Z
    end.

Definition is_quote (c : ascii) : bool := Ascii.eqb c SQUOT || Ascii.eqb c DQUOT.

(** [sr_xpath_oper_data_predicate_required]: [false] is "not required" (0). *)
Definition sr_xpath_oper_data_predicate_required
  (pred1 : string) (len1 : Z) (pred2 : string) (len2 : Z) : outcome bool :=
  r <- pred_names pred1 pred2 len1 len2 ;;
  match r with
  | None => Val true
  | Some (pred1, len1, pred2, len2) =>
      if Z.eqb len1 0 || Z.eqb len2 0 then Val true
      else
        let pred1 := incr pred1 in let len1 := (len1 - 1)%Z in
        let pred2 := incr pred2 in let len2 := (len2 - 1)%Z in
        if negb (is_quote (ch pred1)) then Val true
        else if negb (is_quote (ch pred2)) then Val true
        else
          let quot1 := ch pred1 in
          let quot2 := ch pred2 in
          let val1 := incr pred1 in let len1 := (len1 - 1)%Z in
          let val2 := incr pred2 in let len2 := (len2 - 1)%Z in
          v1 <- pred_value quot1 val1 len1 ;;
          v2 <- pred_value quot2 val2 len2 ;;
          let '(pred1, len1) := v1 in
          let '(pred2, len2) := v2 in
          if negb (Z.eqb len1 1) || negb (Z.eqb len2 1) then Val true
          else
            let n := if (ptrdiff pred1 val1 >? ptrdiff pred2 val2)%Z
                     then ptrdiff pred1 val1 else ptrdiff pred2 val2 in
            if strncmp_eq val1 val2 (Z.to_nat n) then Val true else Val false
  end.

(** [while (has_pred1 && has_pred2)] of [sr_xpath_oper_data_required].
    [inl tt]: the function returns 0; [inr]: the state after the loop.  A NULL
    from [sr_xpath_next_predicate] leaves [pred]/[len] unwritten, and the code
    then passes them on: a crash. *)
Fixpoint pred_pairs (fuel : nat) (xpath1 xpath2 : string) (has_pred1 has_pred2 : bool)
  : outcome (unit + (string * string * bool * bool)) :=
  if has_pred1 && has_pred2 then
    match fuel with
    | O => OutOfFuel
    | S fuel' =>
        p1 <- sr_xpath_next_predicate xpath1 ;;
        p2 <- sr_xpath_next_predicate xpath2 ;;
        match p1, p2 with
        | Some p1, Some p2 =>
            r <- sr_xpath_oper_data_predicate_required
                   (np_pred p1) (np_len p1) (np_pred p2) (np_len p2) ;;
            if negb r then Val (inl tt)
            else pred_pairs fuel' (np_ret p1) (np_ret p2)
                            (np_has_predicate p1) (np_has_predicate p2)
        | _, _ => Fault
        end
    end
  else Val (inr (xpath1, xpath2, has_pred1, has_pred2)).

(** [while (has_pred) xpath = sr_xpath_next_predicate(xpath, NULL, NULL, &has_pred)].
    After a NULL result [has_pred] keeps its value and the next call receives
    NULL. *)
Fixpoint skip_preds (fuel : nat) (xpath : string) (has_pred : bool) : outcome string :=
  if has_pred then
    match fuel with
    | O => OutOfFuel
    | S fuel' =>
        p <- sr_xpath_next_predicate xpath ;;
        match p with
        | Some p => skip_preds fuel' (np_ret p) (np_has_predicate p)
        | None => if NDEBUG then Fault else AssertFail
        end
    end
  else Val xpath.

(** The [do ... while (xpath1[0] && xpath2[0])] loop; [true] is "required". *)
Fixpoint required_loop (fuel : nat) (xpath1 xpath2 : string) : outcome bool :=
  match fuel with
  | O => OutOfFuel
  | S fuel' =>
      n1 <- sr_xpath_next_name xpath1 ;;
      n2 <- sr_xpath_next_name xpath2 ;;
      let dslash1 := nn_double_slash n1 in
      let dslash2 := nn_double_slash n2 in
      if (dslash1 && negb dslash2) || (negb dslash1 && dslash2) then Val true
      else if dslash1 && dslash2
                && (Z.eqb (nn_len n1) 1 && Ascii.eqb (ch (nn_name n1)) ".") then Val true
      else if dslash1 && dslash2
                && (Z.eqb (nn_len n2) 1 && Ascii.eqb (ch (nn_name n2)) ".") then Val true
      else
        let wildc1 := Z.eqb (nn_len n1) 1 && Ascii.eqb (ch (nn_name n1)) "*" in
        let wildc2 := Z.eqb (nn_len n2) 1 && Ascii.eqb (ch (nn_name n2)) "*" in
        if (negb (Z.eqb (nn_mod_len n1) 0) && negb (Z.eqb (nn_mod_len n2) 0))
           && (negb (Z.eqb (nn_mod_len n1) (nn_mod_len n2))
               || negb (strncmp_eq (match nn_mod n1 with Some m => m | None => "" end)
                                   (match nn_mod n2 with Some m => m | None => "" end)
                                   (Z.to_nat (nn_mod_len n1))))
        then Val false
        else if negb wildc1 && negb wildc2
                && (negb (Z.eqb (nn_len n1) (nn_len n2))
                    || negb (strncmp_eq (nn_name n1) (nn_name n2) (Z.to_nat (nn_len n1))))
        then Val false
        else
          r <- pred_pairs (String.length (nn_ret n1)) (nn_ret n1) (nn_ret n2)
                          (nn_has_predicate n1) (nn_has_predicate n2) ;;
          match r with
          | inl _ => Val false
          | inr (xpath1, xpath2, has_pred1, has_pred2) =>
              xpath1 <- skip_preds (String.length xpath1) xpath1 has_pred1 ;;
              xpath2 <- skip_preds (String.length xpath2) xpath2 has_pred2 ;;
              if negb (Ascii.eqb (ch xpath1) NUL) && negb (Ascii.eqb (ch xpath2) NUL)
              then required_loop fuel' xpath1 xpath2
              else Val true
          end
  end.

(** [sr_xpath_oper_data_required]: [request_xpath] may be NULL ([None]). *)
Definition sr_xpath_oper_data_required (request_xpath : option string) (sub_xpath : string)
  : outcome bool :=
  match request_xpath with
  | None => Val true
  | Some request_xpath =>
      required_loop (S (String.length request_xpath)) request_xpath sub_xpath
  end.

End Build.


(** *** Facts about the scanners *)

Lemma next_predicate_scan_exit (s : string) (q : ascii) (ptr : string) (q' : ascii) :
  next_predicate_scan s q = (ptr, q') ->
  ch ptr = NUL \/ (q' = NUL /\ ch ptr = "]"%char).
Proof.
  revert q. induction s as [|c s IH]; intros q H; cbn [next_predicate_scan] in H.
  - inversion H; subst. now left.
  - destruct (Ascii.eqb c NUL) eqn:E0.
    + inversion H; subst. left. now apply Ascii.eqb_eq in E0.
    + destruct (Ascii.eqb q NUL && Ascii.eqb c "]") eqn:E1.
      * inversion H; subst. apply andb_true_iff in E1. destruct E1 as [Eq Ec].
        apply Ascii.eqb_eq in Eq. apply Ascii.eqb_eq in Ec. right. now split.
      * eapply IH. exact H.
Qed.

(** The last out parameter of [sr_xpath_next_predicate] is never set: the
    character at which the scan stops is NUL or [']'], and [']' + 1] is not
    ['[']. *)
Lemma sr_xpath_next_predicate_has_predicate (NDEBUG : bool) (xpath : string)
  (p : next_predicate_t) :
  sr_xpath_next_predicate NDEBUG xpath = Val (Some p) -> np_has_predicate p = false.
Proof.
  unfold sr_xpath_next_predicate, c_assert. intro H.
  assert (G : (let '(ptr, quote) := next_predicate_scan (incr xpath) NUL in
               if negb (Ascii.eqb quote NUL) then Val None
               else
                 Val (Some {| np_ret := incr ptr;
                              np_pred := incr xpath;
                              np_len := ptrdiff ptr (incr xpath);
                              np_has_predicate :=
                                negb (Ascii.eqb (ch ptr) NUL)
                                && Nat.eqb (nat_of_ascii (ch ptr) + 1) (nat_of_ascii "[") |}))
              = Val (Some p)).
  { destruct NDEBUG; [exact H|]. destruct (Ascii.eqb (ch xpath) "["); [exact H | discriminate]. }
  clear H. destruct (next_predicate_scan (incr xpath) NUL) as [ptr quote] eqn:S.
  apply next_predicate_scan_exit in S.
  destruct (negb (Ascii.eqb quote NUL)); [discriminate|].
  inversion G; subst. cbn [np_has_predicate].
  destruct S as [S|[_ S]]; rewrite S; reflexivity.
Qed.

(** An absent request XPath is answered "required". *)
Lemma sr_xpath_oper_data_required_no_request (NDEBUG : bool) (sub_xpath : string) :
  sr_xpath_oper_data_required NDEBUG None sub_xpath = Val true.
Proof. reflexivity. Qed.

(** The scenario of the design document: one key predicate with two different
    literals prunes the subscription. *)
Example sr_xpath_oper_data_required_scenario5 (NDEBUG : bool) :
  sr_xpath_oper_data_required NDEBUG (Some "/a:list[key='x']/leaf") "/a:list[key='y']/leaf"
  = Val false.
Proof. destruct NDEBUG; vm_compute; reflexivity. Qed.

(** C2. A request that names an instance of a list with two keys, against a
    subscription for a leaf of every instance of that list.  The data of the
    subscription contain the requested leaf, yet with asserts compiled out the
    prune answers "not required": the second predicate of the request is never
    skipped and is then read as a node name.  With asserts compiled in, the
    same call stops on the assert of [sr_xpath_next_name]. *)
Theorem sr_xpath_oper_data_required_second_predicate :
  sr_xpath_oper_data_required true (Some "/a:l[k1='x'][k2='y']/leaf") "/a:l/leaf" = Val false
  /\ sr_xpath_oper_data_required false (Some "/a:l[k1='x'][k2='y']/leaf") "/a:l/leaf"
     = AssertFail
  /\ (forall NDEBUG xpath p,
        sr_xpath_next_predicate NDEBUG xpath = Val (Some p) -> np_has_predicate p = false).
Proof.
  split; [vm_compute; reflexivity|]. split; [vm_compute; reflexivity|].
  exact sr_xpath_next_predicate_has_predicate.
Qed.

(** *** The loops of the static prune come to their end *)

Lemma next_name_scan_length (ptr xpath : string) (modp : option string) (mod_len : Z) :
  forall ptr' xpath' modp' mod_len' has_predicate,
    next_name_scan ptr xpath modp mod_len = (ptr', xpath', modp', mod_len', has_predicate) ->
    (String.length ptr' <= String.length ptr)%nat /\
    (has_predicate = true -> (1 <= String.length ptr')%nat).
Proof.
  revert xpath modp mod_len.
  induction ptr as [|c ptr IH]; intros xpath modp mod_len ptr' xpath' modp' mod_len' hp H;
    cbn [next_name_scan] in H.
  - injection H as <- _ _ _ <-. split; [apply Nat.le_refl|discriminate].
  - destruct (Ascii.eqb c NUL || Ascii.eqb c "/").
    { injection H as <- _ _ _ <-. split; [apply Nat.le_refl|discriminate]. }
    destruct (if Ascii.eqb c ":" then _ else _) as [[xpath1 mod1] mod_len1].
    destruct (Ascii.eqb (ch ptr) "[") eqn:E.
    + injection H as <- _ _ _ <-. cbn [String.length]. split; [lia|].
      intros _. destruct ptr; [discriminate E|cbn [String.length]; lia].
    + apply IH in H. cbn [String.length]. destruct H as [H1 H2]. split; [lia|exact H2].
Qed.

Lemma incr_length (p : string) : (String.length (incr p) <= String.length p)%nat.
Proof. destruct p; cbn [incr String.length]; lia. Qed.

Lemma incr_length_lt (p : string) :
  (1 <= String.length p)%nat -> (String.length (incr p) < String.length p)%nat.
Proof. destruct p; cbn [incr String.length]; lia. Qed.

Lemma sr_xpath_next_name_length (NDEBUG : bool) (xpath : string) (n : next_name_t) :
  sr_xpath_next_name NDEBUG xpath = Val n ->
  (String.length (nn_ret n) <= String.length (incr xpath))%nat /\
  (nn_has_predicate n = true -> (1 <= String.length (nn_ret n))%nat).
Proof.
  unfold sr_xpath_next_name, c_assert. intro H.
  assert (G : exists x, (String.length x <= String.length (incr xpath))%nat /\
                exists d,
                  (let '(ptr, xpath0, modp, mod_len, has_predicate) :=
                     next_name_scan x x None 0%Z in
                   Val {| nn_ret := ptr; nn_mod := modp; nn_mod_len := mod_len;
                          nn_name := xpath0; nn_len := ptrdiff ptr xpath0;
                          nn_double_slash := d; nn_has_predicate := has_predicate |})
                  = Val n).
  { assert (H' : (let xpath := incr xpath in
                  let '(xpath, double_slash) :=
                    if Ascii.eqb (ch xpath) "/" then (incr xpath, true) else (xpath, false) in
                  let '(ptr, xpath, modp, mod_len, has_predicate) :=
                    next_name_scan xpath xpath None 0%Z in
                  Val {| nn_ret := ptr; nn_mod := modp; nn_mod_len := mod_len;
                         nn_name := xpath; nn_len := ptrdiff ptr xpath;
                         nn_double_slash := double_slash;
                         nn_has_predicate := has_predicate |}) = Val n).
    { destruct NDEBUG; [exact H|]. destruct (Ascii.eqb (ch xpath) "/"); [exact H|discriminate]. }
    cbv zeta in H'. destruct (Ascii.eqb (ch (incr xpath)) "/").
    - exists (incr (incr xpath)). split; [apply incr_length|]. exists true. exact H'.
    - exists (incr xpath). split; [apply Nat.le_refl|]. exists false. exact H'. }
  destruct G as (x & Lx & d & G).
  destruct (next_name_scan x x None 0%Z) as [[[[ptr xpath0] modp] mod_len] hp] eqn:S.
  apply next_name_scan_length in S. destruct S as [S1 S2].
  injection G as <-. cbn [nn_ret nn_has_predicate]. split; [lia|exact S2].
Qed.

Lemma next_predicate_scan_length (ptr : string) :
  forall quote ptr' quote',
    next_predicate_scan ptr quote = (ptr', quote') ->
    (String.length ptr' <= String.length ptr)%nat.
Proof.
  induction ptr as [|c ptr IH]; intros quote ptr' quote' H; cbn [next_predicate_scan] in H.
  - injection H as <- _. apply Nat.le_refl.
  - destruct (Ascii.eqb c NUL); [injection H as <- _; apply Nat.le_refl|].
    destruct (_ && _); [injection H as <- _; apply Nat.le_refl|].
    apply IH in H. cbn [String.length]. lia.
Qed.

Lemma sr_xpath_next_predicate_length (NDEBUG : bool) (xpath : string)
  (p : next_predicate_t) :
  sr_xpath_next_predicate NDEBUG xpath = Val (Some p) ->
  (String.length (np_ret p) <= String.length xpath)%nat.
Proof.
  unfold sr_xpath_next_predicate, c_assert. intro H.
  assert (G : (let '(ptr, quote) := next_predicate_scan (incr xpath) NUL in
               if negb (Ascii.eqb quote NUL) then Val None
               else
                 Val (Some {| np_ret := incr ptr;
                              np_pred := incr xpath;
                              np_len := ptrdiff ptr (incr xpath);
                              np_has_predicate :=
                                negb (Ascii.eqb (ch ptr) NUL)
                                && Nat.eqb (nat_of_ascii (ch ptr) + 1) (nat_of_ascii "[") |}))
              = Val (Some p)).
  { destruct NDEBUG; [exact H|]. destruct (Ascii.eqb (ch xpath) "["); [exact H|discriminate]. }
  clear H. destruct (next_predicate_scan (incr xpath) NUL) as [ptr quote] eqn:S.
  apply next_predicate_scan_length in S.
  destruct (negb (Ascii.eqb quote NUL)); [discriminate|].
  injection G as <-. cbn [np_ret].
  pose proof (incr_length ptr). pose proof (incr_length xpath). lia.
Qed.

Lemma pred_names_fuel (pred1 : string) :
  forall pred2 len1 len2, pred_names pred1 pred2 len1 len2 <> OutOfFuel.
Proof.
  induction pred1 as [|c pred1 IH]; intros pred2 len1 len2; cbn [pred_names].
  - destruct (_ || _); [discriminate|]. destruct (Ascii.eqb _ _); discriminate.
  - destruct (_ || _); [discriminate|]. destruct (negb _); [discriminate|].
    destruct (_ && _); [discriminate|apply IH].
Qed.

Lemma pred_value_fuel (quot : ascii) (pred : string) :
  forall len, pred_value quot pred len <> OutOfFuel.
Proof.
  induction pred as [|c pred IH]; intro len; cbn [pred_value].
  - destruct (Z.eqb len 0); discriminate.
  - destruct (Z.eqb len 0); [discriminate|]. destruct (Ascii.eqb c quot); [discriminate|].
    apply IH.
Qed.

Lemma sr_xpath_oper_data_predicate_required_fuel (pred1 : string) (len1 : Z)
  (pred2 : string) (len2 : Z) :
  sr_xpath_oper_data_predicate_required pred1 len1 pred2 len2 <> OutOfFuel.
Proof.
  unfold sr_xpath_oper_data_predicate_required.
  pose proof (pred_names_fuel pred1 pred2 len1 len2) as N.
  destruct (pred_names pred1 pred2 len1 len2) as [[[[[p1 l1] p2] l2]|]| | | |];
    cbn [bind]; try discriminate; [|contradiction N; reflexivity].
  destruct (_ || _); [discriminate|].
  destruct (negb _); [discriminate|]. destruct (negb _); [discriminate|].
  match goal with
  | |- bind ?o _ <> _ =>
      assert (V1 : o <> OutOfFuel) by apply pred_value_fuel;
      destruct o as [[q1 m1]| | | |]; cbn [bind]; try discriminate;
      [|contradiction V1; reflexivity]
  end.
  match goal with
  | |- bind ?o _ <> _ =>
      assert (V2 : o <> OutOfFuel) by apply pred_value_fuel;
      destruct o as [[q2 m2]| | | |]; cbn [bind]; try discriminate;
      [|contradiction V2; reflexivity]
  end.
  destruct (_ || _); [discriminate|]. destruct (strncmp_eq _ _ _); discriminate.
Qed.

Lemma sr_xpath_next_predicate_fuel (NDEBUG : bool) (xpath : string) :
  sr_xpath_next_predicate NDEBUG xpath <> OutOfFuel.
Proof.
  unfold sr_xpath_next_predicate, c_assert.
  destruct (next_predicate_scan (incr xpath) NUL) as [ptr quote].
  destruct NDEBUG; [|destruct (Ascii.eqb (ch xpath) "["); [|discriminate]];
    destruct (negb (Ascii.eqb quote NUL)); discriminate.
Qed.

(** The loop over the pairs of predicates runs once at most, because the
    second call onwards [has_predicate] is never set. *)
Lemma pred_pairs_spec (NDEBUG : bool) (fuel : nat) (xpath1 xpath2 : string)
  (has_pred1 has_pred2 : bool) :
  (has_pred1 && has_pred2 = true -> (1 <= fuel)%nat) ->
  pred_pairs NDEBUG fuel xpath1 xpath2 has_pred1 has_pred2 <> OutOfFuel /\
  forall x1 x2 h1 h2,
    pred_pairs NDEBUG fuel xpath1 xpath2 has_pred1 has_pred2 = Val (inr (x1, x2, h1, h2)) ->
    (x1 = xpath1 /\ h1 = has_pred1 \/
     h1 = false /\ (String.length x1 <= String.length xpath1)%nat) /\
    (x2 = xpath2 /\ h2 = has_pred2 \/
     h2 = false /\ (String.length x2 <= String.length xpath2)%nat).
Proof.
  intro F. destruct fuel as [|fuel].
  - destruct (has_pred1 && has_pred2) eqn:E; [specialize (F eq_refl); lia|].
    cbn [pred_pairs]. rewrite E. split; [discriminate|].
    intros x1 x2 h1 h2 H. injection H as <- <- <- <-. split; left; split; reflexivity.
  - cbn [pred_pairs]. destruct (has_pred1 && has_pred2).
    2:{ split; [discriminate|].
        intros x1 x2 h1 h2 H. injection H as <- <- <- <-. split; left; split; reflexivity. }
    pose proof (sr_xpath_next_predicate_fuel NDEBUG xpath1) as N1.
    destruct (sr_xpath_next_predicate NDEBUG xpath1) as [p1| | | |] eqn:P1; cbn [bind];
      try (split; [discriminate|intros; discriminate]); [|contradiction N1; reflexivity].
    pose proof (sr_xpath_next_predicate_fuel NDEBUG xpath2) as N2.
    destruct (sr_xpath_next_predicate NDEBUG xpath2) as [p2| | | |] eqn:P2; cbn [bind];
      try (split; [discriminate|intros; discriminate]); [|contradiction N2; reflexivity].
    destruct p1 as [p1|]; [|split; [discriminate|intros; discriminate]].
    destruct p2 as [p2|]; [|split; [discriminate|intros; discriminate]].
    pose proof (sr_xpath_oper_data_predicate_required_fuel
                  (np_pred p1) (np_len p1) (np_pred p2) (np_len p2)) as R.
    destruct (sr_xpath_oper_data_predicate_required _ _ _ _) as [r| | | |]; cbn [bind];
      try (split; [discriminate|intros; discriminate]); [|contradiction R; reflexivity].
    destruct r; cbn [negb]; [|split; [discriminate|intros; discriminate]].
    rewrite (sr_xpath_next_predicate_has_predicate _ _ _ P1).
    destruct fuel; cbn [pred_pairs andb]; (split; [discriminate|]);
      intros x1 x2 h1 h2 H; injection H as <- <- <- <-;
      (split; right; (split; [try reflexivity|]));
      try apply (sr_xpath_next_predicate_has_predicate _ _ _ P2);
      try apply (sr_xpath_next_predicate_length _ _ _ P1);
      apply (sr_xpath_next_predicate_length _ _ _ P2).
Qed.

Lemma skip_preds_spec (NDEBUG : bool) (fuel : nat) (xpath : string) (has_pred : bool) :
  (has_pred = true -> (1 <= fuel)%nat) ->
  skip_preds NDEBUG fuel xpath has_pred <> OutOfFuel /\
  forall x, skip_preds NDEBUG fuel xpath has_pred = Val x ->
            (String.length x <= String.length xpath)%nat.
Proof.
  intro F. destruct has_pred.
  - destruct fuel as [|fuel]; [specialize (F eq_refl); lia|]. cbn [skip_preds].
    pose proof (sr_xpath_next_predicate_fuel NDEBUG xpath) as N.
    destruct (sr_xpath_next_predicate NDEBUG xpath) as [p| | | |] eqn:P; cbn [bind];
      try (split; [discriminate|intros; discriminate]); [|contradiction N; reflexivity].
    destruct p as [p|]; [|split; [destruct NDEBUG; discriminate|
                                  intros x H; destruct NDEBUG; discriminate H]].
    rewrite (sr_xpath_next_predicate_has_predicate _ _ _ P).
    destruct fuel; cbn [skip_preds]; (split; [discriminate|]);
      intros x H; injection H as <-; apply (sr_xpath_next_predicate_length _ _ _ P).
  - destruct fuel; cbn [skip_preds]; (split; [discriminate|]);
      intros x H; injection H as <-; apply Nat.le_refl.
Qed.

Lemma sr_xpath_next_name_fuel (NDEBUG : bool) (xpath : string) :
  sr_xpath_next_name NDEBUG xpath <> OutOfFuel.
Proof.
  unfold sr_xpath_next_name, c_assert. cbv zeta.
  destruct (if Ascii.eqb (ch (incr xpath)) "/" then _ else _) as [x d].
  destruct (next_name_scan x x None 0%Z) as [[[[ptr xpath0] modp] mod_len] hp].
  destruct NDEBUG; [discriminate|]. destruct (Ascii.eqb (ch xpath) "/"); discriminate.
Qed.

Lemma required_loop_fuel (NDEBUG : bool) (fuel : nat) :
  forall xpath1 xpath2,
    (String.length xpath1 < fuel)%nat ->
    required_loop NDEBUG fuel xpath1 xpath2 <> OutOfFuel.
Proof.
  induction fuel as [|fuel IH]; intros xpath1 xpath2 L; [lia|].
  cbn [required_loop].
  pose proof (sr_xpath_next_name_fuel NDEBUG xpath1) as N1.
  destruct (sr_xpath_next_name NDEBUG xpath1) as [n1| | | |] eqn:E1; cbn [bind];
    try discriminate; [|contradiction N1; reflexivity].
  pose proof (sr_xpath_next_name_fuel NDEBUG xpath2) as N2.
  destruct (sr_xpath_next_name NDEBUG xpath2) as [n2| | | |] eqn:E2; cbn [bind];
    try discriminate; [|contradiction N2; reflexivity].
  destruct (sr_xpath_next_name_length _ _ _ E1) as [L1 H1].
  destruct (sr_xpath_next_name_length _ _ _ E2) as [L2 H2].
  do 5 (match goal with
        | |- (if ?c then Val _ else _) <> _ => destruct c; [discriminate|]
        end).
  assert (F : nn_has_predicate n1 && nn_has_predicate n2 = true ->
              (1 <= String.length (nn_ret n1))%nat).
  { intro A. apply andb_prop in A. apply H1. apply A. }
  destruct (pred_pairs_spec NDEBUG _ (nn_ret n1) (nn_ret n2) _ _ F) as [PF PS].
  destruct (pred_pairs NDEBUG _ (nn_ret n1) (nn_ret n2) _ _)
    as [[[]|[[[x1 x2] h1] h2]]| | | |] eqn:PP; cbn [bind];
    try discriminate; [|contradiction PF; reflexivity].
  destruct (PS _ _ _ _ eq_refl) as [A1 A2].
  assert (F1 : h1 = true -> (1 <= String.length x1)%nat).
  { intro T. destruct A1 as [[-> ->]|[-> _]]; [apply H1; exact T|discriminate T]. }
  assert (F2 : h2 = true -> (1 <= String.length x2)%nat).
  { intro T. destruct A2 as [[-> ->]|[-> _]]; [apply H2; exact T|discriminate T]. }
  destruct (skip_preds_spec NDEBUG _ x1 h1 F1) as [SF1 SS1].
  destruct (skip_preds NDEBUG _ x1 h1) as [y1| | | |]; cbn [bind]; try discriminate;
    [|contradiction SF1; reflexivity].
  destruct (skip_preds_spec NDEBUG _ x2 h2 F2) as [SF2 SS2].
  destruct (skip_preds NDEBUG _ x2 h2) as [y2| | | |]; cbn [bind]; try discriminate;
    [|contradiction SF2; reflexivity].
  destruct (negb (Ascii.eqb (ch y1) NUL) && negb (Ascii.eqb (ch y2) NUL)) eqn:C;
    [|discriminate].
  apply IH.
  assert (B1 : (String.length x1 <= String.length (nn_ret n1))%nat).
  { destruct A1 as [[-> _]|[_ A1]]; [apply Nat.le_refl|exact A1]. }
  pose proof (SS1 y1 eq_refl) as B2.
  assert (B3 : (1 <= String.length y1)%nat).
  { destruct y1; [discriminate C|cbn [String.length]; lia]. }
  assert (B4 : (String.length (incr xpath1) < String.length xpath1)%nat).
  { apply incr_length_lt. pose proof (incr_length xpath1). lia. }
  lia.
Qed.

(** The static prune never runs out of the fuel that its model gives it. *)
Lemma sr_xpath_oper_data_required_fuel (NDEBUG : bool) (request_xpath : option string)
  (sub_xpath : string) :
  sr_xpath_oper_data_required NDEBUG request_xpath sub_xpath <> OutOfFuel.
Proof.
  unfold sr_xpath_oper_data_required. destruct request_xpath as [r|]; [|discriminate].
  apply required_loop_fuel. lia.
Qed.
End XPath.

(** ** File ownership and permissions ([sr_chmodown] of [common.c]) *)

Module Perm.

Local Open Scope Z_scope.

(** [errno] values of the platform (Linux). *)
Definition EPERM : Z := 1.
Definition ENOENT : Z := 2.
Definition EIO : Z := 5.
Definition EACCES : Z := 13.
Definition EROFS : Z := 30.

(** Result of a system call: 0, or -1 with [errno] set. *)
Inductive sys_result : Type :=
| SysOk
| SysFail (errno : Z).

(** [(int)perm] for a 32-bit [mode_t]. *)
Definition int_of_mode (perm : Z) : Z :=
  let p := perm mod 2 ^ 32 in
  if p <? 2 ^ 31 then p else p - 2 ^ 32.

(** The condition [(errno == EACCES) || (errno = EPERM)] as the code spells it:
    the right operand is an assignment, whose value is [EPERM].  Yields the
    truth value and [errno] after the evaluation. *)
Definition chmodown_errno_cond (errno : Z) : bool * Z :=
  if errno =? EACCES then (true, errno)
  else (negb (EPERM =? 0), EPERM).

Section Chmodown.

(** The calls into the system: user and group lookup, [chown], [chmod]. *)
Variable sr_get_pwd : string -> sr_error_t + Z.
Variable sr_get_grp : string -> sr_error_t + Z.
Variable chown : string -> Z -> Z -> sys_result.
Variable chmod : string -> Z -> sys_result.

(** What [sr_chmodown] hands back: the error code ([None] is success, NULL) and
    the [errno] that the error message prints. *)
Record chmodown_ret : Type := {
  cr_err : option sr_error_t;
  cr_errno : Z
}.

Definition sr_chmodown (path : string) (owner group : option string) (perm : Z) (errno0 : Z)
  : chmodown_ret :=
  if negb (int_of_mode perm =? -1) && (perm >? 511 (* 00777 *))
  then {| cr_err := Some SR_ERR_INVAL_ARG; cr_errno := errno0 |}
  else if negb (int_of_mode perm =? -1) && negb (Z.land perm 73 (* 00111 *) =? 0)
  then {| cr_err := Some SR_ERR_INVAL_ARG; cr_errno := errno0 |}
  else
    match (match owner with
           | Some o => sr_get_pwd o
           | None => inr (-1)
           end) with
    | inl e => {| cr_err := Some e; cr_errno := errno0 |}
    | inr uid =>
        match (match group with
               | Some g => sr_get_grp g
               | None => inr (-1)
               end) with
        | inl e => {| cr_err := Some e; cr_errno := errno0 |}
        | inr gid =>
            match chown path uid gid with
            | SysFail errno =>
                let '(c, errno) := chmodown_errno_cond errno in
                {| cr_err := Some (if c then SR_ERR_UNAUTHORIZED else SR_ERR_INTERNAL);
                   cr_errno := errno |}
            | SysOk =>
                if negb (int_of_mode perm =? -1)
                then
                  match chmod path perm with
                  | SysFail errno =>
                      let '(c, errno) := chmodown_errno_cond errno in
                      {| cr_err := Some (if c then SR_ERR_UNAUTHORIZED else SR_ERR_INTERNAL);
                         cr_errno := errno |}
                  | SysOk => {| cr_err := None; cr_errno := errno0 |}
                  end
                else {| cr_err := None; cr_errno := errno0 |}
            end
        end
    end.


(** The condition holds for every [errno]: its right operand is never 0. *)
Lemma chmodown_errno_cond_true (errno : Z) : fst (chmodown_errno_cond errno) = true.
Proof. unfold chmodown_errno_cond. destruct (errno =? EACCES); reflexivity. Qed.

(** Whatever [errno] a failed [chown] leaves, the error is UNAUTHORIZED. *)
Lemma sr_chmodown_chown_failure (path : string) (perm errno0 errno : Z) :
  int_of_mode perm = -1 ->
  chown path (-1) (-1) = SysFail errno ->
  cr_err (sr_chmodown path None None perm errno0) = Some SR_ERR_UNAUTHORIZED.
Proof.
  intros Hp Hc. unfold sr_chmodown. rewrite Hp. cbn. rewrite Hc.
  pose proof (chmodown_errno_cond_true errno) as T.
  destruct (chmodown_errno_cond errno) as [c e]. simpl in T. subst c. reflexivity.
Qed.

(** Whatever [errno] a failed [chmod] leaves, the error is UNAUTHORIZED. *)
Lemma sr_chmodown_chmod_failure (path : string) (perm errno0 errno : Z) :
  0 <= perm <= 511 -> Z.land perm 73 = 0 ->
  chown path (-1) (-1) = SysOk ->
  chmod path perm = SysFail errno ->
  cr_err (sr_chmodown path None None perm errno0) = Some SR_ERR_UNAUTHORIZED.
Proof.
  intros Hp Hx Hc Hm. unfold sr_chmodown.
  assert (E : (int_of_mode perm =? -1) = false).
  { apply Z.eqb_neq. unfold int_of_mode. rewrite Z.mod_small by lia.
    destruct (perm <? 2 ^ 31) eqn:L; [lia|]. apply Z.ltb_ge in L. lia. }
  rewrite E. cbn [negb andb].
  assert (G : (perm >? 511) = false) by (rewrite Z.gtb_ltb; apply Z.ltb_ge; lia).
  rewrite G, Hx. cbn. rewrite Hc, Hm.
  pose proof (chmodown_errno_cond_true errno) as T.
  destruct (chmodown_errno_cond errno) as [c e]. simpl in T. subst c. reflexivity.
Qed.

End Chmodown.

(** C9. [chown] fails with [ENOENT], [chmod] fails with [EIO]: neither is
    [EACCES] or [EPERM], and both calls of [sr_chmodown] return UNAUTHORIZED,
    with [errno] overwritten by [EPERM]; INTERNAL is never produced. *)
Theorem sr_chmodown_other_errno :
  sr_chmodown (fun _ => inl SR_ERR_NOT_FOUND) (fun _ => inl SR_ERR_NOT_FOUND)
    (fun _ _ _ => SysFail ENOENT) (fun _ _ => SysOk)
    "/etc/sysrepo/data/m.startup"%string None None (2 ^ 32 - 1) 0
  = {| cr_err := Some SR_ERR_UNAUTHORIZED; cr_errno := EPERM |}
  /\ sr_chmodown (fun _ => inl SR_ERR_NOT_FOUND) (fun _ => inl SR_ERR_NOT_FOUND)
       (fun _ _ _ => SysOk) (fun _ _ => SysFail EIO)
       "/etc/sysrepo/data/m.startup"%string None None 384 0
     = {| cr_err := Some SR_ERR_UNAUTHORIZED; cr_errno := EPERM |}
  /\ (forall errno, fst (chmodown_errno_cond errno) = true).
Proof.
  split; [vm_compute; reflexivity|]. split; [vm_compute; reflexivity|].
  exact chmodown_errno_cond_true.
Qed.

End Perm.

(** ** Main SHM: module descriptors ([shm.h]) *)

Module Shm.

Local Open Scope Z_scope.

(** [sr_mod_dep_type_t]. *)
Inductive sr_mod_dep_type_t : Type :=
| SR_DEP_REF
| SR_DEP_INSTID.

(** [struct sr_mod_data_dep_s]; the offsets into ext SHM are replaced by the
    strings they point to. *)
Record sr_mod_data_dep_t : Type := {
  dep_type : sr_mod_dep_type_t;
  dep_module : string;
  dep_xpath : string
}.

(** [sr_mod_oper_sub_type_t]. *)
Inductive sr_mod_oper_sub_type_t : Type :=
| SR_OPER_SUB_NONE
| SR_OPER_SUB_STATE
| SR_OPER_SUB_CONFIG
| SR_OPER_SUB_MIXED.

(** [sr_mod_oper_sub_t]; of [opts] only the bit [SR_SUBSCR_OPER_MERGE] is read. *)
Record sr_mod_oper_sub_t : Type := {
  os_xpath : string;
  os_sub_type : sr_mod_oper_sub_type_t;
  os_opts_oper_merge : bool;
  os_evpipe_num : Z
}.

(** [sr_mod_notif_sub_t]. *)
Record sr_mod_notif_sub_t : Type := {
  ns_sub_id : Z;
  ns_evpipe_num : Z;
  ns_suspended : bool
}.

Definition SR_MOD_REPLAY_SUPPORT : Z := 1.

(** [struct sr_mod_s]: the fields that the modelled functions read or write. *)
Record sr_mod_t : Type := {
  name : string;
  ver : Z;                                  (* uint32_t *)
  flags : Z;                                (* uint8_t *)
  data_deps : list sr_mod_data_dep_t;
  inv_data_deps : list string;
  oper_subs : list sr_mod_oper_sub_t;
  notif_subs : list sr_mod_notif_sub_t
}.

(** Main SHM is the array of descriptors; a [sr_mod_t *] is the index of the
    descriptor, so that pointer order is index order. *)
Definition main_shm : Type := list sr_mod_t.

Fixpoint find_module_from (shm : main_shm) (mod_name : string) (off : nat) : option nat :=
  match shm with
  | [] => None
  | d :: shm' =>
      if String.eqb (name d) mod_name then Some off
      else find_module_from shm' mod_name (S off)
  end.

(** Modelled from the spec: [sr_shmmain_find_module] is declared in [shm.h] but
    its body is not part of the sources at hand; the design document describes
    it as a linear scan of the Main SHM descriptors by module name.  NULL is
    [None]. *)
Definition sr_shmmain_find_module (shm : main_shm) (mod_name : string) : option nat :=
  find_module_from shm mod_name 0.

End Shm.

(** ** The module-info set ([modinfo.c]): closure, permission gate, ordering *)

Module ModInfo.

Local Open Scope Z_scope.

(** Modelled from the spec: the state bits of [common.h] (not part of the
    sources at hand).  The design document orders the three kinds
    REQ > INV_DEP > DEP; the code compares them numerically and combines them
    with [|], so they are distinct bits in that order, below the DATA and
    CHANGED bits. *)
Definition MOD_INFO_DEP : Z := 1.
Definition MOD_INFO_INV_DEP : Z := 2.
Definition MOD_INFO_REQ : Z := 4.
Definition MOD_INFO_TYPE_MASK : Z := 7.
Definition MOD_INFO_DATA : Z := 8.
Definition MOD_INFO_CHANGED : Z := 16.

(** Modelled from the spec: [SR_YANG_MOD], the name of the internal module
    (a macro of [common.h]). *)
Definition SR_YANG_MOD : string := "sysrepo".

(** [struct sr_mod_info_mod_s].  [ly_mod] stands for the [struct lys_module *]:
    a context holds at most one implemented module of a name, so that pointer
    equality on implemented modules is equality of names. *)
Record sr_mod_info_mod_s : Type := {
  shm_mod : nat;
  ly_mod : string;
  state : Z
}.

(** [struct sr_mod_info_s]: [data] is kept as the fact of being non-NULL, and
    [mod_count] is the length of [mods]. *)
Record sr_mod_info_s : Type := {
  ds : sr_datastore_t;
  ds2 : sr_datastore_t;
  data : bool;
  data_cached : bool;
  mods : list sr_mod_info_mod_s
}.

Definition set_mods (mi : sr_mod_info_s) (l : list sr_mod_info_mod_s) : sr_mod_info_s :=
  {| ds := ds mi; ds2 := ds2 mi; data := data mi; data_cached := data_cached mi; mods := l |}.

Definition set_data_cached (mi : sr_mod_info_s) (b : bool) : sr_mod_info_s :=
  {| ds := ds mi; ds2 := ds2 mi; data := data mi; data_cached := b; mods := mods mi |}.

Definition set_state (m : sr_mod_info_mod_s) (s : Z) : sr_mod_info_mod_s :=
  {| shm_mod := shm_mod m; ly_mod := ly_mod m; state := s |}.

(** Modelled from the spec: [SR_MODINFO_INIT] (a macro of [common.h]) starts an
    operation with an empty set for the two datastores. *)
Definition SR_MODINFO_INIT (ds1 ds2' : sr_datastore_t) : sr_mod_info_s :=
  {| ds := ds1; ds2 := ds2'; data := false; data_cached := false; mods := [] |}.

(** [mods[i] = f(mods[i])]. *)
Fixpoint upd_nth {A : Type} (i : nat) (f : A -> A) (l : list A) : list A :=
  match l, i with
  | [], _ => []
  | x :: l', O => f x :: l'
  | x :: l', S i' => x :: upd_nth i' f l'
  end.

(** [memmove(&mods[i], &mods[i + 1], ...)] after [--mod_count]. *)
Fixpoint remove_nth {A : Type} (i : nat) (l : list A) : list A :=
  match l, i with
  | [], _ => []
  | _ :: l', O => l'
  | x :: l', S i' => x :: remove_nth i' l'
  end.

(** A module of the libyang context. *)
Record lys_module : Type := {
  ly_name : string;
  implemented : bool
}.

Definition ly_ctx_get_module_implemented (ly_ctx : list lys_module) (mod_name : string)
  : option string :=
  match find (fun m => implemented m && String.eqb (ly_name m) mod_name) ly_ctx with
  | Some m => Some (ly_name m)
  | None => None
  end.

(** The first loop of [sr_modinfo_add_mod].  Its index is a [uint16_t]
    against the [uint32_t] [mod_count]: a set is taken to hold fewer than 2^16
    entries, as many as a context has modules at most, so that the index does
    not wrap. *)
Inductive add_mod_lookup : Type :=
| AlreadyThere                         (* present, kind not weaker: return NULL *)
| Weaker (i : nat) (prev_mod_type : Z) (* present at [i] with a weaker kind: break *)
| NotThere (i : nat).                  (* loop ran to [mod_count] *)

Fixpoint add_mod_find (l : list sr_mod_info_mod_s) (lm : string) (mod_type : Z) (i : nat)
  : add_mod_lookup :=
  match l with
  | [] => NotThere i
  | m :: l' =>
      if String.eqb (ly_mod m) lm then
        if Z.land (state m) MOD_INFO_TYPE_MASK <? mod_type then Weaker i (state m)
        else AlreadyThere
      else add_mod_find l' lm mod_type (S i)
  end.

Definition state_at (mi : sr_mod_info_s) (i : nat) : Z :=
  match nth_error (mods mi) i with
  | Some m => state m
  | None => 0
  end.

Section Closure.

Variable shm : Shm.main_shm.
Variable ly_ctx : list lys_module.

Definition descriptor (p : nat) : option Shm.sr_mod_t := nth_error shm p.

(** The body of [sr_modinfo_add_mod]; [self] is the function itself, for the
    two recursive calls. *)
Section AddModBody.

Variable self : string -> Z -> Z -> sr_mod_info_s -> outcome sr_mod_info_s.

(** [for (i = 0; i < shm_mod->data_dep_count; ++i)]. *)
Definition add_mod_data_deps (d : Shm.sr_mod_t) (mod_req_deps : Z) (mod_info : sr_mod_info_s)
  : outcome sr_mod_info_s :=
  fold_outcome
    (fun dep mod_info =>
       match Shm.dep_type dep with
       | Shm.SR_DEP_INSTID => Val mod_info
       | Shm.SR_DEP_REF =>
           match ly_ctx_get_module_implemented ly_ctx (Shm.dep_module dep) with
           | None => Err SR_ERR_INTERNAL
           | Some lm' => self lm' MOD_INFO_DEP mod_req_deps mod_info
           end
       end)
    (Shm.data_deps d) mod_info.

(** [for (i = 0; i < shm_mod->inv_data_dep_count; ++i)]. *)
Definition add_mod_inv_data_deps (d : Shm.sr_mod_t) (mod_req_deps : Z)
  (mod_info : sr_mod_info_s) : outcome sr_mod_info_s :=
  fold_outcome
    (fun inv mod_info =>
       match ly_ctx_get_module_implemented ly_ctx inv with
       | None => Err SR_ERR_INTERNAL
       | Some lm' => self lm' MOD_INFO_INV_DEP mod_req_deps mod_info
       end)
    (Shm.inv_data_deps d) mod_info.

(** From [if (!(mod_req_deps & MOD_INFO_DEP) || ...)] to the end. *)
Definition add_mod_follow (d : Shm.sr_mod_t) (cur_i : nat) (prev_mod_type mod_req_deps : Z)
  (mod_info : sr_mod_info_s) : outcome sr_mod_info_s :=
  if (Z.land mod_req_deps MOD_INFO_DEP =? 0)
     || (state_at mod_info cur_i <? MOD_INFO_INV_DEP) then Val mod_info
  else
    mod_info <-
      (if prev_mod_type <? MOD_INFO_INV_DEP
       then add_mod_data_deps d mod_req_deps mod_info
       else Val mod_info) ;;
    if (Z.land mod_req_deps MOD_INFO_INV_DEP =? 0)
       || (state_at mod_info cur_i <? MOD_INFO_REQ) then Val mod_info
    else if prev_mod_type <? MOD_INFO_REQ
         then add_mod_inv_data_deps d mod_req_deps mod_info
         else Val mod_info.

(** [if (prev_mod_type < MOD_INFO_DEP)]: add the entry at [cur_i].  When the
    module was found in the set, [cur_i] is its index and the array grows by an
    element that is never written. *)
Definition add_mod_append (p : nat) (lm : string) (mod_type : Z) (cur_i : nat)
  (prev_mod_type : Z) (mod_info : sr_mod_info_s) : outcome sr_mod_info_s :=
  if prev_mod_type <? MOD_INFO_DEP then
    if Nat.eqb cur_i (List.length (mods mod_info)) then
      Val (set_mods mod_info
             (mods mod_info ++ [{| shm_mod := p; ly_mod := lm; state := mod_type |}]))
    else Fault
  else Val mod_info.

(** From [shm_mod = sr_shmmain_find_module(...)] to the end. *)
Definition add_mod_found (lm : string) (mod_type mod_req_deps : Z) (cur_i : nat)
  (prev_mod_type : Z) (mod_info : sr_mod_info_s) : outcome sr_mod_info_s :=
  match Shm.sr_shmmain_find_module shm lm with
  | None => Err SR_ERR_INTERNAL
  | Some p =>
      match descriptor p with
      | None => Fault
      | Some d =>
          mod_info <- add_mod_append p lm mod_type cur_i prev_mod_type mod_info ;;
          add_mod_follow d cur_i prev_mod_type mod_req_deps mod_info
      end
  end.

Definition add_mod_body (lm : string) (mod_type mod_req_deps : Z) (mod_info : sr_mod_info_s)
  : outcome sr_mod_info_s :=
  if negb ((mod_type =? MOD_INFO_REQ) || (mod_type =? MOD_INFO_DEP)
           || (mod_type =? MOD_INFO_INV_DEP)) then AssertFail
  else if negb ((mod_req_deps =? 0) || (mod_req_deps =? MOD_INFO_DEP)
                || (mod_req_deps =? Z.lor MOD_INFO_DEP MOD_INFO_INV_DEP)) then AssertFail
  else
    match add_mod_find (mods mod_info) lm mod_type 0 with
    | AlreadyThere => Val mod_info
    | Weaker i prev =>
        add_mod_found lm mod_type mod_req_deps i prev
          (set_mods mod_info (upd_nth i (fun m => set_state m mod_type) (mods mod_info)))
    | NotThere i => add_mod_found lm mod_type mod_req_deps i 0 mod_info
    end.

End AddModBody.

(** [sr_modinfo_add_mod]; [fuel] bounds the depth of the recursion through
    the dependencies. *)
Fixpoint sr_modinfo_add_mod (fuel : nat) (lm : string) (mod_type mod_req_deps : Z)
  (mod_info : sr_mod_info_s) : outcome sr_mod_info_s :=
  match fuel with
  | O => OutOfFuel
  | S fuel' => add_mod_body (sr_modinfo_add_mod fuel') lm mod_type mod_req_deps mod_info
  end.

(** [sr_modinfo_qsort_cmp]. *)
Definition sr_modinfo_qsort_cmp (mod1 mod2 : sr_mod_info_mod_s) : Z :=
  if (shm_mod mod2 <? shm_mod mod1)%nat then 1
  else if (shm_mod mod1 <? shm_mod mod2)%nat then -1
  else 0.

(** [qsort] of the C library, as an insertion sort driven by the comparator
    (the comparator never answers 0 on two entries of a set without repeated
    descriptors, so every sorting algorithm gives the same array). *)
Fixpoint qsort_insert {A : Type} (cmp : A -> A -> Z) (x : A) (l : list A) : list A :=
  match l with
  | [] => [x]
  | y :: l' => if cmp x y <=? 0 then x :: l else y :: qsort_insert cmp x l'
  end.

Fixpoint qsort {A : Type} (cmp : A -> A -> Z) (l : list A) : list A :=
  match l with
  | [] => []
  | x :: l' => qsort_insert cmp x (qsort cmp l')
  end.

(** *** Permission gate *)

Definition W_OK : Z := 2.
Definition R_OK : Z := 4.

(** Configuration ([SR_STARTUP_PATH], repository path) and the system call. *)
Variable SR_STARTUP_PATH : string.
Variable repo_path : string.
Variable eaccess : string -> Z -> Perm.sys_result.

Definition sr_path_startup_file (mod_name : string) : string :=
  match SR_STARTUP_PATH with
  | String _ _ => SR_STARTUP_PATH ++ "/" ++ mod_name ++ ".startup"
  | EmptyString => repo_path ++ "/data/" ++ mod_name ++ ".startup"
  end.

(** [sr_perm_check]; [has_access] tells whether the out pointer is non-NULL,
    the value is what is written through it.  [SR_ERRINFO_SYSERRNO] builds an
    error of code SYS. *)
Definition sr_perm_check (mod_name : string) (wr : bool) (has_access : bool)
  : outcome (option bool) :=
  let path := sr_path_startup_file mod_name in
  match eaccess path (if wr then W_OK else R_OK) with
  | Perm.SysFail errno =>
      if errno =? Perm.EACCES then
        if has_access then Val (Some false) else Err SR_ERR_UNAUTHORIZED
      else Err SR_ERR_SYS
  | Perm.SysOk => if has_access then Val (Some true) else Val None
  end.

(** The [while (i < mod_info->mod_count)] loop of [sr_modinfo_perm_check]. *)
Fixpoint perm_check_loop (fuel : nat) (wr strict : bool) (i : nat)
  (l : list sr_mod_info_mod_s) : outcome (list sr_mod_info_mod_s) :=
  match fuel with
  | O => OutOfFuel
  | S fuel' =>
      match nth_error l i with
      | None => Val l
      | Some m =>
          if negb (Z.land (state m) (Z.lor MOD_INFO_REQ MOD_INFO_CHANGED) =? 0) then
            r <- sr_perm_check (ly_mod m) wr (negb strict) ;;
            if negb strict && negb (match r with Some b => b | None => true end)
            then perm_check_loop fuel' wr strict i (remove_nth i l)
            else perm_check_loop fuel' wr strict (S i) l
          else perm_check_loop fuel' wr strict (S i) l
      end
  end.

Definition sr_modinfo_perm_check (mod_info : sr_mod_info_s) (wr strict : bool)
  : outcome sr_mod_info_s :=
  if negb (negb (data mod_info) || strict) then AssertFail
  else
    l <- perm_check_loop (S (List.length (mods mod_info))) wr strict 0 (mods mod_info) ;;
    Val (set_mods mod_info l).

(** *** Assembling the set *)

(** [mi_opts]: the [SR_MI_*] bits, each read on its own by the code. *)
Record mi_opts_t : Type := {
  SR_MI_MOD_DEPS : bool;
  SR_MI_LOCK_UPGRADEABLE : bool;
  SR_MI_DATA_CACHE : bool;
  SR_MI_DATA_NO : bool;
  SR_MI_PERM_NO : bool;
  SR_MI_PERM_READ : bool;
  SR_MI_PERM_WRITE : bool;
  SR_MI_PERM_STRICT : bool
}.

Inductive sr_lock_mode_t : Type :=
| SR_LOCK_NONE
| SR_LOCK_READ
| SR_LOCK_WRITE.

(** Module locking ([shm_mod.c]), the cache lock, and the loader of one
    module's data are taken as given: each yields its [err_info] (NULL is
    [None]); the loader also receives and yields the callback error that is
    handed around by pointer. *)
Variable sr_shmmod_modinfo_rdlock : sr_mod_info_s -> bool -> option sr_error_t.
Variable sr_shmmod_modinfo_wrlock : sr_mod_info_s -> option sr_error_t.
Variable conn_cache_running : bool.
Variable cache_read_lock : option sr_error_t.
Variable sr_modinfo_module_data_load :
  sr_mod_info_s -> sr_mod_info_mod_s -> option sr_error_t -> option sr_error_t * option sr_error_t.

(** The [for] loop of [sr_modinfo_data_load]: [done] are the entries already
    visited, [todo] the remaining ones. *)
Fixpoint data_load_loop (mod_info : sr_mod_info_s) (done todo : list sr_mod_info_mod_s)
  (cb_error_info : option sr_error_t)
  : outcome (list sr_mod_info_mod_s * option sr_error_t) :=
  match todo with
  | [] => Val (done, cb_error_info)
  | m :: todo' =>
      if negb (Z.land (state m) MOD_INFO_DATA =? 0)
      then data_load_loop mod_info (done ++ [m]) todo' cb_error_info
      else
        match sr_modinfo_module_data_load
                (set_mods mod_info (done ++ m :: todo')) m cb_error_info with
        | (Some e, _) => Err e
        | (None, cb) =>
            data_load_loop mod_info
              (done ++ [set_state m (Z.lor (state m) MOD_INFO_DATA)]) todo' cb
        end
  end.

Definition sr_modinfo_data_load (mod_info : sr_mod_info_s) (cache : bool)
  (cb_error_info : option sr_error_t) : outcome (sr_mod_info_s * option sr_error_t) :=
  mod_info <-
    (if negb (data_cached mod_info) && cache && conn_cache_running
        && ds_eqb (ds mod_info) SR_DS_RUNNING
     then match cache_read_lock with
          | Some e => Err e
          | None => Val (set_data_cached mod_info true)
          end
     else Val mod_info) ;;
  r <- data_load_loop mod_info [] (mods mod_info) cb_error_info ;;
  Val (set_mods mod_info (fst r), snd r).

(** [load all modules data]: the last block of [sr_modinfo_add_modules].  A
    callback error that the loading left behind is returned with the code
    [SR_ERR_CALLBACK_FAILED]. *)
Definition load_modules_data (mod_info : sr_mod_info_s) (mi_opts : mi_opts_t)
  : outcome sr_mod_info_s :=
  if negb (SR_MI_DATA_NO mi_opts) then
    r <- sr_modinfo_data_load mod_info (SR_MI_DATA_CACHE mi_opts) None ;;
    match snd r with
    | Some _ => Err SR_ERR_CALLBACK_FAILED
    | None => Val (fst r)
    end
  else Val mod_info.

(** [sr_modinfo_add_modules].  [sid], [request_xpath], [timeout_ms] and
    [get_opts] are only handed on to the loader. *)
Definition sr_modinfo_add_modules (fuel : nat) (mod_info : sr_mod_info_s)
  (mod_set : list string) (mod_deps : Z) (mod_lock : sr_lock_mode_t) (mi_opts : mi_opts_t)
  : outcome sr_mod_info_s :=
  if negb (SR_MI_PERM_NO mi_opts || SR_MI_PERM_READ mi_opts || SR_MI_PERM_WRITE mi_opts)
  then AssertFail
  else
    let mod_type := if SR_MI_MOD_DEPS mi_opts then MOD_INFO_DEP else MOD_INFO_REQ in
    let prev_mod_count := List.length (mods mod_info) in
    mod_info <-
      (match mod_set with
       | _ :: _ =>
           fold_outcome
             (fun lm mod_info => sr_modinfo_add_mod fuel lm mod_type mod_deps mod_info)
             mod_set mod_info
       | [] =>
           fold_outcome
             (fun m mod_info =>
                if negb (implemented m) || String.eqb (ly_name m) SR_YANG_MOD then Val mod_info
                else sr_modinfo_add_mod fuel (ly_name m) mod_type 0 mod_info)
             ly_ctx mod_info
       end) ;;
    if Nat.eqb prev_mod_count (List.length (mods mod_info)) then Val mod_info
    else
      mod_info <-
        (if negb (SR_MI_PERM_NO mi_opts)
         then sr_modinfo_perm_check mod_info (SR_MI_PERM_WRITE mi_opts) (SR_MI_PERM_STRICT mi_opts)
         else Val mod_info) ;;
      let mod_info := set_mods mod_info (qsort sr_modinfo_qsort_cmp (mods mod_info)) in
      match (match mod_lock with
             | SR_LOCK_NONE => None
             | SR_LOCK_READ =>
                 sr_shmmod_modinfo_rdlock mod_info (SR_MI_LOCK_UPGRADEABLE mi_opts)
             | SR_LOCK_WRITE => sr_shmmod_modinfo_wrlock mod_info
             end) with
      | Some e => Err e
      | None => load_modules_data mod_info mi_opts
      end.


(** *** The registry lookup *)

Lemma find_module_from_spec (shm0 : Shm.main_shm) (n : string) (off p : nat) :
  Shm.find_module_from shm0 n off = Some p ->
  (off <= p)%nat /\ exists d, nth_error shm0 (p - off) = Some d /\ Shm.name d = n.
Proof.
  revert off. induction shm0 as [|d shm0 IH]; simpl; intros off H; [discriminate|].
  destruct (String.eqb (Shm.name d) n) eqn:E.
  - inversion H; subst. split; [lia|]. exists d. rewrite Nat.sub_diag.
    split; [reflexivity|]. now apply String.eqb_eq.
  - apply IH in H. destruct H as [Hle [d' [Hn Hd]]]. split; [lia|].
    exists d'. split; [|exact Hd].
    replace (p - off)%nat with (S (p - S off)) by lia. exact Hn.
Qed.

Lemma find_module_descriptor (n : string) (p : nat) :
  Shm.sr_shmmain_find_module shm n = Some p ->
  exists d, descriptor p = Some d /\ Shm.name d = n.
Proof.
  unfold Shm.sr_shmmain_find_module, descriptor. intro H.
  apply find_module_from_spec in H. destruct H as [_ [d [Hn Hd]]].
  rewrite Nat.sub_0_r in Hn. now exists d.
Qed.

(** Two names that resolve to one descriptor are the same name. *)
Lemma find_module_inj (n1 n2 : string) (p : nat) :
  Shm.sr_shmmain_find_module shm n1 = Some p ->
  Shm.sr_shmmain_find_module shm n2 = Some p -> n1 = n2.
Proof.
  intros H1 H2.
  apply find_module_descriptor in H1. apply find_module_descriptor in H2.
  destruct H1 as [d1 [E1 N1]]. destruct H2 as [d2 [E2 N2]].
  rewrite E1 in E2. inversion E2; subst. reflexivity.
Qed.

(** *** The invariant of the set *)

(** An entry is registered when its descriptor is the one the registry gives
    for its module. *)
Definition registered (m : sr_mod_info_mod_s) : Prop :=
  Shm.sr_shmmain_find_module shm (ly_mod m) = Some (shm_mod m).

(** No module twice, every entry registered. *)
Definition consistent (l : list sr_mod_info_mod_s) : Prop :=
  Forall registered l /\ NoDup (map ly_mod l).

(** Ascending descriptor addresses. *)
Definition ascending (l : list sr_mod_info_mod_s) : Prop :=
  StronglySorted lt (map shm_mod l).

Definition canonical (mod_info : sr_mod_info_s) : Prop :=
  consistent (mods mod_info) /\ ascending (mods mod_info).

Lemma consistent_nil : consistent [].
Proof. split; constructor. Qed.

Lemma consistent_NoDup_shm_mod (l : list sr_mod_info_mod_s) :
  consistent l -> NoDup (map shm_mod l).
Proof.
  intros [HF HN]. induction l as [|a l IH]; simpl; [constructor|].
  inversion HF as [|? ? Ha HF']; subst. simpl in HN.
  inversion HN as [|? ? Hnin HN']; subst.
  constructor; [|now apply IH].
  intro Hin. apply in_map_iff in Hin. destruct Hin as [m [Hm Hinm]].
  apply Hnin. apply in_map_iff. exists m. split; [|exact Hinm].
  rewrite Forall_forall in HF'. specialize (HF' m Hinm).
  unfold registered in *. rewrite <- Hm in Ha.
  exact (find_module_inj _ _ _ HF' Ha).
Qed.

Lemma consistent_Permutation (l l' : list sr_mod_info_mod_s) :
  Permutation l l' -> consistent l -> consistent l'.
Proof.
  intros HP [HF HN]. split.
  - rewrite Forall_forall in *. intros x Hx. apply HF.
    eapply Permutation_in; [apply Permutation_sym; exact HP | exact Hx].
  - eapply Permutation_NoDup; [apply Permutation_map; exact HP | exact HN].
Qed.

(** *** Array updates *)

Lemma map_upd_nth {A B : Type} (g : A -> B) (f : A -> A) (i : nat) (l : list A) :
  (forall x, g (f x) = g x) -> map g (upd_nth i f l) = map g l.
Proof.
  intro Hg. revert i. induction l as [|x l IH]; intros [|i]; simpl; try reflexivity.
  - now rewrite Hg.
  - now rewrite IH.
Qed.

Lemma length_upd_nth {A : Type} (f : A -> A) (i : nat) (l : list A) :
  List.length (upd_nth i f l) = List.length l.
Proof.
  revert i. induction l as [|x l IH]; intros [|i]; simpl; try reflexivity. now rewrite IH.
Qed.

Lemma nth_error_upd_nth_same {A : Type} (f : A -> A) (i : nat) (l : list A) (x : A) :
  nth_error l i = Some x -> nth_error (upd_nth i f l) i = Some (f x).
Proof.
  revert i. induction l as [|y l IH]; intros [|i]; simpl; intro H; try discriminate.
  - now inversion H.
  - now apply IH.
Qed.

Lemma nth_error_upd_nth_other {A : Type} (f : A -> A) (i j : nat) (l : list A) :
  i <> j -> nth_error (upd_nth i f l) j = nth_error l j.
Proof.
  revert i j. induction l as [|y l IH]; intros [|i] [|j] Hne; simpl; try reflexivity.
  - congruence.
  - apply IH. congruence.
Qed.

Lemma Forall_upd_nth {A : Type} (P : A -> Prop) (f : A -> A) (i : nat) (l : list A) :
  (forall x, P x -> P (f x)) -> Forall P l -> Forall P (upd_nth i f l).
Proof.
  intros Hf. revert i. induction l as [|x l IH]; intros [|i] H; simpl; try constructor;
    inversion H; subst; auto.
Qed.

Lemma In_remove_nth {A : Type} (i : nat) (l : list A) (x : A) :
  In x (remove_nth i l) -> In x l.
Proof.
  revert i. induction l as [|y l IH]; intros [|i]; simpl; auto.
  intros [H|H]; [now left | right; eapply IH; exact H].
Qed.

Lemma Forall_remove_nth {A : Type} (P : A -> Prop) (i : nat) (l : list A) :
  Forall P l -> Forall P (remove_nth i l).
Proof.
  rewrite !Forall_forall. intros H x Hx. apply H. eapply In_remove_nth; exact Hx.
Qed.

Lemma map_remove_nth {A B : Type} (g : A -> B) (i : nat) (l : list A) :
  map g (remove_nth i l) = remove_nth i (map g l).
Proof.
  revert i. induction l as [|y l IH]; intros [|i]; simpl; try reflexivity. now rewrite IH.
Qed.

Lemma NoDup_remove_nth {A : Type} (i : nat) (l : list A) :
  NoDup l -> NoDup (remove_nth i l).
Proof.
  revert i. induction l as [|y l IH]; intros [|i] H; simpl; auto.
  - now inversion H.
  - inversion H; subst. constructor; [|now apply IH].
    intro Hin. apply In_remove_nth in Hin. contradiction.
Qed.

Lemma StronglySorted_remove_nth {A : Type} (R : A -> A -> Prop) (i : nat) (l : list A) :
  StronglySorted R l -> StronglySorted R (remove_nth i l).
Proof.
  revert i. induction l as [|y l IH]; intros [|i] H; simpl; auto.
  - now inversion H.
  - inversion H; subst. constructor; [now apply IH|].
    now apply Forall_remove_nth.
Qed.

Lemma length_remove_nth {A : Type} (i : nat) (l : list A) (x : A) :
  nth_error l i = Some x -> S (List.length (remove_nth i l)) = List.length l.
Proof.
  revert i. induction l as [|y l IH]; intros [|i]; simpl; intro H; try discriminate.
  - reflexivity.
  - f_equal. now apply IH.
Qed.

(** *** The lookup loop of [sr_modinfo_add_mod] *)

Lemma add_mod_find_NotThere (l : list sr_mod_info_mod_s) (lm : string) (mt : Z) (i j : nat) :
  add_mod_find l lm mt i = NotThere j ->
  j = (i + List.length l)%nat /\ ~ In lm (map ly_mod l).
Proof.
  revert i. induction l as [|m l IH]; simpl; intros i H.
  - inversion H; subst. split; [lia | intros []].
  - destruct (String.eqb (ly_mod m) lm) eqn:E.
    + destruct (Z.land (state m) MOD_INFO_TYPE_MASK <? mt); discriminate.
    + apply IH in H. destruct H as [Hj Hn]. split; [lia|].
      intros [Hin|Hin]; [|contradiction]. apply String.eqb_neq in E. contradiction.
Qed.

Lemma add_mod_find_Weaker (l : list sr_mod_info_mod_s) (lm : string) (mt : Z)
  (i j : nat) (prev : Z) :
  add_mod_find l lm mt i = Weaker j prev ->
  (i <= j)%nat /\
  exists m, nth_error l (j - i) = Some m /\ ly_mod m = lm /\ state m = prev
            /\ Z.land prev MOD_INFO_TYPE_MASK < mt
            /\ ~ In lm (map ly_mod (firstn (j - i) l)).
Proof.
  revert i. induction l as [|m l IH]; simpl; intros i H; [discriminate|].
  destruct (String.eqb (ly_mod m) lm) eqn:E.
  - destruct (Z.land (state m) MOD_INFO_TYPE_MASK <? mt) eqn:L; [|discriminate].
    inversion H; subst. split; [lia|]. exists m. rewrite Nat.sub_diag. simpl.
    split; [reflexivity|]. split; [now apply String.eqb_eq|]. split; [reflexivity|].
    split; [now apply Z.ltb_lt | intros []].
  - apply IH in H. destruct H as [Hle [m' [Hn [Hl [Hs [Hlt Hfirst]]]]]]. split; [lia|].
    exists m'. replace (j - i)%nat with (S (j - S i)) by lia. simpl.
    repeat split; auto.
    intros [Hin|Hin]; [|contradiction]. apply String.eqb_neq in E. contradiction.
Qed.

Lemma add_mod_find_AlreadyThere (l : list sr_mod_info_mod_s) (lm : string) (mt : Z) (i : nat) :
  add_mod_find l lm mt i = AlreadyThere ->
  exists k m, nth_error l k = Some m /\ ly_mod m = lm
              /\ mt <= Z.land (state m) MOD_INFO_TYPE_MASK
              /\ ~ In lm (map ly_mod (firstn k l)).
Proof.
  revert i. induction l as [|m l IH]; simpl; intros i H; [discriminate|].
  destruct (String.eqb (ly_mod m) lm) eqn:E.
  - destruct (Z.land (state m) MOD_INFO_TYPE_MASK <? mt) eqn:L; [discriminate|].
    exists O, m. simpl. split; [reflexivity|]. split; [now apply String.eqb_eq|].
    split; [now apply Z.ltb_ge | intros []].
  - apply IH in H. destruct H as [k [m' [Hn [Hl [Hs Hfirst]]]]].
    exists (S k), m'. simpl. repeat split; auto.
    intros [Hin|Hin]; [|contradiction]. apply String.eqb_neq in E. contradiction.
Qed.

(** *** [sr_modinfo_add_mod] keeps the invariant and only appends *)

(** [mi'] has the entries of [mi] with their descriptors, then new ones. *)
Definition keeps (mi mi' : sr_mod_info_s) : Prop :=
  consistent (mods mi) ->
  consistent (mods mi')
  /\ exists extra, map shm_mod (mods mi') = map shm_mod (mods mi) ++ extra.

Lemma keeps_refl (mi : sr_mod_info_s) : keeps mi mi.
Proof. intro H. split; [exact H|]. exists []. now rewrite app_nil_r. Qed.

Lemma keeps_trans (a b c : sr_mod_info_s) : keeps a b -> keeps b c -> keeps a c.
Proof.
  intros Hab Hbc Ha. destruct (Hab Ha) as [Hb [e1 E1]]. destruct (Hbc Hb) as [Hc [e2 E2]].
  split; [exact Hc|]. exists (e1 ++ e2). now rewrite E2, E1, app_assoc.
Qed.

Section BodyKeeps.

Variable self : string -> Z -> Z -> sr_mod_info_s -> outcome sr_mod_info_s.
Hypothesis self_keeps :
  forall lm mt req mi mi', self lm mt req mi = Val mi' -> keeps mi mi'.

Lemma add_mod_data_deps_keeps (d : Shm.sr_mod_t) (req : Z) (mi mi' : sr_mod_info_s) :
  add_mod_data_deps self d req mi = Val mi' -> keeps mi mi'.
Proof using self_keeps.
  unfold add_mod_data_deps. apply fold_outcome_rel.
  - apply keeps_refl.
  - apply keeps_trans.
  - intros dep s s' _. destruct (Shm.dep_type dep).
    + destruct (ly_ctx_get_module_implemented ly_ctx (Shm.dep_module dep)); [|discriminate].
      apply self_keeps.
    + intro H. inversion H; subst. apply keeps_refl.
Qed.

Lemma add_mod_inv_data_deps_keeps (d : Shm.sr_mod_t) (req : Z) (mi mi' : sr_mod_info_s) :
  add_mod_inv_data_deps self d req mi = Val mi' -> keeps mi mi'.
Proof using self_keeps.
  unfold add_mod_inv_data_deps. apply fold_outcome_rel.
  - apply keeps_refl.
  - apply keeps_trans.
  - intros inv s s' _.
    destruct (ly_ctx_get_module_implemented ly_ctx inv); [|discriminate].
    apply self_keeps.
Qed.

Lemma add_mod_follow_keeps (d : Shm.sr_mod_t) (cur_i : nat) (prev req : Z)
  (mi mi' : sr_mod_info_s) :
  add_mod_follow self d cur_i prev req mi = Val mi' -> keeps mi mi'.
Proof using self_keeps.
  unfold add_mod_follow.
  destruct ((Z.land req MOD_INFO_DEP =? 0) || (state_at mi cur_i <? MOD_INFO_INV_DEP)).
  { intro H. inversion H; subst. apply keeps_refl. }
  destruct (prev <? MOD_INFO_INV_DEP).
  - destruct (add_mod_data_deps self d req mi) as [mi1| | | |] eqn:E; simpl; try discriminate.
    apply add_mod_data_deps_keeps in E.
    destruct ((Z.land req MOD_INFO_INV_DEP =? 0) || (state_at mi1 cur_i <? MOD_INFO_REQ)).
    { intro H. inversion H; subst. exact E. }
    destruct (prev <? MOD_INFO_REQ).
    + intro H. apply add_mod_inv_data_deps_keeps in H. eapply keeps_trans; eauto.
    + intro H. inversion H; subst. exact E.
  - simpl.
    destruct ((Z.land req MOD_INFO_INV_DEP =? 0) || (state_at mi cur_i <? MOD_INFO_REQ)).
    { intro H. inversion H; subst. apply keeps_refl. }
    destruct (prev <? MOD_INFO_REQ).
    + apply add_mod_inv_data_deps_keeps.
    + intro H. inversion H; subst. apply keeps_refl.
Qed.

Lemma add_mod_append_keeps (p : nat) (lm : string) (mt : Z) (cur_i : nat) (prev : Z)
  (mi mi' : sr_mod_info_s) :
  Shm.sr_shmmain_find_module shm lm = Some p ->
  (cur_i = List.length (mods mi) -> ~ In lm (map ly_mod (mods mi))) ->
  add_mod_append p lm mt cur_i prev mi = Val mi' -> keeps mi mi'.
Proof.
  intros Hp Hnew. unfold add_mod_append.
  destruct (prev <? MOD_INFO_DEP).
  - destruct (Nat.eqb cur_i (List.length (mods mi))) eqn:E; [|discriminate].
    apply Nat.eqb_eq in E. specialize (Hnew E).
    intro H. inversion H; subst. clear H. intros [HF HN]. simpl. split.
    + split.
      * apply Forall_app. split; [exact HF|]. constructor; [exact Hp | constructor].
      * rewrite map_app. simpl. apply NoDup_app; [exact HN | | ].
        -- constructor; [intros [] | constructor].
        -- intros a Ha [Hb|[]]. subst. contradiction.
    + exists [p]. now rewrite map_app.
  - intro H. inversion H; subst. apply keeps_refl.
Qed.

Lemma add_mod_found_keeps (lm : string) (mt req : Z) (cur_i : nat) (prev : Z)
  (mi mi' : sr_mod_info_s) :
  (cur_i = List.length (mods mi) -> ~ In lm (map ly_mod (mods mi))) ->
  add_mod_found self lm mt req cur_i prev mi = Val mi' -> keeps mi mi'.
Proof using self_keeps.
  intros Hnew. unfold add_mod_found.
  destruct (Shm.sr_shmmain_find_module shm lm) as [p|] eqn:Hp; [|discriminate].
  destruct (descriptor p) as [d|]; [|discriminate].
  destruct (add_mod_append p lm mt cur_i prev mi) as [mi1| | | |] eqn:E; simpl; try discriminate.
  intro H. eapply keeps_trans.
  - eapply add_mod_append_keeps; eauto.
  - eapply add_mod_follow_keeps; eauto.
Qed.

Lemma add_mod_body_keeps (lm : string) (mt req : Z) (mi mi' : sr_mod_info_s) :
  add_mod_body self lm mt req mi = Val mi' -> keeps mi mi'.
Proof using self_keeps.
  unfold add_mod_body.
  destruct (negb _); [discriminate|]. destruct (negb _); [discriminate|].
  destruct (add_mod_find (mods mi) lm mt 0) as [|i prev|i] eqn:F.
  - intro H. inversion H; subst. apply keeps_refl.
  - apply add_mod_find_Weaker in F. destruct F as [_ [m [Hn _]]].
    rewrite Nat.sub_0_r in Hn. intro H. eapply keeps_trans.
    2:{ eapply add_mod_found_keeps; [|exact H]. simpl. rewrite length_upd_nth.
        intro Hi. exfalso. assert (i < List.length (mods mi))%nat; [|lia].
        apply nth_error_Some. congruence. }
    intros [HF HN]. simpl. split.
    + split.
      * apply Forall_upd_nth; [|exact HF]. intros x Hx. exact Hx.
      * rewrite map_upd_nth; [exact HN | reflexivity].
    + exists []. rewrite app_nil_r. apply map_upd_nth. reflexivity.
  - apply add_mod_find_NotThere in F. destruct F as [_ Hn].
    apply add_mod_found_keeps. intros _. exact Hn.
Qed.

End BodyKeeps.

Lemma sr_modinfo_add_mod_keeps (fuel : nat) (lm : string) (mt req : Z)
  (mi mi' : sr_mod_info_s) :
  sr_modinfo_add_mod fuel lm mt req mi = Val mi' -> keeps mi mi'.
Proof.
  revert lm mt req mi mi'. induction fuel as [|fuel IH]; simpl; intros lm mt req mi mi' H.
  - discriminate.
  - eapply add_mod_body_keeps; [|exact H]. exact IH.
Qed.

(** *** The permission loop against its list form *)

Definition checked (m : sr_mod_info_mod_s) : bool :=
  negb (Z.land (state m) (Z.lor MOD_INFO_REQ MOD_INFO_CHANGED) =? 0).

(** The access test that the gate runs for an entry. *)
Definition access_test (wr : bool) (m : sr_mod_info_mod_s) : Perm.sys_result :=
  eaccess (sr_path_startup_file (ly_mod m)) (if wr then W_OK else R_OK).

Definition granted (wr : bool) (m : sr_mod_info_mod_s) : bool :=
  match access_test wr m with
  | Perm.SysOk => true
  | Perm.SysFail _ => false
  end.

Definition denied (wr : bool) (m : sr_mod_info_mod_s) : bool :=
  match access_test wr m with
  | Perm.SysOk => false
  | Perm.SysFail errno => errno =? Perm.EACCES
  end.

(** The gate as the design document words it: walk the entries in order; an
    entry in state REQ|CHANGED is tested; a denial fails the operation in
    strict mode and drops the entry otherwise. *)
Fixpoint perm_gate_spec (wr strict : bool) (l : list sr_mod_info_mod_s)
  : outcome (list sr_mod_info_mod_s) :=
  match l with
  | [] => Val []
  | m :: l' =>
      if checked m then
        match access_test wr m with
        | Perm.SysOk => l'' <- perm_gate_spec wr strict l' ;; Val (m :: l'')
        | Perm.SysFail errno =>
            if errno =? Perm.EACCES then
              if strict then Err SR_ERR_UNAUTHORIZED else perm_gate_spec wr strict l'
            else Err SR_ERR_SYS
        end
      else l'' <- perm_gate_spec wr strict l' ;; Val (m :: l'')
  end.

Lemma nth_error_app_here {A : Type} (pre l : list A) :
  nth_error (pre ++ l) (List.length pre) = nth_error l 0.
Proof. induction pre; simpl; auto. Qed.

Lemma remove_nth_app_here {A : Type} (pre l : list A) (x : A) :
  remove_nth (List.length pre) (pre ++ x :: l) = pre ++ l.
Proof. induction pre; simpl; auto. now rewrite IHpre. Qed.

Lemma bind_app_cons {A : Type} (o : outcome (list A)) (pre : list A) (m : A) :
  (l' <- o ;; Val ((pre ++ [m]) ++ l')) = (l <- (l'' <- o ;; Val (m :: l'')) ;; Val (pre ++ l)).
Proof. destruct o; simpl; try reflexivity. now rewrite <- app_assoc. Qed.

Lemma perm_check_loop_spec (wr strict : bool) (l : list sr_mod_info_mod_s) :
  forall (fuel : nat) (pre : list sr_mod_info_mod_s),
    (List.length l < fuel)%nat ->
    perm_check_loop fuel wr strict (List.length pre) (pre ++ l)
    = (l' <- perm_gate_spec wr strict l ;; Val (pre ++ l')).
Proof.
  induction l as [|m l IH]; intros fuel pre Hfuel.
  - destruct fuel as [|fuel]; [simpl in Hfuel; lia|]. cbn [perm_check_loop perm_gate_spec].
    rewrite nth_error_app_here. reflexivity.
  - destruct fuel as [|fuel]; [simpl in Hfuel; lia|]. simpl in Hfuel.
    assert (Hf : (List.length l < fuel)%nat) by lia.
    assert (Hkeep : perm_check_loop fuel wr strict (S (List.length pre)) (pre ++ m :: l)
                    = (l0 <- (l'' <- perm_gate_spec wr strict l ;; Val (m :: l'')) ;;
                       Val (pre ++ l0))).
    { specialize (IH fuel (pre ++ [m]) Hf).
      rewrite length_app in IH. simpl in IH. rewrite Nat.add_1_r in IH.
      rewrite <- app_assoc in IH. simpl in IH. rewrite IH. apply bind_app_cons. }
    cbn [perm_check_loop perm_gate_spec]. rewrite nth_error_app_here. cbn [nth_error].
    change (negb (Z.land (state m) (Z.lor MOD_INFO_REQ MOD_INFO_CHANGED) =? 0))
      with (checked m).
    destruct (checked m); [|exact Hkeep].
    unfold sr_perm_check.
    change (eaccess (sr_path_startup_file (ly_mod m)) (if wr then W_OK else R_OK))
      with (access_test wr m).
    destruct (access_test wr m) as [|errno].
    + destruct strict; cbn [negb bind andb]; exact Hkeep.
    + destruct (errno =? Perm.EACCES); [|reflexivity].
      destruct strict; cbn [negb bind andb]; [reflexivity|].
      rewrite remove_nth_app_here. apply IH. exact Hf.
Qed.

Lemma sr_modinfo_perm_check_spec (mi : sr_mod_info_s) (wr strict : bool) :
  negb (data mi) || strict = true ->
  sr_modinfo_perm_check mi wr strict
  = (l <- perm_gate_spec wr strict (mods mi) ;; Val (set_mods mi l)).
Proof.
  intro H. unfold sr_modinfo_perm_check. rewrite H. cbn [negb].
  pose proof (perm_check_loop_spec wr strict (mods mi) (S (List.length (mods mi))) []) as E.
  cbn [List.length app] in E. rewrite E by lia.
  destruct (perm_gate_spec wr strict (mods mi)); reflexivity.
Qed.

(** The entries that the gate keeps are entries of the input, in their order. *)
Inductive sublist {A : Type} : list A -> list A -> Prop :=
| sublist_nil : sublist [] []
| sublist_keep x l l' : sublist l l' -> sublist (x :: l) (x :: l')
| sublist_drop x l l' : sublist l l' -> sublist l (x :: l').

Lemma sublist_In {A : Type} (l l' : list A) (x : A) : sublist l l' -> In x l -> In x l'.
Proof.
  intro Hs. induction Hs as [|y l l' Hs IH|y l l' Hs IH]; simpl; intro Hin; auto.
  destruct Hin as [Hin|Hin]; auto.
Qed.

Lemma sublist_Forall {A : Type} (P : A -> Prop) (l l' : list A) :
  sublist l l' -> Forall P l' -> Forall P l.
Proof.
  intros Hs. rewrite !Forall_forall. intros H x Hx. apply H. eapply sublist_In; eauto.
Qed.

Lemma sublist_map {A B : Type} (f : A -> B) (l l' : list A) :
  sublist l l' -> sublist (map f l) (map f l').
Proof. induction 1; simpl; constructor; auto. Qed.

Lemma sublist_NoDup {A : Type} (l l' : list A) : sublist l l' -> NoDup l' -> NoDup l.
Proof.
  intro Hs. induction Hs as [|x l l' Hs IH|x l l' Hs IH]; intro HN; auto.
  - inversion HN; subst. constructor; auto. intro Hin. eapply sublist_In in Hin; eauto.
  - inversion HN; subst. auto.
Qed.

Lemma sublist_StronglySorted {A : Type} (R : A -> A -> Prop) (l l' : list A) :
  sublist l l' -> StronglySorted R l' -> StronglySorted R l.
Proof.
  intro Hs. induction Hs as [|x l l' Hs IH|x l l' Hs IH]; intro HS; auto.
  - inversion HS; subst. constructor; auto. eapply sublist_Forall; eauto.
  - inversion HS; subst. auto.
Qed.

Lemma sublist_filter {A : Type} (f : A -> bool) (l : list A) : sublist (filter f l) l.
Proof. induction l; simpl; [constructor|]. destruct (f a); constructor; auto. Qed.

Lemma perm_gate_spec_sublist (wr strict : bool) (l l' : list sr_mod_info_mod_s) :
  perm_gate_spec wr strict l = Val l' -> sublist l' l.
Proof.
  revert l'. induction l as [|m l IH]; simpl; intros l' H.
  - inversion H. constructor.
  - assert (Hkeep : (l'' <- perm_gate_spec wr strict l ;; Val (m :: l'')) = Val l' ->
                    sublist l' (m :: l)).
    { destruct (perm_gate_spec wr strict l); simpl; try discriminate.
      intro E. inversion E; subst. constructor. now apply IH. }
    destruct (checked m); [|auto].
    destruct (access_test wr m) as [|errno]; [auto|].
    destruct (errno =? Perm.EACCES); [|discriminate].
    destruct strict; [discriminate|]. constructor. now apply IH.
Qed.

Lemma sr_modinfo_perm_check_sublist (mi mi' : sr_mod_info_s) (wr strict : bool) :
  sr_modinfo_perm_check mi wr strict = Val mi' -> sublist (mods mi') (mods mi).
Proof.
  intro H. destruct (negb (data mi) || strict) eqn:E.
  - rewrite sr_modinfo_perm_check_spec in H by exact E.
    destruct (perm_gate_spec wr strict (mods mi)) eqn:G; simpl in H; try discriminate.
    inversion H; subst. simpl. eapply perm_gate_spec_sublist; eauto.
  - unfold sr_modinfo_perm_check in H. rewrite E in H. discriminate.
Qed.

Lemma consistent_sublist (l l' : list sr_mod_info_mod_s) :
  sublist l l' -> consistent l' -> consistent l.
Proof.
  intros Hs [HF HN]. split.
  - eapply sublist_Forall; eauto.
  - eapply sublist_NoDup; [apply sublist_map; exact Hs | exact HN].
Qed.

(** *** Sorting by descriptor address *)

Lemma qsort_insert_Permutation {A : Type} (cmp : A -> A -> Z) (x : A) (l : list A) :
  Permutation (qsort_insert cmp x l) (x :: l).
Proof.
  induction l as [|y l IH]; simpl; [apply Permutation_refl|].
  destruct (cmp x y <=? 0); [apply Permutation_refl|].
  eapply Permutation_trans; [apply perm_skip; exact IH | apply perm_swap].
Qed.

Lemma qsort_Permutation {A : Type} (cmp : A -> A -> Z) (l : list A) :
  Permutation (qsort cmp l) l.
Proof.
  induction l as [|x l IH]; simpl; [constructor|].
  eapply Permutation_trans; [apply qsort_insert_Permutation | now apply perm_skip].
Qed.

Lemma qsort_cmp_le (m1 m2 : sr_mod_info_mod_s) :
  (sr_modinfo_qsort_cmp m1 m2 <=? 0) = true <-> (shm_mod m1 <= shm_mod m2)%nat.
Proof.
  unfold sr_modinfo_qsort_cmp.
  destruct (shm_mod m2 <? shm_mod m1)%nat eqn:E1.
  - apply Nat.ltb_lt in E1. simpl. split; [discriminate | lia].
  - apply Nat.ltb_ge in E1.
    destruct (shm_mod m1 <? shm_mod m2)%nat; simpl; split; auto.
Qed.

Lemma qsort_insert_ascending (x : sr_mod_info_mod_s) (l : list sr_mod_info_mod_s) :
  ascending l -> ~ In (shm_mod x) (map shm_mod l) ->
  ascending (qsort_insert sr_modinfo_qsort_cmp x l).
Proof.
  unfold ascending. induction l as [|y l IH]; intros HS Hnin.
  - simpl. constructor; constructor.
  - cbn [qsort_insert]. simpl in HS. inversion HS as [|? ? HS' HF]; subst.
    destruct (sr_modinfo_qsort_cmp x y <=? 0) eqn:E.
    + apply qsort_cmp_le in E.
      assert (Hlt : (shm_mod x < shm_mod y)%nat).
      { assert (shm_mod x <> shm_mod y) by (intro C; apply Hnin; simpl; auto). lia. }
      simpl. constructor; [exact HS|]. constructor; [exact Hlt|].
      rewrite Forall_forall in *. intros z Hz. specialize (HF z Hz). lia.
    + assert (Hle : ~ (shm_mod x <= shm_mod y)%nat).
      { intro C. apply qsort_cmp_le in C. congruence. }
      simpl. constructor.
      * apply IH; [exact HS'|]. intro C. apply Hnin. simpl. auto.
      * assert (HP : Permutation (map shm_mod (qsort_insert sr_modinfo_qsort_cmp x l))
                                 (shm_mod x :: map shm_mod l)).
        { change (shm_mod x :: map shm_mod l) with (map shm_mod (x :: l)).
          apply Permutation_map. apply qsort_insert_Permutation. }
        eapply Permutation_Forall; [apply Permutation_sym; exact HP|].
        constructor; [lia | exact HF].
Qed.

Lemma qsort_ascending (l : list sr_mod_info_mod_s) :
  NoDup (map shm_mod l) -> ascending (qsort sr_modinfo_qsort_cmp l).
Proof.
  induction l as [|x l IH]; simpl; intro HN.
  - constructor.
  - inversion HN as [|? ? Hnin HN']; subst. apply qsort_insert_ascending; [now apply IH|].
    intro C. apply Hnin.
    eapply Permutation_in; [apply Permutation_map; apply qsort_Permutation | exact C].
Qed.

Lemma ascending_NoDup (l : list sr_mod_info_mod_s) : ascending l -> NoDup (map shm_mod l).
Proof.
  unfold ascending. induction (map shm_mod l) as [|a k IH]; intro H; [constructor|].
  inversion H as [|? ? HS HF]; subst. constructor; [|now apply IH].
  intro Hin. rewrite Forall_forall in HF. specialize (HF a Hin). lia.
Qed.

(** *** Loading data keeps the entries in place *)

Definition key (m : sr_mod_info_mod_s) : string * nat := (ly_mod m, shm_mod m).

Lemma consistent_of_keys (l l' : list sr_mod_info_mod_s) :
  map key l' = map key l -> consistent l -> consistent l'.
Proof.
  intros E [HF HN]. split.
  - revert l E HF HN. induction l' as [|a l' IH]; intros [|b l] E HF HN;
      try discriminate; constructor.
    + simpl in E. inversion E as [[E1 E2 E3]]. inversion HF; subst.
      unfold registered in *. now rewrite E1, E2.
    + simpl in E. inversion E. inversion HF; subst. inversion HN; subst.
      eapply IH; eauto.
  - assert (E' : map ly_mod l' = map ly_mod l).
    { change ly_mod with (fun m => fst (key m)).
      rewrite <- (map_map key fst l'), <- (map_map key fst l). now rewrite E. }
    now rewrite E'.
Qed.

Lemma keys_shm_mod (l l' : list sr_mod_info_mod_s) :
  map key l' = map key l -> map shm_mod l' = map shm_mod l.
Proof.
  intro E. change shm_mod with (fun m => snd (key m)).
  rewrite <- (map_map key snd l'), <- (map_map key snd l). now rewrite E.
Qed.

Lemma data_load_loop_keys (mi : sr_mod_info_s) (todo done l : list sr_mod_info_mod_s)
  (cb cb' : option sr_error_t) :
  data_load_loop mi done todo cb = Val (l, cb') -> map key l = map key (done ++ todo).
Proof.
  revert done cb. induction todo as [|m todo IH]; cbn [data_load_loop]; intros done cb H.
  - inversion H; subst. now rewrite app_nil_r.
  - destruct (negb (Z.land (state m) MOD_INFO_DATA =? 0)).
    + apply IH in H. rewrite H, <- app_assoc. reflexivity.
    + destruct (sr_modinfo_module_data_load _ m cb) as [[e|] cb1]; [discriminate|].
      apply IH in H. rewrite H, <- app_assoc, !map_app. reflexivity.
Qed.

Lemma sr_modinfo_data_load_keys (mi mi' : sr_mod_info_s) (cache : bool)
  (cb cb' : option sr_error_t) :
  sr_modinfo_data_load mi cache cb = Val (mi', cb') ->
  map key (mods mi') = map key (mods mi).
Proof.
  unfold sr_modinfo_data_load.
  set (c := negb (data_cached mi) && cache && conn_cache_running && ds_eqb (ds mi) SR_DS_RUNNING).
  assert (Hmi : forall mi1 : sr_mod_info_s, mods mi1 = mods mi ->
            (r <- data_load_loop mi1 [] (mods mi1) cb ;; Val (set_mods mi1 (fst r), snd r))
            = Val (mi', cb') -> map key (mods mi') = map key (mods mi)).
  { intros mi1 E1. destruct (data_load_loop mi1 [] (mods mi1) cb) as [[l c1]| | | |] eqn:L;
      cbn [bind]; try discriminate.
    intro H. inversion H; subst. simpl. apply data_load_loop_keys in L.
    simpl in L. now rewrite L, E1. }
  destruct c.
  - destruct cache_read_lock; cbn [bind]; [discriminate|]. apply Hmi. reflexivity.
  - cbn [bind]. apply Hmi. reflexivity.
Qed.

(** *** Canonical order of the assembled set *)

Lemma add_mod_all_keeps (fuel : nat) (mt req : Z) (set : list string)
  (mi mi' : sr_mod_info_s) :
  fold_outcome (fun lm mi0 => sr_modinfo_add_mod fuel lm mt req mi0) set mi = Val mi' ->
  keeps mi mi'.
Proof.
  apply fold_outcome_rel.
  - apply keeps_refl.
  - apply keeps_trans.
  - intros lm s s' _. apply sr_modinfo_add_mod_keeps.
Qed.

Lemma add_mod_ctx_keeps (fuel : nat) (mt : Z) (mi mi' : sr_mod_info_s) :
  fold_outcome
    (fun m mi0 =>
       if negb (implemented m) || String.eqb (ly_name m) SR_YANG_MOD then Val mi0
       else sr_modinfo_add_mod fuel (ly_name m) mt 0 mi0) ly_ctx mi = Val mi' ->
  keeps mi mi'.
Proof.
  apply fold_outcome_rel.
  - apply keeps_refl.
  - apply keeps_trans.
  - intros m s s' _. destruct (negb (implemented m) || String.eqb (ly_name m) SR_YANG_MOD).
    + intro H. inversion H; subst. apply keeps_refl.
    + apply sr_modinfo_add_mod_keeps.
Qed.

Lemma canonical_init (ds1 ds2' : sr_datastore_t) : canonical (SR_MODINFO_INIT ds1 ds2').
Proof. split; [apply consistent_nil | constructor]. Qed.

(** Every successful call of [sr_modinfo_add_modules] that starts from a
    canonical set yields one. *)
Lemma sr_modinfo_add_modules_canonical
  (fuel : nat) (mod_info mod_info' : sr_mod_info_s) (mod_set : list string)
  (mod_deps : Z) (mod_lock : sr_lock_mode_t) (mi_opts : mi_opts_t) :
  canonical mod_info ->
  sr_modinfo_add_modules fuel mod_info mod_set mod_deps mod_lock mi_opts = Val mod_info' ->
  canonical mod_info'
  /\ StronglySorted lt (map shm_mod (mods mod_info'))
  /\ NoDup (map shm_mod (mods mod_info')).
Proof.
  revert mod_info mod_info'. intros mi mi' [Hc Ha] H.
  assert (Hgoal : canonical mi' -> canonical mi'
            /\ StronglySorted lt (map shm_mod (mods mi')) /\ NoDup (map shm_mod (mods mi'))).
  { intros [Hc' Ha']. split; [split; assumption|]. split; [exact Ha' | now apply ascending_NoDup]. }
  apply Hgoal. clear Hgoal.
  unfold sr_modinfo_add_modules in H.
  destruct (negb _); [discriminate|].
  set (mt := if SR_MI_MOD_DEPS mi_opts then MOD_INFO_DEP else MOD_INFO_REQ) in H.
  match type of H with (bind ?o _) = _ => destruct o as [mi1| | | |] eqn:E1 end;
    cbn [bind] in H; try discriminate.
  assert (K1 : keeps mi mi1).
  { destruct mod_set as [|lm0 set0].
    - eapply add_mod_ctx_keeps; exact E1.
    - eapply add_mod_all_keeps; exact E1. }
  destruct (K1 Hc) as [Hc1 [extra Hex]].
  destruct (Nat.eqb (List.length (mods mi)) (List.length (mods mi1))) eqn:EL.
  { inversion H; subst. split; [exact Hc1|]. unfold ascending.
    apply Nat.eqb_eq in EL.
    assert (extra = []).
    { apply (f_equal (@List.length nat)) in Hex.
      rewrite length_app, !length_map in Hex.
      destruct extra; [reflexivity | simpl in Hex; lia]. }
    subst extra. rewrite app_nil_r in Hex. rewrite Hex. exact Ha. }
  match type of H with (bind ?o _) = _ => destruct o as [mi2| | | |] eqn:E2 end;
    cbn [bind] in H; try discriminate.
  assert (Hc2 : consistent (mods mi2)).
  { destruct (negb (SR_MI_PERM_NO mi_opts)).
    - apply sr_modinfo_perm_check_sublist in E2. eapply consistent_sublist; eauto.
    - inversion E2; subst. exact Hc1. }
  set (mi3 := set_mods mi2 (qsort sr_modinfo_qsort_cmp (mods mi2))) in H.
  assert (Hc3 : canonical mi3).
  { split; simpl.
    - eapply consistent_Permutation; [apply Permutation_sym; apply qsort_Permutation | exact Hc2].
    - apply qsort_ascending. now apply consistent_NoDup_shm_mod. }
  match type of H with (match ?o with _ => _ end) = _ => destruct o end; [discriminate|].
  unfold load_modules_data in H.
  destruct (negb (SR_MI_DATA_NO mi_opts)).
  - match type of H with (bind ?o _) = _ => destruct o as [[mi4 cb]| | | |] eqn:E4 end;
      cbn [bind] in H; try discriminate.
    simpl in H. destruct cb; [discriminate|]. inversion H; subst.
    apply sr_modinfo_data_load_keys in E4. destruct Hc3 as [Hc3 Ha3]. split.
    + eapply consistent_of_keys; eauto.
    + unfold ascending. rewrite (keys_shm_mod _ _ E4). exact Ha3.
  - inversion H; subst. exact Hc3.
Qed.

(** *** The permission gate *)

Lemma checked_iff (m : sr_mod_info_mod_s) :
  checked m = true <->
  Z.land (state m) MOD_INFO_REQ <> 0 \/ Z.land (state m) MOD_INFO_CHANGED <> 0.
Proof.
  unfold checked. rewrite negb_true_iff, Z.eqb_neq, Z.land_lor_distr_r, Z.lor_eq_0_iff.
  split.
  - intro H. destruct (Z.eq_dec (Z.land (state m) MOD_INFO_REQ) 0) as [E|E]; [|now left].
    right. intro C. apply H. now split.
  - intros [H|H] [C1 C2]; contradiction.
Qed.

Lemma perm_gate_strict_denial (wr : bool) (pre post : list sr_mod_info_mod_s)
  (m : sr_mod_info_mod_s) :
  (forall x, In x pre -> checked x = true -> granted wr x = true) ->
  checked m = true -> denied wr m = true ->
  perm_gate_spec wr true (pre ++ m :: post) = Err SR_ERR_UNAUTHORIZED.
Proof.
  intros Hpre Hc Hd. induction pre as [|x pre IH]; cbn [app perm_gate_spec].
  - rewrite Hc. unfold denied in Hd. destruct (access_test wr m); [discriminate|].
    now rewrite Hd.
  - rewrite IH by (intros y Hy; apply Hpre; now right).
    destruct (checked x) eqn:Cx; [|reflexivity].
    specialize (Hpre x (or_introl eq_refl) Cx). unfold granted in Hpre.
    destruct (access_test wr x); [reflexivity | discriminate].
Qed.

Lemma perm_gate_strict_val (wr : bool) (l l' : list sr_mod_info_mod_s) :
  perm_gate_spec wr true l = Val l' ->
  l' = l /\ forall x, In x l -> checked x = true -> granted wr x = true.
Proof.
  revert l'. induction l as [|m l IH]; cbn [perm_gate_spec]; intros l' H.
  - inversion H. split; [reflexivity | intros x []].
  - assert (Hkeep : (l'' <- perm_gate_spec wr true l ;; Val (m :: l'')) = Val l' ->
                    l' = m :: l /\ forall x, In x l -> checked x = true -> granted wr x = true).
    { destruct (perm_gate_spec wr true l) as [l1| | | |]; cbn [bind]; try discriminate.
      intro E. inversion E; subst. destruct (IH l1 eq_refl) as [E1 HG]. subst.
      split; [reflexivity | exact HG]. }
    destruct (checked m) eqn:Cm.
    + destruct (access_test wr m) as [|errno] eqn:Am.
      * destruct (Hkeep H) as [E HG]. split; [exact E|].
        intros x [Hx|Hx] Cx; [|now apply HG]. subst x. unfold granted. now rewrite Am.
      * destruct (errno =? Perm.EACCES); discriminate.
    + destruct (Hkeep H) as [E HG]. split; [exact E|].
      intros x [Hx|Hx] Cx; [|now apply HG]. subst x. congruence.
Qed.

Lemma perm_gate_lenient_filter (wr : bool) (l : list sr_mod_info_mod_s) :
  (forall x, In x l -> checked x = true -> granted wr x = true \/ denied wr x = true) ->
  perm_gate_spec wr false l = Val (filter (fun m => negb (checked m && denied wr m)) l).
Proof.
  induction l as [|m l IH]; cbn [perm_gate_spec filter]; intro H; [reflexivity|].
  rewrite IH by (intros x Hx; apply H; now right). cbn [bind].
  destruct (checked m) eqn:Cm; cbn [andb negb]; [|reflexivity].
  specialize (H m (or_introl eq_refl) Cm). unfold granted, denied in *.
  destruct (access_test wr m) as [|errno]; [reflexivity|].
  destruct H as [H|H]; [discriminate|]. now rewrite H.
Qed.

Lemma set_mods_same (mi : sr_mod_info_s) : set_mods mi (mods mi) = mi.
Proof. destruct mi; reflexivity. Qed.

(** C7. [sr_modinfo_perm_check] asserts that the set holds no data unless the
    mode is strict.  It walks the entries in order and tests, for each entry
    whose state has REQ or CHANGED, the effective access ([eaccess] with [W_OK]
    for write, [R_OK] for read) to the startup file of the module.  In strict
    mode a denial met by the walk fails the whole operation with UNAUTHORIZED,
    and a success leaves the set as it was; in the other mode every denied
    entry is removed and the others stay in their order. *)
Theorem sr_modinfo_perm_check_gate (mod_info : sr_mod_info_s) (wr : bool) :
  (data mod_info = true -> sr_modinfo_perm_check mod_info wr false = AssertFail)
  /\ (forall m, checked m = true <->
                Z.land (state m) MOD_INFO_REQ <> 0 \/ Z.land (state m) MOD_INFO_CHANGED <> 0)
  /\ (forall m, access_test wr m
                = eaccess (sr_path_startup_file (ly_mod m)) (if wr then W_OK else R_OK))
  /\ (forall strict, data mod_info = false \/ strict = true ->
        sr_modinfo_perm_check mod_info wr strict
        = (l <- perm_gate_spec wr strict (mods mod_info) ;; Val (set_mods mod_info l)))
  /\ (forall pre m post,
        mods mod_info = pre ++ m :: post ->
        (forall x, In x pre -> checked x = true -> granted wr x = true) ->
        checked m = true -> denied wr m = true ->
        sr_modinfo_perm_check mod_info wr true = Err SR_ERR_UNAUTHORIZED)
  /\ (forall mod_info',
        sr_modinfo_perm_check mod_info wr true = Val mod_info' ->
        mod_info' = mod_info
        /\ forall x, In x (mods mod_info) -> checked x = true -> granted wr x = true)
  /\ (data mod_info = false ->
      (forall x, In x (mods mod_info) -> checked x = true ->
                 granted wr x = true \/ denied wr x = true) ->
      sr_modinfo_perm_check mod_info wr false
      = Val (set_mods mod_info
               (filter (fun m => negb (checked m && denied wr m)) (mods mod_info)))).
Proof.
  assert (Hstrict : sr_modinfo_perm_check mod_info wr true
            = (l <- perm_gate_spec wr true (mods mod_info) ;; Val (set_mods mod_info l))).
  { apply sr_modinfo_perm_check_spec. apply orb_true_r. }
  split; [|split; [|split; [|split; [|split; [|split]]]]].
  - intro Hd. unfold sr_modinfo_perm_check. now rewrite Hd.
  - exact checked_iff.
  - reflexivity.
  - intros strict [Hd|Hs]; apply sr_modinfo_perm_check_spec.
    + now rewrite Hd.
    + rewrite Hs. apply orb_true_r.
  - intros pre m post E Hpre Hc Hd. rewrite Hstrict, E.
    now rewrite perm_gate_strict_denial.
  - intros mi' H. rewrite Hstrict in H.
    destruct (perm_gate_spec wr true (mods mod_info)) as [l| | | |] eqn:G;
      cbn [bind] in H; try discriminate.
    apply perm_gate_strict_val in G. destruct G as [El HG]. subst l.
    rewrite set_mods_same in H. inversion H; subst. split; [reflexivity | exact HG].
  - intros Hd HA. rewrite sr_modinfo_perm_check_spec by now rewrite Hd.
    now rewrite perm_gate_lenient_filter.
Qed.

(** *** The closure rules of [sr_modinfo_add_mod] *)

Definition valid_mod_type (mt : Z) : Prop :=
  mt = MOD_INFO_DEP \/ mt = MOD_INFO_INV_DEP \/ mt = MOD_INFO_REQ.

Definition valid_req_deps (req : Z) : Prop :=
  req = 0 \/ req = MOD_INFO_DEP \/ req = Z.lor MOD_INFO_DEP MOD_INFO_INV_DEP.

Lemma valid_mod_type_assert (mt : Z) :
  valid_mod_type mt ->
  negb ((mt =? MOD_INFO_REQ) || (mt =? MOD_INFO_DEP) || (mt =? MOD_INFO_INV_DEP)) = false.
Proof. intros [H|[H|H]]; subst; reflexivity. Qed.

Lemma valid_req_deps_assert (req : Z) :
  valid_req_deps req ->
  negb ((req =? 0) || (req =? MOD_INFO_DEP)
        || (req =? Z.lor MOD_INFO_DEP MOD_INFO_INV_DEP)) = false.
Proof. intros [H|[H|H]]; subst; reflexivity. Qed.

Lemma valid_mod_type_mask (mt : Z) :
  valid_mod_type mt -> Z.land mt MOD_INFO_TYPE_MASK = mt.
Proof. intros [H|[H|H]]; subst; reflexivity. Qed.

(** The entry of a module in the set: the first one that names it. *)
Definition lookup_mod (lm : string) (l : list sr_mod_info_mod_s) : option sr_mod_info_mod_s :=
  find (fun m => String.eqb (ly_mod m) lm) l.

Lemma add_mod_find_lookup (l : list sr_mod_info_mod_s) (lm : string) (mt : Z) (i : nat) :
  match lookup_mod lm l with
  | None => add_mod_find l lm mt i = NotThere (i + List.length l)
  | Some m =>
      if Z.land (state m) MOD_INFO_TYPE_MASK <? mt
      then exists j, add_mod_find l lm mt i = Weaker (i + j) (state m)
                     /\ nth_error l j = Some m
      else add_mod_find l lm mt i = AlreadyThere
  end.
Proof.
  revert i. induction l as [|a l IH]; intro i; cbn [lookup_mod find add_mod_find].
  - now rewrite Nat.add_0_r.
  - destruct (String.eqb (ly_mod a) lm).
    + destruct (Z.land (state a) MOD_INFO_TYPE_MASK <? mt); [|reflexivity].
      exists O. now rewrite Nat.add_0_r.
    + specialize (IH (S i)). unfold lookup_mod in IH.
      destruct (find (fun m => String.eqb (ly_mod m) lm) l) as [m|].
      * destruct (Z.land (state m) MOD_INFO_TYPE_MASK <? mt); [|exact IH].
        destruct IH as [j [E N]]. exists (S j). split; [|exact N].
        rewrite E. f_equal. lia.
      * rewrite IH. f_equal. simpl. lia.
Qed.

Lemma state_at_upd (mi : sr_mod_info_s) (i : nat) (m : sr_mod_info_mod_s) (mt : Z) :
  nth_error (mods mi) i = Some m ->
  state_at (set_mods mi (upd_nth i (fun x => set_state x mt) (mods mi))) i = mt.
Proof.
  intro H. unfold state_at. simpl.
  now rewrite (nth_error_upd_nth_same _ _ _ _ H).
Qed.

Lemma state_at_append (mi : sr_mod_info_s) (x : sr_mod_info_mod_s) :
  state_at (set_mods mi (mods mi ++ [x])) (List.length (mods mi)) = state x.
Proof.
  unfold state_at. simpl. rewrite nth_error_app2 by lia. now rewrite Nat.sub_diag.
Qed.

(** An entry whose kind is INV_DEP or REQ is left alone by every call that
    adds a module as DEP or INV_DEP, and so by all recursive calls. *)
Definition untouched (j : nat) (m : sr_mod_info_mod_s) (mi mi' : sr_mod_info_s) : Prop :=
  nth_error (mods mi) j = Some m -> nth_error (mods mi') j = Some m.

Lemma untouched_refl (j : nat) (m : sr_mod_info_mod_s) (mi : sr_mod_info_s) :
  untouched j m mi mi.
Proof. intro H. exact H. Qed.

Lemma untouched_trans (j : nat) (m : sr_mod_info_mod_s) (a b c : sr_mod_info_s) :
  untouched j m a b -> untouched j m b c -> untouched j m a c.
Proof. unfold untouched. auto. Qed.

Section BodyUntouched.

Variable self : string -> Z -> Z -> sr_mod_info_s -> outcome sr_mod_info_s.
Variable j : nat.
Variable m : sr_mod_info_mod_s.
Hypothesis m_kind : MOD_INFO_INV_DEP <= Z.land (state m) MOD_INFO_TYPE_MASK.
Hypothesis self_untouched :
  forall lm mt req mi mi', mt <= MOD_INFO_INV_DEP ->
    self lm mt req mi = Val mi' -> untouched j m mi mi'.

Lemma add_mod_follow_untouched (d : Shm.sr_mod_t) (cur_i : nat) (prev req : Z)
  (mi mi' : sr_mod_info_s) :
  add_mod_follow self d cur_i prev req mi = Val mi' -> untouched j m mi mi'.
Proof using self_untouched.
  assert (HD : forall a b, add_mod_data_deps self d req a = Val b -> untouched j m a b).
  { intros a b. unfold add_mod_data_deps. apply fold_outcome_rel.
    - apply untouched_refl.
    - apply untouched_trans.
    - intros dep s s' _. destruct (Shm.dep_type dep).
      + destruct (ly_ctx_get_module_implemented ly_ctx (Shm.dep_module dep)); [|discriminate].
        apply self_untouched. unfold MOD_INFO_DEP, MOD_INFO_INV_DEP. lia.
      + intro H. inversion H; subst. apply untouched_refl. }
  assert (HI : forall a b, add_mod_inv_data_deps self d req a = Val b -> untouched j m a b).
  { intros a b. unfold add_mod_inv_data_deps. apply fold_outcome_rel.
    - apply untouched_refl.
    - apply untouched_trans.
    - intros inv s s' _.
      destruct (ly_ctx_get_module_implemented ly_ctx inv); [|discriminate].
      apply self_untouched. lia. }
  unfold add_mod_follow.
  destruct ((Z.land req MOD_INFO_DEP =? 0) || (state_at mi cur_i <? MOD_INFO_INV_DEP)).
  { intro H. inversion H; subst. apply untouched_refl. }
  assert (HT : forall mi1, untouched j m mi mi1 ->
            (if (Z.land req MOD_INFO_INV_DEP =? 0) || (state_at mi1 cur_i <? MOD_INFO_REQ)
             then Val mi1
             else if prev <? MOD_INFO_REQ then add_mod_inv_data_deps self d req mi1
                  else Val mi1) = Val mi' -> untouched j m mi mi').
  { intros mi1 U.
    destruct ((Z.land req MOD_INFO_INV_DEP =? 0) || (state_at mi1 cur_i <? MOD_INFO_REQ)).
    { intro H. inversion H; subst. exact U. }
    destruct (prev <? MOD_INFO_REQ).
    - intro H. apply HI in H. eapply untouched_trans; eauto.
    - intro H. inversion H; subst. exact U. }
  destruct (prev <? MOD_INFO_INV_DEP).
  - destruct (add_mod_data_deps self d req mi) as [mi1| | | |] eqn:E; cbn [bind];
      try discriminate.
    apply HT. now apply HD.
  - cbn [bind]. apply HT. apply untouched_refl.
Qed.

Lemma add_mod_append_untouched (p : nat) (lm : string) (mt : Z) (cur_i : nat) (prev : Z)
  (mi mi' : sr_mod_info_s) :
  add_mod_append p lm mt cur_i prev mi = Val mi' -> untouched j m mi mi'.
Proof.
  unfold add_mod_append. destruct (prev <? MOD_INFO_DEP).
  - destruct (Nat.eqb cur_i (List.length (mods mi))); [|discriminate].
    intro H. inversion H; subst. intro N. simpl.
    rewrite nth_error_app1; [exact N|]. apply nth_error_Some. congruence.
  - intro H. inversion H; subst. apply untouched_refl.
Qed.

Lemma add_mod_found_untouched (lm : string) (mt req : Z) (cur_i : nat) (prev : Z)
  (mi mi' : sr_mod_info_s) :
  add_mod_found self lm mt req cur_i prev mi = Val mi' -> untouched j m mi mi'.
Proof using self_untouched.
  unfold add_mod_found.
  destruct (Shm.sr_shmmain_find_module shm lm) as [p|]; [|discriminate].
  destruct (descriptor p) as [d|]; [|discriminate].
  destruct (add_mod_append p lm mt cur_i prev mi) as [mi1| | | |] eqn:E; cbn [bind];
    try discriminate.
  intro H. eapply untouched_trans.
  - eapply add_mod_append_untouched; eauto.
  - eapply add_mod_follow_untouched; eauto.
Qed.

Lemma add_mod_body_untouched (lm : string) (mt req : Z) (mi mi' : sr_mod_info_s) :
  mt <= MOD_INFO_INV_DEP ->
  add_mod_body self lm mt req mi = Val mi' -> untouched j m mi mi'.
Proof using m_kind self_untouched.
  intro Hmt. unfold add_mod_body.
  destruct (negb _); [discriminate|]. destruct (negb _); [discriminate|].
  destruct (add_mod_find (mods mi) lm mt 0) as [|i prev|i] eqn:F.
  - intro H. inversion H; subst. apply untouched_refl.
  - intro H. apply add_mod_found_untouched in H.
    apply add_mod_find_Weaker in F. destruct F as [_ [x [Hn [_ [Hs [Hlt _]]]]]].
    rewrite Nat.sub_0_r in Hn. intro N. apply H. simpl.
    rewrite nth_error_upd_nth_other; [exact N|].
    intro C. subst i. rewrite Hn in N. inversion N; subst. lia.
  - apply add_mod_found_untouched.
Qed.

End BodyUntouched.

Lemma sr_modinfo_add_mod_untouched (fuel : nat) (j : nat) (m : sr_mod_info_mod_s)
  (lm : string) (mt req : Z) (mi mi' : sr_mod_info_s) :
  MOD_INFO_INV_DEP <= Z.land (state m) MOD_INFO_TYPE_MASK ->
  mt <= MOD_INFO_INV_DEP ->
  sr_modinfo_add_mod fuel lm mt req mi = Val mi' -> untouched j m mi mi'.
Proof.
  intro Hm. revert lm mt req mi mi'.
  induction fuel as [|fuel IH]; cbn [sr_modinfo_add_mod]; intros lm mt req mi mi' Hmt H.
  - discriminate.
  - eapply add_mod_body_untouched; eauto.
Qed.

Lemma add_mod_noop (fuel : nat) (lm : string) (mt req : Z) (mi : sr_mod_info_s)
  (m : sr_mod_info_mod_s) :
  valid_mod_type mt -> valid_req_deps req ->
  lookup_mod lm (mods mi) = Some m ->
  mt <= Z.land (state m) MOD_INFO_TYPE_MASK ->
  sr_modinfo_add_mod (S fuel) lm mt req mi = Val mi.
Proof.
  intros Hmt Hreq Hl Hk. cbn [sr_modinfo_add_mod]. unfold add_mod_body.
  rewrite (valid_mod_type_assert _ Hmt), (valid_req_deps_assert _ Hreq).
  pose proof (add_mod_find_lookup (mods mi) lm mt 0) as F. rewrite Hl in F.
  apply Z.ltb_ge in Hk. rewrite Hk in F. now rewrite F.
Qed.

Lemma add_mod_follow_entry (fuel : nat) (d : Shm.sr_mod_t) (cur_i : nat) (prev req mt : Z)
  (x : sr_mod_info_mod_s) (mi mi' : sr_mod_info_s) :
  valid_mod_type mt -> state x = mt ->
  nth_error (mods mi) cur_i = Some x ->
  add_mod_follow (sr_modinfo_add_mod fuel) d cur_i prev req mi = Val mi' ->
  nth_error (mods mi') cur_i = Some x.
Proof.
  intros Hmt Hs Hn H.
  destruct (Z.eq_dec mt MOD_INFO_DEP) as [E|E].
  - unfold add_mod_follow in H. unfold state_at in H. rewrite Hn, Hs, E in H.
    rewrite orb_true_r in H. inversion H; subst. exact Hn.
  - assert (Hk : MOD_INFO_INV_DEP <= Z.land (state x) MOD_INFO_TYPE_MASK).
    { rewrite Hs, (valid_mod_type_mask _ Hmt).
      destruct Hmt as [C|[C|C]]; [contradiction | |]; subst; unfold MOD_INFO_INV_DEP, MOD_INFO_REQ; lia. }
    refine (add_mod_follow_untouched (sr_modinfo_add_mod fuel) cur_i x _ d cur_i prev req
              mi mi' H Hn).
    intros lm' t r a b Ht Ha. eapply sr_modinfo_add_mod_untouched; eauto.
Qed.

Lemma add_mod_upgrade (fuel : nat) (lm : string) (mt req : Z) (mi mi' : sr_mod_info_s)
  (m : sr_mod_info_mod_s) :
  valid_mod_type mt ->
  lookup_mod lm (mods mi) = Some m ->
  Z.land (state m) MOD_INFO_TYPE_MASK < mt ->
  sr_modinfo_add_mod fuel lm mt req mi = Val mi' ->
  exists i, nth_error (mods mi) i = Some m
            /\ nth_error (mods mi') i = Some (set_state m mt).
Proof.
  intros Hmt Hl Hk H. destruct fuel as [|fuel]; [discriminate|].
  cbn [sr_modinfo_add_mod] in H. unfold add_mod_body in H.
  destruct (negb _); [discriminate|]. destruct (negb _); [discriminate|].
  pose proof (add_mod_find_lookup (mods mi) lm mt 0) as F. rewrite Hl in F.
  apply Z.ltb_lt in Hk. rewrite Hk in F. destruct F as [i [F N]]. simpl in F.
  rewrite F in H. exists i. split; [exact N|].
  unfold add_mod_found in H.
  destruct (Shm.sr_shmmain_find_module shm lm) as [p|]; [|discriminate].
  destruct (descriptor p) as [d|]; [|discriminate].
  set (mi0 := set_mods mi (upd_nth i (fun x => set_state x mt) (mods mi))) in *.
  assert (N0 : nth_error (mods mi0) i = Some (set_state m mt)).
  { exact (nth_error_upd_nth_same (fun x => set_state x mt) i (mods mi) m N). }
  destruct (add_mod_append p lm mt i (state m) mi0) as [mi1| | | |] eqn:A; cbn [bind] in H;
    try discriminate.
  assert (mi1 = mi0).
  { unfold add_mod_append in A. destruct (state m <? MOD_INFO_DEP).
    - destruct (Nat.eqb i (List.length (mods mi0))) eqn:EL; [|discriminate].
      apply Nat.eqb_eq in EL. exfalso.
      assert (i < List.length (mods mi0))%nat by (apply nth_error_Some; congruence). lia.
    - now inversion A. }
  subst mi1.
  eapply add_mod_follow_entry; eauto.
Qed.

Lemma add_mod_new (fuel : nat) (lm : string) (mt req : Z) (mi mi' : sr_mod_info_s) :
  valid_mod_type mt ->
  lookup_mod lm (mods mi) = None ->
  sr_modinfo_add_mod fuel lm mt req mi = Val mi' ->
  exists p, Shm.sr_shmmain_find_module shm lm = Some p
            /\ nth_error (mods mi') (List.length (mods mi))
               = Some {| shm_mod := p; ly_mod := lm; state := mt |}.
Proof.
  intros Hmt Hl H. destruct fuel as [|fuel]; [discriminate|].
  cbn [sr_modinfo_add_mod] in H. unfold add_mod_body in H.
  destruct (negb _); [discriminate|]. destruct (negb _); [discriminate|].
  pose proof (add_mod_find_lookup (mods mi) lm mt 0) as F. rewrite Hl in F.
  simpl in F. rewrite F in H.
  unfold add_mod_found in H.
  destruct (Shm.sr_shmmain_find_module shm lm) as [p|]; [|discriminate].
  destruct (descriptor p) as [d|]; [|discriminate].
  exists p. split; [reflexivity|].
  unfold add_mod_append in H. change (0 <? MOD_INFO_DEP) with true in H.
  rewrite Nat.eqb_refl in H. cbn [bind] in H.
  refine (add_mod_follow_entry fuel d _ 0 req mt _ _ mi' Hmt _ _ H); [reflexivity|].
  simpl. rewrite nth_error_app2 by lia. now rewrite Nat.sub_diag.
Qed.

(** *** Callback errors *)

(** A callback error that the loading of the data left behind makes
    [sr_modinfo_add_modules] end with [SR_ERR_CALLBACK_FAILED]. *)
Lemma load_modules_data_callback_failed (mi mi' : sr_mod_info_s) (mi_opts : mi_opts_t)
  (cb : sr_error_t) :
  SR_MI_DATA_NO mi_opts = false ->
  sr_modinfo_data_load mi (SR_MI_DATA_CACHE mi_opts) None = Val (mi', Some cb) ->
  load_modules_data mi mi_opts = Err SR_ERR_CALLBACK_FAILED.
Proof.
  intros D L. unfold load_modules_data. rewrite D, L. reflexivity.
Qed.

(** *** The depth of the recursion *)

(** The recursion of [sr_modinfo_add_mod] goes from REQ to INV_DEP to DEP and
    no further: a call with the kind DEP makes no call. *)
Definition level (mt : Z) : nat :=
  if mt =? MOD_INFO_REQ then 3 else if mt =? MOD_INFO_INV_DEP then 2 else 1.

Lemma fold_outcome_fuel {A S : Type} (f : A -> S -> outcome S) (l : list A) :
  (forall a s, In a l -> f a s <> OutOfFuel) ->
  forall s, fold_outcome f l s <> OutOfFuel.
Proof.
  induction l as [|a l IH]; intros H s; cbn [fold_outcome]; [discriminate|].
  pose proof (H a s (or_introl eq_refl)) as Ha.
  destruct (f a s) as [s'| | | |]; try discriminate; [|contradiction Ha; reflexivity].
  apply IH. intros a' s0 Hin. apply H. right. exact Hin.
Qed.

Section BodyFuel.

Variable fuel : nat.
Hypothesis fuel_enough :
  forall mt lm req mi,
    valid_mod_type mt -> (level mt <= fuel)%nat ->
    sr_modinfo_add_mod fuel lm mt req mi <> OutOfFuel.

Lemma add_mod_data_deps_fuel (d : Shm.sr_mod_t) (req : Z) (mi : sr_mod_info_s) :
  (1 <= fuel)%nat ->
  add_mod_data_deps (sr_modinfo_add_mod fuel) d req mi <> OutOfFuel.
Proof using fuel_enough.
  intro F. unfold add_mod_data_deps. apply fold_outcome_fuel. intros dep s _.
  destruct (Shm.dep_type dep); [|discriminate].
  destruct (ly_ctx_get_module_implemented ly_ctx (Shm.dep_module dep)); [|discriminate].
  apply fuel_enough; [left; reflexivity|exact F].
Qed.

Lemma add_mod_inv_data_deps_fuel (d : Shm.sr_mod_t) (req : Z) (mi : sr_mod_info_s) :
  (2 <= fuel)%nat ->
  add_mod_inv_data_deps (sr_modinfo_add_mod fuel) d req mi <> OutOfFuel.
Proof using fuel_enough.
  intro F. unfold add_mod_inv_data_deps. apply fold_outcome_fuel. intros inv s _.
  destruct (ly_ctx_get_module_implemented ly_ctx inv); [|discriminate].
  apply fuel_enough; [right; left; reflexivity|exact F].
Qed.

Lemma add_mod_data_deps_untouched (d : Shm.sr_mod_t) (req : Z) (j : nat)
  (x : sr_mod_info_mod_s) (mi mi' : sr_mod_info_s) :
  MOD_INFO_INV_DEP <= Z.land (state x) MOD_INFO_TYPE_MASK ->
  add_mod_data_deps (sr_modinfo_add_mod fuel) d req mi = Val mi' ->
  untouched j x mi mi'.
Proof.
  intro K. unfold add_mod_data_deps. apply fold_outcome_rel.
  - apply untouched_refl.
  - apply untouched_trans.
  - intros dep s s' _. destruct (Shm.dep_type dep).
    + destruct (ly_ctx_get_module_implemented ly_ctx (Shm.dep_module dep)); [|discriminate].
      apply sr_modinfo_add_mod_untouched; [exact K|].
      unfold MOD_INFO_DEP, MOD_INFO_INV_DEP. lia.
    + intro H. injection H as <-. apply untouched_refl.
Qed.

Lemma add_mod_follow_fuel (d : Shm.sr_mod_t) (cur_i : nat) (prev req mt : Z)
  (x : sr_mod_info_mod_s) (mi : sr_mod_info_s) :
  valid_mod_type mt -> (level mt <= S fuel)%nat ->
  state x = mt -> nth_error (mods mi) cur_i = Some x ->
  add_mod_follow (sr_modinfo_add_mod fuel) d cur_i prev req mi <> OutOfFuel.
Proof using fuel_enough.
  intros V L Sx Nx. unfold add_mod_follow.
  assert (St : state_at mi cur_i = mt) by (unfold state_at; rewrite Nx; exact Sx).
  rewrite St.
  destruct V as [->|[->| ->]].
  - rewrite orb_true_r. discriminate.
  - destruct (_ || _); [discriminate|]. cbn [level] in L.
    assert (F1 : (1 <= fuel)%nat) by (unfold level in L; cbn in L; lia).
    assert (G : forall mi1, state_at mi1 cur_i = MOD_INFO_INV_DEP ->
                (if (Z.land req MOD_INFO_INV_DEP =? 0) || (state_at mi1 cur_i <? MOD_INFO_REQ)
                 then Val mi1
                 else if prev <? MOD_INFO_REQ
                      then add_mod_inv_data_deps (sr_modinfo_add_mod fuel) d req mi1
                      else Val mi1) <> OutOfFuel).
    { intros mi1 E. rewrite E. rewrite orb_true_r. discriminate. }
    destruct (prev <? MOD_INFO_INV_DEP).
    + pose proof (add_mod_data_deps_fuel d req mi F1) as D.
      destruct (add_mod_data_deps (sr_modinfo_add_mod fuel) d req mi) as [mi1| | | |] eqn:E;
        cbn [bind]; try discriminate; [|contradiction D; reflexivity].
      apply G. unfold state_at.
      rewrite (add_mod_data_deps_untouched d req cur_i x mi mi1); [exact Sx| |exact E|exact Nx].
      rewrite Sx. vm_compute. discriminate.
    + cbn [bind]. apply G. exact St.
  - assert (F2 : (2 <= fuel)%nat) by (unfold level in L; cbn in L; lia).
    destruct (_ || _); [discriminate|].
    assert (G : forall mi1,
                (if (Z.land req MOD_INFO_INV_DEP =? 0) || (state_at mi1 cur_i <? MOD_INFO_REQ)
                 then Val mi1
                 else if prev <? MOD_INFO_REQ
                      then add_mod_inv_data_deps (sr_modinfo_add_mod fuel) d req mi1
                      else Val mi1) <> OutOfFuel).
    { intros mi1. destruct (_ || _); [discriminate|].
      destruct (prev <? MOD_INFO_REQ); [|discriminate].
      apply add_mod_inv_data_deps_fuel. exact F2. }
    destruct (prev <? MOD_INFO_INV_DEP).
    + assert (F1 : (1 <= fuel)%nat) by lia.
      pose proof (add_mod_data_deps_fuel d req mi F1) as D.
      destruct (add_mod_data_deps (sr_modinfo_add_mod fuel) d req mi) as [mi1| | | |];
        cbn [bind]; try discriminate; [apply G|contradiction D; reflexivity].
    + cbn [bind]. apply G.
Qed.

Lemma add_mod_found_fuel (lm : string) (mt req : Z) (cur_i : nat) (prev : Z)
  (mi : sr_mod_info_s) :
  valid_mod_type mt -> (level mt <= S fuel)%nat ->
  ((prev <? MOD_INFO_DEP) = true -> cur_i = List.length (mods mi)) ->
  ((prev <? MOD_INFO_DEP) = false ->
   exists x, state x = mt /\ nth_error (mods mi) cur_i = Some x) ->
  add_mod_found (sr_modinfo_add_mod fuel) lm mt req cur_i prev mi <> OutOfFuel.
Proof using fuel_enough.
  intros V L A B. unfold add_mod_found.
  destruct (Shm.sr_shmmain_find_module shm lm) as [p|]; [|discriminate].
  destruct (descriptor p) as [d|]; [|discriminate].
  unfold add_mod_append. destruct (prev <? MOD_INFO_DEP).
  - rewrite (A eq_refl), Nat.eqb_refl. cbn [bind].
    apply (add_mod_follow_fuel d _ prev req mt {| shm_mod := p; ly_mod := lm; state := mt |});
      [exact V|exact L|reflexivity|].
    cbn [mods set_mods]. rewrite nth_error_app2 by lia. rewrite Nat.sub_diag. reflexivity.
  - cbn [bind]. destruct (B eq_refl) as (x & Sx & Nx).
    apply (add_mod_follow_fuel d _ prev req mt x); assumption.
Qed.

Lemma add_mod_body_fuel (lm : string) (mt req : Z) (mi : sr_mod_info_s) :
  valid_mod_type mt -> (level mt <= S fuel)%nat ->
  add_mod_body (sr_modinfo_add_mod fuel) lm mt req mi <> OutOfFuel.
Proof using fuel_enough.
  intros V L. unfold add_mod_body.
  destruct (negb _); [discriminate|]. destruct (negb _); [discriminate|].
  destruct (add_mod_find (mods mi) lm mt 0) as [|i prev|i] eqn:F; [discriminate| |].
  - apply add_mod_find_Weaker in F. destruct F as (_ & x & Nx & _ & Sx & Lt & _).
    rewrite Nat.sub_0_r in Nx.
    destruct (prev <? MOD_INFO_DEP) eqn:P.
    + (* the element that is added is never written *)
      unfold add_mod_found.
      destruct (Shm.sr_shmmain_find_module shm lm) as [p|]; [|discriminate].
      destruct (descriptor p) as [d|]; [|discriminate].
      unfold add_mod_append. rewrite P. cbn [mods set_mods]. rewrite length_upd_nth.
      assert (E : Nat.eqb i (List.length (mods mi)) = false).
      { apply Nat.eqb_neq. intro C.
        assert (i < List.length (mods mi))%nat by (apply nth_error_Some; congruence). lia. }
      rewrite E. discriminate.
    + apply add_mod_found_fuel; [exact V|exact L|intro C; rewrite P in C; discriminate C|].
      intros _. exists (set_state x mt). split; [reflexivity|].
      cbn [mods set_mods].
      exact (nth_error_upd_nth_same (fun y => set_state y mt) i _ x Nx).
  - apply add_mod_find_NotThere in F. destruct F as [-> _]. cbn [Nat.add].
    apply add_mod_found_fuel; [exact V|exact L|intros _; reflexivity|].
    intro C. vm_compute in C. discriminate C.
Qed.

End BodyFuel.

(** With fuel for three levels [sr_modinfo_add_mod] never runs out of it. *)
Lemma sr_modinfo_add_mod_fuel (fuel : nat) :
  forall mt lm req mi,
    valid_mod_type mt -> (level mt <= fuel)%nat ->
    sr_modinfo_add_mod fuel lm mt req mi <> OutOfFuel.
Proof.
  induction fuel as [|fuel IH]; intros mt lm req mi V L.
  - exfalso. unfold level in L. destruct (mt =? _); [lia|]. destruct (mt =? _); lia.
  - cbn [sr_modinfo_add_mod]. apply add_mod_body_fuel; [exact IH|exact V|exact L].
Qed.

Lemma perm_gate_spec_fuel (wr strict : bool) (l : list sr_mod_info_mod_s) :
  perm_gate_spec wr strict l <> OutOfFuel.
Proof.
  induction l as [|m l IH]; cbn [perm_gate_spec]; [discriminate|].
  assert (K : (l'' <- perm_gate_spec wr strict l ;; Val (m :: l'')) <> OutOfFuel).
  { destruct (perm_gate_spec wr strict l); cbn [bind]; try discriminate.
    contradiction IH; reflexivity. }
  destruct (checked m); [|exact K].
  destruct (access_test wr m) as [|errno]; [exact K|].
  destruct (errno =? Perm.EACCES); [|discriminate].
  destruct strict; [discriminate|exact IH].
Qed.

Lemma sr_modinfo_perm_check_fuel (mi : sr_mod_info_s) (wr strict : bool) :
  sr_modinfo_perm_check mi wr strict <> OutOfFuel.
Proof.
  destruct (negb (data mi) || strict) eqn:E.
  - rewrite (sr_modinfo_perm_check_spec mi wr strict E).
    pose proof (perm_gate_spec_fuel wr strict (mods mi)) as K.
    destruct (perm_gate_spec wr strict (mods mi)); cbn [bind]; try discriminate.
    contradiction K; reflexivity.
  - unfold sr_modinfo_perm_check. rewrite E. discriminate.
Qed.

Lemma data_load_loop_fuel (mi : sr_mod_info_s) (todo : list sr_mod_info_mod_s) :
  forall done cb, data_load_loop mi done todo cb <> OutOfFuel.
Proof.
  induction todo as [|m todo IH]; intros done cb; cbn [data_load_loop]; [discriminate|].
  destruct (negb _); [apply IH|].
  destruct (sr_modinfo_module_data_load _ m cb) as [[e|] cb']; [discriminate|apply IH].
Qed.

Lemma load_modules_data_fuel (mi : sr_mod_info_s) (mi_opts : mi_opts_t) :
  load_modules_data mi mi_opts <> OutOfFuel.
Proof.
  unfold load_modules_data. destruct (negb _); [|discriminate].
  unfold sr_modinfo_data_load.
  destruct (_ && _); [destruct cache_read_lock; cbn [bind]; [discriminate|]|cbn [bind]].
  all: match goal with
       | |- context [data_load_loop ?a ?b ?c ?d] =>
           pose proof (data_load_loop_fuel a c b d) as K;
           destruct (data_load_loop a b c d) as [[l cb]| | | |]
       end; cbn [bind snd]; try discriminate; try (contradiction K; reflexivity).
  all: destruct cb; discriminate.
Qed.

(** With fuel for three levels [sr_modinfo_add_modules] comes to its end. *)
Lemma sr_modinfo_add_modules_fuel (fuel : nat) (mod_info : sr_mod_info_s)
  (mod_set : list string) (mod_deps : Z) (mod_lock : sr_lock_mode_t) (mi_opts : mi_opts_t) :
  (3 <= fuel)%nat ->
  sr_modinfo_add_modules fuel mod_info mod_set mod_deps mod_lock mi_opts <> OutOfFuel.
Proof.
  intro F. unfold sr_modinfo_add_modules.
  destruct (negb _); [discriminate|].
  set (mt := if SR_MI_MOD_DEPS mi_opts then MOD_INFO_DEP else MOD_INFO_REQ).
  assert (V : valid_mod_type mt).
  { unfold mt. destruct (SR_MI_MOD_DEPS mi_opts); [left|right; right]; reflexivity. }
  assert (L : (level mt <= fuel)%nat).
  { unfold mt. destruct (SR_MI_MOD_DEPS mi_opts); cbn; lia. }
  match goal with
  | |- bind ?o _ <> _ =>
      assert (K : o <> OutOfFuel);
      [|destruct o as [mi1| | | |]; cbn [bind]; try discriminate;
        [|contradiction K; reflexivity]]
  end.
  { destruct mod_set as [|lm0 set0].
    - apply fold_outcome_fuel. intros m s _. destruct (_ || _); [discriminate|].
      apply sr_modinfo_add_mod_fuel; assumption.
    - apply fold_outcome_fuel. intros lm s _. apply sr_modinfo_add_mod_fuel; assumption. }
  destruct (Nat.eqb _ _); [discriminate|].
  match goal with
  | |- bind ?o _ <> _ =>
      assert (K2 : o <> OutOfFuel);
      [|destruct o as [mi2| | | |]; cbn [bind]; try discriminate;
        [|contradiction K2; reflexivity]]
  end.
  { destruct (negb _); [apply sr_modinfo_perm_check_fuel|discriminate]. }
  destruct (match mod_lock with
            | SR_LOCK_NONE => None
            | SR_LOCK_READ => _
            | SR_LOCK_WRITE => _
            end); [discriminate|].
  apply load_modules_data_fuel.
Qed.

(** C1. After [sr_modinfo_add_modules] has resolved the dependencies and
    filtered by permission, the array of the set holds every module descriptor
    at most once and is strictly ascending by descriptor address (the order of
    [qsort] with [sr_modinfo_qsort_cmp]): every successful call, whatever the
    seed modules, the options and the lock mode, yields such a set when it
    starts from one, and the empty set of a fresh operation is one
    ([canonical_init]).  The recursion through the dependencies is three
    levels deep at most, so that the call always comes to its end. *)
Theorem sr_modinfo_add_modules_canonical_order
  (fuel : nat) (mod_info : sr_mod_info_s) (mod_set : list string)
  (mod_deps : Z) (mod_lock : sr_lock_mode_t) (mi_opts : mi_opts_t) :
  canonical mod_info ->
  ((3 <= fuel)%nat ->
   sr_modinfo_add_modules fuel mod_info mod_set mod_deps mod_lock mi_opts <> OutOfFuel)
  /\ (forall mod_info',
        sr_modinfo_add_modules fuel mod_info mod_set mod_deps mod_lock mi_opts
        = Val mod_info' ->
        canonical mod_info'
        /\ StronglySorted lt (map shm_mod (mods mod_info'))
        /\ NoDup (map shm_mod (mods mod_info'))).
Proof.
  intro C. split.
  - apply sr_modinfo_add_modules_fuel.
  - intros mod_info'. apply sr_modinfo_add_modules_canonical. exact C.
Qed.

(** *** The dependencies that are followed end up in the set *)

(** [mi'] names the modules of [mi], then further ones. *)
Definition grows (mi mi' : sr_mod_info_s) : Prop :=
  exists extra, map ly_mod (mods mi') = map ly_mod (mods mi) ++ extra.

Lemma grows_refl (mi : sr_mod_info_s) : grows mi mi.
Proof. exists []. symmetry. apply app_nil_r. Qed.

Lemma grows_trans (a b c : sr_mod_info_s) : grows a b -> grows b c -> grows a c.
Proof.
  intros [e1 E1] [e2 E2]. exists (e1 ++ e2). rewrite E2, E1, app_assoc. reflexivity.
Qed.

Lemma grows_In (lm : string) (mi mi' : sr_mod_info_s) :
  grows mi mi' -> In lm (map ly_mod (mods mi)) -> In lm (map ly_mod (mods mi')).
Proof. intros [e E] H. rewrite E. apply in_or_app. left. exact H. Qed.

(** Every iteration of a loop leaves behind what it has established, when the
    later iterations preserve it. *)
Lemma fold_outcome_each {A S : Type} (R : S -> S -> Prop) (P : A -> S -> Prop)
  (f : A -> S -> outcome S) :
  (forall s, R s s) ->
  (forall a b c, R a b -> R b c -> R a c) ->
  (forall a s s', P a s -> R s s' -> P a s') ->
  forall l : list A,
    (forall a s s', In a l -> f a s = Val s' -> R s s' /\ P a s') ->
    forall s s', fold_outcome f l s = Val s' -> forall a, In a l -> P a s'.
Proof.
  intros Rr Rt Pm l. induction l as [|x l IH]; intros Hf s s' H a Ha; [contradiction Ha|].
  cbn [fold_outcome] in H. destruct (f x s) as [s1| | | |] eqn:E; try discriminate.
  assert (Hf' : forall a0 t t', In a0 l -> f a0 t = Val t' -> R t t' /\ P a0 t').
  { intros a0 t t' Hin. apply Hf. right. exact Hin. }
  destruct Ha as [<-|Ha].
  - destruct (Hf x s s1 (or_introl eq_refl) E) as [_ Px].
    apply (Pm x s1 s' Px).
    apply (fold_outcome_rel R f Rr Rt l (fun a0 t t' Hin Ht => proj1 (Hf' a0 t t' Hin Ht))
             s1 s' H).
  - apply (IH Hf' s1 s' H a Ha).
Qed.

Section BodyGrows.

Variable self : string -> Z -> Z -> sr_mod_info_s -> outcome sr_mod_info_s.
Hypothesis self_grows :
  forall lm mt req mi mi', self lm mt req mi = Val mi' -> grows mi mi'.

Lemma add_mod_data_deps_grows (d : Shm.sr_mod_t) (req : Z) (mi mi' : sr_mod_info_s) :
  add_mod_data_deps self d req mi = Val mi' -> grows mi mi'.
Proof using self_grows.
  unfold add_mod_data_deps. apply fold_outcome_rel.
  - apply grows_refl.
  - apply grows_trans.
  - intros dep s s' _. destruct (Shm.dep_type dep).
    + destruct (ly_ctx_get_module_implemented ly_ctx (Shm.dep_module dep)); [|discriminate].
      apply self_grows.
    + intro H. injection H as <-. apply grows_refl.
Qed.

Lemma add_mod_inv_data_deps_grows (d : Shm.sr_mod_t) (req : Z) (mi mi' : sr_mod_info_s) :
  add_mod_inv_data_deps self d req mi = Val mi' -> grows mi mi'.
Proof using self_grows.
  unfold add_mod_inv_data_deps. apply fold_outcome_rel.
  - apply grows_refl.
  - apply grows_trans.
  - intros inv s s' _.
    destruct (ly_ctx_get_module_implemented ly_ctx inv); [|discriminate].
    apply self_grows.
Qed.

Lemma add_mod_follow_grows (d : Shm.sr_mod_t) (cur_i : nat) (prev req : Z)
  (mi mi' : sr_mod_info_s) :
  add_mod_follow self d cur_i prev req mi = Val mi' -> grows mi mi'.
Proof using self_grows.
  unfold add_mod_follow.
  destruct (_ || _); [intro H; injection H as <-; apply grows_refl|].
  assert (G : forall mi1, grows mi mi1 ->
            (if (Z.land req MOD_INFO_INV_DEP =? 0) || (state_at mi1 cur_i <? MOD_INFO_REQ)
             then Val mi1
             else if prev <? MOD_INFO_REQ then add_mod_inv_data_deps self d req mi1
                  else Val mi1) = Val mi' -> grows mi mi').
  { intros mi1 U. destruct (_ || _); [intro H; injection H as <-; exact U|].
    destruct (prev <? MOD_INFO_REQ); [|intro H; injection H as <-; exact U].
    intro H. apply (grows_trans _ _ _ U). apply (add_mod_inv_data_deps_grows _ _ _ _ H). }
  destruct (prev <? MOD_INFO_INV_DEP).
  - destruct (add_mod_data_deps self d req mi) as [mi1| | | |] eqn:E; cbn [bind];
      try discriminate.
    apply G. apply (add_mod_data_deps_grows _ _ _ _ E).
  - cbn [bind]. apply G. apply grows_refl.
Qed.

Lemma add_mod_found_grows (lm : string) (mt req : Z) (cur_i : nat) (prev : Z)
  (mi mi' : sr_mod_info_s) :
  add_mod_found self lm mt req cur_i prev mi = Val mi' ->
  grows mi mi' /\ ((prev <? MOD_INFO_DEP) = true -> In lm (map ly_mod (mods mi'))).
Proof using self_grows.
  unfold add_mod_found.
  destruct (Shm.sr_shmmain_find_module shm lm) as [p|]; [|discriminate].
  destruct (descriptor p) as [d|]; [|discriminate].
  unfold add_mod_append. destruct (prev <? MOD_INFO_DEP).
  - destruct (Nat.eqb cur_i (List.length (mods mi))); [|discriminate]. cbn [bind].
    intro H. apply add_mod_follow_grows in H.
    assert (A : grows mi (set_mods mi (mods mi ++ [{| shm_mod := p; ly_mod := lm;
                                                      state := mt |}]))).
    { exists [lm]. cbn [mods set_mods]. rewrite map_app. reflexivity. }
    split; [apply (grows_trans _ _ _ A H)|].
    intros _. apply (grows_In lm _ _ H). cbn [mods set_mods]. rewrite map_app.
    apply in_or_app. right. left. reflexivity.
  - cbn [bind]. intro H. split; [apply (add_mod_follow_grows _ _ _ _ _ _ H)|discriminate].
Qed.

Lemma add_mod_body_grows (lm : string) (mt req : Z) (mi mi' : sr_mod_info_s) :
  add_mod_body self lm mt req mi = Val mi' ->
  grows mi mi' /\ In lm (map ly_mod (mods mi')).
Proof using self_grows.
  unfold add_mod_body.
  destruct (negb _); [discriminate|]. destruct (negb _); [discriminate|].
  destruct (add_mod_find (mods mi) lm mt 0) as [|i prev|i] eqn:F.
  - intro H. injection H as <-. split; [apply grows_refl|].
    apply add_mod_find_AlreadyThere in F. destruct F as (k & m & Nk & <- & _).
    apply in_map. apply (nth_error_In _ _ Nk).
  - apply add_mod_find_Weaker in F. destruct F as (_ & x & Nx & <- & _).
    rewrite Nat.sub_0_r in Nx. intro H. apply add_mod_found_grows in H.
    destruct H as [[e E] _]. cbn [mods set_mods] in E.
    rewrite (map_upd_nth ly_mod (fun m => set_state m mt)) in E by reflexivity.
    split; [exists e; exact E|]. rewrite E. apply in_or_app. left.
    apply in_map. apply (nth_error_In _ _ Nx).
  - intro H. apply add_mod_found_grows in H. destruct H as [G P].
    split; [exact G|]. apply P. reflexivity.
Qed.

End BodyGrows.

(** A successful call leaves the module in the set, after the entries that
    were there. *)
Lemma sr_modinfo_add_mod_grows (fuel : nat) :
  forall lm mt req mi mi',
    sr_modinfo_add_mod fuel lm mt req mi = Val mi' ->
    grows mi mi' /\ In lm (map ly_mod (mods mi')).
Proof.
  induction fuel as [|fuel IH]; intros lm mt req mi mi' H; [discriminate H|].
  cbn [sr_modinfo_add_mod] in H.
  apply (add_mod_body_grows _ (fun a b c d e h => proj1 (IH a b c d e h)) _ _ _ _ _ H).
Qed.

(** The modules of the data dependencies that are not INSTID-tagged, and the
    modules of the inverse data dependencies. *)
Definition dep_in_set (mi : sr_mod_info_s) (mod_name : string) : Prop :=
  exists lm, ly_ctx_get_module_implemented ly_ctx mod_name = Some lm /\
             In lm (map ly_mod (mods mi)).

Lemma dep_in_set_grows (mod_name : string) (mi mi' : sr_mod_info_s) :
  dep_in_set mi mod_name -> grows mi mi' -> dep_in_set mi' mod_name.
Proof.
  intros (lm & E & H) G. exists lm. split; [exact E|apply (grows_In _ _ _ G H)].
Qed.

Lemma add_mod_data_deps_followed (fuel : nat) (d : Shm.sr_mod_t) (req : Z)
  (mi mi' : sr_mod_info_s) :
  add_mod_data_deps (sr_modinfo_add_mod fuel) d req mi = Val mi' ->
  forall dep, In dep (Shm.data_deps d) -> Shm.dep_type dep = Shm.SR_DEP_REF ->
    dep_in_set mi' (Shm.dep_module dep).
Proof.
  intros H dep Hin T.
  refine (fold_outcome_each grows
            (fun dep s => Shm.dep_type dep = Shm.SR_DEP_REF ->
                          dep_in_set s (Shm.dep_module dep))
            _ grows_refl grows_trans _ (Shm.data_deps d) _ mi mi' H dep Hin T).
  - intros a s s' P G Ta. apply (dep_in_set_grows _ s s' (P Ta) G).
  - intros a s s' _. destruct (Shm.dep_type a).
    + destruct (ly_ctx_get_module_implemented ly_ctx (Shm.dep_module a)) as [lm|] eqn:E;
        [|discriminate].
      intro Hs. apply sr_modinfo_add_mod_grows in Hs. destruct Hs as [G P].
      split; [exact G|]. intros _. exists lm. split; [exact E|exact P].
    + intro Hs. injection Hs as <-. split; [apply grows_refl|discriminate].
Qed.

Lemma add_mod_inv_data_deps_followed (fuel : nat) (d : Shm.sr_mod_t) (req : Z)
  (mi mi' : sr_mod_info_s) :
  add_mod_inv_data_deps (sr_modinfo_add_mod fuel) d req mi = Val mi' ->
  forall inv, In inv (Shm.inv_data_deps d) -> dep_in_set mi' inv.
Proof.
  intros H inv Hin.
  refine (fold_outcome_each grows (fun inv s => dep_in_set s inv)
            _ grows_refl grows_trans _ (Shm.inv_data_deps d) _ mi mi' H inv Hin).
  - intros a s s' P G. apply (dep_in_set_grows _ s s' P G).
  - intros a s s' _.
    destruct (ly_ctx_get_module_implemented ly_ctx a) as [lm|] eqn:E; [|discriminate].
    intro Hs. apply sr_modinfo_add_mod_grows in Hs. destruct Hs as [G P].
    split; [exact G|]. exists lm. split; [exact E|exact P].
Qed.

(** A module that is new to the set: with dependencies requested and a kind
    of INV_DEP or REQ its data dependencies are followed, and with inverse
    dependencies requested and the kind REQ its inverse dependencies are. *)
Lemma add_mod_new_followed (fuel : nat) (lm : string) (mt req : Z) (mi mi' : sr_mod_info_s)
  (p : nat) (d : Shm.sr_mod_t) :
  valid_mod_type mt ->
  lookup_mod lm (mods mi) = None ->
  Shm.sr_shmmain_find_module shm lm = Some p -> descriptor p = Some d ->
  sr_modinfo_add_mod fuel lm mt req mi = Val mi' ->
  (Z.land req MOD_INFO_DEP <> 0 -> MOD_INFO_INV_DEP <= mt ->
   forall dep, In dep (Shm.data_deps d) -> Shm.dep_type dep = Shm.SR_DEP_REF ->
     dep_in_set mi' (Shm.dep_module dep)) /\
  (Z.land req MOD_INFO_DEP <> 0 -> Z.land req MOD_INFO_INV_DEP <> 0 -> mt = MOD_INFO_REQ ->
   forall inv, In inv (Shm.inv_data_deps d) -> dep_in_set mi' inv).
Proof.
  intros V Hl Fp Fd H. destruct fuel as [|fuel]; [discriminate H|].
  cbn [sr_modinfo_add_mod] in H. unfold add_mod_body in H.
  destruct (negb _); [discriminate|]. destruct (negb _); [discriminate|].
  pose proof (add_mod_find_lookup (mods mi) lm mt 0) as F. rewrite Hl in F.
  cbn [Nat.add] in F. rewrite F in H.
  unfold add_mod_found in H. rewrite Fp, Fd in H.
  unfold add_mod_append in H. change (0 <? MOD_INFO_DEP) with true in H.
  rewrite Nat.eqb_refl in H. cbn [bind] in H.
  set (x := {| shm_mod := p; ly_mod := lm; state := mt |}) in H.
  set (mi1 := set_mods mi (mods mi ++ [x])) in H.
  assert (N1 : nth_error (mods mi1) (List.length (mods mi)) = Some x).
  { unfold mi1. cbn [mods set_mods]. rewrite nth_error_app2 by lia.
    rewrite Nat.sub_diag. reflexivity. }
  assert (S1 : state_at mi1 (List.length (mods mi)) = mt).
  { unfold state_at. rewrite N1. reflexivity. }
  unfold add_mod_follow in H. rewrite S1 in H.
  change (0 <? MOD_INFO_INV_DEP) with true in H. change (0 <? MOD_INFO_REQ) with true in H.
  split.
  - intros Rd Km dep Hin T.
    apply Z.eqb_neq in Rd. rewrite Rd in H. apply Z.ltb_ge in Km. rewrite Km in H.
    cbn [orb] in H.
    destruct (add_mod_data_deps (sr_modinfo_add_mod fuel) d req mi1) as [mi2| | | |] eqn:E;
      cbn [bind] in H; try discriminate.
    pose proof (add_mod_data_deps_followed fuel d req mi1 mi2 E dep Hin T) as P.
    apply (dep_in_set_grows _ mi2 mi' P).
    destruct (_ || _); [injection H as <-; apply grows_refl|].
    apply (add_mod_inv_data_deps_grows (sr_modinfo_add_mod fuel)
             (fun a b c e f h => proj1 (sr_modinfo_add_mod_grows fuel a b c e f h)) _ _ _ _ H).
  - intros Rd Ri -> inv Hin.
    apply Z.eqb_neq in Rd. rewrite Rd in H. change (MOD_INFO_REQ <? MOD_INFO_INV_DEP)
      with false in H. cbn [orb] in H.
    destruct (add_mod_data_deps (sr_modinfo_add_mod fuel) d req mi1) as [mi2| | | |] eqn:E;
      cbn [bind] in H; try discriminate.
    assert (S2 : state_at mi2 (List.length (mods mi)) = MOD_INFO_REQ).
    { unfold state_at.
      rewrite (add_mod_data_deps_untouched fuel d req _ x mi1 mi2);
        [reflexivity| |exact E|exact N1].
      vm_compute. discriminate. }
    rewrite S2 in H. apply Z.eqb_neq in Ri. rewrite Ri in H.
    change (MOD_INFO_REQ <? MOD_INFO_REQ) with false in H. cbn [orb] in H.
    apply (add_mod_inv_data_deps_followed fuel d req mi2 mi' H inv Hin).
Qed.
End Closure.

(** *** Which dependency arrays a call reads *)

(** A call "follows" a dependency array when its result depends on it.  The
    three erasures below replace arrays of every descriptor; a call whose
    result is the same on the erased registry does not follow what was
    erased. *)
Definition set_deps (d : Shm.sr_mod_t) (dd : list Shm.sr_mod_data_dep_t) (idd : list string)
  : Shm.sr_mod_t :=
  {| Shm.name := Shm.name d; Shm.ver := Shm.ver d; Shm.flags := Shm.flags d;
     Shm.data_deps := dd; Shm.inv_data_deps := idd;
     Shm.oper_subs := Shm.oper_subs d; Shm.notif_subs := Shm.notif_subs d |}.

Definition is_ref (dep : Shm.sr_mod_data_dep_t) : bool :=
  match Shm.dep_type dep with
  | Shm.SR_DEP_REF => true
  | Shm.SR_DEP_INSTID => false
  end.

Definition without_instid (d : Shm.sr_mod_t) : Shm.sr_mod_t :=
  set_deps d (filter is_ref (Shm.data_deps d)) (Shm.inv_data_deps d).

Definition without_inverse (d : Shm.sr_mod_t) : Shm.sr_mod_t :=
  set_deps d (Shm.data_deps d) [].

Definition without_deps (d : Shm.sr_mod_t) : Shm.sr_mod_t :=
  set_deps d [] [].

Lemma fold_outcome_ext {A S : Type} (f g : A -> S -> outcome S) (l : list A) (s : S) :
  (forall a s', In a l -> f a s' = g a s') -> fold_outcome f l s = fold_outcome g l s.
Proof.
  revert s. induction l as [|a l IH]; intros s H; simpl; [reflexivity|].
  rewrite (H a s (or_introl eq_refl)).
  destruct (g a s); try reflexivity. apply IH. intros b s' Hb. apply H. now right.
Qed.

Section Erasure.

Variable shm : Shm.main_shm.
Variable ly_ctx : list lys_module.
Variable T : Shm.sr_mod_t -> Shm.sr_mod_t.
Hypothesis T_name : forall d, Shm.name (T d) = Shm.name d.

Lemma find_module_from_map (n : string) (l : Shm.main_shm) (off : nat) :
  Shm.find_module_from (map T l) n off = Shm.find_module_from l n off.
Proof using T_name.
  revert off. induction l as [|d l IH]; intro off; simpl; [reflexivity|].
  rewrite T_name. destruct (String.eqb (Shm.name d) n); [reflexivity | apply IH].
Qed.

Lemma find_module_map (n : string) :
  Shm.sr_shmmain_find_module (map T shm) n = Shm.sr_shmmain_find_module shm n.
Proof using T_name. apply find_module_from_map. Qed.

Lemma descriptor_map (p : nat) :
  descriptor (map T shm) p = option_map T (descriptor shm p).
Proof. unfold descriptor. apply nth_error_map. Qed.

(** The two registries give the same result as soon as the tails of the body
    agree on every set whose entry at [cur_i] has the kind just given. *)
Lemma add_mod_body_map
  (self self' : string -> Z -> Z -> sr_mod_info_s -> outcome sr_mod_info_s)
  (lm : string) (mt req : Z) (mi : sr_mod_info_s) :
  (valid_mod_type mt ->
   forall d cur_i prev mi1 x,
     nth_error (mods mi1) cur_i = Some x -> state x = mt ->
     add_mod_follow ly_ctx self' (T d) cur_i prev req mi1
     = add_mod_follow ly_ctx self d cur_i prev req mi1) ->
  add_mod_body (map T shm) ly_ctx self' lm mt req mi
  = add_mod_body shm ly_ctx self lm mt req mi.
Proof using T_name.
  intro HF. unfold add_mod_body.
  destruct (negb ((mt =? MOD_INFO_REQ) || (mt =? MOD_INFO_DEP) || (mt =? MOD_INFO_INV_DEP)))
    eqn:A1; [reflexivity|].
  assert (Hmt : valid_mod_type mt).
  { apply negb_false_iff in A1. apply orb_true_iff in A1. destruct A1 as [A1|A1].
    - apply orb_true_iff in A1. destruct A1 as [A1|A1]; apply Z.eqb_eq in A1.
      + right. now right.
      + now left.
    - apply Z.eqb_eq in A1. right. now left. }
  specialize (HF Hmt). clear A1.
  destruct (negb _); [reflexivity|].
  assert (HFound : forall cur_i prev mi0,
            ((prev <? MOD_INFO_DEP) = false ->
             exists x, nth_error (mods mi0) cur_i = Some x /\ state x = mt) ->
            add_mod_found (map T shm) ly_ctx self' lm mt req cur_i prev mi0
            = add_mod_found shm ly_ctx self lm mt req cur_i prev mi0).
  { intros cur_i prev mi0 Hx. unfold add_mod_found. rewrite find_module_map.
    destruct (Shm.sr_shmmain_find_module shm lm) as [p|]; [|reflexivity].
    rewrite descriptor_map. destruct (descriptor shm p) as [d|]; [|reflexivity].
    cbn [option_map]. unfold add_mod_append.
    destruct (prev <? MOD_INFO_DEP).
    - destruct (Nat.eqb cur_i (List.length (mods mi0))) eqn:EL; [|reflexivity].
      apply Nat.eqb_eq in EL. subst cur_i. cbn [bind].
      eapply HF;
        [simpl; rewrite nth_error_app2 by lia; rewrite Nat.sub_diag; reflexivity
        | reflexivity].
    - cbn [bind]. destruct (Hx eq_refl) as [x [Hn Hs]]. eapply HF; eauto. }
  destruct (add_mod_find (mods mi) lm mt 0) as [|i prev|i] eqn:F; [reflexivity| |].
  - apply HFound. intros _. apply add_mod_find_Weaker in F.
    destruct F as [_ [x [Hn _]]]. rewrite Nat.sub_0_r in Hn.
    exists (set_state x mt). split; [|reflexivity].
    exact (nth_error_upd_nth_same (fun y => set_state y mt) i (mods mi) x Hn).
  - apply HFound. intro C. discriminate C.
Qed.

End Erasure.

Section Rules.

Variable shm : Shm.main_shm.
Variable ly_ctx : list lys_module.

Lemma add_mod_data_deps_ext
  (self self' : string -> Z -> Z -> sr_mod_info_s -> outcome sr_mod_info_s)
  (d : Shm.sr_mod_t) (req : Z) (mi : sr_mod_info_s) :
  (forall lm a, self' lm MOD_INFO_DEP req a = self lm MOD_INFO_DEP req a) ->
  add_mod_data_deps ly_ctx self' d req mi = add_mod_data_deps ly_ctx self d req mi.
Proof.
  intro H. unfold add_mod_data_deps. apply fold_outcome_ext. intros dep s _.
  destruct (Shm.dep_type dep); [|reflexivity].
  destruct (ly_ctx_get_module_implemented ly_ctx (Shm.dep_module dep)); [apply H | reflexivity].
Qed.

Lemma add_mod_inv_data_deps_ext
  (self self' : string -> Z -> Z -> sr_mod_info_s -> outcome sr_mod_info_s)
  (d : Shm.sr_mod_t) (req : Z) (mi : sr_mod_info_s) :
  (forall lm a, self' lm MOD_INFO_INV_DEP req a = self lm MOD_INFO_INV_DEP req a) ->
  add_mod_inv_data_deps ly_ctx self' d req mi = add_mod_inv_data_deps ly_ctx self d req mi.
Proof.
  intro H. unfold add_mod_inv_data_deps. apply fold_outcome_ext. intros inv s _.
  destruct (ly_ctx_get_module_implemented ly_ctx inv); [apply H | reflexivity].
Qed.

(** INSTID dependencies are skipped. *)
Lemma add_mod_data_deps_instid
  (self : string -> Z -> Z -> sr_mod_info_s -> outcome sr_mod_info_s)
  (d : Shm.sr_mod_t) (req : Z) (mi : sr_mod_info_s) :
  add_mod_data_deps ly_ctx self (without_instid d) req mi
  = add_mod_data_deps ly_ctx self d req mi.
Proof.
  unfold add_mod_data_deps, without_instid. cbn [set_deps Shm.data_deps].
  revert mi. induction (Shm.data_deps d) as [|dep l IH]; intro mi; [reflexivity|].
  cbn [filter]. unfold is_ref at 1. destruct (Shm.dep_type dep) eqn:E.
  - cbn [fold_outcome]. rewrite E.
    destruct (ly_ctx_get_module_implemented ly_ctx (Shm.dep_module dep)); [|reflexivity].
    destruct (self s MOD_INFO_DEP req mi); try reflexivity. apply IH.
  - cbn [fold_outcome]. rewrite E. apply IH.
Qed.

Lemma sr_modinfo_add_mod_skips_instid (fuel : nat) (lm : string) (mt req : Z)
  (mi : sr_mod_info_s) :
  sr_modinfo_add_mod (map without_instid shm) ly_ctx fuel lm mt req mi
  = sr_modinfo_add_mod shm ly_ctx fuel lm mt req mi.
Proof.
  revert lm mt req mi. induction fuel as [|fuel IH]; intros lm mt req mi; [reflexivity|].
  cbn [sr_modinfo_add_mod]. apply add_mod_body_map; [reflexivity|].
  intros _ d cur_i prev mi1 x _ _. unfold add_mod_follow.
  destruct ((Z.land req MOD_INFO_DEP =? 0) || (state_at mi1 cur_i <? MOD_INFO_INV_DEP));
    [reflexivity|].
  rewrite add_mod_data_deps_instid.
  rewrite (add_mod_data_deps_ext (sr_modinfo_add_mod shm ly_ctx fuel)
             (sr_modinfo_add_mod (map without_instid shm) ly_ctx fuel))
    by (intros; apply IH).
  destruct (if prev <? MOD_INFO_INV_DEP
            then add_mod_data_deps ly_ctx (sr_modinfo_add_mod shm ly_ctx fuel) d req mi1
            else Val mi1) as [mi2| | | |]; cbn [bind]; try reflexivity.
  destruct ((Z.land req MOD_INFO_INV_DEP =? 0) || (state_at mi2 cur_i <? MOD_INFO_REQ));
    [reflexivity|].
  destruct (prev <? MOD_INFO_REQ); [|reflexivity].
  transitivity (add_mod_inv_data_deps ly_ctx
                  (sr_modinfo_add_mod (map without_instid shm) ly_ctx fuel) d req mi2);
    [reflexivity|].
  apply add_mod_inv_data_deps_ext. intros; apply IH.
Qed.

(** Without the request for dependencies, or for a module added as DEP, no
    dependency array is read. *)
Lemma sr_modinfo_add_mod_no_deps (fuel : nat) (lm : string) (mt req : Z)
  (mi : sr_mod_info_s) :
  Z.land req MOD_INFO_DEP = 0 \/ mt < MOD_INFO_INV_DEP ->
  sr_modinfo_add_mod (map without_deps shm) ly_ctx fuel lm mt req mi
  = sr_modinfo_add_mod shm ly_ctx fuel lm mt req mi.
Proof.
  intro C. destruct fuel as [|fuel]; [reflexivity|].
  cbn [sr_modinfo_add_mod]. apply add_mod_body_map; [reflexivity|].
  intros _ d cur_i prev mi1 x Hn Hs. unfold add_mod_follow.
  assert (G : ((Z.land req MOD_INFO_DEP =? 0) || (state_at mi1 cur_i <? MOD_INFO_INV_DEP)) = true).
  { destruct C as [C|C].
    - rewrite C. reflexivity.
    - unfold state_at. rewrite Hn, Hs. apply Z.ltb_lt in C. rewrite C. apply orb_true_r. }
  now rewrite G.
Qed.

(** Without the request for inverse dependencies, or for a module added with
    a kind below REQ, no inverse dependency array is read. *)
Lemma sr_modinfo_add_mod_no_inverse (fuel : nat) (lm : string) (mt req : Z)
  (mi : sr_mod_info_s) :
  Z.land req MOD_INFO_INV_DEP = 0 \/ mt < MOD_INFO_REQ ->
  sr_modinfo_add_mod (map without_inverse shm) ly_ctx fuel lm mt req mi
  = sr_modinfo_add_mod shm ly_ctx fuel lm mt req mi.
Proof.
  revert lm mt req mi. induction fuel as [|fuel IH]; intros lm mt req mi C; [reflexivity|].
  cbn [sr_modinfo_add_mod]. apply add_mod_body_map; [reflexivity|].
  intros Hmt d cur_i prev mi1 x Hn Hs. unfold add_mod_follow.
  destruct ((Z.land req MOD_INFO_DEP =? 0) || (state_at mi1 cur_i <? MOD_INFO_INV_DEP))
    eqn:G1; [reflexivity|].
  change (add_mod_data_deps ly_ctx (sr_modinfo_add_mod (map without_inverse shm) ly_ctx fuel)
            (without_inverse d) req mi1)
    with (add_mod_data_deps ly_ctx (sr_modinfo_add_mod (map without_inverse shm) ly_ctx fuel)
            d req mi1).
  rewrite (add_mod_data_deps_ext (sr_modinfo_add_mod shm ly_ctx fuel)
             (sr_modinfo_add_mod (map without_inverse shm) ly_ctx fuel)).
  2:{ intros lm' a. apply IH. right. reflexivity. }
  destruct (if prev <? MOD_INFO_INV_DEP
            then add_mod_data_deps ly_ctx (sr_modinfo_add_mod shm ly_ctx fuel) d req mi1
            else Val mi1) as [mi2| | | |] eqn:E2; cbn [bind]; try reflexivity.
  assert (G2 : ((Z.land req MOD_INFO_INV_DEP =? 0) || (state_at mi2 cur_i <? MOD_INFO_REQ)) = true).
  { destruct C as [C|C]; [rewrite C; reflexivity|].
    apply orb_true_iff. right. apply Z.ltb_lt.
    apply orb_false_iff in G1. destruct G1 as [_ G1]. apply Z.ltb_ge in G1.
    unfold state_at in G1. rewrite Hn, Hs in G1.
    assert (Hk : MOD_INFO_INV_DEP <= Z.land (state x) MOD_INFO_TYPE_MASK).
    { rewrite Hs, (valid_mod_type_mask _ Hmt). exact G1. }
    assert (N2 : nth_error (mods mi2) cur_i = Some x).
    { destruct (prev <? MOD_INFO_INV_DEP).
      - revert Hn. change (untouched cur_i x mi1 mi2).
        revert E2. unfold add_mod_data_deps. apply fold_outcome_rel.
        + apply untouched_refl.
        + apply untouched_trans.
        + intros dep s s' _. destruct (Shm.dep_type dep).
          * destruct (ly_ctx_get_module_implemented ly_ctx (Shm.dep_module dep));
              [|discriminate].
            apply sr_modinfo_add_mod_untouched; [exact Hk|].
            unfold MOD_INFO_DEP, MOD_INFO_INV_DEP. lia.
          * intro H. inversion H; subst. apply untouched_refl.
      - inversion E2; subst. exact Hn. }
    unfold state_at. rewrite N2, Hs. exact C. }
  now rewrite G2.
Qed.

(** C5. [sr_modinfo_add_mod] implements the closure rules.  The kinds are
    ordered REQ > INV_DEP > DEP.  A module whose entry has an equal or
    stronger kind makes the call a no-op; an entry of a weaker kind is given
    the new kind in place; a module that is not in the set is appended with
    the kind.  The result never depends on the INSTID-tagged data
    dependencies; it depends on no dependency array unless dependencies are
    requested and the kind is at least INV_DEP; and it depends on no inverse
    dependency array unless inverse dependencies are requested and the kind is
    REQ.  For a module that is new to the set, the modules of its data
    dependencies without the INSTID tag are in the resulting set when
    dependencies are requested and the kind is at least INV_DEP, and so are
    the modules of its inverse dependencies when these are requested and the
    kind is REQ.  The recursion is as deep as the kind is strong, three levels
    at most. *)
Theorem sr_modinfo_add_mod_closure_rules
  (fuel : nat) (lm : string) (mod_type mod_req_deps : Z) (mod_info : sr_mod_info_s) :
  valid_mod_type mod_type -> valid_req_deps mod_req_deps ->
  (MOD_INFO_DEP < MOD_INFO_INV_DEP /\ MOD_INFO_INV_DEP < MOD_INFO_REQ)
  /\ (forall m, lookup_mod lm (mods mod_info) = Some m ->
        mod_type <= Z.land (state m) MOD_INFO_TYPE_MASK ->
        sr_modinfo_add_mod shm ly_ctx (S fuel) lm mod_type mod_req_deps mod_info
        = Val mod_info)
  /\ (forall m mod_info', lookup_mod lm (mods mod_info) = Some m ->
        Z.land (state m) MOD_INFO_TYPE_MASK < mod_type ->
        sr_modinfo_add_mod shm ly_ctx fuel lm mod_type mod_req_deps mod_info = Val mod_info' ->
        exists i, nth_error (mods mod_info) i = Some m
                  /\ nth_error (mods mod_info') i = Some (set_state m mod_type))
  /\ (forall mod_info', lookup_mod lm (mods mod_info) = None ->
        sr_modinfo_add_mod shm ly_ctx fuel lm mod_type mod_req_deps mod_info = Val mod_info' ->
        exists p, Shm.sr_shmmain_find_module shm lm = Some p
                  /\ nth_error (mods mod_info') (List.length (mods mod_info))
                     = Some {| shm_mod := p; ly_mod := lm; state := mod_type |})
  /\ sr_modinfo_add_mod (map without_instid shm) ly_ctx fuel lm mod_type mod_req_deps mod_info
     = sr_modinfo_add_mod shm ly_ctx fuel lm mod_type mod_req_deps mod_info
  /\ (Z.land mod_req_deps MOD_INFO_DEP = 0 \/ mod_type < MOD_INFO_INV_DEP ->
      sr_modinfo_add_mod (map without_deps shm) ly_ctx fuel lm mod_type mod_req_deps mod_info
      = sr_modinfo_add_mod shm ly_ctx fuel lm mod_type mod_req_deps mod_info)
  /\ (Z.land mod_req_deps MOD_INFO_INV_DEP = 0 \/ mod_type < MOD_INFO_REQ ->
      sr_modinfo_add_mod (map without_inverse shm) ly_ctx fuel lm mod_type mod_req_deps mod_info
      = sr_modinfo_add_mod shm ly_ctx fuel lm mod_type mod_req_deps mod_info)
  /\ (forall mod_info' p d, lookup_mod lm (mods mod_info) = None ->
        Shm.sr_shmmain_find_module shm lm = Some p -> descriptor shm p = Some d ->
        sr_modinfo_add_mod shm ly_ctx fuel lm mod_type mod_req_deps mod_info = Val mod_info' ->
        (Z.land mod_req_deps MOD_INFO_DEP <> 0 -> MOD_INFO_INV_DEP <= mod_type ->
         forall dep, In dep (Shm.data_deps d) -> Shm.dep_type dep = Shm.SR_DEP_REF ->
           dep_in_set ly_ctx mod_info' (Shm.dep_module dep)) /\
        (Z.land mod_req_deps MOD_INFO_DEP <> 0 -> Z.land mod_req_deps MOD_INFO_INV_DEP <> 0 ->
         mod_type = MOD_INFO_REQ ->
         forall inv, In inv (Shm.inv_data_deps d) -> dep_in_set ly_ctx mod_info' inv))
  /\ ((level mod_type <= fuel)%nat ->
      sr_modinfo_add_mod shm ly_ctx fuel lm mod_type mod_req_deps mod_info <> OutOfFuel).
Proof.
  intros Hmt Hreq.
  split; [split; reflexivity|].
  split; [intros m Hl Hk; eapply add_mod_noop; eauto|].
  split; [intros m mi' Hl Hk H; eapply add_mod_upgrade; eauto|].
  split; [intros mi' Hl H; eapply add_mod_new; eauto|].
  split; [apply sr_modinfo_add_mod_skips_instid|].
  split; [apply sr_modinfo_add_mod_no_deps|].
  split; [apply sr_modinfo_add_mod_no_inverse|].
  split.
  - intros mi' p d Hl Fp Fd H. apply (add_mod_new_followed shm ly_ctx fuel lm mod_type
                                        mod_req_deps mod_info mi' p d Hmt Hl Fp Fd H).
  - intro L. apply sr_modinfo_add_mod_fuel; [exact Hmt|exact L].
Qed.

End Rules.

(** *** A registry of four modules, used to run the functions *)

Local Open Scope string_scope.
Local Open Scope list_scope.

Definition ex_ref (m : string) : Shm.sr_mod_data_dep_t :=
  {| Shm.dep_type := Shm.SR_DEP_REF; Shm.dep_module := m; Shm.dep_xpath := "/ref" |}.

Definition ex_instid (m : string) : Shm.sr_mod_data_dep_t :=
  {| Shm.dep_type := Shm.SR_DEP_INSTID; Shm.dep_module := m; Shm.dep_xpath := "/instid" |}.

Definition ex_mod (n : string) (dd : list Shm.sr_mod_data_dep_t) (idd : list string)
  : Shm.sr_mod_t :=
  {| Shm.name := n; Shm.ver := 1; Shm.flags := 0; Shm.data_deps := dd;
     Shm.inv_data_deps := idd; Shm.oper_subs := []; Shm.notif_subs := [] |}.

(** [ops] refers to [ops-ref] and, by instance-identifier, to [z]; [b] refers
    to [ops]. *)
Definition ex_shm : Shm.main_shm :=
  [ ex_mod "ops-ref" [] ["ops"];
    ex_mod "ops" [ex_ref "ops-ref"; ex_instid "z"] ["b"];
    ex_mod "b" [ex_ref "ops"] [];
    ex_mod "z" [] [] ].

Definition ex_ctx : list lys_module :=
  map (fun d => {| ly_name := Shm.name d; implemented := true |}) ex_shm.

(** Access to the startup file of [b] is denied. *)
Definition ex_eaccess (path : string) (mode : Z) : Perm.sys_result :=
  if String.eqb path "/etc/sysrepo/data/b.startup" then Perm.SysFail Perm.EACCES
  else Perm.SysOk.

Definition ex_opts : mi_opts_t :=
  {| SR_MI_MOD_DEPS := false; SR_MI_LOCK_UPGRADEABLE := false; SR_MI_DATA_CACHE := false;
     SR_MI_DATA_NO := false; SR_MI_PERM_NO := false; SR_MI_PERM_READ := true;
     SR_MI_PERM_WRITE := false; SR_MI_PERM_STRICT := false |}.

Definition ex_entry (p : nat) (lm : string) (s : Z) : sr_mod_info_mod_s :=
  {| shm_mod := p; ly_mod := lm; state := s |}.

Definition ex_set (l : list sr_mod_info_mod_s) : sr_mod_info_s :=
  set_mods (SR_MODINFO_INIT SR_DS_RUNNING SR_DS_RUNNING) l.

Example ex_add_ops :
  sr_modinfo_add_mod ex_shm ex_ctx 8 "ops" MOD_INFO_REQ 3 (ex_set [])
  = Val (ex_set [ex_entry 1 "ops" 4; ex_entry 0 "ops-ref" 1; ex_entry 2 "b" 2]).
Proof. vm_compute. reflexivity. Qed.

Example ex_add_upgrade :
  sr_modinfo_add_mod ex_shm ex_ctx 8 "ops" MOD_INFO_REQ 3
    (ex_set [ex_entry 2 "b" 4; ex_entry 1 "ops" 1])
  = Val (ex_set [ex_entry 2 "b" 4; ex_entry 1 "ops" 4; ex_entry 0 "ops-ref" 1]).
Proof. vm_compute. reflexivity. Qed.

Lemma sr_modinfo_add_modules_canonical_order_witness :
  canonical ex_shm
    (ex_set [ex_entry 0 "ops-ref" 9; ex_entry 1 "ops" 12])
  /\ StronglySorted lt [0%nat; 1%nat]
  /\ NoDup [0%nat; 1%nat].
Proof.
  refine (proj2 (sr_modinfo_add_modules_canonical_order ex_shm ex_ctx "" "/etc/sysrepo"
                   ex_eaccess (fun _ _ => None) (fun _ => None) false None
                   (fun _ _ cb => (None, cb))
                   8 (SR_MODINFO_INIT SR_DS_RUNNING SR_DS_RUNNING)
                   ["ops"; "b"] 3 SR_LOCK_READ ex_opts _)
                (ex_set [ex_entry 0 "ops-ref" 9; ex_entry 1 "ops" 12]) _).
  - split; [split; constructor | constructor].
  - vm_compute. reflexivity.
Defined.

Lemma sr_modinfo_perm_check_gate_witness :
  sr_modinfo_perm_check "" "/etc/sysrepo" ex_eaccess
    (ex_set [ex_entry 1 "ops" 4; ex_entry 0 "ops-ref" 1; ex_entry 2 "b" 2; ex_entry 2 "b" 4])
    false true
  = Err SR_ERR_UNAUTHORIZED
  /\ sr_modinfo_perm_check "" "/etc/sysrepo" ex_eaccess
       (ex_set [ex_entry 1 "ops" 4; ex_entry 2 "b" 20; ex_entry 0 "ops-ref" 1])
       false false
     = Val (ex_set [ex_entry 1 "ops" 4; ex_entry 0 "ops-ref" 1]).
Proof.
  split.
  - apply (proj1 (proj2 (proj2 (proj2 (proj2
             (sr_modinfo_perm_check_gate "" "/etc/sysrepo" ex_eaccess
                (ex_set [ex_entry 1 "ops" 4; ex_entry 0 "ops-ref" 1; ex_entry 2 "b" 2;
                         ex_entry 2 "b" 4]) false)))))
           [ex_entry 1 "ops" 4; ex_entry 0 "ops-ref" 1; ex_entry 2 "b" 2]
           (ex_entry 2 "b" 4) []).
    + reflexivity.
    + intros x [E|[E|[E|[]]]] C; subst x;
        first [vm_compute; reflexivity | vm_compute in C; discriminate C].
    + vm_compute. reflexivity.
    + vm_compute. reflexivity.
  - apply (proj2 (proj2 (proj2 (proj2 (proj2 (proj2
             (sr_modinfo_perm_check_gate "" "/etc/sysrepo" ex_eaccess
                (ex_set [ex_entry 1 "ops" 4; ex_entry 2 "b" 20; ex_entry 0 "ops-ref" 1])
                false))))))).
    + reflexivity.
    + intros x [E|[E|[E|[]]]] _; subst x; vm_compute; auto.
Defined.

Lemma sr_modinfo_add_mod_closure_rules_witness :
  (exists i, nth_error [ex_entry 2 "b" 4; ex_entry 1 "ops" 1] i = Some (ex_entry 1 "ops" 1)
             /\ nth_error [ex_entry 2 "b" 4; ex_entry 1 "ops" 4; ex_entry 0 "ops-ref" 1] i
                = Some (ex_entry 1 "ops" 4))
  /\ sr_modinfo_add_mod (map without_inverse ex_shm) ex_ctx 8 "ops" MOD_INFO_INV_DEP 3
       (ex_set [])
     = sr_modinfo_add_mod ex_shm ex_ctx 8 "ops" MOD_INFO_INV_DEP 3 (ex_set []).
Proof.
  split.
  - apply (proj1 (proj2 (proj2
             (sr_modinfo_add_mod_closure_rules ex_shm ex_ctx 8 "ops" MOD_INFO_REQ 3
                (ex_set [ex_entry 2 "b" 4; ex_entry 1 "ops" 1])
                (or_intror (or_intror eq_refl)) (or_intror (or_intror eq_refl)))))
           (ex_entry 1 "ops" 1)
           (ex_set [ex_entry 2 "b" 4; ex_entry 1 "ops" 4; ex_entry 0 "ops-ref" 1])).
    + reflexivity.
    + vm_compute. reflexivity.
    + vm_compute. reflexivity.
  - apply (proj1 (proj2 (proj2 (proj2 (proj2 (proj2 (proj2
             (sr_modinfo_add_mod_closure_rules ex_shm ex_ctx 8 "ops" MOD_INFO_INV_DEP 3
                (ex_set [])
                (or_intror (or_introl eq_refl)) (or_intror (or_intror eq_refl)))))))))).
    right. vm_compute. reflexivity.
Defined.

End ModInfo.

(** ** The running-data cache ([sr_modcache_module_running_update]) *)

Module Cache.

Local Open Scope Z_scope.

(** The mode in which the calling thread holds the cache lock. *)
Inductive sr_lock_mode_t : Type :=
| SR_LOCK_NONE
| SR_LOCK_READ
| SR_LOCK_WRITE.

(** [mod_cache->mods[i]]. *)
Record sr_mod_cache_mod_s : Type := {
  ly_mod : string;
  ver : Z
}.

Definition set_ver (m : sr_mod_cache_mod_s) (v : Z) : sr_mod_cache_mod_s :=
  {| ly_mod := ly_mod m; ver := v |}.

(** The first loop: the index of the module in the cache, [mod_count] when it
    is not there. *)
Fixpoint find_cached (l : list sr_mod_cache_mod_s) (lm : string) : nat :=
  match l with
  | [] => O
  | m :: l' => if String.eqb lm (ly_mod m) then O else S (find_cached l' lm)
  end.

Section Cache.

(** A top-level data node; a data tree is the list of its top-level siblings,
    each with the module that owns it. *)
Variable lyd_node : Type.

Definition forest : Type := list (string * lyd_node).

(** [struct sr_mod_cache_s]. *)
Record sr_mod_cache_s : Type := {
  mods : list sr_mod_cache_mod_s;
  data : forest;
  lock : sr_lock_mode_t
}.

Definition with_mods (c : sr_mod_cache_s) (l : list sr_mod_cache_mod_s) : sr_mod_cache_s :=
  {| mods := l; data := data c; lock := lock c |}.

Definition with_data (c : sr_mod_cache_s) (d : forest) : sr_mod_cache_s :=
  {| mods := mods c; data := d; lock := lock c |}.

Definition with_lock (c : sr_mod_cache_s) (m : sr_lock_mode_t) : sr_mod_cache_s :=
  {| mods := mods c; data := data c; lock := m |}.

(** [sr_module_data_unlink]: the first run of siblings owned by the module is
    taken out of the tree.  Yields the run and what is left. *)
Fixpoint sr_module_data_unlink (d : forest) (lm : string) (started : bool) : forest * forest :=
  match d with
  | [] => ([], [])
  | (owner, n) :: d' =>
      if String.eqb owner lm then
        let '(mod_data, rest) := sr_module_data_unlink d' lm true in
        ((owner, n) :: mod_data, rest)
      else if started then ([], d)
      else
        let '(mod_data, rest) := sr_module_data_unlink d' lm false in
        (mod_data, (owner, n) :: rest)
  end.

(** [lyd_insert_sibling(first, node, &first)]. *)
Definition lyd_insert_sibling (first new_data : forest) : forest := first ++ new_data.

(** What the function does to the cache, in order; every step is recorded with
    the mode in which the lock is held when it happens. *)
Inductive cache_op : Type :=
| OpUnlock (m : sr_lock_mode_t)
| OpLock (m : sr_lock_mode_t) (acquired : bool)
| OpFreeData (lm : string)
| OpAddItem (lm : string)
| OpSetVer (lm : string) (v : Z)
| OpInsertData (lm : string) (d : forest).

Definition step : Type := sr_lock_mode_t * cache_op.

Definition is_mutation (op : cache_op) : bool :=
  match op with
  | OpUnlock _ | OpLock _ _ => false
  | _ => true
  end.

(** State threaded through the function: the cache and the steps so far. *)
Record run : Type := {
  cache : sr_mod_cache_s;
  trace : list step
}.

Definition emit (r : run) (op : cache_op) (c' : sr_mod_cache_s) : run :=
  {| cache := c'; trace := trace r ++ [(lock (cache r), op)] |}.

(** The environment: the outcome of taking the cache lock, of [realloc], of
    [lyd_dup_siblings] and of reading the running file of a module
    ([sr_module_file_data_append], which appends what it reads). *)
Variable write_lock : option sr_error_t.
Variable read_lock : option sr_error_t.
Variable realloc_ok : bool.
Variable lyd_dup_siblings : forest -> option forest.
Variable running_file : string -> sr_error_t + forest.

Definition upd_ver (l : list sr_mod_cache_mod_s) (i : nat) (v : Z) : list sr_mod_cache_mod_s :=
  ModInfo.upd_nth i (fun m => set_ver m v) l.

Definition ver_at (c : sr_mod_cache_s) (i : nat) : Z :=
  match nth_error (mods c) i with
  | Some m => ver m
  | None => 0
  end.

(** Label [error_rlock]: the READ lock is taken again when the caller held it;
    the result of that call is assigned to [err_info]. *)
Definition error_rlock (read_locked : bool) (r : run) (err_info : option sr_error_t)
  : run * option sr_error_t :=
  if read_locked then
    match read_lock with
    | Some e => (emit r (OpLock SR_LOCK_READ false) (cache r), Some e)
    | None => (emit r (OpLock SR_LOCK_READ true) (with_lock (cache r) SR_LOCK_READ), None)
    end
  else (r, err_info).

(** Label [error_wrunlock]. *)
Definition error_wrunlock (read_locked : bool) (r : run) (err_info : option sr_error_t)
  : run * option sr_error_t :=
  error_rlock read_locked
    (emit r (OpUnlock SR_LOCK_WRITE) (with_lock (cache r) SR_LOCK_NONE)) err_info.

(** [if (read_locked) sr_rwunlock(READ); sr_rwlock(WRITE)]: the run after it,
    and the error of the WRITE lock if it was not acquired. *)
Definition relock_write (read_locked : bool) (r : run) : run * option sr_error_t :=
  let r :=
    if read_locked then emit r (OpUnlock SR_LOCK_READ) (with_lock (cache r) SR_LOCK_NONE)
    else r in
  match write_lock with
  | Some e => (emit r (OpLock SR_LOCK_WRITE false) (cache r), Some e)
  | None => (emit r (OpLock SR_LOCK_WRITE true) (with_lock (cache r) SR_LOCK_WRITE), None)
  end.

(** The block [if (!mod_cache->mods[i].ver)] and the labels it runs into. *)
Definition append_current (lm : string) (shm_ver : Z) (upd_mod_data : forest)
  (read_locked : bool) (i : nat) (r : run) : run * option sr_error_t :=
  if ver_at (cache r) i =? 0 then
    match upd_mod_data with
    | _ :: _ =>
        match lyd_dup_siblings upd_mod_data with
        | None => error_wrunlock read_locked r (Some SR_ERR_LY)
        | Some mod_data =>
            let r := emit r (OpInsertData lm mod_data)
                       (with_data (cache r) (lyd_insert_sibling (data (cache r)) mod_data)) in
            let r := emit r (OpSetVer lm shm_ver)
                       (with_mods (cache r) (upd_ver (mods (cache r)) i shm_ver)) in
            error_wrunlock read_locked r None
        end
    | [] =>
        match running_file lm with
        | inl e => error_wrunlock read_locked r (Some e)
        | inr d =>
            let r := emit r (OpInsertData lm d)
                       (with_data (cache r) (lyd_insert_sibling (data (cache r)) d)) in
            let r := emit r (OpSetVer lm shm_ver)
                       (with_mods (cache r) (upd_ver (mods (cache r)) i shm_ver)) in
            error_wrunlock read_locked r None
        end
    end
  else (r, None).

(** [sr_modcache_module_running_update].  [lm] and [shm_ver] are
    [mod->ly_mod] and [mod->shm_mod->ver]; [upd_mod_data] is NULL when empty. *)
Definition sr_modcache_module_running_update (mod_cache : sr_mod_cache_s) (lm : string)
  (shm_ver : Z) (upd_mod_data : forest) (read_locked : bool)
  : outcome (run * option sr_error_t) :=
  let r := {| cache := mod_cache; trace := [] |} in
  let i := find_cached (mods mod_cache) lm in
  if (i <? List.length (mods mod_cache))%nat then
    if negb (shm_ver >=? ver_at mod_cache i) then AssertFail
    else if shm_ver >? ver_at mod_cache i then
      match relock_write read_locked r with
      | (r, Some e) => Val (error_rlock read_locked r (Some e))
      | (r, None) =>
          let r := emit r (OpFreeData lm)
                     (with_data (cache r)
                        (snd (sr_module_data_unlink (data (cache r)) lm false))) in
          let r := emit r (OpSetVer lm 0)
                     (with_mods (cache r) (upd_ver (mods (cache r)) i 0)) in
          Val (append_current lm shm_ver upd_mod_data read_locked i r)
      end
    else Val (append_current lm shm_ver upd_mod_data read_locked i r)
  else
    match relock_write read_locked r with
    | (r, Some e) => Val (error_rlock read_locked r (Some e))
    | (r, None) =>
        if realloc_ok then
          let r := emit r (OpAddItem lm)
                     (with_mods (cache r)
                        (mods (cache r) ++ [{| ly_mod := lm; ver := 0 |}])) in
          Val (append_current lm shm_ver upd_mod_data read_locked i r)
        else Val (r, Some SR_ERR_NOMEM)
    end.

(** *** Facts about the cache index *)

(** The version that the cache holds for a module, if it has an item for it. *)
Definition cached_ver (c : sr_mod_cache_s) (lm : string) : option Z :=
  option_map ver (find (fun m => String.eqb lm (ly_mod m)) (mods c)).

Lemma nth_find_cached (l : list sr_mod_cache_mod_s) (lm : string) :
  nth_error l (find_cached l lm) = find (fun m => String.eqb lm (ly_mod m)) l.
Proof.
  induction l as [|m l IH]; cbn [find_cached find]; [reflexivity|].
  destruct (String.eqb lm (ly_mod m)); [reflexivity | exact IH].
Qed.

Lemma find_cached_found (l : list sr_mod_cache_mod_s) (lm : string) :
  (find_cached l lm <? List.length l)%nat
  = match find (fun m => String.eqb lm (ly_mod m)) l with Some _ => true | None => false end.
Proof.
  rewrite <- nth_find_cached.
  destruct (nth_error l (find_cached l lm)) eqn:E.
  - apply Nat.ltb_lt. apply nth_error_Some. congruence.
  - apply Nat.ltb_ge. now apply nth_error_None.
Qed.

Lemma find_cached_absent (l : list sr_mod_cache_mod_s) (lm : string) :
  find (fun m => String.eqb lm (ly_mod m)) l = None -> find_cached l lm = List.length l.
Proof.
  induction l as [|m l IH]; cbn [find_cached find List.length]; [reflexivity|].
  destruct (String.eqb lm (ly_mod m)); [discriminate|]. intro H. now rewrite IH.
Qed.

Lemma find_upd_ver_same (l : list sr_mod_cache_mod_s) (lm : string) (v : Z) :
  find (fun m => String.eqb lm (ly_mod m)) (upd_ver l (find_cached l lm) v)
  = option_map (fun m => set_ver m v) (find (fun m => String.eqb lm (ly_mod m)) l).
Proof.
  unfold upd_ver. induction l as [|m l IH]; cbn [find_cached find ModInfo.upd_nth]; [reflexivity|].
  destruct (String.eqb lm (ly_mod m)) eqn:E; cbn [ModInfo.upd_nth find set_ver ly_mod].
  - now rewrite E.
  - rewrite E. exact IH.
Qed.

Lemma find_upd_ver_other (l : list sr_mod_cache_mod_s) (lm lm' : string) (v : Z) :
  lm' <> lm ->
  find (fun m => String.eqb lm' (ly_mod m)) (upd_ver l (find_cached l lm) v)
  = find (fun m => String.eqb lm' (ly_mod m)) l.
Proof.
  intro Hne. unfold upd_ver.
  induction l as [|m l IH]; cbn [find_cached find ModInfo.upd_nth]; [reflexivity|].
  destruct (String.eqb lm (ly_mod m)) eqn:E; cbn [ModInfo.upd_nth find set_ver ly_mod].
  - apply String.eqb_eq in E. subst lm.
    assert (E' : String.eqb lm' (ly_mod m) = false) by now apply String.eqb_neq.
    now rewrite E'.
  - destruct (String.eqb lm' (ly_mod m)); [reflexivity | exact IH].
Qed.

Lemma find_app_new (l : list sr_mod_cache_mod_s) (lm lm' : string) (v : Z) :
  find (fun m => String.eqb lm' (ly_mod m)) l = None ->
  find (fun m => String.eqb lm' (ly_mod m)) (l ++ [{| ly_mod := lm; ver := v |}])
  = if String.eqb lm' lm then Some {| ly_mod := lm; ver := v |} else None.
Proof.
  induction l as [|m l IH]; cbn [find app ly_mod]; [reflexivity|].
  destruct (String.eqb lm' (ly_mod m)); [discriminate | exact IH].
Qed.

Lemma find_app_old (l : list sr_mod_cache_mod_s) (lm' : string) (x m : sr_mod_cache_mod_s) :
  find (fun m => String.eqb lm' (ly_mod m)) l = Some m ->
  find (fun m => String.eqb lm' (ly_mod m)) (l ++ [x]) = Some m.
Proof.
  induction l as [|a l IH]; cbn [find app]; [discriminate|].
  destruct (String.eqb lm' (ly_mod a)); [auto | exact IH].
Qed.

Lemma upd_ver_app_last (l : list sr_mod_cache_mod_s) (x : sr_mod_cache_mod_s) (v : Z) :
  upd_ver (l ++ [x]) (List.length l) v = l ++ [set_ver x v].
Proof.
  unfold upd_ver. induction l as [|a l IH]; cbn [app List.length ModInfo.upd_nth]; [reflexivity|].
  now rewrite IH.
Qed.

Lemma find_cached_upd_ver (l : list sr_mod_cache_mod_s) (lm : string) (j : nat) (v : Z) :
  find_cached (upd_ver l j v) lm = find_cached l lm.
Proof.
  unfold upd_ver. revert j.
  induction l as [|m l IH]; intros [|j]; cbn [find_cached ModInfo.upd_nth set_ver ly_mod];
    try reflexivity.
  destruct (String.eqb lm (ly_mod m)); [reflexivity | now rewrite IH].
Qed.

Lemma ver_at_cached (c : sr_mod_cache_s) (lm : string) :
  ver_at c (find_cached (mods c) lm)
  = match cached_ver c lm with Some v => v | None => 0 end.
Proof.
  unfold ver_at, cached_ver. rewrite nth_find_cached.
  destruct (find (fun m => String.eqb lm (ly_mod m)) (mods c)); reflexivity.
Qed.

(** *** The three cases of the update *)

(** The cached version is the descriptor's: nothing is done. *)
Lemma update_fresh (c : sr_mod_cache_s) (lm : string) (shm_ver : Z) (upd : forest)
  (read_locked : bool) :
  shm_ver <> 0 -> cached_ver c lm = Some shm_ver ->
  sr_modcache_module_running_update c lm shm_ver upd read_locked
  = Val ({| cache := c; trace := [] |}, None).
Proof.
  intros Hnz Hc. unfold sr_modcache_module_running_update.
  unfold append_current. cbn [cache].
  rewrite find_cached_found, ver_at_cached, Hc.
  unfold cached_ver in Hc.
  destruct (find (fun m => String.eqb lm (ly_mod m)) (mods c)); [|discriminate].
  assert (G : (shm_ver >=? shm_ver) = true) by (rewrite Z.geb_leb; apply Z.leb_refl).
  assert (G' : (shm_ver >? shm_ver) = false) by (rewrite Z.gtb_ltb; apply Z.ltb_irrefl).
  rewrite G, G'. cbn [negb].
  apply Z.eqb_neq in Hnz. rewrite Hnz. reflexivity.
Qed.

(** The data that a refresh installs: a copy of the data handed in, or what
    the running file holds. *)
Definition current_data (lm : string) (upd : forest) : option forest :=
  match upd with
  | [] => match running_file lm with inr d => Some d | inl _ => None end
  | _ :: _ => lyd_dup_siblings upd
  end.

Definition held (read_locked : bool) : sr_lock_mode_t :=
  if read_locked then SR_LOCK_READ else SR_LOCK_NONE.

(** The steps of a refresh that meets no failure. *)
Definition refresh_trace (lm : string) (shm_ver : Z) (was_cached read_locked : bool)
  (new_data : forest) : list step :=
  (if read_locked then [(SR_LOCK_READ, OpUnlock SR_LOCK_READ)] else [])
  ++ [(SR_LOCK_NONE, OpLock SR_LOCK_WRITE true)]
  ++ (if was_cached
      then [(SR_LOCK_WRITE, OpFreeData lm); (SR_LOCK_WRITE, OpSetVer lm 0)]
      else [(SR_LOCK_WRITE, OpAddItem lm)])
  ++ [(SR_LOCK_WRITE, OpInsertData lm new_data);
      (SR_LOCK_WRITE, OpSetVer lm shm_ver);
      (SR_LOCK_WRITE, OpUnlock SR_LOCK_WRITE)]
  ++ (if read_locked then [(SR_LOCK_NONE, OpLock SR_LOCK_READ true)] else []).

Lemma refresh_trace_write_locked (lm : string) (shm_ver : Z) (was_cached read_locked : bool)
  (new_data : forest) :
  Forall (fun s : step => is_mutation (snd s) = true -> fst s = SR_LOCK_WRITE)
         (refresh_trace lm shm_ver was_cached read_locked new_data).
Proof.
  unfold refresh_trace. destruct was_cached, read_locked; cbn [app];
    repeat (constructor; [cbn; intro; try reflexivity; discriminate|]); constructor.
Qed.

Lemma append_current_installs (lm : string) (shm_ver : Z) (upd : forest) (read_locked : bool)
  (i : nat) (r : run) (new_data : forest) :
  ver_at (cache r) i = 0 -> read_lock = None ->
  current_data lm upd = Some new_data ->
  lock (cache r) = SR_LOCK_WRITE ->
  append_current lm shm_ver upd read_locked i r
  = ({| cache := {| mods := upd_ver (mods (cache r)) i shm_ver;
                    data := data (cache r) ++ new_data;
                    lock := held read_locked |};
        trace := trace r
                 ++ [(SR_LOCK_WRITE, OpInsertData lm new_data);
                     (SR_LOCK_WRITE, OpSetVer lm shm_ver);
                     (SR_LOCK_WRITE, OpUnlock SR_LOCK_WRITE)]
                 ++ (if read_locked then [(SR_LOCK_NONE, OpLock SR_LOCK_READ true)] else []) |},
      None).
Proof.
  intros Hv Hr Hd Hl. unfold append_current. rewrite Hv. cbn [Z.eqb].
  assert (G : forall d, 
    error_wrunlock read_locked
      (emit (emit r (OpInsertData lm d)
                    (with_data (cache r) (lyd_insert_sibling (data (cache r)) d)))
            (OpSetVer lm shm_ver)
            (with_mods (cache (emit r (OpInsertData lm d)
                         (with_data (cache r) (lyd_insert_sibling (data (cache r)) d))))
               (upd_ver (mods (cache (emit r (OpInsertData lm d)
                         (with_data (cache r) (lyd_insert_sibling (data (cache r)) d))))) i
                        shm_ver))) None
    = ({| cache := {| mods := upd_ver (mods (cache r)) i shm_ver;
                      data := data (cache r) ++ d;
                      lock := held read_locked |};
          trace := trace r
                   ++ [(SR_LOCK_WRITE, OpInsertData lm d);
                       (SR_LOCK_WRITE, OpSetVer lm shm_ver);
                       (SR_LOCK_WRITE, OpUnlock SR_LOCK_WRITE)]
                   ++ (if read_locked then [(SR_LOCK_NONE, OpLock SR_LOCK_READ true)]
                       else []) |}, None)).
  { intro d. unfold error_wrunlock, error_rlock, emit. rewrite Hr.
    cbn [cache trace with_data with_mods with_lock mods data lock lyd_insert_sibling].
    rewrite Hl. destruct read_locked; cbn [held app]; rewrite <- !app_assoc; reflexivity. }
  unfold current_data in Hd. destruct upd as [|x upd].
  - destruct (running_file lm) as [e|d]; [discriminate|]. inversion Hd; subst. apply G.
  - rewrite Hd. apply G.
Qed.

(** The module is cached with an older version, or not cached at all, and
    locking, allocation and the source of the data do not fail: the stale tree
    is dropped, the data are installed and the version is the descriptor's,
    all of it under the WRITE lock. *)
Lemma update_refresh (c : sr_mod_cache_s) (lm : string) (shm_ver : Z) (upd : forest)
  (read_locked : bool) (new_data : forest) :
  0 < shm_ver ->
  lock c = held read_locked ->
  match cached_ver c lm with Some v => v < shm_ver | None => True end ->
  write_lock = None -> read_lock = None -> realloc_ok = true ->
  current_data lm upd = Some new_data ->
  exists r,
    sr_modcache_module_running_update c lm shm_ver upd read_locked = Val (r, None)
    /\ cached_ver (cache r) lm = Some shm_ver
    /\ data (cache r)
       = match cached_ver c lm with
         | Some _ => snd (sr_module_data_unlink (data c) lm false)
         | None => data c
         end ++ new_data
    /\ lock (cache r) = lock c
    /\ trace r
       = refresh_trace lm shm_ver
           (match cached_ver c lm with Some _ => true | None => false end)
           read_locked new_data.
Proof.
  intros Hpos Hlock Hstale Hw Hr Ha Hd.
  unfold sr_modcache_module_running_update.
  rewrite find_cached_found, ver_at_cached. unfold relock_write. rewrite Hw.
  unfold cached_ver in *.
  destruct (find (fun m => String.eqb lm (ly_mod m)) (mods c)) as [m|] eqn:F;
    cbn [option_map] in *.
  - assert (G : (shm_ver >=? ver m) = true) by (rewrite Z.geb_leb; apply Z.leb_le; lia).
    assert (G' : (shm_ver >? ver m) = true) by (rewrite Z.gtb_ltb; apply Z.ltb_lt; lia).
    rewrite G, G'. cbn [negb].
    assert (V0 : nth_error (upd_ver (mods c) (find_cached (mods c) lm) 0)
                           (find_cached (mods c) lm) = Some (set_ver m 0)).
    { rewrite <- nth_find_cached in F. unfold upd_ver.
      exact (ModInfo.nth_error_upd_nth_same (fun x => set_ver x 0) _ _ _ F). }
    assert (V1 : find (fun x => String.eqb lm (ly_mod x))
                   (upd_ver (upd_ver (mods c) (find_cached (mods c) lm) 0)
                            (find_cached (mods c) lm) shm_ver)
                 = Some (set_ver (set_ver m 0) shm_ver)).
    { rewrite <- (find_cached_upd_ver (mods c) lm (find_cached (mods c) lm) 0) at 2.
      rewrite find_upd_ver_same, find_upd_ver_same, F. reflexivity. }
    destruct read_locked; unfold emit;
      cbn [cache trace with_mods with_data with_lock mods data lock app];
      (eexists; split;
       [ f_equal; apply (append_current_installs lm shm_ver upd _ _ _ new_data); auto;
         unfold ver_at; cbn [cache mods with_mods with_data with_lock data lock];
         rewrite V0; reflexivity
       | cbn [cache mods data lock trace with_mods with_data with_lock]; rewrite V1, Hlock;
         repeat split; reflexivity ]).
  - rewrite Ha.
    assert (V0 : nth_error (mods c ++ [{| ly_mod := lm; ver := 0 |}])
                           (find_cached (mods c) lm) = Some {| ly_mod := lm; ver := 0 |}).
    { rewrite (find_cached_absent _ _ F), nth_error_app2 by lia.
      now rewrite Nat.sub_diag. }
    assert (V1 : find (fun x => String.eqb lm (ly_mod x))
                   (upd_ver (mods c ++ [{| ly_mod := lm; ver := 0 |}])
                            (find_cached (mods c) lm) shm_ver)
                 = Some {| ly_mod := lm; ver := shm_ver |}).
    { rewrite (find_cached_absent _ _ F), upd_ver_app_last.
      unfold set_ver. cbn [ly_mod ver].
      pose proof (find_app_new (mods c) lm lm shm_ver F) as E.
      rewrite String.eqb_refl in E. exact E. }
    destruct read_locked; unfold emit;
      cbn [cache trace with_mods with_data with_lock mods data lock app];
      (eexists; split;
       [ f_equal; apply (append_current_installs lm shm_ver upd _ _ _ new_data); auto;
         unfold ver_at; cbn [cache mods with_mods with_data with_lock data lock];
         rewrite V0; reflexivity
       | cbn [cache mods data lock trace with_mods with_data with_lock]; rewrite V1, Hlock;
         repeat split; reflexivity ]).
Qed.

(** *** What holds on every path *)

Section Bounds.

Variable lm : string.
Variable shm_ver : Z.
Hypothesis shm_ver_pos : 0 < shm_ver.

(** A step is in order when it changes the cache only under the WRITE lock and
    writes only versions of [lm] between 0 and the descriptor's. *)
Definition step_ok (s : step) : Prop :=
  (is_mutation (snd s) = true -> fst s = SR_LOCK_WRITE)
  /\ (forall lm' v, snd s = OpSetVer lm' v -> lm' = lm /\ 0 <= v <= shm_ver).

(** The items of [l'] against those of [l]: other modules keep their version,
    and the version of [lm] is an old one or one between 0 and the
    descriptor's. *)
Definition items_ok (l l' : list sr_mod_cache_mod_s) : Prop :=
  find_cached l' lm = find_cached l lm
  /\ (forall lm', lm' <> lm ->
        find (fun m => String.eqb lm' (ly_mod m)) l'
        = find (fun m => String.eqb lm' (ly_mod m)) l)
  /\ (forall m', find (fun m => String.eqb lm (ly_mod m)) l' = Some m' ->
        0 <= ver m' <= shm_ver \/ find (fun m => String.eqb lm (ly_mod m)) l = Some m').

Lemma items_ok_refl (l : list sr_mod_cache_mod_s) : items_ok l l.
Proof. split; [reflexivity|]. split; [reflexivity|]. intros m' H. now right. Qed.

Lemma items_ok_trans (a b c : list sr_mod_cache_mod_s) :
  items_ok a b -> items_ok b c -> items_ok a c.
Proof.
  intros [A1 [A2 A3]] [B1 [B2 B3]]. split; [congruence|]. split.
  - intros lm' Hne. rewrite B2, A2; auto.
  - intros m' H. destruct (B3 m' H) as [Hb|Hb]; [now left|]. now apply A3.
Qed.

Lemma items_ok_upd (l : list sr_mod_cache_mod_s) (v : Z) :
  0 <= v <= shm_ver -> items_ok l (upd_ver l (find_cached l lm) v).
Proof.
  intro Hv. split; [apply find_cached_upd_ver|]. split.
  - intros lm' Hne. now apply find_upd_ver_other.
  - intros m' H. rewrite find_upd_ver_same in H.
    destruct (find (fun m => String.eqb lm (ly_mod m)) l); [|discriminate].
    inversion H; subst. left. exact Hv.
Qed.

Lemma find_cached_app_new (l : list sr_mod_cache_mod_s) (v : Z) :
  find (fun m => String.eqb lm (ly_mod m)) l = None ->
  find_cached (l ++ [{| ly_mod := lm; ver := v |}]) lm = find_cached l lm.
Proof.
  induction l as [|a l IH]; cbn [app find find_cached ly_mod]; intro F.
  - now rewrite String.eqb_refl.
  - destruct (String.eqb lm (ly_mod a)); [discriminate|]. now rewrite IH.
Qed.

Lemma items_ok_add (l : list sr_mod_cache_mod_s) :
  find (fun m => String.eqb lm (ly_mod m)) l = None ->
  items_ok l (l ++ [{| ly_mod := lm; ver := 0 |}]).
Proof using shm_ver_pos.
  intro F. split; [|split].
  - now apply find_cached_app_new.
  - intros lm' Hne.
    destruct (find (fun m => String.eqb lm' (ly_mod m)) l) as [m|] eqn:F'.
    + now apply find_app_old.
    + rewrite (find_app_new l lm lm' 0 F').
      apply String.eqb_neq in Hne. now rewrite Hne.
  - intros m' H. rewrite (find_app_new l lm lm 0 F), String.eqb_refl in H.
    inversion H; subst. left. cbn [ver]. lia.
Qed.

(** A run continues another one when it adds steps in order and leaves the
    items in order. *)
Definition continues (r r' : run) : Prop :=
  items_ok (mods (cache r)) (mods (cache r'))
  /\ exists tr, trace r' = trace r ++ tr /\ Forall step_ok tr.

Lemma continues_refl (r : run) : continues r r.
Proof.
  split; [apply items_ok_refl|]. exists []. split; [now rewrite app_nil_r | constructor].
Qed.

Lemma continues_trans (a b c : run) : continues a b -> continues b c -> continues a c.
Proof.
  intros [A1 [t1 [A2 A3]]] [B1 [t2 [B2 B3]]]. split; [eapply items_ok_trans; eauto|].
  exists (t1 ++ t2). split; [now rewrite B2, A2, app_assoc | now apply Forall_app].
Qed.

Lemma continues_emit (r : run) (op : cache_op) (c' : sr_mod_cache_s) :
  items_ok (mods (cache r)) (mods c') ->
  step_ok (lock (cache r), op) ->
  continues r (emit r op c').
Proof.
  intros Hi Hs. split; [exact Hi|]. exists [(lock (cache r), op)].
  split; [reflexivity | now constructor].
Qed.

Lemma step_ok_lock (h m : sr_lock_mode_t) (b : bool) : step_ok (h, OpLock m b).
Proof. split; [discriminate | intros lm' v H; discriminate H]. Qed.

Lemma step_ok_unlock (h m : sr_lock_mode_t) : step_ok (h, OpUnlock m).
Proof. split; [discriminate | intros lm' v H; discriminate H]. Qed.

Lemma step_ok_write (op : cache_op) :
  (forall lm' v, op = OpSetVer lm' v -> lm' = lm /\ 0 <= v <= shm_ver) ->
  step_ok (SR_LOCK_WRITE, op).
Proof. intro H. split; [reflexivity | exact H]. Qed.

Lemma error_rlock_continues (read_locked : bool) (r r' : run) (e e' : option sr_error_t) :
  error_rlock read_locked r e = (r', e') -> continues r r'.
Proof.
  unfold error_rlock. destruct read_locked.
  - destruct read_lock; intro H; inversion H; subst;
      (apply continues_emit; [apply items_ok_refl | apply step_ok_lock]).
  - intro H. inversion H; subst. apply continues_refl.
Qed.

Lemma error_wrunlock_continues (read_locked : bool) (r r' : run)
  (e e' : option sr_error_t) :
  error_wrunlock read_locked r e = (r', e') -> continues r r'.
Proof.
  unfold error_wrunlock. intro H. apply error_rlock_continues in H.
  eapply continues_trans; [|exact H].
  apply continues_emit; [apply items_ok_refl | apply step_ok_unlock].
Qed.

Lemma relock_write_continues (read_locked : bool) (r r' : run) (e : option sr_error_t) :
  relock_write read_locked r = (r', e) ->
  continues r r'
  /\ mods (cache r') = mods (cache r)
  /\ (e = None -> lock (cache r') = SR_LOCK_WRITE).
Proof.
  unfold relock_write.
  set (r0 := if read_locked
             then emit r (OpUnlock SR_LOCK_READ) (with_lock (cache r) SR_LOCK_NONE) else r).
  assert (C0 : continues r r0).
  { unfold r0. destruct read_locked; [|apply continues_refl].
    apply continues_emit; [apply items_ok_refl | apply step_ok_unlock]. }
  assert (M0 : mods (cache r0) = mods (cache r)).
  { unfold r0. destruct read_locked; reflexivity. }
  destruct write_lock; intro H; inversion H; subst; split;
    try (eapply continues_trans; [exact C0|];
         apply continues_emit; [apply items_ok_refl | apply step_ok_lock]).
  - split; [exact M0 | discriminate].
  - split; [exact M0 | reflexivity].
Qed.

Lemma append_current_continues (upd : forest) (read_locked : bool) (r r' : run)
  (e : option sr_error_t) :
  (ver_at (cache r) (find_cached (mods (cache r)) lm) = 0 -> lock (cache r) = SR_LOCK_WRITE) ->
  append_current lm shm_ver upd read_locked (find_cached (mods (cache r)) lm) r = (r', e) ->
  continues r r'.
Proof using shm_ver_pos.
  intros Hl. unfold append_current.
  destruct (ver_at (cache r) (find_cached (mods (cache r)) lm) =? 0) eqn:V.
  2:{ intro H. inversion H; subst. apply continues_refl. }
  apply Z.eqb_eq in V. specialize (Hl V).
  assert (G : forall d e0,
            error_wrunlock read_locked
              (emit (emit r (OpInsertData lm d)
                       (with_data (cache r) (lyd_insert_sibling (data (cache r)) d)))
                 (OpSetVer lm shm_ver)
                 (with_mods
                    (cache (emit r (OpInsertData lm d)
                              (with_data (cache r) (lyd_insert_sibling (data (cache r)) d))))
                    (upd_ver
                       (mods (cache (emit r (OpInsertData lm d)
                                (with_data (cache r)
                                   (lyd_insert_sibling (data (cache r)) d)))))
                       (find_cached (mods (cache r)) lm) shm_ver))) e0 = (r', e) ->
            continues r r').
  { intros d e0 H. apply error_wrunlock_continues in H.
    eapply continues_trans; [|exact H].
    apply (continues_trans _
             (emit r (OpInsertData lm d)
                (with_data (cache r) (lyd_insert_sibling (data (cache r)) d)))).
    - apply continues_emit; [apply items_ok_refl|].
      rewrite Hl. apply step_ok_write. intros lm' v C. discriminate C.
    - apply continues_emit.
      + cbn [emit cache with_data with_mods mods]. apply items_ok_upd. lia.
      + cbn [emit cache with_data lock]. rewrite Hl. apply step_ok_write.
        intros lm' v C. inversion C; subst. split; [reflexivity | lia]. }
  destruct upd as [|x upd].
  - destruct (running_file lm) as [e0|d]; [apply error_wrunlock_continues | apply G].
  - destruct (lyd_dup_siblings (x :: upd)); [apply G | apply error_wrunlock_continues].
Qed.

(** Every path of the update keeps the steps and the items in order; a path
    that returns has passed the assert on the versions. *)
Lemma update_continues (c : sr_mod_cache_s) (upd : forest) (read_locked : bool)
  (r : run) (e : option sr_error_t) :
  sr_modcache_module_running_update c lm shm_ver upd read_locked = Val (r, e) ->
  continues {| cache := c; trace := [] |} r
  /\ (forall v, cached_ver c lm = Some v -> v <= shm_ver).
Proof using shm_ver_pos.
  unfold sr_modcache_module_running_update.
  rewrite find_cached_found, ver_at_cached. unfold cached_ver.
  destruct (relock_write read_locked {| cache := c; trace := [] |}) as [r1 e1] eqn:L.
  apply relock_write_continues in L. destruct L as [C1 [M1 L1]]. cbn [cache] in M1.
  destruct (find (fun m => String.eqb lm (ly_mod m)) (mods c)) as [m|] eqn:F;
    cbn [option_map].
  - destruct (negb (shm_ver >=? ver m)) eqn:A; [discriminate|].
    apply negb_false_iff in A. rewrite Z.geb_leb in A. apply Z.leb_le in A.
    intro H. split; [|intros v Hv; inversion Hv; subst; exact A].
    destruct (shm_ver >? ver m) eqn:G.
    + destruct e1 as [e1|].
      * inversion H as [H']. apply error_rlock_continues in H'.
        eapply continues_trans; eauto.
      * specialize (L1 eq_refl). inversion H as [H']. clear H.
        set (r2 := emit r1 (OpFreeData lm)
                     (with_data (cache r1)
                        (snd (sr_module_data_unlink (data (cache r1)) lm false)))) in *.
        set (r3 := emit r2 (OpSetVer lm 0)
                     (with_mods (cache r2)
                        (upd_ver (mods (cache r2)) (find_cached (mods c) lm) 0))) in *.
        assert (C2 : continues r1 r2).
        { apply continues_emit; [apply items_ok_refl|]. rewrite L1.
          apply step_ok_write. intros lm' v C. discriminate C. }
        assert (C3 : continues r2 r3).
        { apply continues_emit.
          - cbn [r2 emit cache with_data mods]. rewrite M1. apply items_ok_upd. lia.
          - cbn [r2 emit cache with_data lock]. rewrite L1. apply step_ok_write.
            intros lm' v C. inversion C; subst. split; [reflexivity | lia]. }
        assert (E3 : find_cached (mods (cache r3)) lm = find_cached (mods c) lm).
        { cbn [r3 r2 emit cache with_mods with_data mods].
          rewrite find_cached_upd_ver. now rewrite M1. }
        assert (H'' : append_current lm shm_ver upd read_locked
                        (find_cached (mods (cache r3)) lm) r3 = (r, e))
          by (rewrite E3; exact H').
        clear H'. rename H'' into H'. apply append_current_continues in H'.
        -- eapply continues_trans; [exact C1|].
           eapply continues_trans; [exact C2|]. eapply continues_trans; eauto.
        -- intros _. cbn [r3 r2 emit cache with_mods with_data lock]. exact L1.
    + inversion H as [H']. clear H.
      change (find_cached (mods c) lm)
        with (find_cached (mods (cache {| cache := c; trace := [] |})) lm) in H'.
      apply append_current_continues in H'; [exact H'|].
      cbn [cache]. rewrite ver_at_cached. unfold cached_ver. rewrite F. cbn [option_map].
      intro V. exfalso. rewrite Z.gtb_ltb in G. apply Z.ltb_ge in G. lia.
  - intro H. split; [|intros v Hv; discriminate Hv].
    destruct e1 as [e1|].
    + inversion H as [H']. apply error_rlock_continues in H'.
      eapply continues_trans; eauto.
    + specialize (L1 eq_refl). destruct realloc_ok.
      2:{ inversion H; subst. exact C1. }
      inversion H as [H']. clear H.
      set (r2 := emit r1 (OpAddItem lm)
                   (with_mods (cache r1)
                      (mods (cache r1) ++ [{| ly_mod := lm; ver := 0 |}]))) in *.
      assert (C2 : continues r1 r2).
      { apply continues_emit.
        - cbn [with_mods mods]. rewrite M1. now apply items_ok_add.
        - rewrite L1. apply step_ok_write. intros lm' v C. discriminate C. }
      assert (E2 : find_cached (mods (cache r2)) lm = find_cached (mods c) lm).
      { cbn [r2 emit cache with_mods mods]. rewrite M1. now apply find_cached_app_new. }
      assert (H'' : append_current lm shm_ver upd read_locked
                      (find_cached (mods (cache r2)) lm) r2 = (r, e))
        by (rewrite E2; exact H').
      clear H'. rename H'' into H'. apply append_current_continues in H'.
      * eapply continues_trans; [exact C1|]. eapply continues_trans; eauto.
      * intros _. cbn [r2 emit cache with_mods lock]. exact L1.
Qed.

End Bounds.

(** The paths of the cache update on which nothing fails, an absent item
    counting as version 0 (the version of a descriptor is documented
    non-zero): with equal versions nothing is done; with a cached version
    below the descriptor's, when locking, allocation and the source of the
    data do not fail, the stale tree is dropped under the WRITE lock, the
    data handed in (or else the data of the running file) are installed, and
    the cached version becomes the descriptor's.  On every path that returns,
    the cache is changed only under the WRITE lock, the versions written for
    the module lie between 0 and the descriptor's, the cached version does
    not exceed the descriptor's (given the assertion of the function), and
    the other modules keep their cached version.  What happens when a step
    fails is the matter of [sr_modcache_module_running_update_error_lost]. *)
Theorem sr_modcache_module_running_update_coherent
  (mod_cache : sr_mod_cache_s) (lm : string) (shm_ver : Z) (upd_mod_data : forest)
  (read_locked : bool) :
  0 < shm_ver ->
  (cached_ver mod_cache lm = Some shm_ver ->
   sr_modcache_module_running_update mod_cache lm shm_ver upd_mod_data read_locked
   = Val ({| cache := mod_cache; trace := [] |}, None))
  /\ (forall new_data,
        lock mod_cache = held read_locked ->
        match cached_ver mod_cache lm with Some v => v < shm_ver | None => True end ->
        write_lock = None -> read_lock = None -> realloc_ok = true ->
        current_data lm upd_mod_data = Some new_data ->
        exists r,
          sr_modcache_module_running_update mod_cache lm shm_ver upd_mod_data read_locked
          = Val (r, None)
          /\ cached_ver (cache r) lm = Some shm_ver
          /\ data (cache r)
             = match cached_ver mod_cache lm with
               | Some _ => snd (sr_module_data_unlink (data mod_cache) lm false)
               | None => data mod_cache
               end ++ new_data
          /\ lock (cache r) = lock mod_cache
          /\ trace r
             = refresh_trace lm shm_ver
                 (match cached_ver mod_cache lm with Some _ => true | None => false end)
                 read_locked new_data)
  /\ (forall r e,
        sr_modcache_module_running_update mod_cache lm shm_ver upd_mod_data read_locked
        = Val (r, e) ->
        Forall (fun s : step => is_mutation (snd s) = true -> fst s = SR_LOCK_WRITE) (trace r)
        /\ Forall (fun s : step => forall lm' v, snd s = OpSetVer lm' v ->
                                                 lm' = lm /\ 0 <= v <= shm_ver) (trace r)
        /\ (forall v, cached_ver mod_cache lm = Some v -> v <= shm_ver)
        /\ (forall v, cached_ver (cache r) lm = Some v -> v <= shm_ver)
        /\ (forall lm', lm' <> lm -> cached_ver (cache r) lm' = cached_ver mod_cache lm')).
Proof.
  intro Hpos. split; [|split].
  - intro Hc. apply update_fresh; [lia | exact Hc].
  - intros new_data. now apply update_refresh.
  - intros r e H. apply (update_continues lm shm_ver Hpos) in H.
    destruct H as [[[I1 [I2 I3]] [tr [Et Ft]]] Hassert]. cbn [cache trace mods app] in *.
    subst tr. split; [|split; [|split; [|split]]].
    + eapply Forall_impl; [|exact Ft]. intros s [Hs _]. exact Hs.
    + eapply Forall_impl; [|exact Ft]. intros s [_ Hs]. exact Hs.
    + exact Hassert.
    + intros v Hv. unfold cached_ver in Hv.
      destruct (find (fun m => String.eqb lm (ly_mod m)) (mods (cache r))) as [m'|] eqn:F;
        [|discriminate].
      inversion Hv; subst. destruct (I3 m' eq_refl) as [C|C]; [lia|].
      apply Hassert. unfold cached_ver. now rewrite C.
    + intros lm' Hne. unfold cached_ver. now rewrite I2.
Qed.

End Cache.

(** *** A cache that holds version 1 of [m1], against a descriptor at 2 *)

Local Open Scope string_scope.

Definition ex_cache : sr_mod_cache_s string :=
  {| mods := [{| ly_mod := "m0"; ver := 3 |}; {| ly_mod := "m1"; ver := 1 |}];
     data := [("m0", "x=0"); ("m1", "a=1")];
     lock := SR_LOCK_READ |}.

Example ex_cache_refresh :
  sr_modcache_module_running_update string None None true (fun d => Some d)
    (fun _ => inl SR_ERR_SYS) ex_cache "m1" 2 [("m1", "a=2")] true
  = Val ({| cache :=
              {| mods := [{| ly_mod := "m0"; ver := 3 |}; {| ly_mod := "m1"; ver := 2 |}];
                 data := [("m0", "x=0"); ("m1", "a=2")];
                 lock := SR_LOCK_READ |};
            trace := refresh_trace string "m1" 2 true true [("m1", "a=2")] |}, None).
Proof. vm_compute. reflexivity. Qed.

(** With the READ lock held by the caller, the function reports no failure
    but the one of [realloc]: every other error passes the label
    [error_rlock], where the result of taking the READ lock again is assigned
    to [err_info]. *)
Lemma running_update_read_locked (lyd_node : Type) (write_lock : option sr_error_t)
  (realloc_ok : bool) (lyd_dup_siblings : forest lyd_node -> option (forest lyd_node))
  (running_file : string -> sr_error_t + forest lyd_node)
  (mod_cache : sr_mod_cache_s lyd_node) (lm : string) (shm_ver : Z)
  (upd_mod_data : forest lyd_node) (r : run lyd_node) (e : option sr_error_t) :
  sr_modcache_module_running_update lyd_node write_lock None realloc_ok lyd_dup_siblings
    running_file mod_cache lm shm_ver upd_mod_data true = Val (r, e) ->
  e = None \/ e = Some SR_ERR_NOMEM.
Proof.
  assert (A : forall i r0 r1 e1,
             append_current lyd_node None lyd_dup_siblings running_file lm shm_ver
               upd_mod_data true i r0 = (r1, e1) -> e1 = None).
  { intros i r0 r1 e1. unfold append_current, error_wrunlock, error_rlock.
    destruct (ver_at _ _ _ =? 0)%Z; [|intro H; injection H as _ <-; reflexivity].
    destruct upd_mod_data as [|x u].
    - destruct (running_file lm) as [err|d]; intro H; injection H as _ <-; reflexivity.
    - destruct (lyd_dup_siblings (x :: u)) as [d|]; intro H; injection H as _ <-;
        reflexivity. }
  assert (B : forall r0 (err : sr_error_t) r1 e1,
             Val (error_rlock lyd_node None true r0 (Some err)) = Val (r1, e1) -> e1 = None).
  { intros r0 err r1 e1 H. unfold error_rlock in H. injection H as _ <-. reflexivity. }
  assert (C : forall r0 r1 e1,
             Val (append_current lyd_node None lyd_dup_siblings running_file lm shm_ver
                    upd_mod_data true (find_cached (mods lyd_node mod_cache) lm) r0)
             = Val (r1, e1) -> e1 = None).
  { intros r0 r1 e1 H. injection H as H. exact (A _ _ _ _ H). }
  unfold sr_modcache_module_running_update.
  destruct (_ <? _)%nat.
  - destruct (negb _); [discriminate|].
    destruct (_ >? _)%Z.
    + destruct (relock_write lyd_node write_lock true _) as [r0 [err|]]; intro H; left.
      * exact (B _ _ _ _ H).
      * exact (C _ _ _ H).
    + intro H. left. exact (C _ _ _ H).
  - destruct (relock_write lyd_node write_lock true _) as [r0 [err|]].
    + intro H. left. exact (B _ _ _ _ H).
    + destruct realloc_ok; intro H.
      * left. exact (C _ _ _ H).
      * injection H as _ <-. right. reflexivity.
Qed.

(** C4. The cache holds version 1 of [m1], the descriptor is at version 2 and
    the caller holds the READ lock, so the claim calls for a refresh.  When
    the WRITE lock is not acquired, the function takes the READ lock again at
    the label [error_rlock] and assigns the result to [err_info]: it returns
    NULL with version 1 and the stale data still cached.  When
    [lyd_dup_siblings] fails, or when no data are handed in and the running
    file cannot be read, the stale tree has been dropped and the version set
    to 0 already; nothing is installed and NULL is returned all the same.
    With the READ lock held by the caller no failure but the one of
    [realloc] is ever returned. *)
Theorem sr_modcache_module_running_update_error_lost :
  sr_modcache_module_running_update string (Some SR_ERR_TIME_OUT) None true
    (fun d => Some d) (fun _ => inl SR_ERR_SYS) ex_cache "m1" 2 [("m1", "a=2")] true
  = Val ({| cache := ex_cache;
            trace := [(SR_LOCK_READ, OpUnlock string SR_LOCK_READ);
                      (SR_LOCK_NONE, OpLock string SR_LOCK_WRITE false);
                      (SR_LOCK_NONE, OpLock string SR_LOCK_READ true)] |}, None)
  /\ (forall upd running_file,
        upd = [("m1", "a=2")] \/ (upd = [] /\ running_file "m1" = inl SR_ERR_SYS) ->
        exists r,
          sr_modcache_module_running_update string None None true (fun _ => None)
            running_file ex_cache "m1" 2 upd true = Val (r, None)
          /\ cache string r
             = {| mods := [{| ly_mod := "m0"; ver := 3 |}; {| ly_mod := "m1"; ver := 0 |}];
                  data := [("m0", "x=0")];
                  lock := SR_LOCK_READ |})
  /\ (forall (lyd_node : Type) write_lock realloc_ok lyd_dup_siblings running_file
        (mod_cache : sr_mod_cache_s lyd_node) lm shm_ver upd_mod_data r e,
        sr_modcache_module_running_update lyd_node write_lock None realloc_ok
          lyd_dup_siblings running_file mod_cache lm shm_ver upd_mod_data true
        = Val (r, e) ->
        e = None \/ e = Some SR_ERR_NOMEM).
Proof.
  split; [vm_compute; reflexivity|]. split.
  - intros upd running_file [->|[-> F]].
    + eexists. split; vm_compute; reflexivity.
    + eexists. split.
      * unfold sr_modcache_module_running_update. cbn. rewrite F. reflexivity.
      * reflexivity.
  - intros lyd_node wl ro dup rf c lm v upd r e. apply running_update_read_locked.
Qed.

Lemma sr_modcache_module_running_update_coherent_witness :
  exists r,
    sr_modcache_module_running_update string None None true (fun d => Some d)
      (fun _ => inl SR_ERR_SYS) ex_cache "m1" 2 [("m1", "a=2")] true = Val (r, None)
    /\ cached_ver string (cache string r) "m1" = Some 2
    /\ data string (cache string r) = [("m0", "x=0"); ("m1", "a=2")]
    /\ lock string (cache string r) = SR_LOCK_READ
    /\ trace string r = refresh_trace string "m1" 2 true true [("m1", "a=2")].
Proof.
  apply (proj1 (proj2
           (sr_modcache_module_running_update_coherent string None None true
              (fun d => Some d) (fun _ => inl SR_ERR_SYS) ex_cache "m1" 2 [("m1", "a=2")]
              true ltac:(lia))) [("m1", "a=2")]).
  - reflexivity.
  - vm_compute. reflexivity.
  - reflexivity.
  - reflexivity.
  - reflexivity.
  - reflexivity.
Defined.

End Cache.

(** ** The datastore writer ([sr_modinfo_data_store], [sr_module_file_data_set]) *)

Module Store.

Local Open Scope Z_scope.

(** What a datastore file of a module holds: nothing (no file), the printed
    data of a complete write, or the remains of a write that failed after the
    file was opened with [O_TRUNC]. *)
Inductive file (data : Type) : Type :=
| NoFile
| FileData (d : data)
| FileTorn.
Arguments NoFile {data}.
Arguments FileData {data} d.
Arguments FileTorn {data}.

(** How a call of [sr_module_file_data_set] ended. *)
Inductive file_set_result : Type :=
| OpenFailed
| PrintFailed
| Written.

(** What the writer does to the files and to the descriptors, in order. *)
Inductive event : Type :=
| EvFileSet (mod_name : string) (ds : sr_datastore_t) (res : file_set_result)
| EvVerIncr (mod_name : string) (new_ver : Z)
| EvCacheUpdate (mod_name : string).

Section Store.

Variable lyd_node : Type.

Local Abbreviation forest := (Cache.forest lyd_node).

(** The environment.  Files: whether [open] for reading and for writing is
    permitted (apart from the file being there), whether printing goes through,
    and what parsing makes of a file that a failed write left behind; the
    paths are taken to be built without running out of memory.  Data library:
    merging and updating the stored operational diff, adding implicit nodes.
    Cache: its lock, allocation and copying (see [Cache]). *)
Variable open_rd_permitted : string -> sr_datastore_t -> bool.
Variable open_wr_permitted : string -> sr_datastore_t -> bool.
Variable print_ok : string -> sr_datastore_t -> forest -> bool.
Variable parse_torn : string -> sr_datastore_t -> sr_error_t + forest.
Variable lyd_diff_merge_module : forest -> forest -> string -> option forest.
Variable lyd_new_implicit_module : forest -> string -> option forest.
Variable sr_diff_mod_update : forest -> string -> forest -> sr_error_t + forest.
Variable conn_cache_running : bool.
Variable cache_write_lock : option sr_error_t.
Variable cache_read_lock : option sr_error_t.
Variable cache_realloc_ok : bool.
Variable lyd_dup_siblings : forest -> option forest.

Definition files_t : Type := string -> sr_datastore_t -> file forest.

Definition set_file (fs : files_t) (n : string) (ds : sr_datastore_t) (f : file forest)
  : files_t :=
  fun n' ds' => if String.eqb n' n && ds_eqb ds' ds then f else fs n' ds'.

(** [++mod->shm_mod->ver] on a [uint32_t]. *)
Definition incr_ver (v : Z) : Z := (v + 1) mod 2 ^ 32.

Definition set_ver (vs : string -> Z) (n : string) (v : Z) : string -> Z :=
  fun n' => if String.eqb n' n then v else vs n'.

(** [sr_module_file_data_set]: the file is opened with
    [O_WRONLY | O_TRUNC | create_flags], which empties it, and the data are
    printed into it. *)
Definition sr_module_file_data_set (fs : files_t) (mod_name : string) (ds : sr_datastore_t)
  (mod_data : forest) (o_creat : bool) : files_t * file_set_result :=
  let present := match fs mod_name ds with NoFile => false | _ => true end in
  if negb ((present || o_creat) && open_wr_permitted mod_name ds) then (fs, OpenFailed)
  else if print_ok mod_name ds mod_data
       then (set_file fs mod_name ds (FileData mod_data), Written)
       else (set_file fs mod_name ds FileTorn, PrintFailed).

Definition file_set_error (res : file_set_result) : option sr_error_t :=
  match res with
  | OpenFailed => Some SR_ERR_SYS
  | PrintFailed => Some SR_ERR_INTERNAL
  | Written => None
  end.

(** [open(path, O_RDONLY)] and [lyd_parse_data_fd] in
    [sr_module_file_data_append]: what is read from the file of a module.  A
    missing candidate file falls back to the running one. *)
Definition file_read (fs : files_t) (mod_name : string) (ds : sr_datastore_t)
  : sr_error_t + forest :=
  let read ds :=
    match fs mod_name ds with
    | NoFile => inl SR_ERR_SYS
    | FileData d => if open_rd_permitted mod_name ds then inr d else inl SR_ERR_SYS
    | FileTorn => if open_rd_permitted mod_name ds then parse_torn mod_name ds else inl SR_ERR_SYS
    end in
  match ds, fs mod_name ds with
  | SR_DS_CANDIDATE, NoFile => read SR_DS_RUNNING
  | _, _ => read ds
  end.

(** [sr_module_file_data_append]: what is read is appended to the tree. *)
Definition sr_module_file_data_append (fs : files_t) (mod_name : string)
  (ds : sr_datastore_t) (tree : forest) : sr_error_t + forest :=
  match file_read fs mod_name ds with
  | inl e => inl e
  | inr d => inr (Cache.lyd_insert_sibling lyd_node tree d)
  end.

(** The state of the writer: the files, the versions of the descriptors, the
    cache of the connection, the trees [mod_info->data] and [diff], the
    pending [err_info], and the events so far. *)
Record state : Type := {
  files : files_t;
  vers : string -> Z;
  mod_cache : Cache.sr_mod_cache_s lyd_node;
  data : forest;
  diff : forest;
  err_info : option sr_error_t;
  log : list event
}.

Definition with_files (s : state) (fs : files_t) (ev : event) : state :=
  {| files := fs; vers := vers s; mod_cache := mod_cache s; data := data s;
     diff := diff s; err_info := err_info s; log := log s ++ [ev] |}.

Definition with_ver (s : state) (n : string) : state :=
  {| files := files s; vers := set_ver (vers s) n (incr_ver (vers s n));
     mod_cache := mod_cache s; data := data s; diff := diff s; err_info := err_info s;
     log := log s ++ [EvVerIncr n (incr_ver (vers s n))] |}.

Definition with_cache (s : state) (n : string) (c : Cache.sr_mod_cache_s lyd_node)
  (e : option sr_error_t) : state :=
  {| files := files s; vers := vers s; mod_cache := c; data := data s; diff := diff s;
     err_info := e; log := log s ++ [EvCacheUpdate n] |}.

Definition with_data (s : state) (d : forest) : state :=
  {| files := files s; vers := vers s; mod_cache := mod_cache s; data := d;
     diff := diff s; err_info := err_info s; log := log s |}.

Definition with_diff (s : state) (d : forest) : state :=
  {| files := files s; vers := vers s; mod_cache := mod_cache s; data := data s;
     diff := d; err_info := err_info s; log := log s |}.

Definition with_err (s : state) (e : option sr_error_t) : state :=
  {| files := files s; vers := vers s; mod_cache := mod_cache s; data := data s;
     diff := diff s; err_info := e; log := log s |}.

(** One iteration ends by going on with the loop or by [goto cleanup]. *)
Inductive flow : Type :=
| Continue (s : state)
| Cleanup (s : state).

(** [err_info = sr_module_file_data_set(...)] with its event. *)
Definition file_data_set (s : state) (n : string) (ds : sr_datastore_t) (d : forest)
  (o_creat : bool) : state :=
  let '(fs, res) := sr_module_file_data_set (files s) n ds d o_creat in
  with_err (with_files s fs (EvFileSet n ds res)) (file_set_error res).

(** The branch of the operational datastore. *)
Definition store_operational (s : state) (n : string) (mi_diff : forest) : flow :=
  match sr_module_file_data_append (files s) n SR_DS_OPERATIONAL (diff s) with
  | inl e => Cleanup (with_err s (Some e))
  | inr d =>
      let s := with_err (with_diff s d) None in
      match lyd_diff_merge_module (diff s) mi_diff n with
      | None => Cleanup (with_err s (Some SR_ERR_LY))
      | Some d =>
          let s := file_data_set (with_diff s d) n SR_DS_OPERATIONAL d false in
          match err_info s with
          | Some _ => Cleanup s
          | None => Continue (with_diff s [])
          end
      end
  end.

(** After the data of a running module were written: the stored operational
    diff is brought up to date. *)
Definition update_stored_diff (s : state) (n : string) (mod_data : forest) : flow :=
  match sr_module_file_data_append (files s) n SR_DS_OPERATIONAL (diff s) with
  | inl e => Cleanup (with_err s (Some e))
  | inr d =>
      let s := with_err (with_diff s d) None in
      match diff s with
      | [] => Continue s
      | _ :: _ =>
          match lyd_new_implicit_module mod_data n with
          | None => Cleanup (with_err s (Some SR_ERR_LY))
          | Some mod_data =>
              match sr_diff_mod_update (diff s) n mod_data with
              | inl e => Cleanup (with_err s (Some e))
              | inr d =>
                  let s := file_data_set (with_diff s d) n SR_DS_OPERATIONAL d false in
                  match err_info s with
                  | Some _ => Cleanup s
                  | None => Continue (with_diff s [])
                  end
              end
          end
      end
  end.

(** [sr_errinfo_merge(&err_info, tmp_err_info)]: the first error stays in
    front. *)
Definition sr_errinfo_merge (err_info tmp_err_info : option sr_error_t) : option sr_error_t :=
  match err_info with
  | Some e => Some e
  | None => tmp_err_info
  end.

(** [++mod->shm_mod->ver] and the update of the cache that follows it when
    the connection caches running data. *)
Definition update_version (s : state) (n : string) (mod_data : forest) : outcome state :=
  let s := with_ver s n in
  if conn_cache_running then
    match Cache.sr_modcache_module_running_update lyd_node
            cache_write_lock cache_read_lock cache_realloc_ok lyd_dup_siblings
            (fun lm => file_read (files s) lm SR_DS_RUNNING)
            (mod_cache s) n (vers s n) mod_data false with
    | Val (r, tmp_err_info) =>
        Val (with_cache s n (Cache.cache lyd_node r)
               (sr_errinfo_merge (err_info s) tmp_err_info))
    | Err e => Err e
    | AssertFail => AssertFail
    | Fault => Fault
    | OutOfFuel => OutOfFuel
    end
  else Val s.

(** The branch of a conventional datastore. *)
Definition store_conventional (s : state) (ds : sr_datastore_t) (n : string) (o_creat : bool)
  : outcome flow :=
  let '(mod_data, rest) := Cache.sr_module_data_unlink lyd_node (data s) n false in
  let s := file_data_set (with_data s rest) n ds mod_data o_creat in
  match err_info s with
  | Some _ => Val (Cleanup s)
  | None =>
      s <- (if ds_eqb ds SR_DS_RUNNING then update_version s n mod_data else Val s) ;;
      let s := with_data s (Cache.lyd_insert_sibling lyd_node (data s) mod_data) in
      if ds_eqb ds SR_DS_RUNNING then Val (update_stored_diff s n mod_data)
      else Val (Continue s)
  end.

(** The [for] loop of [sr_modinfo_data_store]; yields the state at the label
    [cleanup]. *)
Fixpoint store_loop (ds : sr_datastore_t) (mi_diff : forest)
  (l : list ModInfo.sr_mod_info_mod_s) (s : state) : outcome state :=
  match l with
  | [] => Val s
  | m :: l' =>
      if negb (Z.land (ModInfo.state m) ModInfo.MOD_INFO_CHANGED =? 0) then
        f <-
          (if ds_eqb ds SR_DS_OPERATIONAL
           then Val (store_operational s (ModInfo.ly_mod m) mi_diff)
           else store_conventional s ds (ModInfo.ly_mod m) (ds_eqb ds SR_DS_CANDIDATE)) ;;
        match f with
        | Continue s => store_loop ds mi_diff l' s
        | Cleanup s => Val s
        end
      else store_loop ds mi_diff l' s
  end.

(** [sr_modinfo_data_store]: [mi_data] and [mi_diff] are the trees
    [mod_info->data] and [mod_info->diff]; [fs], [vs] and [c] are the files,
    the versions of the descriptors and the cache before the call. *)
Definition sr_modinfo_data_store (mod_info : ModInfo.sr_mod_info_s) (mi_data mi_diff : forest)
  (fs : files_t) (vs : string -> Z) (c : Cache.sr_mod_cache_s lyd_node) : outcome state :=
  if ModInfo.data_cached mod_info then AssertFail
  else
    store_loop (ModInfo.ds mod_info) mi_diff (ModInfo.mods mod_info)
      {| files := fs; vers := vs; mod_cache := c; data := mi_data; diff := [];
         err_info := None; log := [] |}.

(** *** The order of file writes and version increments *)

(** The events that neither write a running file to the end nor increment a
    version. *)
Definition neutral (e : event) : bool :=
  match e with
  | EvFileSet _ SR_DS_RUNNING Written => false
  | EvVerIncr _ _ => false
  | _ => true
  end.

(** In the log every completed write of a running file is followed at once by
    the increment of the version of the same module, and there is no other
    increment. *)
Fixpoint write_then_bump (l : list event) : bool :=
  match l with
  | [] => true
  | EvFileSet n SR_DS_RUNNING Written :: EvVerIncr n' _ :: l' =>
      String.eqb n n' && write_then_bump l'
  | EvFileSet _ SR_DS_RUNNING Written :: _ => false
  | EvVerIncr _ _ :: _ => false
  | _ :: l' => write_then_bump l'
  end.

Definition is_running_write (n : string) (e : event) : bool :=
  match e with
  | EvFileSet n' SR_DS_RUNNING Written => String.eqb n' n
  | _ => false
  end.

(** The number of completed writes of the running file of a module. *)
Definition running_writes (n : string) (l : list event) : Z :=
  Z.of_nat (List.length (filter (is_running_write n) l)).

Lemma write_then_bump_neutral (e : event) (l : list event) :
  neutral e = true -> write_then_bump (e :: l) = write_then_bump l.
Proof.
  destruct e as [n ds res| |]; cbn; try discriminate; try reflexivity.
  destruct ds, res; cbn; try discriminate; reflexivity.
Qed.

Lemma write_then_bump_app_aux (l1 : list event) :
  (forall l2, write_then_bump l1 = true ->
     write_then_bump (l1 ++ l2) = write_then_bump l2) /\
  (forall e l2, write_then_bump (e :: l1) = true ->
     write_then_bump ((e :: l1) ++ l2) = write_then_bump l2).
Proof.
  induction l1 as [|a l1 [IH1 IH2]].
  - split; [reflexivity|].
    intros e l2 H. destruct (neutral e) eqn:N.
    + cbn [app]. apply write_then_bump_neutral. exact N.
    + destruct e as [n ds res| |]; try discriminate.
      destruct ds, res; discriminate.
  - split; [intros l2 H; apply IH2; exact H|].
    intros e l2 H. destruct (neutral e) eqn:N.
    + rewrite write_then_bump_neutral in H by exact N.
      cbn [app]. rewrite write_then_bump_neutral by exact N.
      apply (IH2 a l2 H).
    + destruct e as [n ds res| |]; try discriminate.
      destruct ds, res; try discriminate.
      destruct a as [| n' v |]; try discriminate.
      cbn in H |- *. apply andb_prop in H. destruct H as [E H].
      rewrite E. cbn. apply IH1. exact H.
Qed.

Lemma write_then_bump_app (l1 l2 : list event) :
  write_then_bump l1 = true -> write_then_bump (l1 ++ l2) = write_then_bump l2.
Proof. apply write_then_bump_app_aux. Qed.

Lemma running_writes_app (n : string) (l1 l2 : list event) :
  running_writes n (l1 ++ l2) = running_writes n l1 + running_writes n l2.
Proof.
  unfold running_writes. rewrite filter_app, length_app, Nat2Z.inj_add. reflexivity.
Qed.

Lemma running_writes_neutral (n : string) (e : event) :
  neutral e = true -> running_writes n [e] = 0.
Proof.
  destruct e as [n' ds res| |]; try reflexivity.
  destruct ds, res; try reflexivity. discriminate.
Qed.

Lemma running_writes_nonneg (n : string) (l : list event) : 0 <= running_writes n l.
Proof. unfold running_writes. lia. Qed.

(** What holds of the state of the writer all along: [vs] are the versions
    before the call, [ds] the datastore written, [ok] the modules the loop is
    to store. *)
Definition inv (ds : sr_datastore_t) (ok : string -> Prop) (vs : string -> Z) (s : state)
  : Prop :=
  write_then_bump (log s) = true /\
  (forall n, vers s n = (vs n + running_writes n (log s)) mod 2 ^ 32) /\
  (forall n v, In (EvVerIncr n v) (log s) -> ds = SR_DS_RUNNING /\ ok n) /\
  (ds <> SR_DS_RUNNING -> forall n, running_writes n (log s) = 0).

Lemma inv_same (ds : sr_datastore_t) (ok : string -> Prop) (vs : string -> Z) (s s' : state) :
  inv ds ok vs s -> log s' = log s -> vers s' = vers s -> inv ds ok vs s'.
Proof.
  intros (A & B & C & D) L V. unfold inv. rewrite L, V.
  split; [exact A|]. split; [exact B|]. split; [exact C|exact D].
Qed.

Lemma inv_neutral (ds : sr_datastore_t) (ok : string -> Prop) (vs : string -> Z)
  (s s' : state) (e : event) :
  inv ds ok vs s -> neutral e = true -> log s' = log s ++ [e] -> vers s' = vers s ->
  inv ds ok vs s'.
Proof.
  intros (A & B & C & D) N L V. unfold inv. rewrite L, V.
  split; [|split; [|split]].
  - rewrite write_then_bump_app by exact A.
    rewrite write_then_bump_neutral by exact N. reflexivity.
  - intro n. rewrite running_writes_app, running_writes_neutral by exact N.
    rewrite Z.add_0_r. apply B.
  - intros n v H. apply in_app_or in H. destruct H as [H|[H|[]]].
    + apply (C n v H).
    + subst e. discriminate.
  - intros Hds n. rewrite running_writes_app, running_writes_neutral by exact N.
    rewrite (D Hds n). reflexivity.
Qed.

Lemma incr_ver_mod (a k : Z) :
  incr_ver ((a + k) mod 2 ^ 32) = (a + (k + 1)) mod 2 ^ 32.
Proof.
  unfold incr_ver. rewrite Zplus_mod_idemp_l. f_equal. lia.
Qed.

Lemma inv_bump (ok : string -> Prop) (vs : string -> Z) (s s' : state) (n : string) :
  inv SR_DS_RUNNING ok vs s -> ok n ->
  log s' = (log s ++ [EvFileSet n SR_DS_RUNNING Written]) ++ [EvVerIncr n (incr_ver (vers s n))] ->
  vers s' = set_ver (vers s) n (incr_ver (vers s n)) ->
  inv SR_DS_RUNNING ok vs s'.
Proof.
  intros (A & B & C & D) K L V. unfold inv. rewrite L, V. rewrite <- app_assoc.
  split; [|split; [|split]].
  - rewrite write_then_bump_app by exact A. cbn. rewrite String.eqb_refl. reflexivity.
  - intro n'. rewrite running_writes_app. unfold set_ver.
    destruct (String.eqb n' n) eqn:E.
    + apply String.eqb_eq in E. subst n'. rewrite (B n), incr_ver_mod.
      unfold running_writes at 3. cbn. rewrite String.eqb_refl. cbn.
      rewrite Z.add_assoc. reflexivity.
    + unfold running_writes at 2. cbn. rewrite String.eqb_sym, E. cbn.
      rewrite Z.add_0_r. apply B.
  - intros n' v H. apply in_app_or in H. destruct H as [H|[H|[H|[]]]].
    + apply (C n' v H).
    + discriminate.
    + injection H as <- _. split; [reflexivity|exact K].
  - intros Hds. contradiction Hds. reflexivity.
Qed.

Ltac store_simpl :=
  cbn [log vers files err_info data diff mod_cache
       with_err with_diff with_data with_files with_ver with_cache] in *.

Definition state_of (f : flow) : state :=
  match f with
  | Continue s => s
  | Cleanup s => s
  end.

Lemma file_data_set_log (s : state) (n : string) (ds : sr_datastore_t) (d : forest)
  (o_creat : bool) :
  exists res,
    log (file_data_set s n ds d o_creat) = log s ++ [EvFileSet n ds res] /\
    vers (file_data_set s n ds d o_creat) = vers s /\
    err_info (file_data_set s n ds d o_creat) = file_set_error res.
Proof.
  unfold file_data_set.
  destruct (sr_module_file_data_set (files s) n ds d o_creat) as [fs res].
  exists res. store_simpl. repeat split.
Qed.

Lemma file_data_set_inv (ds : sr_datastore_t) (ok : string -> Prop) (vs : string -> Z)
  (s : state) (n : string) (ds' : sr_datastore_t) (d : forest) (o_creat : bool) :
  inv ds ok vs s ->
  ds' <> SR_DS_RUNNING \/ err_info (file_data_set s n ds' d o_creat) <> None ->
  inv ds ok vs (file_data_set s n ds' d o_creat).
Proof.
  intros I H. destruct (file_data_set_log s n ds' d o_creat) as (res & L & V & E).
  apply (inv_neutral ds ok vs s _ (EvFileSet n ds' res) I); [|exact L|exact V].
  rewrite E in H. destruct ds', res; try reflexivity.
  destruct H as [H|H]; contradiction H; reflexivity.
Qed.

Lemma store_operational_inv (ds : sr_datastore_t) (ok : string -> Prop) (vs : string -> Z)
  (s : state) (n : string) (mi_diff : forest) :
  inv ds ok vs s -> inv ds ok vs (state_of (store_operational s n mi_diff)).
Proof.
  intro I. unfold store_operational.
  destruct (sr_module_file_data_append (files s) n SR_DS_OPERATIONAL (diff s)) as [e|d].
  { apply (inv_same ds ok vs s _ I); reflexivity. }
  store_simpl. destruct (lyd_diff_merge_module d mi_diff n) as [d'|].
  2:{ apply (inv_same ds ok vs s _ I); reflexivity. }
  set (s1 := with_diff (with_err (with_diff s d) None) d').
  assert (I1 : inv ds ok vs s1) by (apply (inv_same ds ok vs s _ I); reflexivity).
  assert (I2 : inv ds ok vs (file_data_set s1 n SR_DS_OPERATIONAL d' false)).
  { apply file_data_set_inv; [exact I1|]. left. discriminate. }
  destruct (err_info (file_data_set s1 n SR_DS_OPERATIONAL d' false)); cbn [state_of].
  - exact I2.
  - apply (inv_same ds ok vs _ _ I2); reflexivity.
Qed.

Lemma update_stored_diff_inv (ds : sr_datastore_t) (ok : string -> Prop) (vs : string -> Z)
  (s : state) (n : string) (mod_data : forest) :
  inv ds ok vs s -> inv ds ok vs (state_of (update_stored_diff s n mod_data)).
Proof.
  intro I. unfold update_stored_diff.
  destruct (sr_module_file_data_append (files s) n SR_DS_OPERATIONAL (diff s)) as [e|d].
  { apply (inv_same ds ok vs s _ I); reflexivity. }
  store_simpl. destruct d as [|x d].
  { apply (inv_same ds ok vs s _ I); reflexivity. }
  destruct (lyd_new_implicit_module mod_data n) as [md|].
  2:{ apply (inv_same ds ok vs s _ I); reflexivity. }
  destruct (sr_diff_mod_update (x :: d) n md) as [e|d'].
  { apply (inv_same ds ok vs s _ I); reflexivity. }
  set (s1 := with_diff (with_err (with_diff s (x :: d)) None) d').
  assert (I1 : inv ds ok vs s1) by (apply (inv_same ds ok vs s _ I); reflexivity).
  assert (I2 : inv ds ok vs (file_data_set s1 n SR_DS_OPERATIONAL d' false)).
  { apply file_data_set_inv; [exact I1|]. left. discriminate. }
  destruct (err_info (file_data_set s1 n SR_DS_OPERATIONAL d' false)); cbn [state_of].
  - exact I2.
  - apply (inv_same ds ok vs _ _ I2); reflexivity.
Qed.

Lemma update_version_inv (ok : string -> Prop) (vs : string -> Z) (s0 s s' : state)
  (n : string) (mod_data : forest) :
  inv SR_DS_RUNNING ok vs s0 -> ok n ->
  log s = log s0 ++ [EvFileSet n SR_DS_RUNNING Written] -> vers s = vers s0 ->
  update_version s n mod_data = Val s' ->
  inv SR_DS_RUNNING ok vs s'.
Proof.
  intros I K L V H. unfold update_version in H.
  assert (I1 : inv SR_DS_RUNNING ok vs (with_ver s n)).
  { apply (inv_bump ok vs s0 _ n I K); store_simpl; rewrite ?L, ?V; reflexivity. }
  destruct conn_cache_running.
  - destruct (Cache.sr_modcache_module_running_update _ _ _ _ _ _ _ _ _ _ _)
      as [[r e]| | | |]; try discriminate.
    injection H as <-.
    apply (inv_neutral _ ok vs _ _ (EvCacheUpdate n) I1); reflexivity.
  - injection H as <-. exact I1.
Qed.

Lemma store_conventional_inv (ds : sr_datastore_t) (ok : string -> Prop) (vs : string -> Z)
  (s : state) (n : string) (o_creat : bool) (f : flow) :
  inv ds ok vs s -> ok n ->
  store_conventional s ds n o_creat = Val f ->
  inv ds ok vs (state_of f).
Proof.
  intros I K H. unfold store_conventional in H.
  destruct (Cache.sr_module_data_unlink lyd_node (data s) n false) as [mod_data rest].
  assert (I0 : inv ds ok vs (with_data s rest)) by (apply (inv_same ds ok vs s _ I); reflexivity).
  destruct (file_data_set_log (with_data s rest) n ds mod_data o_creat) as (res & L & V & E).
  destruct (err_info (file_data_set (with_data s rest) n ds mod_data o_creat)) as [e|] eqn:EE.
  { injection H as <-. cbn [state_of]. apply file_data_set_inv; [exact I0|].
    right. rewrite EE. discriminate. }
  destruct res; try discriminate.
  destruct (ds_eqb ds SR_DS_RUNNING) eqn:D.
  - apply ds_eqb_eq in D. subst ds.
    destruct (update_version _ n mod_data) as [s1| | | |] eqn:U; try discriminate.
    cbn [bind] in H. injection H as <-.
    apply update_stored_diff_inv.
    apply (inv_same _ ok vs s1); [|reflexivity|reflexivity].
    apply (update_version_inv ok vs (with_data s rest) _ s1 n mod_data I0 K L V U).
  - cbn [bind] in H. injection H as <-. cbn [state_of].
    apply (inv_same ds ok vs (file_data_set (with_data s rest) n ds mod_data o_creat));
      [|reflexivity|reflexivity].
    apply file_data_set_inv; [exact I0|]. left. intro X. subst ds. discriminate D.
Qed.

Definition changed (m : ModInfo.sr_mod_info_mod_s) : bool :=
  negb (Z.land (ModInfo.state m) ModInfo.MOD_INFO_CHANGED =? 0).

Lemma store_loop_inv (ds : sr_datastore_t) (ok : string -> Prop) (vs : string -> Z)
  (mi_diff : forest) (l : list ModInfo.sr_mod_info_mod_s) :
  (forall m, In m l -> changed m = true -> ok (ModInfo.ly_mod m)) ->
  forall s s', inv ds ok vs s -> store_loop ds mi_diff l s = Val s' -> inv ds ok vs s'.
Proof.
  induction l as [|m l IH]; intros K s s' I H.
  - injection H as <-. exact I.
  - cbn [store_loop] in H. fold (changed m) in H.
    assert (K' : forall m0, In m0 l -> changed m0 = true -> ok (ModInfo.ly_mod m0)).
    { intros m0 H0. apply K. right. exact H0. }
    destruct (changed m) eqn:C; [|apply (IH K' s s' I H)].
    assert (F : exists f, inv ds ok vs (state_of f) /\
                  match f with
                  | Continue s1 => store_loop ds mi_diff l s1
                  | Cleanup s1 => Val s1
                  end = Val s').
    { destruct (ds_eqb ds SR_DS_OPERATIONAL).
      - cbn [bind] in H. eexists. split; [|exact H]. apply store_operational_inv. exact I.
      - destruct (store_conventional s ds (ModInfo.ly_mod m) (ds_eqb ds SR_DS_CANDIDATE))
          as [f| | | |] eqn:Ec; try discriminate.
        cbn [bind] in H. exists f. split; [|exact H].
        apply (store_conventional_inv ds ok vs s _ _ f I (K m (or_introl eq_refl) C) Ec). }
    destruct F as ([s1|s1] & I1 & H1); cbn [state_of] in I1.
    + apply (IH K' s1 s' I1 H1).
    + injection H1 as <-. exact I1.
Qed.

(** The writer comes to its end; it stops early only on the assertion of the
    cache update, when the connection caches running data. *)
Lemma update_version_returns (s : state) (n : string) (mod_data : forest) :
  (exists s', update_version s n mod_data = Val s') \/
  (conn_cache_running = true /\ update_version s n mod_data = AssertFail).
Proof.
  unfold update_version. destruct conn_cache_running; [|left; eexists; reflexivity].
  unfold Cache.sr_modcache_module_running_update.
  match goal with
  | |- (exists s', match ?o with _ => _ end = _) \/ _ =>
      assert (K : (exists r, o = Val r) \/ o = AssertFail);
      [|destruct K as [[[r e] ->]| ->]; [left; eexists; reflexivity|right; split; reflexivity]]
  end.
  destruct (_ <? _)%nat.
  - destruct (negb _); [right; reflexivity|].
    destruct (_ >? _).
    + destruct (Cache.relock_write _ _ _ _) as [r [e|]]; left; eexists; reflexivity.
    + left. eexists. reflexivity.
  - destruct (Cache.relock_write _ _ _ _) as [r [e|]]; [left; eexists; reflexivity|].
    destruct cache_realloc_ok; left; eexists; reflexivity.
Qed.

Lemma store_loop_returns (ds : sr_datastore_t) (mi_diff : forest)
  (l : list ModInfo.sr_mod_info_mod_s) :
  forall s,
    (exists s', store_loop ds mi_diff l s = Val s') \/
    (conn_cache_running = true /\ store_loop ds mi_diff l s = AssertFail).
Proof.
  induction l as [|m l IH]; intro s.
  - left. exists s. reflexivity.
  - cbn [store_loop]. destruct (negb _); [|apply IH].
    destruct (ds_eqb ds SR_DS_OPERATIONAL) eqn:D.
    + cbn [bind]. destruct (store_operational s (ModInfo.ly_mod m) mi_diff) as [s1|s1].
      * apply IH.
      * left. exists s1. reflexivity.
    + unfold store_conventional.
      destruct (Cache.sr_module_data_unlink lyd_node (data s) (ModInfo.ly_mod m) false)
        as [mod_data rest].
      destruct (err_info (file_data_set _ _ _ _ _)).
      { cbn [bind]. left. eexists. reflexivity. }
      destruct (ds_eqb ds SR_DS_RUNNING); cbn [bind]; [|apply IH].
      match goal with
      | |- context [update_version ?a ?b ?c] =>
          destruct (update_version_returns a b c) as [[s1 U]|[C U]]
      end.
      * rewrite U. cbn [bind].
        destruct (update_stored_diff _ _ _) as [s2|s2]; [apply IH|left; exists s2; reflexivity].
      * rewrite U. right. split; [exact C|reflexivity].
Qed.

(** A write through [sr_module_file_data_set] is made in place: once the file
    is open it no longer holds what it held, and it holds the new data only
    when printing went through. *)
Lemma sr_module_file_data_set_in_place (fs : files_t) (n : string) (ds : sr_datastore_t)
  (d : forest) (o_creat : bool) :
  match snd (sr_module_file_data_set fs n ds d o_creat) with
  | OpenFailed => fst (sr_module_file_data_set fs n ds d o_creat) = fs
  | PrintFailed => fst (sr_module_file_data_set fs n ds d o_creat) n ds = FileTorn
  | Written => fst (sr_module_file_data_set fs n ds d o_creat) n ds = FileData d
  end.
Proof.
  unfold sr_module_file_data_set.
  destruct (negb _); [reflexivity|].
  destruct (print_ok n ds d); cbn [fst snd]; unfold set_file;
    rewrite String.eqb_refl; destruct ds; reflexivity.
Qed.

Lemma inv_init (ds : sr_datastore_t) (ok : string -> Prop) (vs : string -> Z)
  (fs : files_t) (c : Cache.sr_mod_cache_s lyd_node) (mi_data : forest) :
  (forall n, 0 <= vs n < 2 ^ 32) ->
  inv ds ok vs {| files := fs; vers := vs; mod_cache := c; data := mi_data; diff := [];
                  err_info := None; log := [] |}.
Proof.
  intro R. unfold inv. store_simpl. split; [reflexivity|]. split; [|split].
  - intro n. unfold running_writes. cbn. rewrite Z.add_0_r, Z.mod_small; [reflexivity|apply R].
  - intros n v [].
  - intros _ n. reflexivity.
Qed.

(** *** Every CHANGED module of the running datastore is written *)

(** The writes of the files of the datastore [ds] in a log, in order: the
    module and how the write ended. *)
Fixpoint file_sets (ds : sr_datastore_t) (l : list event) : list (string * file_set_result) :=
  match l with
  | [] => []
  | EvFileSet n ds' res :: l' =>
      if ds_eqb ds' ds then (n, res) :: file_sets ds l' else file_sets ds l'
  | _ :: l' => file_sets ds l'
  end.

(** The write was completed. *)
Definition written (w : string * file_set_result) : Prop := snd w = Written.

(** The running file of the module holds nodes of the module out of the data
    [mi_data]. *)
Definition holds_data (mi_data : forest) (s : state) (n : string) : Prop :=
  exists d, files s n SR_DS_RUNNING = FileData d
            /\ Forall (fun x => fst x = n) d /\ incl d mi_data.

Lemma file_sets_app (ds : sr_datastore_t) (l1 l2 : list event) :
  file_sets ds (l1 ++ l2) = file_sets ds l1 ++ file_sets ds l2.
Proof.
  induction l1 as [|e l1 IH]; [reflexivity|]. cbn [app file_sets].
  destruct e as [n ds' res| |]; try exact IH.
  destruct (ds_eqb ds' ds); [cbn [app]; now rewrite IH|exact IH].
Qed.

Lemma sr_module_data_unlink_parts (d : forest) (lm : string) :
  forall started md r,
    Cache.sr_module_data_unlink lyd_node d lm started = (md, r) ->
    Forall (fun x => fst x = lm) md /\ incl md d /\ incl r d.
Proof.
  induction d as [|[owner x] d IH]; intros started md r H;
    cbn [Cache.sr_module_data_unlink] in H.
  - injection H as <- <-. split; [constructor|]. split; apply incl_refl.
  - destruct (String.eqb_spec owner lm) as [E|E].
    + destruct (Cache.sr_module_data_unlink lyd_node d lm true) as [md' r'] eqn:U.
      injection H as <- <-. destruct (IH _ _ _ U) as (A & B & C).
      split; [constructor; [exact E|exact A]|].
      split; [|apply incl_tl; exact C].
      intros y [<-|Hy]; [left; reflexivity|right; apply B; exact Hy].
    + destruct started.
      * injection H as <- <-. split; [constructor|].
        split; [intros y []|apply incl_refl].
      * destruct (Cache.sr_module_data_unlink lyd_node d lm false) as [md' r'] eqn:U.
        injection H as <- <-. destruct (IH _ _ _ U) as (A & B & C).
        split; [exact A|]. split; [apply incl_tl; exact B|].
        intros y [<-|Hy]; [left; reflexivity|right; apply C; exact Hy].
Qed.

(** A write of the file of one datastore leaves the files of the others. *)
Lemma file_data_set_frame (s : state) (n : string) (ds : sr_datastore_t) (d : forest)
  (o_creat : bool) :
  files (file_data_set s n ds d o_creat)
  = fst (sr_module_file_data_set (files s) n ds d o_creat)
  /\ log (file_data_set s n ds d o_creat)
     = log s ++ [EvFileSet n ds (snd (sr_module_file_data_set (files s) n ds d o_creat))]
  /\ err_info (file_data_set s n ds d o_creat)
     = file_set_error (snd (sr_module_file_data_set (files s) n ds d o_creat))
  /\ data (file_data_set s n ds d o_creat) = data s.
Proof.
  unfold file_data_set.
  destruct (sr_module_file_data_set (files s) n ds d o_creat) as [fs res].
  repeat split.
Qed.

Lemma sr_module_file_data_set_other (fs : files_t) (n : string) (ds : sr_datastore_t)
  (d : forest) (o_creat : bool) (n' : string) (ds' : sr_datastore_t) :
  n' <> n \/ ds' <> ds ->
  fst (sr_module_file_data_set fs n ds d o_creat) n' ds' = fs n' ds'.
Proof.
  intro O. unfold sr_module_file_data_set. destruct (negb _); [reflexivity|].
  assert (E : String.eqb n' n && ds_eqb ds' ds = false).
  { destruct (String.eqb_spec n' n) as [->|]; [|reflexivity]. cbn [andb].
    destruct O as [O|O]; [contradiction O; reflexivity|].
    destruct (ds_eqb ds' ds) eqn:D; [|reflexivity]. apply ds_eqb_eq in D. contradiction. }
  destruct (print_ok n ds d); cbn [fst]; unfold set_file; now rewrite E.
Qed.

(** What the update of the stored operational diff leaves as it is. *)
Lemma update_stored_diff_frame (s : state) (n : string) (mod_data : forest) :
  (forall n', files (state_of (update_stored_diff s n mod_data)) n' SR_DS_RUNNING
              = files s n' SR_DS_RUNNING)
  /\ file_sets SR_DS_RUNNING (log (state_of (update_stored_diff s n mod_data)))
     = file_sets SR_DS_RUNNING (log s)
  /\ data (state_of (update_stored_diff s n mod_data)) = data s
  /\ match update_stored_diff s n mod_data with
     | Continue s1 => err_info s1 = None
     | Cleanup s1 => err_info s1 <> None
     end.
Proof.
  unfold update_stored_diff.
  destruct (sr_module_file_data_append (files s) n SR_DS_OPERATIONAL (diff s)) as [e|d].
  { cbn [state_of]. store_simpl. repeat split. discriminate. }
  store_simpl. destruct d as [|x d].
  { cbn [state_of]. store_simpl. repeat split. }
  destruct (lyd_new_implicit_module mod_data n) as [md|].
  2:{ cbn [state_of]. store_simpl. repeat split. discriminate. }
  destruct (sr_diff_mod_update (x :: d) n md) as [e|d'].
  { cbn [state_of]. store_simpl. repeat split. discriminate. }
  set (s1 := with_diff (with_err (with_diff s (x :: d)) None) d').
  destruct (file_data_set_frame s1 n SR_DS_OPERATIONAL d' false) as (F & L & E & D).
  assert (Fr : forall n', files (file_data_set s1 n SR_DS_OPERATIONAL d' false) n' SR_DS_RUNNING
                          = files s n' SR_DS_RUNNING).
  { intro n'. rewrite F. apply sr_module_file_data_set_other. right. discriminate. }
  assert (Lg : file_sets SR_DS_RUNNING (log (file_data_set s1 n SR_DS_OPERATIONAL d' false))
               = file_sets SR_DS_RUNNING (log s)).
  { rewrite L, file_sets_app. cbn [file_sets ds_eqb]. apply app_nil_r. }
  destruct (err_info (file_data_set s1 n SR_DS_OPERATIONAL d' false)) as [e|] eqn:Ee;
    cbn [state_of]; store_simpl.
  - split; [exact Fr|]. split; [exact Lg|]. split; [exact D|]. rewrite Ee. discriminate.
  - split; [exact Fr|]. split; [exact Lg|]. split; [exact D|exact Ee].
Qed.

Lemma update_version_frame (s s' : state) (n : string) (mod_data : forest) :
  update_version s n mod_data = Val s' ->
  files s' = files s /\ data s' = data s
  /\ file_sets SR_DS_RUNNING (log s') = file_sets SR_DS_RUNNING (log s).
Proof.
  unfold update_version. destruct conn_cache_running.
  - destruct (Cache.sr_modcache_module_running_update _ _ _ _ _ _ _ _ _ _ _)
      as [[r e]| | | |]; try discriminate.
    intro H. injection H as <-. store_simpl. repeat split.
    rewrite !file_sets_app. cbn [file_sets]. now rewrite !app_nil_r.
  - intro H. injection H as <-. store_simpl. repeat split.
    rewrite file_sets_app. cbn [file_sets]. now rewrite app_nil_r.
Qed.

(** One CHANGED module of the running datastore: its nodes are taken out of
    the data, its file is written, and only a completed write is followed by
    the rest of the iteration. *)
Lemma store_conventional_running (s : state) (n : string) (f : flow) :
  store_conventional s SR_DS_RUNNING n false = Val f ->
  exists mod_data res fs,
    sr_module_file_data_set (files s) n SR_DS_RUNNING mod_data false = (fs, res)
    /\ Forall (fun x => fst x = n) mod_data /\ incl mod_data (data s)
    /\ file_sets SR_DS_RUNNING (log (state_of f))
       = file_sets SR_DS_RUNNING (log s) ++ [(n, res)]
    /\ (forall n', files (state_of f) n' SR_DS_RUNNING = fs n' SR_DS_RUNNING)
    /\ incl (data (state_of f)) (data s)
    /\ match f with
       | Continue s1 => res = Written /\ err_info s1 = None
       | Cleanup s1 =>
           err_info s1 <> None /\ (res <> Written -> err_info s1 = file_set_error res)
       end.
Proof.
  unfold store_conventional.
  destruct (Cache.sr_module_data_unlink lyd_node (data s) n false) as [mod_data rest] eqn:U.
  destruct (sr_module_data_unlink_parts _ _ _ _ _ U) as (Ow & Im & Ir).
  destruct (file_data_set_frame (with_data s rest) n SR_DS_RUNNING mod_data false)
    as (F & L & E & D).
  store_simpl.
  destruct (sr_module_file_data_set (files s) n SR_DS_RUNNING mod_data false) as [fs res]
    eqn:W.
  cbn [fst snd] in F, L, E.
  set (s0 := file_data_set (with_data s rest) n SR_DS_RUNNING mod_data false) in *.
  assert (L0 : file_sets SR_DS_RUNNING (log s0) = file_sets SR_DS_RUNNING (log s) ++ [(n, res)]).
  { rewrite L, file_sets_app. reflexivity. }
  destruct (err_info s0) as [e|] eqn:Ee.
  - intro H. injection H as <-. cbn [state_of]. exists mod_data, res, fs.
    split; [exact W|]. split; [exact Ow|]. split; [exact Im|]. split; [exact L0|].
    split; [intro n'; now rewrite F|]. split; [rewrite D; exact Ir|].
    rewrite Ee. split; [discriminate|]. intros _. exact E.
  - assert (Rw : res = Written) by (destruct res; [discriminate E|discriminate E|reflexivity]).
    cbn [ds_eqb].
    destruct (update_version s0 n mod_data) as [s1| | | |] eqn:V; cbn [bind];
      try discriminate.
    destruct (update_version_frame _ _ _ _ V) as (F1 & D1 & L1).
    intro H. injection H as <-.
    set (s2 := with_data s1 (Cache.lyd_insert_sibling lyd_node (data s1) mod_data)).
    destruct (update_stored_diff_frame s2 n mod_data) as (F2 & L2 & D2 & K).
    exists mod_data, res, fs.
    split; [exact W|]. split; [exact Ow|]. split; [exact Im|].
    split; [rewrite L2; subst s2; store_simpl; rewrite L1; exact L0|].
    split; [intro n'; rewrite F2; subst s2; store_simpl; now rewrite F1, F|].
    split.
    + rewrite D2. subst s2. store_simpl. rewrite D1, D.
      unfold Cache.lyd_insert_sibling. apply incl_app; assumption.
    + destruct (update_stored_diff s2 n mod_data) as [s3|s3].
      * split; [exact Rw|exact K].
      * split; [exact K|]. intro N. contradiction.
Qed.

(** The loop over the modules of the running datastore. *)
Lemma store_loop_running (mi_data mi_diff : forest) (l : list ModInfo.sr_mod_info_mod_s) :
  forall s s',
    err_info s = None ->
    incl (data s) mi_data ->
    (forall n, ~ In (n, PrintFailed) (file_sets SR_DS_RUNNING (log s))) ->
    (forall n, In (n, Written) (file_sets SR_DS_RUNNING (log s)) -> holds_data mi_data s n) ->
    store_loop SR_DS_RUNNING mi_diff l s = Val s' ->
    (exists ws rest,
       file_sets SR_DS_RUNNING (log s') = file_sets SR_DS_RUNNING (log s) ++ ws
       /\ map ModInfo.ly_mod (filter changed l) = map fst ws ++ rest
       /\ (err_info s' = None -> rest = [] /\ Forall written ws))
    /\ (forall n, In (n, Written) (file_sets SR_DS_RUNNING (log s')) ->
          In (n, PrintFailed) (file_sets SR_DS_RUNNING (log s')) \/ holds_data mi_data s' n)
    /\ (forall n, In (n, PrintFailed) (file_sets SR_DS_RUNNING (log s')) ->
          files s' n SR_DS_RUNNING = FileTorn /\ err_info s' = Some SR_ERR_INTERNAL).
Proof.
  induction l as [|m l IH]; intros s s' E0 I0 NP HW H.
  - injection H as <-. split; [|split].
    + exists [], []. rewrite app_nil_r. split; [reflexivity|]. split; [reflexivity|].
      intros _. split; [reflexivity|constructor].
    + intros n Hn. right. now apply HW.
    + intros n Hn. contradiction (NP n Hn).
  - cbn [store_loop] in H. fold (changed m) in H. cbn [filter].
    destruct (changed m) eqn:C; [|now apply IH].
    cbn [ds_eqb bind] in H.
    destruct (store_conventional s SR_DS_RUNNING (ModInfo.ly_mod m) false) as [f| | | |] eqn:Sc;
      cbn [bind] in H; try discriminate.
    destruct (store_conventional_running _ _ _ Sc)
      as (md & res & fs & W & Ow & Im & L & F & Id & K).
    pose proof (sr_module_file_data_set_in_place (files s) (ModInfo.ly_mod m) SR_DS_RUNNING
                  md false) as Ip.
    rewrite W in Ip. cbn [fst snd] in Ip.
    assert (Ot : forall n', n' <> ModInfo.ly_mod m ->
                   files (state_of f) n' SR_DS_RUNNING = files s n' SR_DS_RUNNING).
    { intros n' Hn. rewrite F.
      pose proof (sr_module_file_data_set_other (files s) (ModInfo.ly_mod m) SR_DS_RUNNING
                    md false n' SR_DS_RUNNING (or_introl Hn)) as O.
      now rewrite W in O. }
    assert (Hold : forall n', holds_data mi_data s n' ->
                     files (state_of f) n' SR_DS_RUNNING = files s n' SR_DS_RUNNING ->
                     holds_data mi_data (state_of f) n').
    { intros n' (d & Fd & Od & Idd) Eq. exists d. now rewrite Eq. }
    assert (New : res = Written -> holds_data mi_data (state_of f) (ModInfo.ly_mod m)).
    { intros ->. exists md. rewrite F, Ip. split; [reflexivity|]. split; [exact Ow|].
      intros y Hy. apply I0, Im, Hy. }
    assert (HW1 : res = Written ->
              forall n', In (n', Written)
                           (file_sets SR_DS_RUNNING (log s) ++ [(ModInfo.ly_mod m, res)]) ->
                         holds_data mi_data (state_of f) n').
    { intros Rw n' Hn. destruct (String.eqb_spec n' (ModInfo.ly_mod m)) as [->|Ne].
      - now apply New.
      - apply in_app_or in Hn. destruct Hn as [Hn|[Hn|[]]]; [|congruence].
        apply Hold; [now apply HW|now apply Ot]. }
    destruct f as [s1|s1]; cbn [state_of] in *.
    + destruct K as [Rw E1]. subst res.
      destruct (IH s1 s' E1) as ((ws & rest & Lw & Nm & Ok) & W2 & W3); try assumption.
      * intros y Hy. apply I0, Id, Hy.
      * intros n' Hn. rewrite L in Hn. apply in_app_or in Hn.
        destruct Hn as [Hn|[Hn|[]]]; [contradiction (NP n' Hn)|discriminate Hn].
      * intros n' Hn. rewrite L in Hn. now apply HW1.
      * split; [|split; assumption].
        exists ((ModInfo.ly_mod m, Written) :: ws), rest.
        split; [rewrite Lw, L, <- app_assoc; reflexivity|].
        split; [cbn [map fst app]; now rewrite Nm|].
        intro En. destruct (Ok En) as [-> Fw]. split; [reflexivity|].
        constructor; [reflexivity|exact Fw].
    + injection H as <-. destruct K as [E1 Ef].
      split; [|split].
      * exists [(ModInfo.ly_mod m, res)], (map ModInfo.ly_mod (filter changed l)).
        split; [exact L|]. split; [reflexivity|]. intro En. contradiction.
      * intros n' Hn. rewrite L in Hn |- *.
        destruct res.
        -- right. apply Hold.
           ++ apply HW. apply in_app_or in Hn. destruct Hn as [Hn|[Hn|[]]]; [exact Hn|].
              discriminate Hn.
           ++ rewrite F. now rewrite Ip.
        -- destruct (String.eqb_spec n' (ModInfo.ly_mod m)) as [->|Ne].
           ++ left. apply in_or_app. right. left. reflexivity.
           ++ right. apply Hold; [|now apply Ot].
              apply HW. apply in_app_or in Hn. destruct Hn as [Hn|[Hn|[]]]; [exact Hn|].
              discriminate Hn.
        -- right. now apply HW1.
      * intros n' Hn. rewrite L in Hn. apply in_app_or in Hn.
        destruct Hn as [Hn|[Hn|[]]]; [contradiction (NP n' Hn)|].
        injection Hn as <- ->. split; [rewrite F; exact Ip|].
        apply Ef. discriminate.
Qed.

(** The completed writes of the running file of a module in a log, counted in
    the list of its writes. *)
Lemma running_writes_file_sets (n : string) (l : list event) :
  running_writes n l
  = Z.of_nat (List.length
                (filter (fun w => String.eqb (fst w) n
                                  && match snd w with Written => true | _ => false end)
                   (file_sets SR_DS_RUNNING l))).
Proof.
  unfold running_writes. f_equal.
  induction l as [|e l IH]; [reflexivity|].
  destruct e as [n' ds res| |]; [|exact IH|exact IH].
  destruct ds; try exact IH.
  destruct res; cbn [filter file_sets ds_eqb is_running_write fst snd];
    rewrite ?andb_false_r, ?andb_true_r; try exact IH.
  destruct (String.eqb n' n); [cbn [List.length]; f_equal; exact IH|exact IH].
Qed.

Lemma written_count (n : string) (ws : list (string * file_set_result)) :
  Forall written ws ->
  List.length (filter (fun w => String.eqb (fst w) n
                                && match snd w with Written => true | _ => false end) ws)
  = List.length (filter (fun x => String.eqb x n) (map fst ws)).
Proof.
  induction 1 as [|[n' res] ws Hw _ IH]; [reflexivity|].
  unfold written in Hw. cbn [snd] in Hw. subst res.
  cbn [filter map fst snd]. rewrite andb_true_r.
  destruct (String.eqb n' n); cbn [List.length]; now rewrite IH.
Qed.

(** C3 (as amended): [sr_modinfo_data_store] increments the version of a
    module only right after a completed write of its running file, one
    increment per such write and none for another datastore or another module
    than a CHANGED one of the modinfo; the increment is the one of a
    [uint32_t], so that in the end the version is the version before the call
    plus the number of completed running writes modulo 2^32, which is that
    sum itself, and not below the version before, as long as the sum stays
    under 2^32.  For the running datastore the files of the CHANGED modules
    are written in the order of the modinfo, up to the first step that fails:
    when the function returns NULL every one of them was written to the end
    and the version of a module was incremented once for each of its CHANGED
    entries.  A file that was written to the end holds nodes of the module
    out of the data of the modinfo, unless a later write of it failed; a
    write that failed at printing leaves the file torn, with neither the old
    nor the new data, and ends the call with an internal error.  The function
    always comes to its end; it stops early only on the assertion of the
    cache update, when the connection caches running data. *)
Theorem sr_modinfo_data_store_version (mod_info : ModInfo.sr_mod_info_s)
  (mi_data mi_diff : forest) (fs : files_t) (vs : string -> Z)
  (c : Cache.sr_mod_cache_s lyd_node) :
  (forall n, 0 <= vs n < 2 ^ 32) ->
  ModInfo.data_cached mod_info = false ->
  ((exists s, sr_modinfo_data_store mod_info mi_data mi_diff fs vs c = Val s) \/
   (conn_cache_running = true /\
    sr_modinfo_data_store mod_info mi_data mi_diff fs vs c = AssertFail)) /\
  (forall s, sr_modinfo_data_store mod_info mi_data mi_diff fs vs c = Val s ->
     write_then_bump (log s) = true /\
     (forall n, vers s n = (vs n + running_writes n (log s)) mod 2 ^ 32) /\
     (forall n, vs n + running_writes n (log s) < 2 ^ 32 ->
        vers s n = vs n + running_writes n (log s) /\ vs n <= vers s n) /\
     (forall n v, In (EvVerIncr n v) (log s) ->
        ModInfo.ds mod_info = SR_DS_RUNNING /\
        exists m, In m (ModInfo.mods mod_info) /\ changed m = true /\ ModInfo.ly_mod m = n) /\
     (ModInfo.ds mod_info <> SR_DS_RUNNING -> forall n, vers s n = vs n) /\
     (ModInfo.ds mod_info = SR_DS_RUNNING ->
        (exists rest,
           map ModInfo.ly_mod (filter changed (ModInfo.mods mod_info))
           = map fst (file_sets SR_DS_RUNNING (log s)) ++ rest
           /\ (err_info s = None ->
               rest = [] /\ Forall written (file_sets SR_DS_RUNNING (log s))))
        /\ (forall n, In (n, Written) (file_sets SR_DS_RUNNING (log s)) ->
              In (n, PrintFailed) (file_sets SR_DS_RUNNING (log s))
              \/ holds_data mi_data s n)
        /\ (forall n, In (n, PrintFailed) (file_sets SR_DS_RUNNING (log s)) ->
              files s n SR_DS_RUNNING = FileTorn /\ err_info s = Some SR_ERR_INTERNAL)
        /\ (err_info s = None ->
            forall n,
              vers s n
              = (vs n + Z.of_nat
                          (List.length
                             (filter (fun x => String.eqb x n)
                                (map ModInfo.ly_mod
                                   (filter changed (ModInfo.mods mod_info))))))
                mod 2 ^ 32))).
Proof.
  intros R NC. unfold sr_modinfo_data_store. rewrite NC. split.
  - apply store_loop_returns.
  - intros s H.
    pose (ok := fun n => exists m, In m (ModInfo.mods mod_info) /\ changed m = true /\
                                   ModInfo.ly_mod m = n).
    assert (I : inv (ModInfo.ds mod_info) ok vs s).
    { refine (store_loop_inv _ ok vs mi_diff _ _ _ s (inv_init _ ok vs fs c mi_data R) H).
      intros m Hm C. exists m. split; [exact Hm|]. split; [exact C|reflexivity]. }
    destruct I as (A & B & C & D).
    split; [exact A|]. split; [exact B|]. split; [|split; [exact C|split]].
    + intros n Hn. rewrite (B n).
      pose proof (running_writes_nonneg n (log s)) as P. pose proof (R n) as Rn.
      rewrite Z.mod_small by lia. split; [reflexivity|lia].
    + intros Hds n. rewrite (B n), (D Hds n), Z.add_0_r. apply Z.mod_small. apply R.
    + intro Hds. rewrite Hds in H.
      destruct (store_loop_running mi_data mi_diff (ModInfo.mods mod_info)
                  {| files := fs; vers := vs; mod_cache := c; data := mi_data; diff := [];
                     err_info := None; log := [] |} s)
        as ((ws & rest & Lw & Nm & Ok) & W2 & W3); try exact H; store_simpl.
      * reflexivity.
      * apply incl_refl.
      * intros n [].
      * intros n [].
      * cbn [file_sets app] in Lw.
        split; [exists rest; rewrite Lw; split; assumption|].
        split; [exact W2|]. split; [exact W3|].
        intros En n. destruct (Ok En) as [-> Fw]. rewrite app_nil_r in Nm.
        rewrite (B n), running_writes_file_sets, Lw, (written_count n ws Fw), Nm.
        reflexivity.
Qed.

End Store.

Arguments files {lyd_node} s.
Arguments vers {lyd_node} s.
Arguments err_info {lyd_node} s.
Arguments log {lyd_node} s.

(** *** Concrete runs *)

Local Open Scope string_scope.

(** A modinfo of the running datastore with the one module [m], changed. *)
Definition ex_mod_info : ModInfo.sr_mod_info_s :=
  {| ModInfo.ds := SR_DS_RUNNING; ModInfo.ds2 := SR_DS_RUNNING; ModInfo.data := true;
     ModInfo.data_cached := false;
     ModInfo.mods :=
       [{| ModInfo.shm_mod := 0%nat; ModInfo.ly_mod := "m";
           ModInfo.state := Z.lor ModInfo.MOD_INFO_REQ ModInfo.MOD_INFO_CHANGED |}] |}.

Definition ex_files : files_t string :=
  fun n ds =>
    match ds with
    | SR_DS_OPERATIONAL => FileData []
    | _ => FileData [(n, "old")]
    end.

Definition ex_cache : Cache.sr_mod_cache_s string :=
  {| Cache.mods := []; Cache.data := []; Cache.lock := Cache.SR_LOCK_NONE |}.

(** The writer in an environment where everything is permitted and the data
    library never fails; printing goes through or not as [printing] says. *)
Definition ex_store (printing : bool) (vs : string -> Z) : outcome (state string) :=
  sr_modinfo_data_store string (fun _ _ => true) (fun _ _ => true) (fun _ _ _ => printing)
    (fun _ _ => inl SR_ERR_LY) (fun d _ _ => Some d) (fun d _ => Some d) (fun d _ _ => inr d)
    false None None true (fun d => Some d)
    ex_mod_info [("m", "new")] [] ex_files vs ex_cache.

(** One completed write of the running file of [m], then one increment. *)
Example ex_store_commit :
  match ex_store true (fun _ => 7) with
  | Val s =>
      log s = [EvFileSet "m" SR_DS_RUNNING Written; EvVerIncr "m" 8] /\
      files s "m" SR_DS_RUNNING = FileData [("m", "new")] /\
      vers s "m" = 8 /\ vers s "k" = 7 /\ err_info s = None
  | _ => False
  end.
Proof. vm_compute. repeat split. Qed.

(** C3 as stated fails twice.  When printing fails the running file holds
    neither what it held nor the new data: the write is not atomic.  And at
    the version 4294967295 a completed running write takes the version down
    to 0: it is not non-decreasing and is not the number of writes. *)
Lemma sr_modinfo_data_store_torn_and_wrapped :
  match ex_store false (fun _ => 7) with
  | Val s =>
      log s = [EvFileSet "m" SR_DS_RUNNING PrintFailed] /\
      ex_files "m" SR_DS_RUNNING = FileData [("m", "old")] /\
      files s "m" SR_DS_RUNNING = FileTorn /\
      files s "m" SR_DS_RUNNING <> ex_files "m" SR_DS_RUNNING /\
      files s "m" SR_DS_RUNNING <> FileData [("m", "new")]
  | _ => False
  end /\
  match ex_store true (fun _ => 4294967295) with
  | Val s =>
      log s = [EvFileSet "m" SR_DS_RUNNING Written; EvVerIncr "m" 0] /\
      vers s "m" = 0 /\
      ~ (4294967295 <= vers s "m") /\
      vers s "m" <> 4294967295 + running_writes "m" (log s)
  | _ => False
  end.
Proof.
  split; vm_compute; repeat split; try discriminate.
  all: intro H; apply H; reflexivity.
Qed.

Lemma sr_modinfo_data_store_version_witness :
  (forall n : string, 0 <= (fun _ : string => 7) n < 2 ^ 32) /\
  ModInfo.data_cached ex_mod_info = false /\
  exists s, ex_store true (fun _ => 7) = Val s /\
            write_then_bump (log s) = true /\
            vers s "m" = 8 /\
            In ("m", Written) (file_sets SR_DS_RUNNING (log s)) /\
            holds_data string [("m", "new")] s "m".
Proof.
  assert (R : forall n : string, 0 <= (fun _ : string => 7) n < 2 ^ 32) by (intro; cbn; lia).
  split; [exact R|]. split; [reflexivity|].
  destruct (sr_modinfo_data_store_version string (fun _ _ => true) (fun _ _ => true)
              (fun _ _ _ => true) (fun _ _ => inl SR_ERR_LY) (fun d _ _ => Some d)
              (fun d _ => Some d) (fun d _ _ => inr d) false None None true
              (fun d => Some d) ex_mod_info [("m", "new")] [] ex_files (fun _ => 7) ex_cache
              R eq_refl) as [T P].
  destruct T as [[s Hs]|[T _]]; [|discriminate T]. exists s. split; [exact Hs|].
  destruct (P s Hs) as (A & _ & _ & _ & _ & Ru).
  destruct (Ru eq_refl) as ((rest & Nm & Ok) & W2 & W3 & Vc).
  assert (En : err_info s = None).
  { clear -Hs. change (ex_store true (fun _ => 7) = Val s) in Hs.
    vm_compute in Hs. injection Hs as <-. reflexivity. }
  destruct (Ok En) as [-> Fw]. rewrite app_nil_r in Nm.
  assert (Iw : In ("m", Written) (file_sets SR_DS_RUNNING (log s))).
  { destruct (file_sets SR_DS_RUNNING (log s)) as [|[n res] ws]; [discriminate Nm|].
    injection Nm as <- _. apply Forall_inv in Fw. unfold written in Fw. cbn [snd] in Fw.
    subst res. left. reflexivity. }
  split; [exact A|]. split; [rewrite (Vc En "m"); reflexivity|]. split; [exact Iw|].
  destruct (W2 "m" Iw) as [Pf|Hd]; [|exact Hd].
  destruct (W3 "m" Pf) as [_ E]. rewrite En in E. discriminate E.
Defined.

End Store.

(** ** The operational composer ([sr_module_oper_data_update]) *)

Module Oper.

Local Open Scope string_scope.
Local Open Scope list_scope.

(** [sr_get_oper_options_t], a bit mask, by its bits. *)
Record sr_get_oper_options_t : Type := {
  SR_OPER_NO_STATE : bool;
  SR_OPER_NO_CONFIG : bool;
  SR_OPER_NO_SUBS : bool;
  SR_OPER_NO_STORED : bool;
  SR_OPER_WITH_ORIGIN : bool
}.

Definition sub_type_eqb (a b : Shm.sr_mod_oper_sub_type_t) : bool :=
  match a, b with
  | Shm.SR_OPER_SUB_NONE, Shm.SR_OPER_SUB_NONE => true
  | Shm.SR_OPER_SUB_STATE, Shm.SR_OPER_SUB_STATE => true
  | Shm.SR_OPER_SUB_CONFIG, Shm.SR_OPER_SUB_CONFIG => true
  | Shm.SR_OPER_SUB_MIXED, Shm.SR_OPER_SUB_MIXED => true
  | _, _ => false
  end.

(** The loop of [sr_xpath_trim_last_node] walks from the last character
    towards the first: [l] holds the characters from [ptr] backwards.  The
    result is the number of steps made before the loop is left; there is none
    when the walk leaves the string at its front. *)
Fixpoint trim_scan (l : list ascii) (skipping : bool) (skip_end : ascii) : option nat :=
  match l with
  | [] => None
  | c :: l' =>
      if skipping || negb (Ascii.eqb c "/") then
        if skipping && Ascii.eqb c skip_end then option_map S (trim_scan l' false skip_end)
        else if Ascii.eqb c "]" then option_map S (trim_scan l' true "[")
        else option_map S (trim_scan l' skipping skip_end)
      else Some O
  end.

Section Composer.

Variable NDEBUG : bool.

(** [sr_xpath_trim_last_node]: the XPath without its last step, NULL ([None])
    for a top-level node; the copy is taken to be allocated. *)
Definition sr_xpath_trim_last_node (xpath : string) : outcome (option string) :=
  XPath.c_assert NDEBUG (Ascii.eqb (XPath.ch xpath) "/")
    match trim_scan (rev (list_ascii_of_string xpath)) false XPath.NUL with
    | None => Fault
    | Some k =>
        let off := (String.length xpath - 1 - k)%nat in
        if Nat.eqb off 0 then Val None else Val (Some (substring 0 off xpath))
    end.

(** Data trees and their nodes belong to the data library: a [lyd_data] is a
    [struct lyd_node *] to the first sibling of a tree (NULL when [is_null]),
    a [lyd_node] a pointer to a node somewhere in it. *)
Variable lyd_data : Type.
Variable lyd_node : Type.
Variable lyd_null : lyd_data.
Variable is_null : lyd_data -> bool.

(** The data library: evaluation of an XPath, the number of nodes from a node
    up to its top-level ancestor, freeing a subtree (with the step of [*data]
    to the next sibling when the first one is freed), a stand-alone copy of a
    node with its parents, the path of a node, adding implicit nodes, merging,
    applying a diff; the sets of the library may fail to allocate. *)
Variable lyd_find_xpath : lyd_data -> string -> option (list lyd_node).
Variable lyd_depth : lyd_data -> lyd_node -> nat.
Variable lyd_free_tree : lyd_node -> lyd_data -> lyd_data.
Variable ly_set_new_ok : bool.
Variable ly_set_add_ok : bool.
Variable lyd_dup_single : lyd_data -> lyd_node -> option lyd_data.
Variable lyd_path : lyd_data -> lyd_node -> option string.
Variable lyd_new_implicit_tree : lyd_data -> option lyd_data.
Variable lyd_merge_siblings : lyd_data -> lyd_data -> option lyd_data.
Variable lyd_diff_apply_module : lyd_data -> lyd_data -> string -> bool -> option lyd_data.

(** The stored operational diff of a module ([sr_module_file_data_append]). *)
Variable stored_diff : string -> sr_error_t + lyd_data.

(** What a call of [sr_shmsub_oper_notify] yields: its [err_info], the data of
    the provider and the callback error behind [cb_err_info]. *)
Record notify_result : Type := {
  nr_err_info : option sr_error_t;
  nr_data : lyd_data;
  nr_cb_err_info : option sr_error_t
}.

(** [sr_shmsub_oper_notify] is declared in [shm.h]; its body is not part of
    the sources at hand.  It is given the module, the XPath of the
    subscription, the XPath of the request, the copy of the parent, the event
    pipe and the callback error so far. *)
Variable sr_shmsub_oper_notify :
  string -> string -> option string -> option lyd_data -> Z -> option sr_error_t ->
  notify_result.

(** What the composer does to the data and to the providers, in order. *)
Inductive event : Type :=
| EvFree (node : lyd_node)
| EvNotify (sub_xpath : string) (parent : option lyd_node) (err_info : option sr_error_t)
| EvMerge (sub_xpath : string).

(** The state of the composer: [*data], [*cb_error_info] and the events. *)
Record st : Type := {
  data : lyd_data;
  cb_error_info : option sr_error_t;
  log : list event
}.

Definition result : Type := outcome (st * option sr_error_t).

Definition free_node (s : st) (n : lyd_node) : st :=
  {| data := lyd_free_tree n (data s); cb_error_info := cb_error_info s;
     log := log s ++ [EvFree n] |}.

(** The depth of a node as [sr_lyd_xpath_complement] counts it, in a
    [uint16_t]. *)
Definition depth16 (d : lyd_data) (n : lyd_node) : nat := lyd_depth d n mod 2 ^ 16.

(** [max_depth] after the first loop. *)
Definition max_depth (d : lyd_data) (node_set : list lyd_node) : nat :=
  fold_left (fun m n => if (m <? depth16 d n)%nat then depth16 d n else m) node_set 1%nat.

(** The inner loop of the second pair of loops: the nodes of one depth are
    freed.  [d0] is the tree in which the depths were counted. *)
Definition free_at_depth (d0 : lyd_data) (depth : nat) (node_set : list lyd_node) (s : st)
  : st :=
  fold_left (fun s n => if Nat.eqb depth (depth16 d0 n) then free_node s n else s) node_set s.

(** [for (depth = max_depth; depth; --depth)]. *)
Fixpoint free_from_depth (d0 : lyd_data) (depth : nat) (node_set : list lyd_node) (s : st)
  : st :=
  match depth with
  | O => s
  | S depth' => free_from_depth d0 depth' node_set (free_at_depth d0 depth node_set s)
  end.

(** [sr_lyd_xpath_complement]: the state after it and its [err_info]. *)
Definition sr_lyd_xpath_complement (s : st) (xpath : string) : st * option sr_error_t :=
  if is_null (data s) then (s, None)
  else
    match lyd_find_xpath (data s) xpath with
    | None => (s, Some SR_ERR_LY)
    | Some node_set =>
        if negb ly_set_new_ok then (s, Some SR_ERR_LY)
        else
          match node_set with
          | _ :: _ =>
              if negb ly_set_add_ok then (s, Some SR_ERR_LY)
              else
                (free_from_depth (data s) (max_depth (data s) node_set) node_set s, None)
          | [] => (s, None)
          end
    end.

(** The call of the provider in [sr_xpath_oper_data_get] and what follows it:
    the state after it, [*oper_data] and the [err_info]. *)
Definition get_from_client (ly_mod xpath : string) (request_xpath : option string)
  (evpipe_num : Z) (parent : option lyd_node) (parent_dup : option lyd_data) (s : st)
  : st * lyd_data * option sr_error_t :=
  let r := sr_shmsub_oper_notify ly_mod xpath request_xpath parent_dup evpipe_num
             (cb_error_info s) in
  let s := {| data := data s; cb_error_info := nr_cb_err_info r;
              log := log s ++ [EvNotify xpath parent (nr_err_info r)] |} in
  match nr_err_info r with
  | Some e => (s, nr_data r, Some e)
  | None =>
      if is_null (nr_data r) then (s, nr_data r, None)
      else
        match lyd_new_implicit_tree (nr_data r) with
        | None => (s, nr_data r, Some SR_ERR_LY)
        | Some oper_data => (s, oper_data, None)
        end
  end.

(** [sr_xpath_oper_data_get]. *)
Definition sr_xpath_oper_data_get (ly_mod xpath : string) (request_xpath : option string)
  (evpipe_num : Z) (parent : option lyd_node) (s : st)
  : outcome (st * lyd_data * option sr_error_t) :=
  let call := get_from_client ly_mod xpath request_xpath evpipe_num parent in
  match parent with
  | Some p =>
      match lyd_dup_single (data s) p with
      | None => Val (s, lyd_null, Some SR_ERR_LY)
      | Some parent_dup =>
          match request_xpath with
          | Some _ =>
              match lyd_path (data s) p with
              | None => Val (s, lyd_null, Some SR_ERR_NOMEM)
              | Some parent_path =>
                  required <- XPath.sr_xpath_oper_data_required NDEBUG request_xpath
                                parent_path ;;
                  if negb required then Val (s, lyd_null, None)
                  else Val (call (Some parent_dup) s)
              end
          | None => Val (call (Some parent_dup) s)
          end
      end
  | None => Val (call None s)
  end.

(** [sr_xpath_oper_data_append]. *)
Definition sr_xpath_oper_data_append (shm_msub : Shm.sr_mod_oper_sub_t) (ly_mod : string)
  (request_xpath : option string) (oper_parent : option lyd_node) (s : st) : result :=
  r <- sr_xpath_oper_data_get ly_mod (Shm.os_xpath shm_msub) request_xpath
         (Shm.os_evpipe_num shm_msub) oper_parent s ;;
  match r with
  | (s, _, Some e) => Val (s, Some e)
  | (s, oper_data, None) =>
      match lyd_merge_siblings (data s) oper_data with
      | None => Val (s, Some SR_ERR_LY)
      | Some d =>
          Val ({| data := d; cb_error_info := cb_error_info s;
                  log := log s ++ [EvMerge (Shm.os_xpath shm_msub)] |}, None)
      end
  end.

(** The loop over the data parents that were found ([nested data]),
    [for (j = 0; j < set->count; ++j)], from the index [j] on.  The index is
    a [uint16_t] and [set->count] a [uint32_t]: after the parent 65535 the
    index is 0 again, so that in a set of 65536 parents or more the loop
    starts over and is left only by an error.  [set->dnodes[j]] is the
    [j]-th node of [dnodes]. *)
Fixpoint nested_loop (fuel : nat) (shm_msub : Shm.sr_mod_oper_sub_t) (ly_mod : string)
  (request_xpath : option string) (dnodes : list lyd_node) (j : Z) (s : st) : result :=
  match fuel with
  | O => OutOfFuel
  | S fuel' =>
      if (j <? Z.of_nat (List.length dnodes))%Z then
        match nth_error dnodes (Z.to_nat j) with
        | None => Fault
        | Some p =>
            r <- sr_xpath_oper_data_append shm_msub ly_mod request_xpath (Some p) s ;;
            match r with
            | (s, Some e) => Val (s, Some e)
            | (s, None) =>
                nested_loop fuel' shm_msub ly_mod request_xpath dnodes
                  ((j + 1) mod 2 ^ 16)%Z s
            end
        end
      else Val (s, None)
  end.

(** Whether the loop goes on to the next subscription at once ([continue]). *)
Definition skipped (opts : sr_get_oper_options_t) (request_xpath : option string)
  (shm_msub : Shm.sr_mod_oper_sub_t) : outcome bool :=
  if sub_type_eqb (Shm.os_sub_type shm_msub) Shm.SR_OPER_SUB_CONFIG && SR_OPER_NO_CONFIG opts
  then Val true
  else if sub_type_eqb (Shm.os_sub_type shm_msub) Shm.SR_OPER_SUB_STATE
          && SR_OPER_NO_STATE opts
  then Val true
  else
    required <- XPath.sr_xpath_oper_data_required NDEBUG request_xpath
                  (Shm.os_xpath shm_msub) ;;
    Val (negb required).

(** [remove any present data]: the call of [sr_lyd_xpath_complement] is made
    only without [SR_SUBSCR_OPER_MERGE]. *)
Definition remove_present (shm_msub : Shm.sr_mod_oper_sub_t) (s : st)
  : st * option sr_error_t :=
  if negb (Shm.os_opts_oper_merge shm_msub)
  then sr_lyd_xpath_complement s (Shm.os_xpath shm_msub)
  else (s, None).

(** What is done for a subscription that is not skipped. *)
Definition provide (fuel : nat) (ly_mod : string) (request_xpath : option string)
  (shm_msub : Shm.sr_mod_oper_sub_t) (s : st) : result :=
  let sub_xpath := Shm.os_xpath shm_msub in
  let '(s, err_info) := remove_present shm_msub s in
  match err_info with
  | Some e => Val (s, Some e)
  | None =>
      parent_xpath <- sr_xpath_trim_last_node sub_xpath ;;
      match parent_xpath with
      | Some parent_xpath =>
          if is_null (data s) then Val (s, None)
          else
            match lyd_find_xpath (data s) parent_xpath with
            | None => Val (s, Some SR_ERR_LY)
            | Some [] => Val (s, None)
            | Some dnodes => nested_loop fuel shm_msub ly_mod request_xpath dnodes 0%Z s
            end
      | None => sr_xpath_oper_data_append shm_msub ly_mod request_xpath None s
      end
  end.

(** The loop over the operational subscriptions of the module; [fuel] bounds
    the passes of each loop over data parents. *)
Fixpoint subs_loop (fuel : nat) (ly_mod : string) (request_xpath : option string)
  (opts : sr_get_oper_options_t) (subs : list Shm.sr_mod_oper_sub_t) (s : st) : result :=
  match subs with
  | [] => Val (s, None)
  | shm_msub :: subs' =>
      skip <- skipped opts request_xpath shm_msub ;;
      if skip then subs_loop fuel ly_mod request_xpath opts subs' s
      else
        r <- provide fuel ly_mod request_xpath shm_msub s ;;
        match r with
        | (s, Some e) => Val (s, Some e)
        | (s, None) => subs_loop fuel ly_mod request_xpath opts subs' s
        end
  end.

(** [apply stored operational diff]. *)
Definition apply_stored (ly_mod : string) (opts : sr_get_oper_options_t) (s : st)
  : st * option sr_error_t :=
  if negb (SR_OPER_NO_STORED opts) then
    match stored_diff ly_mod with
    | inl e => (s, Some e)
    | inr diff =>
        match lyd_diff_apply_module (data s) diff ly_mod (SR_OPER_WITH_ORIGIN opts) with
        | None => (s, Some SR_ERR_LY)
        | Some d => ({| data := d; cb_error_info := cb_error_info s; log := log s |}, None)
        end
    end
  else (s, None).

(** [sr_module_oper_data_update].  [shm_mod] is [mod->shm_mod], whose name is
    the one of [mod->ly_mod]; [d] and [cb] are [*data] and [*cb_error_info]
    before the call; [sid] and [cb_error_info] themselves are not NULL.
    [fuel] bounds the passes of each loop over data parents, the one loop of
    the function that need not end. *)
Definition sr_module_oper_data_update (fuel : nat) (shm_mod : Shm.sr_mod_t)
  (request_xpath : option string) (timeout_ms : Z) (opts : sr_get_oper_options_t)
  (d : lyd_data) (cb : option sr_error_t) : result :=
  let ly_mod := Shm.name shm_mod in
  match apply_stored ly_mod opts {| data := d; cb_error_info := cb; log := [] |} with
  | (s, Some e) => Val (s, Some e)
  | (s, None) =>
      if SR_OPER_NO_SUBS opts then Val (s, None)
      else
        XPath.c_assert NDEBUG (negb (timeout_ms =? 0)%Z)
          (subs_loop fuel ly_mod request_xpath opts (Shm.oper_subs shm_mod) s)
  end.

(** *** What [sr_lyd_xpath_complement] frees *)

(** The nodes freed by the second pair of loops, in the order of the calls. *)
Fixpoint frees_from_depth (d0 : lyd_data) (depth : nat) (node_set : list lyd_node)
  : list lyd_node :=
  match depth with
  | O => []
  | S depth' =>
      filter (fun n => Nat.eqb depth (depth16 d0 n)) node_set
      ++ frees_from_depth d0 depth' node_set
  end.

Definition free_all (s : st) (l : list lyd_node) : st := fold_left free_node l s.

Lemma free_all_app (s : st) (l1 l2 : list lyd_node) :
  free_all s (l1 ++ l2) = free_all (free_all s l1) l2.
Proof. apply fold_left_app. Qed.

Lemma free_all_log (l : list lyd_node) :
  forall s, log (free_all s l) = log s ++ map EvFree l.
Proof.
  induction l as [|n l IH]; intro s; cbn [free_all fold_left map].
  - rewrite app_nil_r. reflexivity.
  - fold (free_all (free_node s n) l). rewrite IH. cbn [free_node log].
    rewrite <- app_assoc. reflexivity.
Qed.

Lemma free_all_cb (l : list lyd_node) :
  forall s, cb_error_info (free_all s l) = cb_error_info s.
Proof.
  induction l as [|n l IH]; intro s; cbn [free_all fold_left]; [reflexivity|].
  fold (free_all (free_node s n) l). rewrite IH. reflexivity.
Qed.

Lemma free_at_depth_spec (d0 : lyd_data) (depth : nat) (node_set : list lyd_node) :
  forall s,
    free_at_depth d0 depth node_set s
    = free_all s (filter (fun n => Nat.eqb depth (depth16 d0 n)) node_set).
Proof.
  unfold free_at_depth, free_all.
  induction node_set as [|n l IH]; intro s; cbn [fold_left filter]; [reflexivity|].
  destruct (Nat.eqb depth (depth16 d0 n)); cbn [fold_left]; apply IH.
Qed.

Lemma free_from_depth_spec (d0 : lyd_data) (node_set : list lyd_node) (depth : nat) :
  forall s,
    free_from_depth d0 depth node_set s = free_all s (frees_from_depth d0 depth node_set).
Proof.
  induction depth as [|k IH]; intro s; [reflexivity|].
  cbn [free_from_depth frees_from_depth].
  rewrite IH, free_at_depth_spec, free_all_app. reflexivity.
Qed.

Lemma filter_split_Permutation {A : Type} (f g h : A -> bool) (l : list A) :
  (forall x, In x l -> f x = g x || h x) ->
  (forall x, In x l -> g x && h x = false) ->
  Permutation (filter g l ++ filter h l) (filter f l).
Proof.
  induction l as [|x l IH]; intros H1 H2; [constructor|].
  assert (P : Permutation (filter g l ++ filter h l) (filter f l)).
  { apply IH; intros y Hy; [apply H1|apply H2]; right; exact Hy. }
  pose proof (H1 x (or_introl eq_refl)) as E1.
  pose proof (H2 x (or_introl eq_refl)) as E2.
  cbn [filter]. rewrite E1.
  destruct (g x), (h x); try discriminate; cbn [orb app].
  - apply perm_skip. exact P.
  - apply Permutation_sym. apply Permutation_cons_app. apply Permutation_sym. exact P.
  - exact P.
Qed.

Lemma frees_from_depth_Permutation (d0 : lyd_data) (node_set : list lyd_node) (depth : nat) :
  Permutation (frees_from_depth d0 depth node_set)
    (filter (fun n => Nat.leb 1 (depth16 d0 n) && Nat.leb (depth16 d0 n) depth) node_set).
Proof.
  induction depth as [|k IH]; cbn [frees_from_depth].
  - replace (filter _ node_set) with (@nil lyd_node); [constructor|].
    symmetry. induction node_set as [|n l IHl]; [reflexivity|].
    cbn [filter].
    destruct (Nat.leb_spec 1 (depth16 d0 n)), (Nat.leb_spec (depth16 d0 n) 0);
      cbn [andb]; try exact IHl; lia.
  - eapply Permutation_trans; [apply Permutation_app_head; exact IH|].
    apply filter_split_Permutation; intros n _.
    + destruct (Nat.eqb_spec (S k) (depth16 d0 n)) as [E|E].
      * rewrite <- E. cbn [orb]. rewrite Nat.leb_refl. reflexivity.
      * cbn [orb]. destruct (Nat.leb 1 (depth16 d0 n)); [|reflexivity]. cbn [andb].
        destruct (Nat.leb_spec (depth16 d0 n) k), (Nat.leb_spec (depth16 d0 n) (S k));
          try reflexivity; lia.
    + destruct (Nat.eqb_spec (S k) (depth16 d0 n)) as [E|E]; [|reflexivity].
      rewrite <- E. cbn [andb].
      destruct (Nat.leb_spec (S k) k); [lia|]. apply andb_false_r.
Qed.

Lemma max_depth_ge (d : lyd_data) (node_set : list lyd_node) :
  forall n, In n node_set -> (depth16 d n <= max_depth d node_set)%nat.
Proof.
  unfold max_depth.
  assert (G : forall l m, (m <= fold_left
                 (fun m n => if (m <? depth16 d n)%nat then depth16 d n else m) l m)%nat
              /\ forall n, In n l ->
                   (depth16 d n <= fold_left
                      (fun m n => if (m <? depth16 d n)%nat then depth16 d n else m) l m)%nat).
  { induction l as [|x l IH]; intro m; cbn [fold_left].
    - split; [lia|intros n []].
    - destruct (IH (if (m <? depth16 d x)%nat then depth16 d x else m)) as [A B].
      destruct (Nat.ltb_spec m (depth16 d x)); (split; [lia|]);
        intros n [<-|Hn]; try (apply B; exact Hn); lia. }
  intros n Hn. apply G. exact Hn.
Qed.

(** The nodes that the XPath selects in the data of the composer. *)
Definition matched (s : st) (xpath : string) : list lyd_node :=
  if is_null (data s) then []
  else
    match lyd_find_xpath (data s) xpath with
    | Some node_set => node_set
    | None => []
    end.

(** Every node that the XPath selects is freed once, deeper nodes first,
    unless the evaluation or a set fails, which leaves the data as they are. *)
Lemma sr_lyd_xpath_complement_frees (s s' : st) (xpath : string) (e : option sr_error_t) :
  (forall n, In n (matched s xpath) -> (1 <= lyd_depth (data s) n < 2 ^ 16)%nat) ->
  sr_lyd_xpath_complement s xpath = (s', e) ->
  (e = Some SR_ERR_LY /\ s' = s) \/
  (e = None /\ exists frees,
     Permutation frees (matched s xpath) /\ s' = free_all s frees).
Proof.
  unfold sr_lyd_xpath_complement, matched.
  destruct (is_null (data s)).
  { intros _ H. injection H as <- <-. right. split; [reflexivity|].
    exists []. split; [constructor|reflexivity]. }
  destruct (lyd_find_xpath (data s) xpath) as [node_set|].
  2:{ intros _ H. injection H as <- <-. left. split; reflexivity. }
  intro R. destruct ly_set_new_ok; cbn [negb].
  2:{ intro H. injection H as <- <-. left. split; reflexivity. }
  destruct node_set as [|n0 l].
  { intro H. injection H as <- <-. right. split; [reflexivity|].
    exists []. split; [constructor|reflexivity]. }
  destruct ly_set_add_ok; cbn [negb].
  2:{ intro H. injection H as <- <-. left. split; reflexivity. }
  intro H. injection H as <- <-. right. split; [reflexivity|].
  exists (frees_from_depth (data s) (max_depth (data s) (n0 :: l)) (n0 :: l)).
  split; [|apply free_from_depth_spec].
  eapply Permutation_trans; [apply frees_from_depth_Permutation|].
  replace (filter _ (n0 :: l)) with (n0 :: l); [apply Permutation_refl|].
  symmetry. apply forallb_filter_id. apply forallb_forall. intros n Hn.
  pose proof (R n Hn) as Rn. pose proof (max_depth_ge (data s) (n0 :: l) n Hn) as M.
  assert (E : depth16 (data s) n = lyd_depth (data s) n).
  { unfold depth16. apply Nat.mod_small. lia. }
  apply andb_true_intro. split; apply Nat.leb_le; lia.
Qed.

Lemma sr_lyd_xpath_complement_free_all (s s' : st) (xpath : string) (e : option sr_error_t) :
  sr_lyd_xpath_complement s xpath = (s', e) -> exists frees, s' = free_all s frees.
Proof.
  unfold sr_lyd_xpath_complement.
  destruct (is_null (data s)); [intro H; injection H as <- <-; exists []; reflexivity|].
  destruct (lyd_find_xpath (data s) xpath) as [node_set|];
    [|intro H; injection H as <- <-; exists []; reflexivity].
  destruct ly_set_new_ok; cbn [negb];
    [|intro H; injection H as <- <-; exists []; reflexivity].
  destruct node_set as [|n0 l]; [intro H; injection H as <- <-; exists []; reflexivity|].
  destruct ly_set_add_ok; cbn [negb];
    [|intro H; injection H as <- <-; exists []; reflexivity].
  intro H. injection H as <- <-. eexists. apply free_from_depth_spec.
Qed.

(** *** The events of a run *)

(** The events that belong to a provider. *)
Definition provider_event (ev : event) : Prop :=
  match ev with
  | EvFree _ => False
  | _ => True
  end.

(** The events other than a call of a provider that came back with an
    [err_info]. *)
Definition quiet (ev : event) : Prop :=
  match ev with
  | EvNotify _ _ (Some _) => False
  | _ => True
  end.

(** The events [l] of a step that ends with [e]: a call that comes back with
    an [err_info] is the last event, and its error is the one of the step. *)
Definition halts_ok (l : list event) (e : option sr_error_t) : Prop :=
  Forall quiet l \/
  exists body x p err,
    l = body ++ [EvNotify x p (Some err)] /\ Forall quiet body /\ e = Some err.

(** A step from [s] to [s'] that ends with [e] and whose events satisfy [P]. *)
Definition ext (P : event -> Prop) (s s' : st) (e : option sr_error_t) : Prop :=
  exists l, log s' = log s ++ l /\ Forall P l /\ halts_ok l e.

Lemma halts_ok_None (l : list event) : halts_ok l None -> Forall quiet l.
Proof.
  intros [H|(body & x & p & err & _ & _ & H)]; [exact H|discriminate H].
Qed.

Lemma ext_refl (P : event -> Prop) (s : st) (e : option sr_error_t) : ext P s s e.
Proof.
  exists []. split; [symmetry; apply app_nil_r|]. split; [constructor|]. left. constructor.
Qed.

Lemma ext_trans (P : event -> Prop) (s s1 s2 : st) (e : option sr_error_t) :
  ext P s s1 None -> ext P s1 s2 e -> ext P s s2 e.
Proof.
  intros (l1 & L1 & P1 & H1) (l2 & L2 & P2 & H2). apply halts_ok_None in H1.
  exists (l1 ++ l2). split; [rewrite L2, L1, app_assoc; reflexivity|].
  split; [apply Forall_app; split; assumption|].
  destruct H2 as [H2|(body & x & p & err & E & Q & Ee)].
  - left. apply Forall_app. split; assumption.
  - right. exists (l1 ++ body), x, p, err. split; [rewrite E, app_assoc; reflexivity|].
    split; [apply Forall_app; split; assumption|exact Ee].
Qed.

Lemma ext_weaken (P Q : event -> Prop) (s s' : st) (e : option sr_error_t) :
  (forall ev, P ev -> Q ev) -> ext P s s' e -> ext Q s s' e.
Proof.
  intros W (l & L & Pl & H). exists l. split; [exact L|]. split; [|exact H].
  apply (Forall_impl Q W Pl).
Qed.

Lemma ext_quiet (P : event -> Prop) (s s' : st) (ev : event) (e : option sr_error_t) :
  log s' = log s ++ [ev] -> P ev -> quiet ev -> ext P s s' e.
Proof.
  intros L Pe Q. exists [ev]. split; [exact L|]. split; [repeat constructor; exact Pe|].
  left. repeat constructor. exact Q.
Qed.

Lemma ext_free_all (s : st) (frees : list lyd_node) (e : option sr_error_t) :
  ext (fun _ => True) s (free_all s frees) e.
Proof.
  exists (map EvFree frees). split; [apply free_all_log|].
  split; [apply Forall_forall; intros; exact I|]. left.
  apply Forall_forall. intros ev H. apply in_map_iff in H. destruct H as (n & <- & _). exact I.
Qed.

Lemma get_from_client_ext (ly_mod xpath : string) (request_xpath : option string)
  (evpipe_num : Z) (parent : option lyd_node) (parent_dup : option lyd_data) (s s' : st)
  (d : lyd_data) (e : option sr_error_t) :
  get_from_client ly_mod xpath request_xpath evpipe_num parent parent_dup s = (s', d, e) ->
  ext provider_event s s' e.
Proof.
  unfold get_from_client.
  destruct (nr_err_info (sr_shmsub_oper_notify ly_mod xpath request_xpath parent_dup
                           evpipe_num (cb_error_info s))) as [err|] eqn:E.
  - intro H. injection H as <- _ <-.
    exists [EvNotify xpath parent (Some err)]. split; [reflexivity|].
    split; [repeat constructor|]. right. exists [], xpath, parent, err.
    split; [reflexivity|]. split; [constructor|reflexivity].
  - intro H.
    assert (G : forall s0 : st,
               log s0 = log s ++ [EvNotify xpath parent None] -> ext provider_event s s0 e).
    { intros s0 L. apply (ext_quiet _ s s0 _ e L); exact I. }
    destruct (is_null _); [injection H as <- _ <-; apply G; reflexivity|].
    destruct (lyd_new_implicit_tree _); injection H as <- _ <-; apply G; reflexivity.
Qed.

Lemma sr_xpath_oper_data_get_ext (ly_mod xpath : string) (request_xpath : option string)
  (evpipe_num : Z) (parent : option lyd_node) (s s' : st) (d : lyd_data)
  (e : option sr_error_t) :
  sr_xpath_oper_data_get ly_mod xpath request_xpath evpipe_num parent s = Val (s', d, e) ->
  ext provider_event s s' e.
Proof.
  unfold sr_xpath_oper_data_get.
  assert (C : forall pd,
             Val (get_from_client ly_mod xpath request_xpath evpipe_num parent pd s)
             = Val (s', d, e) -> ext provider_event s s' e).
  { intros pd H. injection H as H. apply (get_from_client_ext _ _ _ _ _ _ _ _ _ _ H). }
  destruct parent as [p|]; [|apply C].
  destruct (lyd_dup_single (data s) p) as [parent_dup|];
    [|intro H; injection H as <- _ <-; apply ext_refl].
  destruct request_xpath as [r|]; [|apply C].
  destruct (lyd_path (data s) p) as [parent_path|];
    [|intro H; injection H as <- _ <-; apply ext_refl].
  destruct (XPath.sr_xpath_oper_data_required NDEBUG (Some r) parent_path)
    as [required| | | |]; cbn [bind]; try discriminate.
  destruct required; cbn [negb]; [apply C|].
  intro H. injection H as <- _ <-. apply ext_refl.
Qed.

Lemma sr_xpath_oper_data_append_ext (shm_msub : Shm.sr_mod_oper_sub_t) (ly_mod : string)
  (request_xpath : option string) (oper_parent : option lyd_node) (s s' : st)
  (e : option sr_error_t) :
  sr_xpath_oper_data_append shm_msub ly_mod request_xpath oper_parent s = Val (s', e) ->
  ext provider_event s s' e.
Proof.
  unfold sr_xpath_oper_data_append.
  destruct (sr_xpath_oper_data_get _ _ _ _ _ s) as [[[s1 d] e1]| | | |] eqn:G;
    cbn [bind]; try discriminate.
  apply sr_xpath_oper_data_get_ext in G.
  destruct e1 as [err|]; [intro H; injection H as <- <-; exact G|].
  destruct (lyd_merge_siblings (data s1) d) as [d'|]; intro H; injection H as <- <-.
  - apply (ext_trans _ s s1 _ _ G). eapply ext_quiet; [reflexivity|exact I|exact I].
  - destruct G as (l & L & Pl & Hl). exists l. split; [exact L|]. split; [exact Pl|].
    left. apply halts_ok_None. exact Hl.
Qed.

Lemma nested_loop_ext (shm_msub : Shm.sr_mod_oper_sub_t) (ly_mod : string)
  (request_xpath : option string) (dnodes : list lyd_node) :
  forall fuel j s s' e,
    nested_loop fuel shm_msub ly_mod request_xpath dnodes j s = Val (s', e) ->
    ext provider_event s s' e.
Proof.
  induction fuel as [|fuel IH]; intros j s s' e; cbn [nested_loop]; [discriminate|].
  destruct (j <? Z.of_nat (List.length dnodes))%Z;
    [|intro H; injection H as <- <-; apply ext_refl].
  destruct (nth_error dnodes (Z.to_nat j)) as [p|]; [|discriminate].
  destruct (sr_xpath_oper_data_append shm_msub ly_mod request_xpath (Some p) s)
    as [[s1 e1]| | | |] eqn:A; cbn [bind]; try discriminate.
  apply sr_xpath_oper_data_append_ext in A.
  destruct e1 as [err|]; [intro H; injection H as <- <-; exact A|].
  intro H. apply (ext_trans _ s s1 s' e A). apply (IH _ _ _ _ H).
Qed.

(** What follows the removal of the present data in [provide]. *)
Lemma provide_calls (fuel : nat) (ly_mod : string) (request_xpath : option string)
  (shm_msub : Shm.sr_mod_oper_sub_t) (s s' : st) (e : option sr_error_t) :
  provide fuel ly_mod request_xpath shm_msub s = Val (s', e) ->
  exists s1 e1,
    remove_present shm_msub s = (s1, e1) /\
    match e1 with
    | Some err => s' = s1 /\ e = Some err
    | None => ext provider_event s1 s' e
    end.
Proof.
  unfold provide. destruct (remove_present shm_msub s) as [s1 e1].
  intro H. exists s1, e1. split; [reflexivity|].
  destruct e1 as [err|]; [injection H as <- <-; split; reflexivity|].
  destruct (sr_xpath_trim_last_node (Shm.os_xpath shm_msub)) as [px| | | |];
    cbn [bind] in H; try discriminate.
  destruct px as [parent_xpath|]; [|apply (sr_xpath_oper_data_append_ext _ _ _ _ _ _ _ H)].
  destruct (is_null (data s1)); [injection H as <- <-; apply ext_refl|].
  destruct (lyd_find_xpath (data s1) parent_xpath) as [[|p l]|].
  - injection H as <- <-. apply ext_refl.
  - apply (nested_loop_ext _ _ _ _ _ _ _ _ _ H).
  - injection H as <- <-. apply ext_refl.
Qed.

Lemma remove_present_free_all (shm_msub : Shm.sr_mod_oper_sub_t) (s s1 : st)
  (e1 : option sr_error_t) :
  remove_present shm_msub s = (s1, e1) -> exists frees, s1 = free_all s frees.
Proof.
  unfold remove_present. destruct (negb _).
  - apply sr_lyd_xpath_complement_free_all.
  - intro H. injection H as <- <-. exists []. reflexivity.
Qed.

Lemma provide_ext (fuel : nat) (ly_mod : string) (request_xpath : option string)
  (shm_msub : Shm.sr_mod_oper_sub_t) (s s' : st) (e : option sr_error_t) :
  provide fuel ly_mod request_xpath shm_msub s = Val (s', e) -> ext (fun _ => True) s s' e.
Proof.
  intro H. destruct (provide_calls _ _ _ _ _ _ _ H) as (s1 & e1 & R & C).
  destruct (remove_present_free_all _ _ _ _ R) as [frees ->].
  destruct e1 as [err|].
  - destruct C as [-> ->]. apply ext_free_all.
  - apply (ext_trans _ s (free_all s frees) s' e (ext_free_all s frees None)).
    apply (ext_weaken provider_event); [intros; exact I|exact C].
Qed.

Lemma subs_loop_ext (fuel : nat) (ly_mod : string) (request_xpath : option string)
  (opts : sr_get_oper_options_t) (subs : list Shm.sr_mod_oper_sub_t) :
  forall s s' e,
    subs_loop fuel ly_mod request_xpath opts subs s = Val (s', e) ->
    ext (fun _ => True) s s' e.
Proof.
  induction subs as [|sub l IH]; intros s s' e; cbn [subs_loop].
  - intro H. injection H as <- <-. apply ext_refl.
  - destruct (skipped opts request_xpath sub) as [skip| | | |]; cbn [bind]; try discriminate.
    destruct skip; [apply IH|].
    destruct (provide fuel ly_mod request_xpath sub s) as [[s1 e1]| | | |] eqn:Pr;
      cbn [bind]; try discriminate.
    apply provide_ext in Pr.
    destruct e1 as [err|]; [intro H; injection H as <- <-; exact Pr|].
    intro H. apply (ext_trans _ s s1 s' e Pr). apply (IH _ _ _ H).
Qed.

(** *** The three parts of the composition of one subscription *)

(** Without [SR_SUBSCR_OPER_MERGE] every node that the XPath of the
    subscription selects is freed before the first call of the provider. *)
Lemma provide_removes_first (fuel : nat) (ly_mod : string) (request_xpath : option string)
  (shm_msub : Shm.sr_mod_oper_sub_t) (s s' : st) (e : option sr_error_t) :
  Shm.os_opts_oper_merge shm_msub = false ->
  (forall n, In n (matched s (Shm.os_xpath shm_msub)) ->
     (1 <= lyd_depth (data s) n < 2 ^ 16)%nat) ->
  provide fuel ly_mod request_xpath shm_msub s = Val (s', e) ->
  (e = Some SR_ERR_LY /\ s' = s) \/
  (exists frees calls,
     Permutation frees (matched s (Shm.os_xpath shm_msub)) /\
     log s' = log s ++ map EvFree frees ++ calls /\
     Forall provider_event calls).
Proof.
  intros M R H. destruct (provide_calls _ _ _ _ _ _ _ H) as (s1 & e1 & Rm & C).
  unfold remove_present in Rm. rewrite M in Rm. cbn [negb] in Rm.
  destruct (sr_lyd_xpath_complement_frees _ _ _ _ R Rm) as [[-> ->]|(-> & frees & Pf & ->)].
  - left. destruct C as [-> ->]. split; reflexivity.
  - right. destruct C as (calls & L & Pc & _). exists frees, calls.
    split; [exact Pf|]. split; [|exact Pc].
    rewrite L, free_all_log, <- app_assoc. reflexivity.
Qed.

(** With a parent XPath that selects nothing in the data the provider is not
    called. *)
Lemma provide_no_parent (fuel : nat) (ly_mod : string) (request_xpath : option string)
  (shm_msub : Shm.sr_mod_oper_sub_t) (s s1 : st) (parent_xpath : string) :
  remove_present shm_msub s = (s1, None) ->
  sr_xpath_trim_last_node (Shm.os_xpath shm_msub) = Val (Some parent_xpath) ->
  is_null (data s1) = true \/ lyd_find_xpath (data s1) parent_xpath = Some [] ->
  provide fuel ly_mod request_xpath shm_msub s = Val (s1, None).
Proof.
  intros Rm T Z. unfold provide. rewrite Rm, T. cbn [bind].
  destruct (is_null (data s1)); [reflexivity|].
  destruct Z as [Z|Z]; [discriminate Z|]. rewrite Z. reflexivity.
Qed.

Lemma halts_ok_last (l : list event) (e : option sr_error_t) :
  halts_ok l e ->
  forall pre post x p err,
    l = pre ++ EvNotify x p (Some err) :: post -> post = [] /\ e = Some err.
Proof.
  intros H pre post x p err E.
  assert (NQ : forall l0, In (EvNotify x p (Some err)) l0 -> ~ Forall quiet l0).
  { intros l0 Hin F. apply (proj1 (Forall_forall quiet l0) F _ Hin). }
  destruct H as [F|(body & x' & p' & err' & El & F & Ee)].
  - exfalso. apply (NQ l); [|exact F]. rewrite E. apply in_elt.
  - rewrite E in El. clear E. destruct post as [|y post].
    + apply app_inj_tail in El. destruct El as [_ Ez]. injection Ez as _ _ Ez.
      split; [reflexivity|]. rewrite Ee, Ez. reflexivity.
    + exfalso. destruct (exists_last (l := y :: post)) as (post' & z & Ep); [discriminate|].
      rewrite Ep in El.
      change (pre ++ EvNotify x p (Some err) :: post' ++ [z])
        with (pre ++ (EvNotify x p (Some err) :: post') ++ [z]) in El.
      rewrite app_assoc in El. apply app_inj_tail in El. destruct El as [Eb _].
      apply (NQ body); [|exact F]. rewrite <- Eb. apply in_elt.
Qed.

Lemma apply_stored_log (ly_mod : string) (opts : sr_get_oper_options_t) (s : st) :
  log (fst (apply_stored ly_mod opts s)) = log s.
Proof.
  unfold apply_stored. destruct (negb _); [|reflexivity].
  destruct (stored_diff ly_mod) as [err|diff]; [reflexivity|].
  destruct (lyd_diff_apply_module _ _ _ _); reflexivity.
Qed.

(** A call that comes back with an [err_info] ends the composition: it is the
    last event, and its error is the one returned. *)
Lemma sr_module_oper_data_update_halts (fuel : nat) (shm_mod : Shm.sr_mod_t)
  (request_xpath : option string) (timeout_ms : Z) (opts : sr_get_oper_options_t)
  (d : lyd_data) (cb : option sr_error_t) (s' : st) (e : option sr_error_t) :
  sr_module_oper_data_update fuel shm_mod request_xpath timeout_ms opts d cb = Val (s', e) ->
  forall pre post x p err,
    log s' = pre ++ EvNotify x p (Some err) :: post -> post = [] /\ e = Some err.
Proof.
  unfold sr_module_oper_data_update. intro H.
  pose proof (apply_stored_log (Shm.name shm_mod) opts
                {| data := d; cb_error_info := cb; log := [] |}) as L0.
  destruct (apply_stored _ _ _) as [s0 e0]. cbn [fst log] in L0.
  assert (X : ext (fun _ => True) s0 s' e).
  { destruct e0 as [err|]; [injection H as <- <-; apply ext_refl|].
    destruct (SR_OPER_NO_SUBS opts); [injection H as <- <-; apply ext_refl|].
    unfold XPath.c_assert in H.
    destruct NDEBUG; [|destruct (negb _); [|discriminate H]];
      apply (subs_loop_ext _ _ _ _ _ _ _ _ H). }
  destruct X as (l & L & _ & Hl). rewrite L0 in L. cbn [app] in L.
  rewrite L. apply (halts_ok_last l e Hl).
Qed.

(** *** The loop over the data parents *)

(** The sets of data parents that the loop over them can go through: the
    parents of a subscription of [subs] are fewer than 2^16, whatever the
    data. *)
Definition small_parent_sets (subs : list Shm.sr_mod_oper_sub_t) : Prop :=
  forall sub parent_xpath d dnodes,
    In sub subs ->
    sr_xpath_trim_last_node (Shm.os_xpath sub) = Val (Some parent_xpath) ->
    lyd_find_xpath d parent_xpath = Some dnodes ->
    (Z.of_nat (List.length dnodes) < 2 ^ 16)%Z.

Lemma nth_error_in_range (dnodes : list lyd_node) (j : Z) :
  (0 <= j)%Z -> (j <? Z.of_nat (List.length dnodes))%Z = true ->
  exists p, nth_error dnodes (Z.to_nat j) = Some p.
Proof.
  intros J L. apply Z.ltb_lt in L.
  destruct (nth_error dnodes (Z.to_nat j)) as [p|] eqn:E; [now exists p|].
  apply nth_error_None in E. lia.
Qed.

(** Without a request XPath a call for one parent returns. *)
Lemma sr_xpath_oper_data_append_returns (shm_msub : Shm.sr_mod_oper_sub_t) (ly_mod : string)
  (p : option lyd_node) (s : st) :
  exists s' e, sr_xpath_oper_data_append shm_msub ly_mod None p s = Val (s', e).
Proof.
  unfold sr_xpath_oper_data_append.
  assert (G : exists s3 d3 e3,
             sr_xpath_oper_data_get ly_mod (Shm.os_xpath shm_msub) None
               (Shm.os_evpipe_num shm_msub) p s = Val (s3, d3, e3)).
  { unfold sr_xpath_oper_data_get. destruct p as [p|].
    - destruct (lyd_dup_single (data s) p); [|do 3 eexists; reflexivity].
      destruct (get_from_client _ _ _ _ _ _ _) as [[s3 d3] e3].
      exists s3, d3, e3. reflexivity.
    - destruct (get_from_client _ _ _ _ _ _ _) as [[s3 d3] e3].
      exists s3, d3, e3. reflexivity. }
  destruct G as (s3 & d3 & e3 & ->). cbn [bind].
  destruct e3; [do 2 eexists; reflexivity|].
  destruct (lyd_merge_siblings (data s3) d3); do 2 eexists; reflexivity.
Qed.

(** With fewer than 2^16 parents the loop over them is left after the last
    one at the latest. *)
Lemma nested_loop_returns (shm_msub : Shm.sr_mod_oper_sub_t) (ly_mod : string)
  (dnodes : list lyd_node) :
  (Z.of_nat (List.length dnodes) < 2 ^ 16)%Z ->
  forall fuel j s,
    (0 <= j <= Z.of_nat (List.length dnodes))%Z ->
    (Z.of_nat (List.length dnodes) - j < Z.of_nat fuel)%Z ->
    exists s' e, nested_loop fuel shm_msub ly_mod None dnodes j s = Val (s', e).
Proof.
  intro B. induction fuel as [|fuel IH]; intros j s J F; [lia|]. cbn [nested_loop].
  destruct (j <? Z.of_nat (List.length dnodes))%Z eqn:L; [|do 2 eexists; reflexivity].
  destruct (nth_error_in_range dnodes j (proj1 J) L) as [p ->]. apply Z.ltb_lt in L.
  destruct (sr_xpath_oper_data_append_returns shm_msub ly_mod (Some p) s) as (s1 & e1 & ->).
  cbn [bind]. destruct e1; [do 2 eexists; reflexivity|].
  rewrite Z.mod_small by lia. apply IH; lia.
Qed.

(** Without a request XPath the composer comes to its end whenever the XPaths
    of the subscriptions can be trimmed and the sets of data parents are
    small. *)
Lemma subs_loop_returns (fuel : nat) (ly_mod : string) (opts : sr_get_oper_options_t)
  (subs : list Shm.sr_mod_oper_sub_t) :
  (2 ^ 16 <= Z.of_nat fuel)%Z ->
  small_parent_sets subs ->
  (forall sub, In sub subs -> exists r, sr_xpath_trim_last_node (Shm.os_xpath sub) = Val r) ->
  forall s, exists s' e, subs_loop fuel ly_mod None opts subs s = Val (s', e).
Proof.
  intro Fu. induction subs as [|sub l IH]; intros Sm T s; cbn [subs_loop].
  - exists s, None. reflexivity.
  - assert (T' : forall sub0, In sub0 l ->
                   exists r, sr_xpath_trim_last_node (Shm.os_xpath sub0) = Val r).
    { intros sub0 H0. apply T. right. exact H0. }
    assert (Sm' : small_parent_sets l).
    { intros sub0 px d0 dn H0. apply Sm. right. exact H0. }
    assert (Sk : exists b, skipped opts None sub = Val b).
    { unfold skipped. destruct (_ && _); [eexists; reflexivity|].
      destruct (_ && _); eexists; reflexivity. }
    destruct Sk as [b ->]. cbn [bind]. destruct b; [apply (IH Sm' T')|].
    assert (Pr : exists s1 e1, provide fuel ly_mod None sub s = Val (s1, e1)).
    { unfold provide. destruct (remove_present sub s) as [s1 [err|]].
      { exists s1, (Some err). reflexivity. }
      destruct (T sub (or_introl eq_refl)) as [r Tr]. rewrite Tr. cbn [bind].
      destruct r as [parent_xpath|]; [|apply sr_xpath_oper_data_append_returns].
      destruct (is_null (data s1)); [do 2 eexists; reflexivity|].
      destruct (lyd_find_xpath (data s1) parent_xpath) as [dnodes|] eqn:Fi;
        [|do 2 eexists; reflexivity].
      pose proof (Sm sub parent_xpath (data s1) dnodes (or_introl eq_refl) Tr Fi) as B.
      destruct dnodes as [|p0 dn]; [do 2 eexists; reflexivity|].
      apply nested_loop_returns; [exact B|lia|lia]. }
    destruct Pr as (s1 & e1 & ->). cbn [bind].
    destruct e1; [do 2 eexists; reflexivity|apply (IH Sm' T')].
Qed.

(** *** Providers that fail *)

(** An environment in which nothing but a provider fails: the data library
    and the stored diff never fail, and a call of a provider never comes back
    with an [err_info].  The failure of a provider, a timeout included, is
    then what the call leaves behind [cb_err_info]. *)
Definition only_providers_fail : Prop :=
  (forall m x r pd ev cb, nr_err_info (sr_shmsub_oper_notify m x r pd ev cb) = None) /\
  (forall d x, lyd_find_xpath d x <> None) /\
  ly_set_new_ok = true /\ ly_set_add_ok = true /\
  (forall d p, lyd_dup_single d p <> None) /\
  (forall d p, lyd_path d p <> None) /\
  (forall d, lyd_new_implicit_tree d <> None) /\
  (forall a b, lyd_merge_siblings a b <> None) /\
  (forall m, exists diff, stored_diff m = inr diff) /\
  (forall d diff m o, lyd_diff_apply_module d diff m o <> None).

Section OnlyProvidersFail.

Hypothesis env : only_providers_fail.

Lemma get_from_client_ok (ly_mod xpath : string) (request_xpath : option string)
  (evpipe_num : Z) (parent : option lyd_node) (parent_dup : option lyd_data) (s s' : st)
  (d : lyd_data) (e : option sr_error_t) :
  get_from_client ly_mod xpath request_xpath evpipe_num parent parent_dup s = (s', d, e) ->
  e = None /\ log s' = log s ++ [EvNotify xpath parent None].
Proof using env ly_set_add_ok ly_set_new_ok lyd_diff_apply_module lyd_dup_single lyd_find_xpath lyd_merge_siblings lyd_path stored_diff.
  destruct env as (N & _ & _ & _ & _ & _ & Im & _).
  unfold get_from_client. rewrite N.
  destruct (is_null _); [intro H; injection H as <- _ <-; split; reflexivity|].
  destruct (lyd_new_implicit_tree _) as [d'|] eqn:E; [|contradiction (Im _ E)].
  intro H. injection H as <- _ <-. split; reflexivity.
Qed.

Lemma sr_xpath_oper_data_get_ok (ly_mod xpath : string) (request_xpath : option string)
  (evpipe_num : Z) (parent : option lyd_node) (s s' : st) (d : lyd_data)
  (e : option sr_error_t) :
  sr_xpath_oper_data_get ly_mod xpath request_xpath evpipe_num parent s = Val (s', d, e) ->
  e = None /\ (parent = None -> log s' = log s ++ [EvNotify xpath None None]).
Proof using env ly_set_add_ok ly_set_new_ok lyd_diff_apply_module lyd_find_xpath lyd_merge_siblings stored_diff.
  destruct env as (_ & _ & _ & _ & Du & Pa & _).
  unfold sr_xpath_oper_data_get. destruct parent as [p|].
  - destruct (lyd_dup_single (data s) p) as [pd|] eqn:E; [|contradiction (Du _ _ E)].
    assert (C : Val (get_from_client ly_mod xpath request_xpath evpipe_num (Some p)
                       (Some pd) s) = Val (s', d, e) ->
                e = None /\ (Some p = None -> log s' = log s ++ [EvNotify xpath None None])).
    { intro H. injection H as H. apply get_from_client_ok in H.
      split; [apply H|discriminate]. }
    destruct request_xpath as [r|]; [|exact C].
    destruct (lyd_path (data s) p) as [pp|] eqn:E'; [|contradiction (Pa _ _ E')].
    destruct (XPath.sr_xpath_oper_data_required NDEBUG (Some r) pp) as [b| | | |];
      cbn [bind]; try discriminate.
    destruct b; cbn [negb]; [exact C|].
    intro H. injection H as <- _ <-. split; [reflexivity|discriminate].
  - intro H. injection H as H. apply get_from_client_ok in H.
    split; [apply H|intros _; apply H].
Qed.

Lemma sr_xpath_oper_data_append_ok (shm_msub : Shm.sr_mod_oper_sub_t) (ly_mod : string)
  (request_xpath : option string) (oper_parent : option lyd_node) (s s' : st)
  (e : option sr_error_t) :
  sr_xpath_oper_data_append shm_msub ly_mod request_xpath oper_parent s = Val (s', e) ->
  e = None /\
  (oper_parent = None -> In (EvNotify (Shm.os_xpath shm_msub) None None) (log s')).
Proof using env ly_set_add_ok ly_set_new_ok lyd_diff_apply_module lyd_find_xpath stored_diff.
  pose proof env as (_ & _ & _ & _ & _ & _ & _ & Me & _).
  unfold sr_xpath_oper_data_append.
  destruct (sr_xpath_oper_data_get _ _ _ _ _ s) as [[[s1 d] e1]| | | |] eqn:G;
    cbn [bind]; try discriminate.
  apply sr_xpath_oper_data_get_ok in G. destruct G as [-> L].
  destruct (lyd_merge_siblings (data s1) d) as [d'|] eqn:E; [|contradiction (Me _ _ E)].
  intro H. injection H as <- <-. split; [reflexivity|].
  intro P. cbn [log]. rewrite (L P). apply in_or_app. left. apply in_elt.
Qed.

Lemma nested_loop_ok (shm_msub : Shm.sr_mod_oper_sub_t) (ly_mod : string)
  (request_xpath : option string) (dnodes : list lyd_node) :
  forall fuel j s s' e,
    nested_loop fuel shm_msub ly_mod request_xpath dnodes j s = Val (s', e) -> e = None.
Proof using env ly_set_add_ok ly_set_new_ok lyd_diff_apply_module lyd_find_xpath stored_diff.
  induction fuel as [|fuel IH]; intros j s s' e; cbn [nested_loop]; [discriminate|].
  destruct (j <? Z.of_nat (List.length dnodes))%Z;
    [|intro H; injection H as _ <-; reflexivity].
  destruct (nth_error dnodes (Z.to_nat j)) as [p|]; [|discriminate].
  destruct (sr_xpath_oper_data_append shm_msub ly_mod request_xpath (Some p) s)
    as [[s1 e1]| | | |] eqn:A; cbn [bind]; try discriminate.
  apply sr_xpath_oper_data_append_ok in A. destruct A as [-> _]. apply IH.
Qed.

(** In a set of 2^16 parents or more the index never reaches the count: when
    no call fails the loop is not left. *)
Lemma nested_loop_never_ends (shm_msub : Shm.sr_mod_oper_sub_t) (ly_mod : string)
  (dnodes : list lyd_node) :
  (2 ^ 16 <= Z.of_nat (List.length dnodes))%Z ->
  forall fuel j s,
    (0 <= j < 2 ^ 16)%Z ->
    nested_loop fuel shm_msub ly_mod None dnodes j s = OutOfFuel.
Proof using env ly_set_add_ok ly_set_new_ok lyd_diff_apply_module lyd_find_xpath stored_diff.
  intro B. induction fuel as [|fuel IH]; intros j s J; [reflexivity|]. cbn [nested_loop].
  assert (L : (j <? Z.of_nat (List.length dnodes))%Z = true) by (apply Z.ltb_lt; lia).
  rewrite L. destruct (nth_error_in_range dnodes j (proj1 J) L) as [p ->].
  destruct (sr_xpath_oper_data_append_returns shm_msub ly_mod (Some p) s) as (s1 & e1 & A).
  rewrite A. cbn [bind]. apply sr_xpath_oper_data_append_ok in A. destruct A as [-> _].
  apply IH. apply Z.mod_pos_bound. lia.
Qed.

Lemma remove_present_ok (shm_msub : Shm.sr_mod_oper_sub_t) (s s1 : st)
  (e1 : option sr_error_t) :
  remove_present shm_msub s = (s1, e1) -> e1 = None.
Proof using env lyd_diff_apply_module lyd_dup_single lyd_merge_siblings lyd_new_implicit_tree lyd_path sr_shmsub_oper_notify stored_diff.
  destruct env as (_ & Fi & S1 & S2 & _).
  unfold remove_present, sr_lyd_xpath_complement. rewrite S1, S2. cbn [negb].
  destruct (negb _); [|intro H; injection H as _ <-; reflexivity].
  destruct (is_null (data s)); [intro H; injection H as _ <-; reflexivity|].
  destruct (lyd_find_xpath _ _) as [[|n l]|] eqn:E; [| |contradiction (Fi _ _ E)];
    intro H; injection H as _ <-; reflexivity.
Qed.

Lemma provide_ok (fuel : nat) (ly_mod : string) (request_xpath : option string)
  (shm_msub : Shm.sr_mod_oper_sub_t) (s s' : st) (e : option sr_error_t) :
  provide fuel ly_mod request_xpath shm_msub s = Val (s', e) ->
  e = None /\
  (sr_xpath_trim_last_node (Shm.os_xpath shm_msub) = Val None ->
   In (EvNotify (Shm.os_xpath shm_msub) None None) (log s')).
Proof using env lyd_diff_apply_module stored_diff.
  pose proof env as (_ & Fi & _).
  unfold provide. destruct (remove_present shm_msub s) as [s1 e1] eqn:R.
  apply remove_present_ok in R. subst e1.
  destruct (sr_xpath_trim_last_node (Shm.os_xpath shm_msub)) as [px| | | |];
    cbn [bind]; try discriminate.
  destruct px as [parent_xpath|].
  - intro H. split; [|discriminate].
    destruct (is_null (data s1)); [injection H as _ <-; reflexivity|].
    destruct (lyd_find_xpath (data s1) parent_xpath) as [[|p l]|] eqn:E;
      [| |contradiction (Fi _ _ E)].
    + injection H as _ <-. reflexivity.
    + apply (nested_loop_ok _ _ _ _ _ _ _ _ _ H).
  - intro H. apply sr_xpath_oper_data_append_ok in H. destruct H as [-> H].
    split; [reflexivity|]. intros _. apply H. reflexivity.
Qed.

Lemma subs_loop_ok (fuel : nat) (ly_mod : string) (request_xpath : option string)
  (opts : sr_get_oper_options_t) (subs : list Shm.sr_mod_oper_sub_t) :
  forall s s' e,
    subs_loop fuel ly_mod request_xpath opts subs s = Val (s', e) ->
    e = None /\
    forall sub, In sub subs ->
      skipped opts request_xpath sub = Val false ->
      sr_xpath_trim_last_node (Shm.os_xpath sub) = Val None ->
      In (EvNotify (Shm.os_xpath sub) None None) (log s').
Proof using env lyd_diff_apply_module stored_diff.
  induction subs as [|sub l IH]; intros s s' e; cbn [subs_loop].
  - intro H. injection H as _ <-. split; [reflexivity|intros sub []].
  - destruct (skipped opts request_xpath sub) as [skip| | | |] eqn:Sk; cbn [bind];
      try discriminate.
    destruct skip.
    + intro H. destruct (IH _ _ _ H) as [-> K]. split; [reflexivity|].
      intros sub0 [<-|H0] Sk0; [rewrite Sk in Sk0; discriminate Sk0|apply (K sub0 H0 Sk0)].
    + destruct (provide fuel ly_mod request_xpath sub s) as [[s1 e1]| | | |] eqn:Pr;
        cbn [bind]; try discriminate.
      apply provide_ok in Pr. destruct Pr as [-> P1].
      intro H. destruct (IH _ _ _ H) as [-> K]. split; [reflexivity|].
      intros sub0 [<-|H0] Sk0 T0; [|apply (K sub0 H0 Sk0 T0)].
      destruct (subs_loop_ext _ _ _ _ _ _ _ _ H) as (l' & L & _).
      rewrite L. apply in_or_app. left. apply (P1 T0).
Qed.

(** In such an environment the composer does not stop before the last
    subscription and returns no [err_info], whatever the providers have left
    behind [cb_err_info]: every top-level subscription that is not skipped is
    called. *)
Lemma sr_module_oper_data_update_goes_on (fuel : nat) (shm_mod : Shm.sr_mod_t)
  (request_xpath : option string) (timeout_ms : Z) (opts : sr_get_oper_options_t)
  (d : lyd_data) (cb : option sr_error_t) (s' : st) (e : option sr_error_t) :
  sr_module_oper_data_update fuel shm_mod request_xpath timeout_ms opts d cb = Val (s', e) ->
  e = None /\
  (SR_OPER_NO_SUBS opts = false ->
   forall sub, In sub (Shm.oper_subs shm_mod) ->
     skipped opts request_xpath sub = Val false ->
     sr_xpath_trim_last_node (Shm.os_xpath sub) = Val None ->
     In (EvNotify (Shm.os_xpath sub) None None) (log s')).
Proof using env.
  pose proof env as (_ & _ & _ & _ & _ & _ & _ & _ & St & Ap).
  unfold sr_module_oper_data_update.
  assert (A : exists s0, apply_stored (Shm.name shm_mod) opts
                           {| data := d; cb_error_info := cb; log := [] |} = (s0, None)).
  { unfold apply_stored. destruct (negb _); [|eexists; reflexivity].
    destruct (St (Shm.name shm_mod)) as [diff ->]. cbn [data].
    destruct (lyd_diff_apply_module d diff _ _) eqn:E; [|contradiction (Ap _ _ _ _ E)].
    eexists. reflexivity. }
  destruct A as [s0 ->].
  destruct (SR_OPER_NO_SUBS opts).
  - intro H. injection H as _ <-. split; [reflexivity|discriminate].
  - unfold XPath.c_assert. intro H.
    assert (H' : subs_loop fuel (Shm.name shm_mod) request_xpath opts
                   (Shm.oper_subs shm_mod) s0 = Val (s', e)).
    { destruct NDEBUG; [exact H|]. destruct (negb _); [exact H|discriminate H]. }
    destruct (subs_loop_ok _ _ _ _ _ _ _ _ H') as [-> K]. split; [reflexivity|].
    intros _. exact K.
Qed.

End OnlyProvidersFail.

(** Without a request XPath the composer comes to its end. *)
Lemma sr_module_oper_data_update_returns (fuel : nat) (shm_mod : Shm.sr_mod_t)
  (timeout_ms : Z) (opts : sr_get_oper_options_t) (d : lyd_data) (cb : option sr_error_t) :
  (2 ^ 16 <= Z.of_nat fuel)%Z ->
  small_parent_sets (Shm.oper_subs shm_mod) ->
  (forall sub, In sub (Shm.oper_subs shm_mod) ->
     exists r, sr_xpath_trim_last_node (Shm.os_xpath sub) = Val r) ->
  timeout_ms <> 0%Z ->
  exists s' e,
    sr_module_oper_data_update fuel shm_mod None timeout_ms opts d cb = Val (s', e).
Proof.
  intros Fu Sm T Z. unfold sr_module_oper_data_update.
  destruct (apply_stored _ _ _) as [s0 [err|]]; [do 2 eexists; reflexivity|].
  destruct (SR_OPER_NO_SUBS opts); [do 2 eexists; reflexivity|].
  unfold XPath.c_assert. apply Z.eqb_neq in Z. rewrite Z. cbn [negb].
  destruct NDEBUG; apply (subs_loop_returns _ _ _ _ Fu Sm T).
Qed.

(** *** The fuel of the static prune and of the loop over the data parents is
    enough for the composer *)

Lemma sr_xpath_oper_data_get_fuel (ly_mod xpath : string) (request_xpath : option string)
  (evpipe_num : Z) (parent : option lyd_node) (s : st) :
  sr_xpath_oper_data_get ly_mod xpath request_xpath evpipe_num parent s <> OutOfFuel.
Proof.
  unfold sr_xpath_oper_data_get. destruct parent as [p|]; [|discriminate].
  destruct (lyd_dup_single (data s) p); [|discriminate].
  destruct request_xpath as [r|]; [|discriminate].
  destruct (lyd_path (data s) p) as [pp|]; [|discriminate].
  pose proof (XPath.sr_xpath_oper_data_required_fuel NDEBUG (Some r) pp) as R.
  destruct (XPath.sr_xpath_oper_data_required NDEBUG (Some r) pp) as [b| | | |];
    cbn [bind]; try discriminate; [|contradiction R; reflexivity].
  destruct (negb b); discriminate.
Qed.

Lemma sr_xpath_oper_data_append_fuel (shm_msub : Shm.sr_mod_oper_sub_t) (ly_mod : string)
  (request_xpath : option string) (oper_parent : option lyd_node) (s : st) :
  sr_xpath_oper_data_append shm_msub ly_mod request_xpath oper_parent s <> OutOfFuel.
Proof.
  unfold sr_xpath_oper_data_append.
  pose proof (sr_xpath_oper_data_get_fuel ly_mod (Shm.os_xpath shm_msub) request_xpath
                (Shm.os_evpipe_num shm_msub) oper_parent s) as G.
  destruct (sr_xpath_oper_data_get _ _ _ _ _ s) as [[[s1 d] e1]| | | |]; cbn [bind];
    try discriminate; [|contradiction G; reflexivity].
  destruct e1; [discriminate|]. destruct (lyd_merge_siblings _ _); discriminate.
Qed.

Lemma nested_loop_fuel (shm_msub : Shm.sr_mod_oper_sub_t) (ly_mod : string)
  (request_xpath : option string) (dnodes : list lyd_node) :
  (Z.of_nat (List.length dnodes) < 2 ^ 16)%Z ->
  forall fuel j s,
    (0 <= j <= Z.of_nat (List.length dnodes))%Z ->
    (Z.of_nat (List.length dnodes) - j < Z.of_nat fuel)%Z ->
    nested_loop fuel shm_msub ly_mod request_xpath dnodes j s <> OutOfFuel.
Proof.
  intro B. induction fuel as [|fuel IH]; intros j s J F; [lia|]. cbn [nested_loop].
  destruct (j <? Z.of_nat (List.length dnodes))%Z eqn:L; [|discriminate].
  destruct (nth_error_in_range dnodes j (proj1 J) L) as [p ->]. apply Z.ltb_lt in L.
  pose proof (sr_xpath_oper_data_append_fuel shm_msub ly_mod request_xpath (Some p) s) as A.
  destruct (sr_xpath_oper_data_append _ _ _ _ s) as [[s1 e1]| | | |]; cbn [bind];
    try discriminate; [|contradiction A; reflexivity].
  destruct e1; [discriminate|]. rewrite Z.mod_small by lia. apply IH; lia.
Qed.

Lemma provide_fuel (fuel : nat) (ly_mod : string) (request_xpath : option string)
  (shm_msub : Shm.sr_mod_oper_sub_t) (s : st) :
  (2 ^ 16 <= Z.of_nat fuel)%Z ->
  small_parent_sets [shm_msub] ->
  provide fuel ly_mod request_xpath shm_msub s <> OutOfFuel.
Proof.
  intros Fu Sm.
  unfold provide. destruct (remove_present shm_msub s) as [s1 [e|]]; [discriminate|].
  assert (T : sr_xpath_trim_last_node (Shm.os_xpath shm_msub) <> OutOfFuel).
  { unfold sr_xpath_trim_last_node, XPath.c_assert.
    destruct (trim_scan _ _ _) as [k|].
    - destruct (Nat.eqb _ 0); destruct NDEBUG; try discriminate;
        destruct (Ascii.eqb _ _); discriminate.
    - destruct NDEBUG; [discriminate|]. destruct (Ascii.eqb _ _); discriminate. }
  destruct (sr_xpath_trim_last_node (Shm.os_xpath shm_msub)) as [px| | | |] eqn:Tr;
    cbn [bind]; try discriminate; [|contradiction T; reflexivity].
  destruct px as [parent_xpath|]; [|apply sr_xpath_oper_data_append_fuel].
  destruct (is_null (data s1)); [discriminate|].
  destruct (lyd_find_xpath (data s1) parent_xpath) as [dnodes|] eqn:Fi; [|discriminate].
  pose proof (Sm shm_msub parent_xpath (data s1) dnodes (or_introl eq_refl) Tr Fi) as B.
  destruct dnodes as [|p l]; [discriminate|].
  apply nested_loop_fuel; [exact B|lia|lia].
Qed.

Lemma subs_loop_fuel (fuel : nat) (ly_mod : string) (request_xpath : option string)
  (opts : sr_get_oper_options_t) (subs : list Shm.sr_mod_oper_sub_t) :
  (2 ^ 16 <= Z.of_nat fuel)%Z ->
  small_parent_sets subs ->
  forall s, subs_loop fuel ly_mod request_xpath opts subs s <> OutOfFuel.
Proof.
  intro Fu. induction subs as [|sub l IH]; intros Sm s; cbn [subs_loop]; [discriminate|].
  assert (Sm' : small_parent_sets l).
  { intros sub0 px d0 dn H0. apply Sm. right. exact H0. }
  assert (Sm1 : small_parent_sets [sub]).
  { intros sub0 px d0 dn [<-|[]]. apply Sm. left. reflexivity. }
  assert (K : skipped opts request_xpath sub <> OutOfFuel).
  { unfold skipped. destruct (_ && _); [discriminate|]. destruct (_ && _); [discriminate|].
    pose proof (XPath.sr_xpath_oper_data_required_fuel NDEBUG request_xpath
                  (Shm.os_xpath sub)) as R.
    destruct (XPath.sr_xpath_oper_data_required NDEBUG request_xpath (Shm.os_xpath sub));
      cbn [bind]; try discriminate. contradiction R; reflexivity. }
  destruct (skipped opts request_xpath sub) as [skip| | | |]; cbn [bind]; try discriminate;
    [|contradiction K; reflexivity].
  destruct skip; [apply (IH Sm')|].
  pose proof (provide_fuel fuel ly_mod request_xpath sub s Fu Sm1) as P.
  destruct (provide fuel ly_mod request_xpath sub s) as [[s1 e1]| | | |]; cbn [bind];
    try discriminate; [|contradiction P; reflexivity].
  destruct e1; [discriminate|apply (IH Sm')].
Qed.

(** The composer comes to its end: it returns, or it stops on an assertion or
    on a read outside an XPath. *)
Lemma sr_module_oper_data_update_fuel (fuel : nat) (shm_mod : Shm.sr_mod_t)
  (request_xpath : option string) (timeout_ms : Z) (opts : sr_get_oper_options_t)
  (d : lyd_data) (cb : option sr_error_t) :
  (2 ^ 16 <= Z.of_nat fuel)%Z ->
  small_parent_sets (Shm.oper_subs shm_mod) ->
  sr_module_oper_data_update fuel shm_mod request_xpath timeout_ms opts d cb <> OutOfFuel.
Proof.
  intros Fu Sm. unfold sr_module_oper_data_update.
  destruct (apply_stored _ _ _) as [s0 [e|]]; [discriminate|].
  destruct (SR_OPER_NO_SUBS opts); [discriminate|].
  unfold XPath.c_assert.
  destruct NDEBUG; [apply (subs_loop_fuel _ _ _ _ _ Fu Sm)|].
  destruct (negb _); [apply (subs_loop_fuel _ _ _ _ _ Fu Sm)|discriminate].
Qed.


End Composer.

Arguments data {lyd_data lyd_node} s.
Arguments cb_error_info {lyd_data lyd_node} s.
Arguments log {lyd_data lyd_node} s.
Arguments EvFree {lyd_node} node.
Arguments EvNotify {lyd_node} sub_xpath parent err_info.
Arguments EvMerge {lyd_node} sub_xpath.

(** *** A concrete run *)

(** Data trees as the lists of the paths of their nodes; a node is its path. *)
Definition ex_depth (n : string) : nat :=
  List.length (filter (Ascii.eqb "/") (list_ascii_of_string n)).

Definition ex_sub (xpath : string) : Shm.sr_mod_oper_sub_t :=
  {| Shm.os_xpath := xpath; Shm.os_sub_type := Shm.SR_OPER_SUB_STATE;
     Shm.os_opts_oper_merge := false; Shm.os_evpipe_num := 1 |}.

Definition ex_mod : Shm.sr_mod_t :=
  {| Shm.name := "m"; Shm.ver := 1; Shm.flags := 0; Shm.data_deps := [];
     Shm.inv_data_deps := []; Shm.oper_subs := [ex_sub "/m:a"; ex_sub "/m:b"];
     Shm.notif_subs := [] |}.

Definition ex_opts : sr_get_oper_options_t :=
  {| SR_OPER_NO_STATE := false; SR_OPER_NO_CONFIG := false; SR_OPER_NO_SUBS := false;
     SR_OPER_NO_STORED := false; SR_OPER_WITH_ORIGIN := false |}.

(** The provider of [/m:a] times out, which it reports behind [cb_err_info];
    the provider of [/m:b] answers. *)
Definition ex_notify (ly_mod xpath : string) (request_xpath : option string)
  (parent : option (list string)) (evpipe_num : Z) (cb : option sr_error_t)
  : notify_result (list string) :=
  if String.eqb xpath "/m:a"
  then {| nr_err_info := None; nr_data := []; nr_cb_err_info := Some SR_ERR_TIME_OUT |}
  else {| nr_err_info := None; nr_data := [xpath]; nr_cb_err_info := cb |}.

Definition ex_update (d : list string) : result (list string) string :=
  sr_module_oper_data_update true (list string) string []
    (fun d => match d with [] => true | _ => false end)
    (fun d x => Some (filter (String.prefix x) d))
    (fun _ n => ex_depth n)
    (fun n d => filter (fun m => negb (String.prefix n m)) d)
    true true
    (fun _ p => Some [p]) (fun _ p => Some p) (fun d => Some d)
    (fun a b => Some (a ++ b)) (fun d diff _ _ => Some (d ++ diff)) (fun _ => inr [])
    ex_notify 16 ex_mod None 1000 ex_opts d None.


(** A module with a top-level subscription and a nested one, whose data
    parent is [/m:c], and a data library whose sets hold 65535 nodes at
    most. *)
Definition ex_mod_nested : Shm.sr_mod_t :=
  {| Shm.name := "m"; Shm.ver := 1; Shm.flags := 0; Shm.data_deps := [];
     Shm.inv_data_deps := []; Shm.oper_subs := [ex_sub "/m:a"; ex_sub "/m:c/d"];
     Shm.notif_subs := [] |}.

Definition ex_max : nat := Z.to_nat 65535.

Definition ex_find (d : list string) (x : string) : option (list string) :=
  Some (firstn ex_max (filter (String.prefix x) d)).

Definition ex_compose (fuel : nat) (d : list string) : result (list string) string :=
  sr_module_oper_data_update true (list string) string []
    (fun d => match d with [] => true | _ => false end)
    ex_find
    (fun _ n => ex_depth n)
    (fun n d => filter (fun m => negb (String.prefix n m)) d)
    true true
    (fun _ p => Some [p]) (fun _ p => Some p) (fun d => Some d)
    (fun a b => Some (a ++ b)) (fun d diff _ _ => Some (d ++ diff)) (fun _ => inr [])
    ex_notify fuel ex_mod_nested None 1000 ex_opts d None.

(** The nested provider is called once, for the one data parent. *)
Example ex_compose_nested :
  match ex_compose 2 ["/m:a"; "/m:c"] with
  | Val (s, e) =>
      log s = [EvFree "/m:a"; EvNotify "/m:a" None None; EvMerge "/m:a";
               EvNotify "/m:c/d" (Some "/m:c") None; EvMerge "/m:c/d"] /\
      data s = ["/m:c"; "/m:c/d"] /\ e = None
  | _ => False
  end.
Proof. vm_compute. repeat split. Qed.

Lemma ex_find_small (d : list string) (x : string) (dnodes : list string) :
  ex_find d x = Some dnodes -> (Z.of_nat (List.length dnodes) < 2 ^ 16)%Z.
Proof.
  unfold ex_find. intro H.
  assert (E : dnodes = firstn ex_max (filter (String.prefix x) d)) by congruence.
  rewrite E, length_firstn. unfold ex_max. lia.
Defined.

Lemma ex_only_providers_fail :
  only_providers_fail (list string) string ex_find true true
    (fun _ p => Some [p]) (fun _ p => Some p) (fun d => Some d)
    (fun a b => Some (a ++ b)) (fun d diff _ _ => Some (d ++ diff))
    (fun _ => inr []) ex_notify.
Proof.
  unfold only_providers_fail.
  split; [intros m x r pd ev cb; unfold ex_notify; destruct (String.eqb x "/m:a"); reflexivity|].
  split; [discriminate|]. split; [reflexivity|]. split; [reflexivity|].
  split; [discriminate|]. split; [discriminate|]. split; [discriminate|].
  split; [discriminate|]. split; [intro m; eexists; reflexivity|discriminate].
Defined.


End Oper.

(** ** The config-change notification ([sr_modinfo_generate_config_change_notif]) *)

Module Notif.

Local Open Scope string_scope.
Local Open Scope list_scope.
Local Open Scope Z_scope.

(** [enum edit_op] ([edit_diff.h]). *)
Inductive edit_op : Type :=
| EDIT_FINISH
| EDIT_CONTINUE
| EDIT_MOVE
| EDIT_AUTO_REMOVE
| EDIT_ETHER
| EDIT_PURGE
| EDIT_NONE
| EDIT_MERGE
| EDIT_REPLACE
| EDIT_CREATE
| EDIT_DELETE
| EDIT_REMOVE.

(** The values of the enumerators. *)
Definition edit_op_value (op : edit_op) : Z :=
  match op with
  | EDIT_FINISH => -1
  | EDIT_CONTINUE => 0
  | EDIT_MOVE => 1
  | EDIT_AUTO_REMOVE => 2
  | EDIT_ETHER => 3
  | EDIT_PURGE => 4
  | EDIT_NONE => 5
  | EDIT_MERGE => 6
  | EDIT_REPLACE => 7
  | EDIT_CREATE => 8
  | EDIT_DELETE => 9
  | EDIT_REMOVE => 10
  end.

(** [edit_op && (edit_op != EDIT_NONE)]. *)
Definition effective (op : edit_op) : bool :=
  negb (edit_op_value op =? 0) && negb (edit_op_value op =? edit_op_value EDIT_NONE).

(** Modelled from the spec: [sr_change_oper_t] is declared in [sysrepo.h],
    which is not part of the sources at hand.  The design document and the
    [switch] of the generator name its four values; [SR_OP_INVALID] stands for
    any other value that a variable of the type may hold. *)
Inductive sr_change_oper_t : Type :=
| SR_OP_CREATED
| SR_OP_MODIFIED
| SR_OP_DELETED
| SR_OP_MOVED
| SR_OP_INVALID.

(** The [switch (op)]: [op_enum], or nothing in the [default] case. *)
Definition op_enum (op : sr_change_oper_t) : option string :=
  match op with
  | SR_OP_CREATED => Some "create"
  | SR_OP_MODIFIED => Some "replace"
  | SR_OP_DELETED => Some "delete"
  | SR_OP_MOVED => Some "merge"
  | SR_OP_INVALID => None
  end.

(** [sr_ds2str]. *)
Definition sr_ds2str (ds : sr_datastore_t) : string :=
  match ds with
  | SR_DS_RUNNING => "running"
  | SR_DS_STARTUP => "startup"
  | SR_DS_CANDIDATE => "candidate"
  | SR_DS_OPERATIONAL => "operational"
  end.

Definition NC_NOTIF_MOD : string := "ietf-netconf-notifications".

(** [sr_notif_find_subscriber]: the subscriptions of the module and the number
    of those that are not suspended (a descriptor holds fewer than 2^16
    subscriptions, so that the [uint32_t] counter does not wrap). *)
Definition sr_notif_find_subscriber (shm : Shm.main_shm) (mod_name : string)
  : sr_error_t + (list Shm.sr_mod_notif_sub_t * Z) :=
  match Shm.sr_shmmain_find_module shm mod_name with
  | None => inl SR_ERR_INTERNAL
  | Some i =>
      match nth_error shm i with
      | None => inl SR_ERR_INTERNAL
      | Some shm_mod =>
          inr (Shm.notif_subs shm_mod,
               fold_left (fun c sub => if Shm.ns_suspended sub then c else c + 1)
                 (Shm.notif_subs shm_mod) 0)
      end
  end.

(** An [edit] entry of the notification and the notification. *)
Record edit_t : Type := {
  target : string;
  operation : string
}.

Record notif_t : Type := {
  username : string;
  session_id : string;
  datastore : string;
  edits : list edit_t
}.

(** What the generator does with a notification. *)
Inductive action : Type :=
| ActBuild
| ActReplayStore (notif : notif_t) (notif_ts : Z)
| ActSend (notif : notif_t) (notif_ts : Z) (notif_subs : list Shm.sr_mod_notif_sub_t)
    (notif_sub_count : Z).

(** The returned [err_info] and what was done. *)
Record ret : Type := {
  err_info : option sr_error_t;
  actions : list action
}.

Section Generator.

(** A data node carries what the data library keeps in it; the diff is a list
    of sibling trees. *)
Variable payload : Type.

#[local] Unset Elimination Schemes.
Inductive lyd_node : Type :=
| Node (p : payload) (children : list lyd_node).
#[local] Set Elimination Schemes.

(** [LYD_TREE_DFS_BEGIN] / [LYD_TREE_DFS_END]: the nodes of a tree, parents
    before children. *)
Fixpoint dfs (n : lyd_node) : list lyd_node :=
  match n with
  | Node _ children => n :: flat_map dfs children
  end.

(** What [sr_diff_set_getnext] yields: its [err_info], the index after the
    call, the changed node (NULL at the end of the set) and its operation. *)
Record getnext_t : Type := {
  gn_err_info : option sr_error_t;
  gn_idx : nat;
  gn_node : option lyd_node;
  gn_op : sr_change_oper_t
}.

(** The edit functions ([edit_diff.h]; their bodies are not part of the
    sources at hand), the data library, the store of notifications for replay
    and the delivery to the subscribers are taken as given. *)
Variable sr_edit_diff_find_oper : lyd_node -> edit_op.
Variable sr_diff_set_getnext : list lyd_node -> nat -> getnext_t.
Variable ly_set_new_ok : bool.
Variable ly_set_add_ok : bool.
Variable lyd_new_ok : string -> string -> bool.
Variable lyd_path : lyd_node -> option string.
Variable sr_replay_store : notif_t -> Z -> option sr_error_t.
Variable sr_shmsub_notif_notify :
  notif_t -> Z -> list Shm.sr_mod_notif_sub_t -> Z -> option sr_error_t.

(** How the [while] loop over the changes is left: at its end, with the
    [err_info] of the last call and the entries, or by [goto cleanup]. *)
Inductive loop_exit : Type :=
| LoopEnd (err_info : option sr_error_t) (edits : list edit_t)
| LoopCleanup (err_info : sr_error_t).

Fixpoint edits_loop (fuel : nat) (set : list lyd_node) (idx : nat) (acc : list edit_t)
  : outcome loop_exit :=
  match fuel with
  | O => OutOfFuel
  | S fuel' =>
      let r := sr_diff_set_getnext set idx in
      match gn_err_info r, gn_node r with
      | Some e, _ => Val (LoopEnd (Some e) acc)
      | None, None => Val (LoopEnd None acc)
      | None, Some elem =>
          if negb (lyd_new_ok "edit" "") then Val (LoopCleanup SR_ERR_LY)
          else
            match lyd_path elem with
            | None => Val (LoopCleanup SR_ERR_LY)
            | Some xpath =>
                if negb (lyd_new_ok "target" xpath) then Val (LoopCleanup SR_ERR_LY)
                else
                  match op_enum (gn_op r) with
                  | None => Val (LoopCleanup SR_ERR_INTERNAL)
                  | Some op =>
                      if negb (lyd_new_ok "operation" op) then Val (LoopCleanup SR_ERR_LY)
                      else
                        edits_loop fuel' set (gn_idx r)
                          (acc ++ [{| target := xpath; operation := op |}])
                  end
            end
      end
  end.

(** Label [cleanup]. *)
Definition cleanup (err_info tmp_err_info : option sr_error_t) (acts : list action) : ret :=
  {| err_info := match err_info with Some e => Some e | None => tmp_err_info end;
     actions := acts |}.

(** The part of the generator that builds, stores and sends the notification. *)
Definition build_and_send (fuel : nat) (ds : sr_datastore_t) (diff : list lyd_node)
  (user : string) (nc : Z) (notif_ts : Z) (notif_subs : list Shm.sr_mod_notif_sub_t)
  (notif_sub_count : Z) : outcome ret :=
  if negb ly_set_new_ok then Val (cleanup (Some SR_ERR_NOMEM) None [])
  else
    let set := flat_map dfs diff in
    let nc_str := NilZero.string_of_uint (N.to_uint (Z.to_N nc)) in
    if match set with [] => false | _ => negb ly_set_add_ok end
    then Val (cleanup (Some SR_ERR_INTERNAL) None [])
    else if negb (lyd_new_ok "netconf-config-change" "")
    then Val (cleanup (Some SR_ERR_LY) None [ActBuild])
    else if negb (lyd_new_ok "changed-by" "")
    then Val (cleanup (Some SR_ERR_LY) None [ActBuild])
    else if negb (lyd_new_ok "username" user)
    then Val (cleanup (Some SR_ERR_LY) None [ActBuild])
    else if negb (lyd_new_ok "session-id" nc_str)
    then Val (cleanup (Some SR_ERR_LY) None [ActBuild])
    else if negb (lyd_new_ok "datastore" (sr_ds2str ds))
    then Val (cleanup (Some SR_ERR_LY) None [ActBuild])
    else
      x <- edits_loop fuel set 0 [] ;;
      match x with
      | LoopCleanup e => Val (cleanup (Some e) None [ActBuild])
      | LoopEnd err_info edits =>
          let notif := {| username := user; session_id := nc_str; datastore := sr_ds2str ds;
                          edits := edits |} in
          let tmp_err_info := sr_replay_store notif notif_ts in
          let acts := [ActBuild; ActReplayStore notif notif_ts] in
          if negb (notif_sub_count =? 0) then
            Val (cleanup (sr_shmsub_notif_notify notif notif_ts notif_subs notif_sub_count)
                   tmp_err_info
                   (acts ++ [ActSend notif notif_ts notif_subs notif_sub_count]))
          else Val (cleanup err_info tmp_err_info acts)
      end.

(** [sr_modinfo_generate_config_change_notif].  [ds] and [diff] are the ones
    of the modinfo, [user] and [nc] (a [uint32_t], printed with [%u]) come
    from the session, [notif_ts] is what [time] gives. *)
Definition sr_modinfo_generate_config_change_notif (fuel : nat) (shm : Shm.main_shm)
  (ds : sr_datastore_t) (diff : list lyd_node) (user : string) (nc : Z) (notif_ts : Z)
  : outcome ret :=
  let changes :=
    existsb (fun elem => effective (sr_edit_diff_find_oper elem)) (flat_map dfs diff) in
  if negb changes then Val {| err_info := None; actions := [] |}
  else if ds_eqb ds SR_DS_CANDIDATE || ds_eqb ds SR_DS_OPERATIONAL
  then Val {| err_info := None; actions := [] |}
  else
    match sr_notif_find_subscriber shm NC_NOTIF_MOD with
    | inl e => Val {| err_info := Some e; actions := [] |}
    | inr (notif_subs, notif_sub_count) =>
        match Shm.sr_shmmain_find_module shm NC_NOTIF_MOD with
        | None => Val {| err_info := Some SR_ERR_INTERNAL; actions := [] |}
        | Some i =>
            match nth_error shm i with
            | None => Val {| err_info := Some SR_ERR_INTERNAL; actions := [] |}
            | Some shm_mod =>
                if (Z.land (Shm.flags shm_mod) Shm.SR_MOD_REPLAY_SUPPORT =? 0)
                   && (notif_sub_count =? 0)
                then Val {| err_info := None; actions := [] |}
                else
                  build_and_send fuel ds diff user nc notif_ts notif_subs notif_sub_count
            end
        end
    end.

(** *** The gates and the entries *)

(** [changes] after the first walk over the diff. *)
Definition has_changes (diff : list lyd_node) : bool :=
  existsb (fun elem => effective (sr_edit_diff_find_oper elem)) (flat_map dfs diff).

(** The operations of the standard. *)
Definition standard_op (op : string) : Prop :=
  op = "create" \/ op = "replace" \/ op = "delete" \/ op = "merge".

(** The changes that the successive calls of [sr_diff_set_getnext] yield. *)
Fixpoint changes_of (fuel : nat) (set : list lyd_node) (idx : nat)
  : list (lyd_node * sr_change_oper_t) :=
  match fuel with
  | O => []
  | S fuel' =>
      let r := sr_diff_set_getnext set idx in
      match gn_err_info r, gn_node r with
      | None, Some elem => (elem, gn_op r) :: changes_of fuel' set (gn_idx r)
      | _, _ => []
      end
  end.

(** The entry of a change: its target is the path of the node, its operation
    the one that the [switch] gives. *)
Definition entry_of (ch : lyd_node * sr_change_oper_t) (e : edit_t) : Prop :=
  lyd_path (fst ch) = Some (target e) /\ op_enum (snd ch) = Some (operation e).

Lemma op_enum_standard (op : sr_change_oper_t) (s : string) :
  op_enum op = Some s -> standard_op s.
Proof.
  unfold standard_op. destruct op; intro H; try discriminate H; injection H as <-.
  - left. reflexivity.
  - right. left. reflexivity.
  - right. right. left. reflexivity.
  - right. right. right. reflexivity.
Qed.

Lemma entry_of_standard (l : list (lyd_node * sr_change_oper_t)) (es : list edit_t) :
  Forall2 entry_of l es -> Forall (fun e => standard_op (operation e)) es.
Proof.
  induction 1 as [|ch e l es [_ H] _ IH]; constructor; [|exact IH].
  apply (op_enum_standard _ _ H).
Qed.

Lemma edits_loop_entries (set : list lyd_node) (fuel : nat) :
  forall idx acc err edits,
    edits_loop fuel set idx acc = Val (LoopEnd err edits) ->
    exists new, edits = acc ++ new /\ Forall2 entry_of (changes_of fuel set idx) new.
Proof.
  induction fuel as [|fuel IH]; intros idx acc err edits; cbn [edits_loop changes_of];
    [discriminate|].
  destruct (gn_err_info (sr_diff_set_getnext set idx)) as [e|].
  { intro H. injection H as _ <-. exists []. split; [symmetry; apply app_nil_r|constructor]. }
  destruct (gn_node (sr_diff_set_getnext set idx)) as [elem|].
  2:{ intro H. injection H as _ <-. exists [].
      split; [symmetry; apply app_nil_r|constructor]. }
  destruct (negb (lyd_new_ok "edit" "")); [discriminate|].
  destruct (lyd_path elem) as [xpath|] eqn:P; [|discriminate].
  destruct (negb (lyd_new_ok "target" xpath)); [discriminate|].
  destruct (op_enum (gn_op (sr_diff_set_getnext set idx))) as [op|] eqn:O; [|discriminate].
  destruct (negb (lyd_new_ok "operation" op)); [discriminate|].
  intro H. destruct (IH _ _ _ _ H) as (new & -> & F).
  exists ({| target := xpath; operation := op |} :: new).
  split; [rewrite <- app_assoc; reflexivity|].
  constructor; [|exact F]. split; [exact P|exact O].
Qed.

(** The notifications that were stored or sent. *)
Definition emitted (notif : notif_t) (r : ret) : Prop :=
  exists notif_ts,
    In (ActReplayStore notif notif_ts) (actions r) \/
    exists notif_subs notif_sub_count,
      In (ActSend notif notif_ts notif_subs notif_sub_count) (actions r).

Definition quiet (r : ret) : Prop := forall notif, ~ emitted notif r.

Lemma quiet_cleanup_nil (e t : option sr_error_t) : quiet (cleanup e t []).
Proof. intros notif (ts & [[]|(subs & c & [])]). Qed.

Lemma quiet_cleanup_build (e t : option sr_error_t) : quiet (cleanup e t [ActBuild]).
Proof.
  intros notif (ts & [[H|[]]|(subs & c & [H|[]])]); discriminate H.
Qed.

Lemma build_and_send_emitted (fuel : nat) (ds : sr_datastore_t) (diff : list lyd_node)
  (user : string) (nc notif_ts : Z) (notif_subs : list Shm.sr_mod_notif_sub_t)
  (notif_sub_count : Z) (r : ret) (notif : notif_t) :
  build_and_send fuel ds diff user nc notif_ts notif_subs notif_sub_count = Val r ->
  emitted notif r ->
  username notif = user /\
  datastore notif = sr_ds2str ds /\
  Forall2 entry_of (changes_of fuel (flat_map dfs diff) 0) (edits notif).
Proof.
  unfold build_and_send.
  destruct (negb ly_set_new_ok);
    [intros H E; injection H as <-; contradiction (quiet_cleanup_nil _ _ _ E)|].
  destruct (match flat_map dfs diff with [] => false | _ => negb ly_set_add_ok end);
    [intros H E; injection H as <-; contradiction (quiet_cleanup_nil _ _ _ E)|].
  do 5 (destruct (negb (lyd_new_ok _ _));
        [intros H E; injection H as <-; contradiction (quiet_cleanup_build _ _ _ E)|]).
  destruct (edits_loop fuel (flat_map dfs diff) 0 []) as [[err edits|e]| | | |] eqn:L;
    cbn [bind]; try discriminate.
  2:{ intros H E. injection H as <-. contradiction (quiet_cleanup_build _ _ _ E). }
  destruct (edits_loop_entries _ _ _ _ _ _ L) as (new & -> & F). cbn [app] in *.
  destruct (negb (notif_sub_count =? 0)); intros H E; injection H as <-;
    destruct E as (ts & [E|(subs & c & E)]); cbn [actions cleanup app In] in E.
  - destruct E as [E|[E|[E|[]]]]; try discriminate E.
    injection E as <- _. repeat split. exact F.
  - destruct E as [E|[E|[E|[]]]]; try discriminate E.
    injection E as <- _ _ _. repeat split. exact F.
  - destruct E as [E|[E|[]]]; try discriminate E.
    injection E as <- _. repeat split. exact F.
  - destruct E as [E|[E|[]]]; discriminate E.
Qed.

(** *** The function comes to its end *)

(** [sr_diff_set_getnext] moves on in the set. *)
Definition getnext_advances (set : list lyd_node) : Prop :=
  forall idx elem,
    gn_node (sr_diff_set_getnext set idx) = Some elem ->
    (idx < gn_idx (sr_diff_set_getnext set idx) <= List.length set)%nat.

Lemma edits_loop_returns (set : list lyd_node) :
  getnext_advances set ->
  forall fuel idx acc,
    (List.length set - idx < fuel)%nat ->
    exists x, edits_loop fuel set idx acc = Val x.
Proof.
  intros A fuel. induction fuel as [|fuel IH]; intros idx acc B; [lia|].
  cbn [edits_loop].
  destruct (gn_err_info (sr_diff_set_getnext set idx)); [eexists; reflexivity|].
  destruct (gn_node (sr_diff_set_getnext set idx)) as [elem|] eqn:N;
    [|eexists; reflexivity].
  pose proof (A idx elem N) as An.
  destruct (negb _); [eexists; reflexivity|].
  destruct (lyd_path elem); [|eexists; reflexivity].
  destruct (negb _); [eexists; reflexivity|].
  destruct (op_enum _); [|eexists; reflexivity].
  destruct (negb _); [eexists; reflexivity|].
  apply IH. lia.
Qed.

(** An environment in which the data library does not fail and every change
    that [sr_diff_set_getnext] yields has one of the four operations. *)
Definition goes_well (set : list lyd_node) : Prop :=
  ly_set_new_ok = true /\ ly_set_add_ok = true /\
  (forall name value, lyd_new_ok name value = true) /\
  (forall elem, lyd_path elem <> None) /\
  (forall idx, gn_err_info (sr_diff_set_getnext set idx) = None) /\
  (forall idx elem,
     gn_node (sr_diff_set_getnext set idx) = Some elem ->
     gn_op (sr_diff_set_getnext set idx) <> SR_OP_INVALID).

Lemma edits_loop_goes_well (set : list lyd_node) :
  goes_well set -> getnext_advances set ->
  forall fuel idx acc,
    (List.length set - idx < fuel)%nat ->
    exists edits, edits_loop fuel set idx acc = Val (LoopEnd None edits).
Proof.
  intros (_ & _ & Nw & Pa & Er & Op) A fuel.
  induction fuel as [|fuel IH]; intros idx acc B; [lia|].
  cbn [edits_loop]. rewrite Er.
  destruct (gn_node (sr_diff_set_getnext set idx)) as [elem|] eqn:N;
    [|eexists; reflexivity].
  pose proof (A idx elem N) as An. rewrite Nw. cbn [negb].
  destruct (lyd_path elem) as [xpath|] eqn:P; [|contradiction (Pa _ P)].
  rewrite Nw. cbn [negb].
  destruct (op_enum _) as [op|] eqn:O.
  - rewrite Nw. cbn [negb]. apply IH. lia.
  - exfalso. apply (Op idx elem N). destruct (gn_op _); try discriminate O. reflexivity.
Qed.

Lemma count_suspended (subs : list Shm.sr_mod_notif_sub_t) :
  (forall sub, In sub subs -> Shm.ns_suspended sub = true) ->
  forall c,
    fold_left (fun c sub => if Shm.ns_suspended sub then c else c + 1) subs c = c.
Proof.
  induction subs as [|sub l IH]; intros H c; [reflexivity|].
  cbn [fold_left]. rewrite (H sub (or_introl eq_refl)). apply IH.
  intros s Hs. apply H. right. exact Hs.
Qed.

(** *** The generator as a whole *)

Definition nothing_done : ret := {| err_info := None; actions := [] |}.

Lemma generate_emitted (fuel : nat) (shm : Shm.main_shm) (ds : sr_datastore_t)
  (diff : list lyd_node) (user : string) (nc notif_ts : Z) (r : ret) (notif : notif_t) :
  sr_modinfo_generate_config_change_notif fuel shm ds diff user nc notif_ts = Val r ->
  emitted notif r ->
  has_changes diff = true /\
  (ds = SR_DS_RUNNING \/ ds = SR_DS_STARTUP) /\
  (exists notif_subs notif_sub_count i shm_mod,
     sr_notif_find_subscriber shm NC_NOTIF_MOD = inr (notif_subs, notif_sub_count) /\
     Shm.sr_shmmain_find_module shm NC_NOTIF_MOD = Some i /\
     nth_error shm i = Some shm_mod /\
     (Z.land (Shm.flags shm_mod) Shm.SR_MOD_REPLAY_SUPPORT <> 0 \/ notif_sub_count <> 0)) /\
  datastore notif = sr_ds2str ds /\
  Forall2 entry_of (changes_of fuel (flat_map dfs diff) 0) (edits notif).
Proof.
  unfold sr_modinfo_generate_config_change_notif. fold (has_changes diff).
  assert (Q : forall e, ~ emitted notif {| err_info := e; actions := [] |}).
  { intros e (ts & [[]|(subs & c & [])]). }
  destruct (has_changes diff); cbn [negb];
    [|intros H E; injection H as <-; contradiction (Q _ E)].
  destruct ds; cbn [ds_eqb orb];
    try (intros H E; injection H as <-; contradiction (Q _ E)).
  all: destruct (sr_notif_find_subscriber shm NC_NOTIF_MOD) as [e|[subs c]] eqn:Fs;
    [intros H E; injection H as <-; contradiction (Q _ E)|].
  all: destruct (Shm.sr_shmmain_find_module shm NC_NOTIF_MOD) as [i|] eqn:Fm;
    [|intros H E; injection H as <-; contradiction (Q _ E)].
  all: destruct (nth_error shm i) as [shm_mod|] eqn:Nt;
    [|intros H E; injection H as <-; contradiction (Q _ E)].
  all: destruct (Z.land (Shm.flags shm_mod) Shm.SR_MOD_REPLAY_SUPPORT =? 0) eqn:F;
    destruct (c =? 0) eqn:C; cbn [andb];
    try (intros H E; injection H as <-; contradiction (Q _ E)).
  all: intros H E; destruct (build_and_send_emitted _ _ _ _ _ _ _ _ _ _ H E) as (_ & D & W).
  all: split; [reflexivity|]; split; [first [left; reflexivity|right; reflexivity]|].
  all: split; [|split; [exact D|exact W]].
  all: exists subs, c, i, shm_mod.
  all: split; [reflexivity|]; split; [reflexivity|]; split; [exact Nt|].
  all: first [left; apply Z.eqb_neq; exact F|right; apply Z.eqb_neq; exact C].
Qed.

Lemma generate_goes_well (fuel : nat) (shm : Shm.main_shm) (ds : sr_datastore_t)
  (diff : list lyd_node) (user : string) (nc notif_ts : Z)
  (notif_subs : list Shm.sr_mod_notif_sub_t) (notif_sub_count : Z) (i : nat)
  (shm_mod : Shm.sr_mod_t) :
  has_changes diff = true ->
  ds = SR_DS_RUNNING \/ ds = SR_DS_STARTUP ->
  sr_notif_find_subscriber shm NC_NOTIF_MOD = inr (notif_subs, notif_sub_count) ->
  Shm.sr_shmmain_find_module shm NC_NOTIF_MOD = Some i ->
  nth_error shm i = Some shm_mod ->
  Z.land (Shm.flags shm_mod) Shm.SR_MOD_REPLAY_SUPPORT <> 0 \/ notif_sub_count <> 0 ->
  goes_well (flat_map dfs diff) ->
  getnext_advances (flat_map dfs diff) ->
  (List.length (flat_map dfs diff) < fuel)%nat ->
  exists notif r,
    sr_modinfo_generate_config_change_notif fuel shm ds diff user nc notif_ts = Val r /\
    actions r
    = [ActBuild; ActReplayStore notif notif_ts]
      ++ (if notif_sub_count =? 0 then []
          else [ActSend notif notif_ts notif_subs notif_sub_count]) /\
    Forall2 entry_of (changes_of fuel (flat_map dfs diff) 0) (edits notif).
Proof.
  intros Ch Ds Fs Fm Nt G W A B.
  unfold sr_modinfo_generate_config_change_notif. fold (has_changes diff).
  rewrite Ch, Fs, Fm, Nt. cbn [negb].
  assert (D : ds_eqb ds SR_DS_CANDIDATE || ds_eqb ds SR_DS_OPERATIONAL = false)
    by (destruct Ds as [-> | ->]; reflexivity).
  rewrite D.
  assert (K : (Z.land (Shm.flags shm_mod) Shm.SR_MOD_REPLAY_SUPPORT =? 0)
              && (notif_sub_count =? 0) = false).
  { destruct G as [G|G]; apply Z.eqb_neq in G; rewrite G;
      [reflexivity|apply andb_false_r]. }
  rewrite K. unfold build_and_send.
  pose proof W as (S1 & S2 & Nw & _). rewrite S1, S2. cbn [negb].
  assert (E : match flat_map dfs diff with [] => false | _ :: _ => false end = false)
    by (destruct (flat_map dfs diff); reflexivity).
  rewrite E. rewrite !Nw. cbn [negb].
  destruct (edits_loop_goes_well _ W A fuel 0%nat []) as [edits L]; [lia|].
  rewrite L. cbn [bind].
  destruct (edits_loop_entries _ _ _ _ _ _ L) as (new & -> & F). cbn [app].
  eexists. destruct (notif_sub_count =? 0); cbn [negb]; eexists;
    (split; [reflexivity|]); (split; [reflexivity|exact F]).
Qed.

(** With a [sr_diff_set_getnext] that moves on in the set the generator comes
    to its end. *)
Lemma generate_returns (fuel : nat) (shm : Shm.main_shm) (ds : sr_datastore_t)
  (diff : list lyd_node) (user : string) (nc notif_ts : Z) :
  getnext_advances (flat_map dfs diff) ->
  (List.length (flat_map dfs diff) < fuel)%nat ->
  exists r, sr_modinfo_generate_config_change_notif fuel shm ds diff user nc notif_ts = Val r.
Proof.
  intros A B. unfold sr_modinfo_generate_config_change_notif.
  destruct (negb _); [eexists; reflexivity|].
  destruct (_ || _); [eexists; reflexivity|].
  destruct (sr_notif_find_subscriber shm NC_NOTIF_MOD) as [e|[subs c]];
    [eexists; reflexivity|].
  destruct (Shm.sr_shmmain_find_module shm NC_NOTIF_MOD) as [i|]; [|eexists; reflexivity].
  destruct (nth_error shm i) as [shm_mod|]; [|eexists; reflexivity].
  destruct (_ && _); [eexists; reflexivity|].
  unfold build_and_send.
  destruct (negb ly_set_new_ok); [eexists; reflexivity|].
  destruct (match flat_map dfs diff with [] => false | _ => negb ly_set_add_ok end);
    [eexists; reflexivity|].
  do 5 (destruct (negb (lyd_new_ok _ _)); [eexists; reflexivity|]).
  destruct (edits_loop_returns _ A fuel 0%nat []) as [x ->]; [lia|]. cbn [bind].
  destruct x as [err edits|e]; [|eexists; reflexivity].
  destruct (negb _); eexists; reflexivity.
Qed.

(** C8 (as amended): the generator does nothing when no node of the diff has
    an effective operation, and nothing when the datastore is candidate or
    operational; a notification is stored or sent only for a diff with
    changes, for running or startup, and with replay support of
    [ietf-netconf-notifications] or a subscriber that is not suspended; it
    then has one [edit] entry for each change that [sr_diff_set_getnext]
    yields, in their order, with the path of the node as target and an
    operation among create, replace, delete and merge: create for
    [SR_OP_CREATED], replace for [SR_OP_MODIFIED], delete for [SR_OP_DELETED],
    merge for [SR_OP_MOVED].  Where nothing fails this notification is built
    and stored, and sent when there is a subscriber; and the generator comes
    to its end whenever [sr_diff_set_getnext] moves on in the set. *)
Theorem sr_modinfo_generate_config_change_notif_edits (fuel : nat) (shm : Shm.main_shm)
  (ds : sr_datastore_t) (diff : list lyd_node) (user : string) (nc notif_ts : Z) :
  (has_changes diff = false ->
   sr_modinfo_generate_config_change_notif fuel shm ds diff user nc notif_ts
   = Val nothing_done) /\
  (ds = SR_DS_CANDIDATE \/ ds = SR_DS_OPERATIONAL ->
   sr_modinfo_generate_config_change_notif fuel shm ds diff user nc notif_ts
   = Val nothing_done) /\
  (op_enum SR_OP_CREATED = Some "create" /\ op_enum SR_OP_MODIFIED = Some "replace" /\
   op_enum SR_OP_DELETED = Some "delete" /\ op_enum SR_OP_MOVED = Some "merge") /\
  (forall r notif,
     sr_modinfo_generate_config_change_notif fuel shm ds diff user nc notif_ts = Val r ->
     emitted notif r ->
     has_changes diff = true /\
     (ds = SR_DS_RUNNING \/ ds = SR_DS_STARTUP) /\
     (exists notif_subs notif_sub_count i shm_mod,
        sr_notif_find_subscriber shm NC_NOTIF_MOD = inr (notif_subs, notif_sub_count) /\
        Shm.sr_shmmain_find_module shm NC_NOTIF_MOD = Some i /\
        nth_error shm i = Some shm_mod /\
        (Z.land (Shm.flags shm_mod) Shm.SR_MOD_REPLAY_SUPPORT <> 0 \/
         notif_sub_count <> 0)) /\
     datastore notif = sr_ds2str ds /\
     Forall2 entry_of (changes_of fuel (flat_map dfs diff) 0) (edits notif) /\
     Forall (fun e => standard_op (operation e)) (edits notif)) /\
  (forall notif_subs notif_sub_count i shm_mod,
     has_changes diff = true ->
     ds = SR_DS_RUNNING \/ ds = SR_DS_STARTUP ->
     sr_notif_find_subscriber shm NC_NOTIF_MOD = inr (notif_subs, notif_sub_count) ->
     Shm.sr_shmmain_find_module shm NC_NOTIF_MOD = Some i ->
     nth_error shm i = Some shm_mod ->
     Z.land (Shm.flags shm_mod) Shm.SR_MOD_REPLAY_SUPPORT <> 0 \/ notif_sub_count <> 0 ->
     goes_well (flat_map dfs diff) ->
     getnext_advances (flat_map dfs diff) ->
     (List.length (flat_map dfs diff) < fuel)%nat ->
     exists notif r,
       sr_modinfo_generate_config_change_notif fuel shm ds diff user nc notif_ts = Val r /\
       actions r
       = [ActBuild; ActReplayStore notif notif_ts]
         ++ (if notif_sub_count =? 0 then []
             else [ActSend notif notif_ts notif_subs notif_sub_count]) /\
       Forall2 entry_of (changes_of fuel (flat_map dfs diff) 0) (edits notif)) /\
  (getnext_advances (flat_map dfs diff) ->
   (List.length (flat_map dfs diff) < fuel)%nat ->
   exists r,
     sr_modinfo_generate_config_change_notif fuel shm ds diff user nc notif_ts = Val r).
Proof.
  split.
  { intro H. unfold sr_modinfo_generate_config_change_notif. fold (has_changes diff).
    rewrite H. reflexivity. }
  split.
  { intro H. unfold sr_modinfo_generate_config_change_notif.
    destruct (negb _); [reflexivity|]. destruct H as [-> | ->]; reflexivity. }
  split; [repeat split|]. split.
  - intros r notif H E.
    destruct (generate_emitted _ _ _ _ _ _ _ _ _ H E) as (A & B & C & D & F).
    split; [exact A|]. split; [exact B|]. split; [exact C|]. split; [exact D|].
    split; [exact F|apply (entry_of_standard _ _ F)].
  - split; [|apply generate_returns].
    intros notif_subs notif_sub_count i shm_mod. apply generate_goes_well.
Qed.

(** C10: for a diff with effective changes on a conventional datastore, when
    [ietf-netconf-notifications] has no replay support and none of its
    subscribers is active, the generator returns success and has built,
    stored and sent nothing. *)
Theorem sr_modinfo_generate_config_change_notif_nothing_to_do (fuel : nat)
  (shm : Shm.main_shm) (ds : sr_datastore_t) (diff : list lyd_node) (user : string)
  (nc notif_ts : Z) (i : nat) (shm_mod : Shm.sr_mod_t) :
  has_changes diff = true ->
  ds <> SR_DS_OPERATIONAL ->
  Shm.sr_shmmain_find_module shm NC_NOTIF_MOD = Some i ->
  nth_error shm i = Some shm_mod ->
  Z.land (Shm.flags shm_mod) Shm.SR_MOD_REPLAY_SUPPORT = 0 ->
  (forall sub, In sub (Shm.notif_subs shm_mod) -> Shm.ns_suspended sub = true) ->
  sr_modinfo_generate_config_change_notif fuel shm ds diff user nc notif_ts
  = Val {| err_info := None; actions := [] |}.
Proof.
  intros Ch Ds Fm Nt Fl Su.
  unfold sr_modinfo_generate_config_change_notif, sr_notif_find_subscriber.
  fold (has_changes diff). rewrite Ch, Fm, Nt, Fl, (count_suspended _ Su). cbn [negb].
  destruct (ds_eqb ds SR_DS_CANDIDATE || ds_eqb ds SR_DS_OPERATIONAL); reflexivity.
Qed.

End Generator.

Arguments Node {payload} p children.

(** *** A concrete diff *)

(** A node carries its path and its own operation.  The diff: a container
    without an operation of its own, with a created and a deleted leaf. *)
Definition ex_diff : list (lyd_node (string * edit_op)) :=
  [Node ("/m:c", EDIT_NONE)
     [Node ("/m:c/a", EDIT_CREATE) []; Node ("/m:c/b", EDIT_DELETE) []]].

Definition ex_find_oper (n : lyd_node (string * edit_op)) : edit_op :=
  match n with
  | Node p _ => snd p
  end.

Definition ex_path (n : lyd_node (string * edit_op)) : option string :=
  match n with
  | Node p _ => Some (fst p)
  end.

(** The changes of [ex_diff] as [sr_diff_set_getnext] hands them out. *)
Definition ex_getnext (set : list (lyd_node (string * edit_op))) (idx : nat)
  : getnext_t (string * edit_op) :=
  match idx with
  | 0%nat | 1%nat =>
      {| gn_err_info := None; gn_idx := 2; gn_node := nth_error set 1; gn_op := SR_OP_CREATED |}
  | 2%nat =>
      {| gn_err_info := None; gn_idx := 3; gn_node := nth_error set 2; gn_op := SR_OP_DELETED |}
  | _ => {| gn_err_info := None; gn_idx := idx; gn_node := None; gn_op := SR_OP_INVALID |}
  end.

Definition ex_nc_mod (flags : Z) (subs : list Shm.sr_mod_notif_sub_t) : Shm.sr_mod_t :=
  {| Shm.name := NC_NOTIF_MOD; Shm.ver := 1; Shm.flags := flags; Shm.data_deps := [];
     Shm.inv_data_deps := []; Shm.oper_subs := []; Shm.notif_subs := subs |}.

Definition ex_subscriber (suspended : bool) : Shm.sr_mod_notif_sub_t :=
  {| Shm.ns_sub_id := 1; Shm.ns_evpipe_num := 1; Shm.ns_suspended := suspended |}.

Definition ex_generate (shm : Shm.main_shm) (ds : sr_datastore_t) : outcome ret :=
  sr_modinfo_generate_config_change_notif (string * edit_op) ex_find_oper ex_getnext
    true true (fun _ _ => true) ex_path (fun _ _ => None) (fun _ _ _ _ => None)
    8 shm ds ex_diff "alice" 7 1000.

Definition ex_notif : notif_t :=
  {| username := "alice"; session_id := "7"; datastore := "running";
     edits := [{| target := "/m:c/a"; operation := "create" |};
               {| target := "/m:c/b"; operation := "delete" |}] |}.

(** With a subscriber the notification is built, stored and sent. *)
Example ex_generate_sent :
  ex_generate [ex_nc_mod 0 [ex_subscriber false]] SR_DS_RUNNING
  = Val {| err_info := None;
           actions := [ActBuild; ActReplayStore ex_notif 1000;
                       ActSend ex_notif 1000 [ex_subscriber false] 1] |}.
Proof. vm_compute. reflexivity. Qed.

(** C8 as stated fails: the diff has two changed nodes and the datastore is
    running, and yet no notification with an entry for each of them is
    produced, for want of replay support and of subscribers. *)
Lemma sr_modinfo_generate_config_change_notif_third_gate :
  has_changes (string * edit_op) ex_find_oper ex_diff = true /\
  List.length (changes_of (string * edit_op) ex_getnext 8 (flat_map (dfs _) ex_diff) 0)
  = 2%nat /\
  ex_generate [ex_nc_mod 0 []] SR_DS_RUNNING = Val {| err_info := None; actions := [] |} /\
  forall notif, ~ emitted notif {| err_info := None; actions := [] |}.
Proof.
  split; [reflexivity|]. split; [reflexivity|]. split; [vm_compute; reflexivity|].
  intros notif (ts & [[]|(subs & c & [])]).
Qed.

Lemma ex_getnext_advances :
  getnext_advances (string * edit_op) ex_getnext (flat_map (dfs _) ex_diff).
Proof.
  intros idx elem. destruct idx as [|[|[|idx]]]; cbn; intro H;
    try discriminate H; lia.
Qed.

Lemma ex_goes_well :
  goes_well (string * edit_op) ex_getnext true true (fun _ _ => true) ex_path
    (flat_map (dfs _) ex_diff).
Proof.
  unfold goes_well. split; [reflexivity|]. split; [reflexivity|].
  split; [reflexivity|]. split; [intros [p cs]; discriminate|].
  split; [intros [|[|[|idx]]]; reflexivity|].
  intros idx elem. destruct idx as [|[|[|idx]]]; cbn; intro H; discriminate.
Qed.

Lemma sr_modinfo_generate_config_change_notif_edits_witness :
  exists notif r,
    ex_generate [ex_nc_mod 0 [ex_subscriber false]] SR_DS_RUNNING = Val r /\
    actions r
    = [ActBuild; ActReplayStore notif 1000; ActSend notif 1000 [ex_subscriber false] 1] /\
    Forall (fun e => standard_op (operation e)) (edits notif).
Proof.
  pose proof (sr_modinfo_generate_config_change_notif_edits (string * edit_op)
                ex_find_oper ex_getnext true true (fun _ _ => true) ex_path
                (fun _ _ => None) (fun _ _ _ _ => None) 8
                [ex_nc_mod 0 [ex_subscriber false]] SR_DS_RUNNING ex_diff "alice" 7 1000)
    as (_ & _ & _ & S & P & _).
  destruct (P [ex_subscriber false] 1 0%nat (ex_nc_mod 0 [ex_subscriber false]))
    as (notif & r & R & A & _).
  - reflexivity.
  - left. reflexivity.
  - reflexivity.
  - reflexivity.
  - reflexivity.
  - right. discriminate.
  - exact ex_goes_well.
  - exact ex_getnext_advances.
  - cbn. lia.
  - exists notif, r. split; [exact R|]. split; [exact A|].
    apply (S r notif R). exists 1000. left. rewrite A. right. left. reflexivity.
Defined.

Lemma sr_modinfo_generate_config_change_notif_nothing_to_do_witness :
  ex_generate [ex_nc_mod 0 [ex_subscriber true]] SR_DS_RUNNING
  = Val {| err_info := None; actions := [] |}.
Proof.
  apply (sr_modinfo_generate_config_change_notif_nothing_to_do (string * edit_op)
           ex_find_oper ex_getnext true true (fun _ _ => true) ex_path (fun _ _ => None)
           (fun _ _ _ _ => None) 8 [ex_nc_mod 0 [ex_subscriber true]] SR_DS_RUNNING ex_diff
           "alice" 7 1000 0%nat (ex_nc_mod 0 [ex_subscriber true])).
  - reflexivity.
  - discriminate.
  - reflexivity.
  - reflexivity.
  - reflexivity.
  - intros sub [<-|[]]. reflexivity.
Defined.

End Notif.

(** ** Expression helpers of [common.c]: first node, first namespace,
       predicates *)

Module Expr.

Import XPath.

Local Open Scope char_scope.
Local Open Scope list_scope.
Local Open Scope string_scope.

(** [s[i]], NUL at and after the terminator. *)
Definition at_index (s : string) (i : nat) : ascii :=
  match String.get i s with
  | Some c => c
  | None => NUL
  end.

(** [strncat(dst, src, n)]; [src] holds no NUL in its first [n] characters
    wherever the code calls it. *)
Definition strncat (dst src : string) (n : Z) : string :=
  dst ++ substring 0 (Z.to_nat n) src.

(** [isalpha], [isdigit] and [isalnum] in the C locale. *)
Definition isalpha (c : ascii) : bool :=
  let n := nat_of_ascii c in
  ((65 <=? n) && (n <=? 90) || (97 <=? n) && (n <=? 122))%nat.

Definition isdigit (c : ascii) : bool :=
  let n := nat_of_ascii c in ((48 <=? n) && (n <=? 57))%nat.

Definition isalnum (c : ascii) : bool := isalpha c || isdigit c.

(** The loop of [sr_xpath_first_node_with_predicates]; [quote] is NUL outside
    a quoted literal.  Yields [ptr] and [quote] on exit. *)
Fixpoint first_node_scan (ptr : string) (quote : ascii) : string * ascii :=
  match ptr with
  | EmptyString => (ptr, quote)
  | String c ptr' =>
      if Ascii.eqb c NUL then (ptr, quote)
      else if Ascii.eqb quote NUL && Ascii.eqb c "/" then (ptr, quote)
      else
        let quote' :=
          if negb (Ascii.eqb quote NUL) && Ascii.eqb c quote then NUL
          else if Ascii.eqb quote NUL && (Ascii.eqb c SQUOT || Ascii.eqb c DQUOT) then c
          else quote in
        first_node_scan ptr' quote'
  end.

(** The condition of the loop of [sr_get_first_ns]. *)
Definition first_ns_char (c : ascii) : bool :=
  negb (Ascii.eqb c NUL)
  && (isalnum c || Ascii.eqb c "_" || Ascii.eqb c "-" || Ascii.eqb c ".").

(** [for (i = 1; expr[i] && (...); ++i);] counted from [expr + 1]. *)
Fixpoint first_ns_scan (p : string) : nat :=
  match p with
  | EmptyString => 0
  | String c p' => if first_ns_char c then S (first_ns_scan p') else 0
  end.

(** [sr_get_first_ns]; [None] is NULL.  The copy is taken to be allocated. *)
Definition sr_get_first_ns (expr : string) : option string :=
  if negb (Ascii.eqb (ch expr) "/") then None
  else
    let expr := if Ascii.eqb (at_index expr 1) "/" then incr (incr expr) else incr expr in
    if negb (isalpha (ch expr)) && negb (Ascii.eqb (ch expr) "_") then None
    else
      let i := S (first_ns_scan (incr expr)) in
      if negb (Ascii.eqb (at_index expr i) ":") then None
      else Some (substring 0 i expr).

(** The loop of [sr_get_trim_predicates] from [ptr] on; [start] and [ptr] point
    into the expression, [str] is the buffer, [quot] is 0 outside a literal and
    [pred] the depth of the predicates. *)
Fixpoint trim_predicates_loop (ptr start str : string) (quot : ascii) (pred : Z)
  : outcome string :=
  let finish :=
    if negb (Ascii.eqb quot NUL) || negb (pred =? 0)%Z then Err SR_ERR_INVAL_ARG
    else Val (strncat str start (ptrdiff ptr start)) in
  match ptr with
  | EmptyString => finish
  | String c ptr' =>
      if Ascii.eqb c NUL then finish
      else if negb (Ascii.eqb quot NUL) then
        trim_predicates_loop ptr' start str (if Ascii.eqb c quot then NUL else quot) pred
      else if Ascii.eqb c SQUOT || Ascii.eqb c DQUOT then
        trim_predicates_loop ptr' start str c pred
      else if Ascii.eqb c "[" then
        let pred := (pred + 1)%Z in
        let str := if (pred =? 1)%Z then strncat str start (ptrdiff ptr start) else str in
        trim_predicates_loop ptr' start str quot pred
      else if Ascii.eqb c "]" then
        let pred := (pred - 1)%Z in
        if (pred <? 0)%Z then Err SR_ERR_INVAL_ARG
        else trim_predicates_loop ptr' (if (pred =? 0)%Z then ptr' else start) str quot pred
      else trim_predicates_loop ptr' start str quot pred
  end.

(** [sr_get_trim_predicates]: the expression without its predicates.  The
    buffer of [strlen(expr) + 1] bytes is taken to be allocated. *)
Definition sr_get_trim_predicates (expr : string) : outcome string :=
  trim_predicates_loop expr expr "" NUL 0.

(** State of the loop of [sr_xpath_len_no_predicates]. *)
Record len_state : Type := {
  ls_len : Z;
  ls_predicate : Z;
  ls_quoted : ascii
}.

Section Build.

Variable NDEBUG : bool.

(** [sr_xpath_first_node_with_predicates]; [None] is the NULL returned on an
    open quote.  The copy is taken to be allocated. *)
Definition sr_xpath_first_node_with_predicates (xpath : string) : outcome (option string) :=
  c_assert NDEBUG (Ascii.eqb (ch xpath) "/")
    (let '(ptr, quote) := first_node_scan (incr xpath) NUL in
     if negb (Ascii.eqb quote NUL) then Val None
     else Val (Some (substring 0 (Z.to_nat (ptrdiff ptr xpath)) xpath))).

(** The loop of [sr_xpath_len_no_predicates]. *)
Fixpoint len_no_predicates_loop (ptr : string) (s : len_state) : outcome len_state :=
  match ptr with
  | EmptyString => Val s
  | String c ptr' =>
      if Ascii.eqb c NUL then Val s
      else if negb (Ascii.eqb (ls_quoted s) NUL) then
        len_no_predicates_loop ptr'
          {| ls_len := ls_len s; ls_predicate := ls_predicate s;
             ls_quoted := if Ascii.eqb c (ls_quoted s) then NUL else ls_quoted s |}
      else if Ascii.eqb c "[" then
        len_no_predicates_loop ptr'
          {| ls_len := ls_len s; ls_predicate := (ls_predicate s + 1)%Z;
             ls_quoted := ls_quoted s |}
      else if Ascii.eqb c "]" then
        len_no_predicates_loop ptr'
          {| ls_len := ls_len s; ls_predicate := (ls_predicate s - 1)%Z;
             ls_quoted := ls_quoted s |}
      else if Ascii.eqb c SQUOT || Ascii.eqb c DQUOT then
        c_assert NDEBUG (negb (ls_predicate s =? 0)%Z)
          (len_no_predicates_loop ptr'
             {| ls_len := ls_len s; ls_predicate := ls_predicate s; ls_quoted := c |})
      else
        len_no_predicates_loop ptr'
          {| ls_len := (ls_len s + 1)%Z; ls_predicate := ls_predicate s;
             ls_quoted := ls_quoted s |}
  end.

(** [sr_xpath_len_no_predicates]. *)
Definition sr_xpath_len_no_predicates (xpath : string) : outcome Z :=
  s <- len_no_predicates_loop xpath {| ls_len := 0; ls_predicate := 0; ls_quoted := NUL |} ;;
  if negb (Ascii.eqb (ls_quoted s) NUL) || negb (ls_predicate s =? 0)%Z then Val 0%Z
  else Val (ls_len s).

End Build.

(** *** Shapes of expressions *)

(** No character of [s] is in [bad]. *)
Definition free_of (bad : list ascii) (s : string) : bool :=
  forallb (fun c => negb (existsb (Ascii.eqb c) bad)) (list_ascii_of_string s).

(** An identifier of YANG: a letter or an underscore, then letters, digits,
    underscores, hyphens and dots. *)
Definition is_identifier (s : string) : bool :=
  match s with
  | EmptyString => false
  | String c s' =>
      (isalpha c || Ascii.eqb c "_")
      && forallb (fun c => isalnum c || Ascii.eqb c "_" || Ascii.eqb c "-" || Ascii.eqb c ".")
                 (list_ascii_of_string s')
  end.

(** *** Strings *)

Lemma append_assoc (a b c : string) : (a ++ b) ++ c = a ++ (b ++ c).
Proof. induction a as [|x a IH]; cbn; [reflexivity|]. now rewrite IH. Qed.

Lemma append_nil_r (a : string) : a ++ "" = a.
Proof. induction a as [|x a IH]; cbn; [reflexivity|]. now rewrite IH. Qed.

Lemma length_append (a b : string) :
  String.length (a ++ b) = (String.length a + String.length b)%nat.
Proof. induction a as [|x a IH]; cbn; [reflexivity|]. now rewrite IH. Qed.

Lemma substring_prefix (a b : string) : substring 0 (String.length a) (a ++ b) = a.
Proof. induction a as [|x a IH]; cbn; [destruct b; reflexivity|]. now rewrite IH. Qed.

Lemma substring_all (a : string) : substring 0 (String.length a) a = a.
Proof. rewrite <- (append_nil_r a) at 2. apply substring_prefix. Qed.

Lemma substring_length_le (n : nat) (a : string) :
  (String.length (substring 0 n a) <= String.length a)%nat.
Proof.
  revert n. induction a as [|x a IH]; intros [|n]; cbn; try lia.
  specialize (IH n). lia.
Qed.

Lemma at_index_app (a b : string) : at_index (a ++ b) (String.length a) = ch b.
Proof.
  unfold at_index. induction a as [|x a IH]; cbn; [destruct b; reflexivity|]. exact IH.
Qed.

Lemma free_of_cons (bad : list ascii) (c : ascii) (s : string) :
  free_of bad (String c s) = negb (existsb (Ascii.eqb c) bad) && free_of bad s.
Proof. reflexivity. Qed.

Lemma free_of_app (bad : list ascii) (a b : string) :
  free_of bad (a ++ b) = free_of bad a && free_of bad b.
Proof.
  induction a as [|x a IH]; [reflexivity|].
  cbn [append]. rewrite !free_of_cons, IH. apply andb_assoc.
Qed.

(** A character outside [bad] differs from every member of it. *)
Lemma existsb_eqb_false (c : ascii) (bad : list ascii) :
  existsb (Ascii.eqb c) bad = false -> forall b, In b bad -> Ascii.eqb c b = false.
Proof.
  induction bad as [|x bad IH]; cbn; intros H b Hb; [contradiction|].
  apply orb_false_iff in H as [H1 H2]. destruct Hb as [<-|Hb]; [exact H1|].
  now apply IH.
Qed.

Ltac free_head H c s H1 H2 :=
  rewrite free_of_cons in H; apply andb_true_iff in H as [H1 H2];
  apply negb_true_iff in H1;
  let G := fresh in
  pose proof (existsb_eqb_false _ _ H1) as G; clear H1; rename G into H1.

Lemma c_assert_true {A : Type} (nd : bool) (k : outcome A) : c_assert nd true k = k.
Proof. destruct nd; reflexivity. Qed.

(** *** [sr_xpath_first_node_with_predicates] *)

(** Where the scan stops: at the end, or at a slash outside a literal. *)
Lemma first_node_scan_stop (p : string) :
  forall quote ptr quote',
    first_node_scan p quote = (ptr, quote') ->
    exists pre, p = pre ++ ptr
      /\ (Ascii.eqb quote' NUL = true -> ch ptr = NUL \/ ch ptr = "/"%char).
Proof.
  induction p as [|c p IH]; intros quote ptr quote' H; cbn [first_node_scan] in H.
  - injection H as <- <-. exists "". split; [reflexivity|]. intros _. now left.
  - destruct (Ascii.eqb c NUL) eqn:Ec.
    { injection H as <- <-. exists "". split; [reflexivity|]. intros _. left.
      cbn. now apply Ascii.eqb_eq. }
    destruct (Ascii.eqb quote NUL && Ascii.eqb c "/") eqn:Es.
    { injection H as <- <-. exists "". split; [reflexivity|]. intros _. right.
      apply andb_true_iff in Es as [_ Es]. cbn. now apply Ascii.eqb_eq. }
    apply IH in H as (pre & -> & Hq). exists (String c pre). split; [reflexivity|exact Hq].
Qed.

(** Plain characters are passed outside a literal. *)
Lemma first_node_scan_plain (a t : string) :
  free_of ["/"%char; SQUOT; DQUOT; NUL] a = true ->
  first_node_scan (a ++ t) NUL = first_node_scan t NUL.
Proof.
  induction a as [|c a IH]; intro F; [reflexivity|].
  free_head F c a F1 F2. cbn [append first_node_scan].
  rewrite (F1 NUL) by (cbn; tauto). rewrite (F1 "/"%char) by (cbn; tauto).
  rewrite (F1 SQUOT) by (cbn; tauto). rewrite (F1 DQUOT) by (cbn; tauto).
  cbn. apply IH, F2.
Qed.

(** Inside a literal everything is passed up to the closing quote. *)
Lemma first_node_scan_literal (q : ascii) (v t : string) :
  is_quote q = true -> free_of [q; NUL] v = true ->
  first_node_scan (v ++ String q t) q = first_node_scan t NUL.
Proof.
  intros Q. assert (Qn : Ascii.eqb q NUL = false).
  { unfold is_quote in Q. apply orb_true_iff in Q as [Q|Q]; apply Ascii.eqb_eq in Q;
      subst q; reflexivity. }
  induction v as [|c v IH]; intro F.
  - cbn [append first_node_scan]. rewrite Qn. cbn [andb negb]. rewrite Ascii.eqb_refl.
    reflexivity.
  - free_head F c v F1 F2. cbn [append first_node_scan].
    rewrite (F1 NUL) by (cbn; tauto). rewrite (F1 q) by (cbn; tauto).
    rewrite Qn. cbn. apply IH, F2.
Qed.

(** The literal is never left when its closing quote is missing. *)
Lemma first_node_scan_open (q : ascii) (v : string) :
  is_quote q = true -> free_of [q; NUL] v = true ->
  first_node_scan v q = ("", q).
Proof.
  intros Q. assert (Qn : Ascii.eqb q NUL = false).
  { unfold is_quote in Q. apply orb_true_iff in Q as [Q|Q]; apply Ascii.eqb_eq in Q;
      subst q; reflexivity. }
  induction v as [|c v IH]; intro F; [reflexivity|].
  free_head F c v F1 F2. cbn [first_node_scan].
  rewrite (F1 NUL) by (cbn; tauto). rewrite (F1 q) by (cbn; tauto).
  rewrite Qn. cbn. apply IH, F2.
Qed.

Lemma first_node_scan_quote (q : ascii) (t : string) :
  is_quote q = true -> first_node_scan (String q t) NUL = first_node_scan t q.
Proof.
  intro Q. cbn [first_node_scan].
  assert (Qn : Ascii.eqb q NUL = false /\ Ascii.eqb q "/" = false).
  { unfold is_quote in Q. apply orb_true_iff in Q as [Q|Q]; apply Ascii.eqb_eq in Q;
      subst q; split; reflexivity. }
  destruct Qn as [-> ->]. cbn [andb negb]. unfold is_quote in Q.
  change (Ascii.eqb NUL NUL) with true. cbn [andb negb]. now rewrite Q.
Qed.

Section Build.

Variable NDEBUG : bool.

(** X1. What [sr_xpath_first_node_with_predicates] returns is a prefix of the
    XPath that holds its first character, and what follows the prefix is
    nothing or starts with a slash: the XPath is cut at a step boundary. *)
Theorem sr_xpath_first_node_with_predicates_prefix (xpath node : string) :
  sr_xpath_first_node_with_predicates NDEBUG xpath = Val (Some node) ->
  exists rest,
    xpath = node ++ rest
    /\ ch node = ch xpath
    /\ (ch rest = NUL \/ ch rest = "/"%char).
Proof.
  unfold sr_xpath_first_node_with_predicates, c_assert. intro H.
  assert (G : (let '(ptr, quote) := first_node_scan (incr xpath) NUL in
               if negb (Ascii.eqb quote NUL) then Val None
               else Val (Some (substring 0 (Z.to_nat (ptrdiff ptr xpath)) xpath)))
              = Val (Some node)).
  { destruct NDEBUG; [exact H|]. destruct (Ascii.eqb (ch xpath) "/"); [exact H|discriminate]. }
  clear H. destruct (first_node_scan (incr xpath) NUL) as [ptr quote] eqn:S.
  apply first_node_scan_stop in S as (pre & E & Hq).
  destruct (Ascii.eqb quote NUL) eqn:Q; cbn [negb] in G; [|discriminate].
  injection G as <-. specialize (Hq eq_refl).
  destruct xpath as [|c xpath]; cbn [incr] in E.
  - destruct pre; [|discriminate]. cbn in E. subst ptr. exists "". cbn. auto.
  - subst xpath. exists ptr. unfold ptrdiff. cbn [String.length].
    rewrite length_append.
    replace (Z.to_nat _) with (S (String.length pre)) by lia.
    cbn [substring]. rewrite substring_prefix. cbn. auto.
Qed.

(** X2. A slash inside a quoted literal does not end the first node: the node
    extends to the first slash after the closing quote.  When the quote is
    never closed the result is NULL. *)
Theorem sr_xpath_first_node_with_predicates_literal (q : ascii) (a v b rest : string) :
  is_quote q = true ->
  free_of ["/"%char; SQUOT; DQUOT; NUL] a = true ->
  free_of [q; NUL] v = true ->
  free_of ["/"%char; SQUOT; DQUOT; NUL] b = true ->
  sr_xpath_first_node_with_predicates NDEBUG
    ("/" ++ a ++ String q (v ++ String q (b ++ "/" ++ rest)))
  = Val (Some ("/" ++ a ++ String q (v ++ String q b)))
  /\ sr_xpath_first_node_with_predicates NDEBUG ("/" ++ a ++ String q v) = Val None.
Proof.
  intros Q Fa Fv Fb.
  assert (Qn : Ascii.eqb q NUL = false).
  { unfold is_quote in Q. apply orb_true_iff in Q as [Q|Q]; apply Ascii.eqb_eq in Q;
      subst q; reflexivity. }
  unfold sr_xpath_first_node_with_predicates. cbn [append ch incr].
  change (Ascii.eqb "/" "/") with true. rewrite !c_assert_true.
  split.
  - rewrite first_node_scan_plain by exact Fa.
    rewrite first_node_scan_quote by exact Q.
    rewrite first_node_scan_literal by assumption.
    rewrite first_node_scan_plain by exact Fb.
    cbn [append first_node_scan]. change (Ascii.eqb "/" NUL) with false.
    change (Ascii.eqb NUL NUL && Ascii.eqb "/" "/") with true. cbn [negb].
    change (Ascii.eqb NUL NUL) with true. cbn [negb].
    f_equal. f_equal. unfold ptrdiff. cbn [String.length].
    set (n := Z.to_nat _).
    assert (En : n = String.length ("/" ++ a ++ String q (v ++ String q b))).
    { subst n. cbn [append String.length]. rewrite !length_append. cbn [String.length].
      rewrite !length_append. cbn [String.length]. rewrite !length_append.
      cbn [String.length]. lia. }
    rewrite En.
    replace (String "/" (a ++ String q (v ++ String q (b ++ String "/" rest))))
      with (("/" ++ a ++ String q (v ++ String q b)) ++ String "/" rest).
    + apply substring_prefix.
    + repeat (progress (rewrite ?append_assoc; cbn [append])). reflexivity.
  - rewrite first_node_scan_plain by exact Fa.
    rewrite first_node_scan_quote by exact Q.
    rewrite first_node_scan_open by assumption. now rewrite Qn.
Qed.

End Build.

(** *** [sr_get_first_ns] *)

Definition ns_tail_char (c : ascii) : bool :=
  isalnum c || Ascii.eqb c "_" || Ascii.eqb c "-" || Ascii.eqb c ".".

Lemma first_ns_char_tail (c : ascii) : first_ns_char c = ns_tail_char c.
Proof.
  unfold first_ns_char. fold (ns_tail_char c).
  destruct (Ascii.eqb c NUL) eqn:E; [|reflexivity].
  apply Ascii.eqb_eq in E. subst c. reflexivity.
Qed.

(** The scan passes the longest run of identifier characters. *)
Lemma first_ns_scan_split (p : string) :
  exists pre post,
    p = pre ++ post
    /\ String.length pre = first_ns_scan p
    /\ forallb ns_tail_char (list_ascii_of_string pre) = true
    /\ first_ns_char (ch post) = false.
Proof.
  induction p as [|c p (pre & post & E & L & F & S)].
  - exists "", "". repeat split; reflexivity.
  - cbn [first_ns_scan]. destruct (first_ns_char c) eqn:C.
    + exists (String c pre), post. cbn [append String.length list_ascii_of_string forallb].
      rewrite <- E, L, F, <- first_ns_char_tail, C. repeat split; try reflexivity. exact S.
    + exists "", (String c p). repeat split; try reflexivity. exact C.
Qed.

Lemma first_ns_scan_run (s t : string) :
  forallb ns_tail_char (list_ascii_of_string s) = true ->
  first_ns_char (ch t) = false ->
  first_ns_scan (s ++ t) = String.length s.
Proof.
  intros F T. induction s as [|c s IH]; cbn [append].
  - destruct t as [|c t]; [reflexivity|]. cbn [first_ns_scan]. cbn [ch] in T. now rewrite T.
  - cbn [list_ascii_of_string forallb] in F. apply andb_true_iff in F as [F1 F2].
    cbn [first_ns_scan String.length]. rewrite first_ns_char_tail, F1. f_equal. now apply IH.
Qed.

Lemma identifier_start_not_slash (c : ascii) :
  isalpha c || Ascii.eqb c "_" = true -> Ascii.eqb c "/" = false.
Proof.
  intro H. destruct (Ascii.eqb c "/") eqn:E; [|reflexivity].
  apply Ascii.eqb_eq in E. subst c. discriminate H.
Qed.

(** X3. [sr_get_first_ns] returns a name exactly when the expression is one or
    two slashes, an identifier and a colon; the name is that identifier.  In
    every other case the result is NULL. *)
Theorem sr_get_first_ns_identifier (expr ns : string) :
  sr_get_first_ns expr = Some ns <->
  is_identifier ns = true
  /\ exists rest, expr = "/" ++ ns ++ ":" ++ rest \/ expr = "//" ++ ns ++ ":" ++ rest.
Proof.
  split.
  - unfold sr_get_first_ns.
    destruct expr as [|c0 e1]; [discriminate|]. cbn [ch incr at_index String.get].
    destruct (Ascii.eqb c0 "/") eqn:E0; cbn [negb]; [|discriminate].
    apply Ascii.eqb_eq in E0. subst c0.
    assert (G : forall e : string,
              (if negb (isalpha (ch e)) && negb (Ascii.eqb (ch e) "_") then None
               else
                 if negb (Ascii.eqb (at_index e (S (first_ns_scan (incr e)))) ":") then None
                 else Some (substring 0 (S (first_ns_scan (incr e))) e)) = Some ns ->
              is_identifier ns = true /\ exists rest, e = ns ++ ":" ++ rest).
    { intros e H. destruct e as [|c e]; [discriminate|]. cbn [ch incr] in H.
      destruct (isalpha c || Ascii.eqb c "_") eqn:A.
      2:{ apply orb_false_iff in A as [A1 A2]. rewrite A1, A2 in H. discriminate. }
      replace (negb (isalpha c) && negb (Ascii.eqb c "_")) with false in H
        by (rewrite <- negb_orb, A; reflexivity).
      destruct (first_ns_scan_split e) as (pre & post & E & L & F & S).
      rewrite <- L in H. unfold at_index in H. cbn [String.get substring] in H.
      fold (at_index e (String.length pre)) in H. rewrite E in H.
      rewrite at_index_app, substring_prefix in H.
      destruct (Ascii.eqb (ch post) ":") eqn:P; cbn [negb] in H; [|discriminate].
      injection H as <-. apply Ascii.eqb_eq in P.
      destruct post as [|c' post]; [discriminate|]. cbn [ch] in P. subst c'.
      split.
      - cbn [is_identifier]. fold ns_tail_char. rewrite A, F. reflexivity.
      - exists post. subst e. reflexivity. }
    destruct e1 as [|c1 e2].
    + cbn [get]. change (Ascii.eqb NUL "/") with false. cbn iota. intro H.
      apply G in H as (_ & rest & H). destruct ns; discriminate.
    + unfold at_index. cbn [get]. destruct (Ascii.eqb c1 "/") eqn:E1.
      * apply Ascii.eqb_eq in E1. subst c1. cbn [incr]. intro H.
        apply G in H as (I & rest & ->). split; [exact I|]. exists rest. right. reflexivity.
      * cbn [incr]. intro H.
        apply G in H as (I & rest & H). split; [exact I|]. exists rest. left.
        cbn [append]. now rewrite H.
  - intros (I & rest & H).
    destruct ns as [|c ns]; [discriminate|]. cbn [is_identifier] in I. fold ns_tail_char in I.
    apply andb_true_iff in I as [A F].
    pose proof (identifier_start_not_slash c A) as N.
    assert (G : forall e : string,
              e = String c ns ++ ":" ++ rest ->
              (if negb (isalpha (ch e)) && negb (Ascii.eqb (ch e) "_") then None
               else
                 if negb (Ascii.eqb (at_index e (S (first_ns_scan (incr e)))) ":") then None
                 else Some (substring 0 (S (first_ns_scan (incr e))) e)) = Some (String c ns)).
    { intros e ->. cbn [append ch incr].
      replace (negb (isalpha c) && negb (Ascii.eqb c "_")) with false
        by (rewrite <- negb_orb, A; reflexivity).
      rewrite first_ns_scan_run by (try exact F; reflexivity).
      unfold at_index. cbn [get substring]. fold (at_index (ns ++ String ":" rest) (String.length ns)).
      rewrite at_index_app, substring_prefix. reflexivity. }
    unfold sr_get_first_ns. destruct H as [-> | ->]; cbn [append ch incr].
    + change (Ascii.eqb "/" "/") with true. cbn [negb].
      change (at_index (String "/" (String c (ns ++ String ":" rest))) 1) with c.
      rewrite N. now apply G.
    + change (Ascii.eqb "/" "/") with true. cbn [negb].
      change (at_index (String "/" (String "/" (String c (ns ++ String ":" rest)))) 1)
        with "/"%char.
      change (Ascii.eqb "/" "/") with true. cbn iota. now apply G.
Qed.

(** *** [sr_get_trim_predicates] *)

(** The loop read character by character: what is outside every predicate is
    kept, the rest is dropped.  [trim_predicates_loop] copies the same
    characters chunk by chunk ([trim_predicates_loop_chars]). *)
Fixpoint trim_chars (s : string) (quot : ascii) (pred : Z) : outcome string :=
  let finish :=
    if negb (Ascii.eqb quot NUL) || negb (pred =? 0)%Z then Err SR_ERR_INVAL_ARG
    else Val "" in
  let keep c r := if (pred =? 0)%Z then String c r else r in
  match s with
  | EmptyString => finish
  | String c s' =>
      if Ascii.eqb c NUL then finish
      else if negb (Ascii.eqb quot NUL) then
        r <- trim_chars s' (if Ascii.eqb c quot then NUL else quot) pred ;; Val (keep c r)
      else if Ascii.eqb c SQUOT || Ascii.eqb c DQUOT then
        r <- trim_chars s' c pred ;; Val (keep c r)
      else if Ascii.eqb c "[" then trim_chars s' quot (pred + 1)
      else if Ascii.eqb c "]" then
        if (pred - 1 <? 0)%Z then Err SR_ERR_INVAL_ARG else trim_chars s' quot (pred - 1)
      else r <- trim_chars s' quot pred ;; Val (keep c r)
  end.

Lemma bind_val_app (o : outcome string) (a b : string) :
  (r <- (r <- o ;; Val (b ++ r)) ;; Val (a ++ r)) = (r <- o ;; Val ((a ++ b) ++ r)).
Proof. destruct o; cbn; try reflexivity. now rewrite append_assoc. Qed.

Lemma substring_chunk (chunk ptr : string) :
  substring 0 (Z.to_nat (ptrdiff ptr (chunk ++ ptr))) (chunk ++ ptr) = chunk.
Proof.
  unfold ptrdiff. rewrite length_append.
  replace (Z.to_nat _) with (String.length chunk) by lia. apply substring_prefix.
Qed.

Lemma trim_predicates_loop_chars (ptr : string) :
  forall start str quot pred chunk,
    (0 <= pred)%Z ->
    (pred = 0%Z -> start = chunk ++ ptr) ->
    trim_predicates_loop ptr start str quot pred
    = (r <- trim_chars ptr quot pred ;;
       Val (str ++ (if (pred =? 0)%Z then chunk else "") ++ r)).
Proof.
  induction ptr as [|c ptr IH]; intros start str quot pred chunk P S.
  - cbn [trim_predicates_loop trim_chars].
    destruct (negb (Ascii.eqb quot NUL) || negb (pred =? 0)%Z) eqn:E; [reflexivity|].
    apply orb_false_iff in E as [_ E]. apply negb_false_iff in E. rewrite E.
    apply Z.eqb_eq in E. rewrite (S E). cbn [bind]. unfold strncat.
    rewrite substring_chunk, !append_nil_r. reflexivity.
  - cbn [trim_predicates_loop trim_chars].
    destruct (Ascii.eqb c NUL) eqn:Ec.
    { destruct (negb (Ascii.eqb quot NUL) || negb (pred =? 0)%Z) eqn:E; [reflexivity|].
      apply orb_false_iff in E as [_ E]. apply negb_false_iff in E. rewrite E.
      apply Z.eqb_eq in E. rewrite (S E). cbn [bind]. unfold strncat.
      rewrite substring_chunk, !append_nil_r. reflexivity. }
    assert (K : forall quot',
              trim_predicates_loop ptr start str quot' pred
              = (r <- (r <- trim_chars ptr quot' pred ;;
                       Val (if (pred =? 0)%Z then String c r else r)) ;;
                 Val (str ++ (if (pred =? 0)%Z then chunk else "") ++ r))).
    { intro quot'. destruct (pred =? 0)%Z eqn:E.
      - apply Z.eqb_eq in E.
        rewrite (IH start str quot' pred (chunk ++ String c "") P).
        + rewrite E. cbn [Z.eqb]. destruct (trim_chars ptr quot' 0); cbn [bind]; try reflexivity.
          rewrite !append_assoc. reflexivity.
        + intros _. rewrite (S E), append_assoc. reflexivity.
      - rewrite (IH start str quot' pred "" P).
        + rewrite E. destruct (trim_chars ptr quot' pred); reflexivity.
        + intro Z0. rewrite Z0 in E. discriminate. }
    destruct (negb (Ascii.eqb quot NUL)); [apply K|].
    destruct (Ascii.eqb c SQUOT || Ascii.eqb c DQUOT); [apply K|].
    destruct (Ascii.eqb c "[").
    { destruct (pred =? 0)%Z eqn:E.
      - apply Z.eqb_eq in E. subst pred. cbn [Z.add Z.eqb Pos.eqb].
        rewrite (IH start (strncat str start (ptrdiff (String c ptr) start)) quot 1%Z ""
                   ltac:(lia) ltac:(discriminate)).
        cbn [Z.eqb Pos.eqb]. unfold strncat. rewrite (S eq_refl), substring_chunk.
        destruct (trim_chars ptr quot 1); cbn [bind]; try reflexivity.
        rewrite !append_assoc. reflexivity.
      - apply Z.eqb_neq in E.
        replace (pred + 1 =? 1)%Z with false by (symmetry; apply Z.eqb_neq; lia).
        rewrite (IH start str quot (pred + 1)%Z "" ltac:(lia) ltac:(intro; lia)).
        replace (pred + 1 =? 0)%Z with false by (symmetry; apply Z.eqb_neq; lia).
        reflexivity. }
    destruct (Ascii.eqb c "]").
    { destruct (pred - 1 <? 0)%Z eqn:L; [reflexivity|]. apply Z.ltb_ge in L.
      destruct (pred - 1 =? 0)%Z eqn:E.
      - rewrite (IH ptr str quot (pred - 1)%Z "" L ltac:(reflexivity)). rewrite E.
        replace (pred =? 0)%Z with false by (symmetry; apply Z.eqb_neq; lia). reflexivity.
      - apply Z.eqb_neq in E.
        rewrite (IH start str quot (pred - 1)%Z "" L ltac:(intro; lia)).
        replace (pred - 1 =? 0)%Z with false by (symmetry; apply Z.eqb_neq; lia).
        replace (pred =? 0)%Z with false by (symmetry; apply Z.eqb_neq; lia). reflexivity. }
    apply K.
Qed.

Lemma sr_get_trim_predicates_chars (expr : string) :
  sr_get_trim_predicates expr = trim_chars expr NUL 0.
Proof.
  unfold sr_get_trim_predicates.
  rewrite (trim_predicates_loop_chars expr expr "" NUL 0%Z "" ltac:(lia) ltac:(reflexivity)).
  cbn [Z.eqb append]. destruct (trim_chars expr NUL 0); reflexivity.
Qed.

(** What is kept is at most what was there. *)
Lemma trim_chars_length (s : string) :
  forall quot pred t,
    trim_chars s quot pred = Val t -> (String.length t <= String.length s)%nat.
Proof.
  induction s as [|c s IH]; intros quot pred t H; cbn [trim_chars] in H.
  - destruct (negb (Ascii.eqb quot NUL) || negb (pred =? 0)%Z); [discriminate|].
    injection H as <-. cbn. lia.
  - assert (K : forall quot',
              (r <- trim_chars s quot' pred ;; Val (if (pred =? 0)%Z then String c r else r))
              = Val t -> (String.length t <= String.length (String c s))%nat).
    { intros quot' G. destruct (trim_chars s quot' pred) as [r| | | |] eqn:E; try discriminate.
      injection G as <-. apply IH in E. destruct (pred =? 0)%Z; cbn [String.length]; lia. }
    destruct (Ascii.eqb c NUL).
    { destruct (negb (Ascii.eqb quot NUL) || negb (pred =? 0)%Z); [discriminate|].
      injection H as <-. cbn. lia. }
    destruct (negb (Ascii.eqb quot NUL)); [now apply K in H|].
    destruct (Ascii.eqb c SQUOT || Ascii.eqb c DQUOT); [now apply K in H|].
    destruct (Ascii.eqb c "["); [apply IH in H; cbn [String.length]; lia|].
    destruct (Ascii.eqb c "]").
    { destruct (pred - 1 <? 0)%Z; [discriminate|]. apply IH in H. cbn [String.length]. lia. }
    now apply K in H.
Qed.

(** What is kept is read again in the same way: outside every predicate, in
    the literal that was open, and nothing of it is dropped. *)
Lemma trim_chars_fixed (s : string) :
  forall quot pred t,
    (0 <= pred)%Z ->
    trim_chars s quot pred = Val t ->
    trim_chars t (if (pred =? 0)%Z then quot else NUL) 0 = Val t.
Proof.
  induction s as [|c s IH]; intros quot pred t P H; cbn [trim_chars] in H.
  - destruct (negb (Ascii.eqb quot NUL) || negb (pred =? 0)%Z) eqn:E; [discriminate|].
    injection H as <-. apply orb_false_iff in E as [E1 E2].
    apply negb_false_iff in E1. apply negb_false_iff in E2. rewrite E2.
    cbn [trim_chars]. rewrite E1. reflexivity.
  - destruct (Ascii.eqb c NUL) eqn:Ec.
    { destruct (negb (Ascii.eqb quot NUL) || negb (pred =? 0)%Z) eqn:E; [discriminate|].
      injection H as <-. apply orb_false_iff in E as [E1 E2].
      apply negb_false_iff in E1. apply negb_false_iff in E2. rewrite E2.
      cbn [trim_chars]. rewrite E1. reflexivity. }
    destruct (negb (Ascii.eqb quot NUL)) eqn:Q.
    { destruct (trim_chars s (if Ascii.eqb c quot then NUL else quot) pred) as [r| | | |] eqn:E;
        try discriminate.
      injection H as <-. apply IH in E; [|exact P].
      destruct (pred =? 0)%Z; [|exact E].
      cbn [trim_chars]. rewrite Ec, Q, E. reflexivity. }
    destruct (Ascii.eqb c SQUOT || Ascii.eqb c DQUOT) eqn:Cq.
    { destruct (trim_chars s c pred) as [r| | | |] eqn:E; try discriminate.
      injection H as <-. apply IH in E; [|exact P].
      destruct (pred =? 0)%Z eqn:Z0.
      - cbn [trim_chars]. rewrite Ec, Q, Cq, E. reflexivity.
      - exact E. }
    destruct (Ascii.eqb c "[") eqn:Co.
    { apply IH in H; [|lia].
      replace (pred + 1 =? 0)%Z with false in H by (symmetry; apply Z.eqb_neq; lia).
      destruct (pred =? 0)%Z eqn:Z0; [|exact H].
      apply negb_false_iff in Q. apply Ascii.eqb_eq in Q. subst quot. exact H. }
    destruct (Ascii.eqb c "]") eqn:Cc.
    { destruct (pred - 1 <? 0)%Z eqn:L; [discriminate|]. apply Z.ltb_ge in L.
      apply IH in H; [|exact L].
      replace (pred =? 0)%Z with false by (symmetry; apply Z.eqb_neq; lia).
      apply negb_false_iff in Q. apply Ascii.eqb_eq in Q. subst quot.
      destruct (pred - 1 =? 0)%Z; exact H. }
    destruct (trim_chars s quot pred) as [r| | | |] eqn:E; try discriminate.
    injection H as <-. apply IH in E; [|exact P].
    destruct (pred =? 0)%Z; [|exact E].
    cbn [trim_chars]. rewrite Ec, Q, Cq, Co, Cc, E. reflexivity.
Qed.

(** The characters that structure an expression. *)
Definition specials : list ascii := ["["%char; "]"%char; SQUOT; DQUOT; NUL].

Lemma is_quote_not_NUL (q : ascii) : is_quote q = true -> Ascii.eqb q NUL = false.
Proof.
  unfold is_quote. intro Q. apply orb_true_iff in Q as [Q|Q]; apply Ascii.eqb_eq in Q;
    subst q; reflexivity.
Qed.

Lemma trim_chars_plain (a t : string) (pred : Z) :
  free_of specials a = true ->
  trim_chars (a ++ t) NUL pred
  = (r <- trim_chars t NUL pred ;; Val (if (pred =? 0)%Z then a ++ r else r)).
Proof.
  induction a as [|c a IH]; intro F.
  - cbn [append]. destruct (trim_chars t NUL pred); cbn [bind]; try reflexivity.
    destruct (pred =? 0)%Z; reflexivity.
  - free_head F c a F1 F2. cbn [append trim_chars].
    rewrite (F1 NUL) by (cbn; tauto). rewrite (F1 "["%char) by (cbn; tauto).
    rewrite (F1 "]"%char) by (cbn; tauto). rewrite (F1 SQUOT) by (cbn; tauto).
    rewrite (F1 DQUOT) by (cbn; tauto). cbn [negb orb Ascii.eqb Bool.eqb].
    change (Ascii.eqb NUL NUL) with true. cbn [negb].
    rewrite (IH F2). destruct (trim_chars t NUL pred); cbn [bind]; try reflexivity.
    destruct (pred =? 0)%Z; reflexivity.
Qed.

Lemma trim_chars_quote (q : ascii) (t : string) (pred : Z) :
  is_quote q = true ->
  trim_chars (String q t) NUL pred
  = (r <- trim_chars t q pred ;; Val (if (pred =? 0)%Z then String q r else r)).
Proof.
  intro Q. cbn [trim_chars]. rewrite (is_quote_not_NUL q Q).
  change (Ascii.eqb NUL NUL) with true. cbn [negb]. unfold is_quote in Q. rewrite Q.
  reflexivity.
Qed.

Lemma trim_chars_literal (q : ascii) (v t : string) (pred : Z) :
  is_quote q = true -> free_of [q; NUL] v = true ->
  trim_chars (v ++ String q t) q pred
  = (r <- trim_chars t NUL pred ;; Val (if (pred =? 0)%Z then v ++ String q r else r)).
Proof.
  intros Q. pose proof (is_quote_not_NUL q Q) as Qn.
  induction v as [|c v IH]; intro F.
  - cbn [append trim_chars]. rewrite Qn. cbn [negb]. rewrite Ascii.eqb_refl. reflexivity.
  - free_head F c v F1 F2. cbn [append trim_chars].
    rewrite (F1 NUL) by (cbn; tauto). rewrite (F1 q) by (cbn; tauto). rewrite Qn.
    cbn [negb]. rewrite (IH F2).
    destruct (trim_chars t NUL pred); cbn [bind]; try reflexivity.
    destruct (pred =? 0)%Z; reflexivity.
Qed.

Lemma trim_chars_open (q : ascii) (v : string) (pred : Z) :
  is_quote q = true -> free_of [q; NUL] v = true ->
  trim_chars v q pred = Err SR_ERR_INVAL_ARG.
Proof.
  intros Q. pose proof (is_quote_not_NUL q Q) as Qn.
  induction v as [|c v IH]; intro F.
  - cbn [trim_chars]. rewrite Qn. reflexivity.
  - free_head F c v F1 F2. cbn [trim_chars].
    rewrite (F1 NUL) by (cbn; tauto). rewrite (F1 q) by (cbn; tauto). rewrite Qn.
    cbn [negb]. rewrite (IH F2). reflexivity.
Qed.

(** X4. Trimming is idempotent: what [sr_get_trim_predicates] returns is not
    longer than the expression, and trimming it again returns it unchanged. *)
Theorem sr_get_trim_predicates_idempotent (expr t : string) :
  sr_get_trim_predicates expr = Val t ->
  sr_get_trim_predicates t = Val t
  /\ (String.length t <= String.length expr)%nat.
Proof.
  rewrite !sr_get_trim_predicates_chars. intro H. split.
  - exact (trim_chars_fixed expr NUL 0%Z t ltac:(lia) H).
  - exact (trim_chars_length expr NUL 0%Z t H).
Qed.

(** A predicate with a quoted value is dropped as a whole. *)
Lemma trim_chars_predicate (q : ascii) (a k v b : string) :
  is_quote q = true ->
  free_of specials a = true ->
  free_of specials k = true ->
  free_of [q; NUL] v = true ->
  trim_chars (a ++ "[" ++ k ++ String q (v ++ String q ("]" ++ b))) NUL 0
  = (t <- trim_chars b NUL 0 ;; Val (a ++ t)).
Proof.
  intros Q Fa Fk Fv.
  rewrite (trim_chars_plain a _ 0%Z Fa). cbn [append].
  change (trim_chars (String "[" ?s) NUL 0) with (trim_chars s NUL 1).
  rewrite (trim_chars_plain k _ 1%Z Fk).
  rewrite (trim_chars_quote q _ 1%Z Q).
  rewrite (trim_chars_literal q v _ 1%Z Q Fv).
  change (trim_chars (String "]" b) NUL 1) with (trim_chars b NUL 0).
  destruct (trim_chars b NUL 0); reflexivity.
Qed.

(** X5. A predicate is removed as a whole, with its quoted value, whatever
    brackets or slashes the value holds; what precedes the predicate is kept
    and what follows it is trimmed in turn. *)
Theorem sr_get_trim_predicates_literal (q : ascii) (a k v b : string) :
  is_quote q = true ->
  free_of specials a = true ->
  free_of specials k = true ->
  free_of [q; NUL] v = true ->
  sr_get_trim_predicates (a ++ "[" ++ k ++ String q (v ++ String q ("]" ++ b)))
  = (t <- sr_get_trim_predicates b ;; Val (a ++ t)).
Proof.
  intros Q Fa Fk Fv. rewrite !sr_get_trim_predicates_chars.
  now apply trim_chars_predicate.
Qed.

(** X6. An expression whose brackets or quotes do not match is refused with
    INVAL_ARG: a closing bracket outside a predicate, a predicate that is not
    closed, a literal that is not closed. *)
Theorem sr_get_trim_predicates_unbalanced (q : ascii) (a b v rest : string) :
  is_quote q = true ->
  free_of specials a = true ->
  free_of specials b = true ->
  free_of [q; NUL] v = true ->
  sr_get_trim_predicates (a ++ "]" ++ rest) = Err SR_ERR_INVAL_ARG
  /\ sr_get_trim_predicates (a ++ "[" ++ b) = Err SR_ERR_INVAL_ARG
  /\ sr_get_trim_predicates (a ++ String q v) = Err SR_ERR_INVAL_ARG.
Proof.
  intros Q Fa Fb Fv. rewrite !sr_get_trim_predicates_chars.
  rewrite !(trim_chars_plain a _ 0%Z Fa). cbn [append]. split; [|split].
  - reflexivity.
  - change (trim_chars (String "[" b) NUL 0) with (trim_chars b NUL 1).
    rewrite <- (append_nil_r b), (trim_chars_plain b "" 1%Z Fb). reflexivity.
  - rewrite (trim_chars_quote q v 0%Z Q), (trim_chars_open q v 0%Z Q Fv). reflexivity.
Qed.

(** *** [sr_xpath_len_no_predicates] *)

Section Build.

Variable NDEBUG : bool.

Lemma len_no_predicates_loop_plain (a t : string) (len pred : Z) :
  free_of specials a = true ->
  len_no_predicates_loop NDEBUG (a ++ t)
    {| ls_len := len; ls_predicate := pred; ls_quoted := NUL |}
  = len_no_predicates_loop NDEBUG t
      {| ls_len := len + Z.of_nat (String.length a); ls_predicate := pred; ls_quoted := NUL |}.
Proof.
  revert len. induction a as [|c a IH]; intros len F.
  - cbn [append String.length Z.of_nat]. now rewrite Z.add_0_r.
  - free_head F c a F1 F2. cbn [append len_no_predicates_loop ls_quoted ls_len ls_predicate].
    rewrite (F1 NUL) by (cbn; tauto). rewrite (F1 "["%char) by (cbn; tauto).
    rewrite (F1 "]"%char) by (cbn; tauto). rewrite (F1 SQUOT) by (cbn; tauto).
    rewrite (F1 DQUOT) by (cbn; tauto).
    change (Ascii.eqb NUL NUL) with true. cbn [negb orb].
    rewrite (IH (len + 1)%Z F2). do 2 f_equal. cbn [String.length]. lia.
Qed.

Lemma len_no_predicates_loop_quote (q : ascii) (t : string) (len pred : Z) :
  is_quote q = true -> pred <> 0%Z ->
  len_no_predicates_loop NDEBUG (String q t)
    {| ls_len := len; ls_predicate := pred; ls_quoted := NUL |}
  = len_no_predicates_loop NDEBUG t
      {| ls_len := len; ls_predicate := pred; ls_quoted := q |}.
Proof.
  intros Q P. cbn [len_no_predicates_loop ls_quoted ls_len ls_predicate].
  rewrite (is_quote_not_NUL q Q). change (Ascii.eqb NUL NUL) with true. cbn [negb].
  assert (B : Ascii.eqb q "[" = false /\ Ascii.eqb q "]" = false).
  { unfold is_quote in Q. apply orb_true_iff in Q as [Q|Q]; apply Ascii.eqb_eq in Q;
      subst q; split; reflexivity. }
  destruct B as [-> ->]. unfold is_quote in Q. rewrite Q.
  replace (pred =? 0)%Z with false by (symmetry; now apply Z.eqb_neq).
  apply c_assert_true.
Qed.

Lemma len_no_predicates_loop_literal (q : ascii) (v t : string) (len pred : Z) :
  is_quote q = true -> free_of [q; NUL] v = true ->
  len_no_predicates_loop NDEBUG (v ++ String q t)
    {| ls_len := len; ls_predicate := pred; ls_quoted := q |}
  = len_no_predicates_loop NDEBUG t
      {| ls_len := len; ls_predicate := pred; ls_quoted := NUL |}.
Proof.
  intros Q. pose proof (is_quote_not_NUL q Q) as Qn.
  induction v as [|c v IH]; intro F.
  - cbn [append len_no_predicates_loop ls_quoted ls_len ls_predicate].
    rewrite Qn. cbn [negb]. rewrite Ascii.eqb_refl. reflexivity.
  - free_head F c v F1 F2.
    cbn [append len_no_predicates_loop ls_quoted ls_len ls_predicate].
    rewrite (F1 NUL) by (cbn; tauto). rewrite (F1 q) by (cbn; tauto). rewrite Qn.
    cbn [negb]. apply IH, F2.
Qed.

(** X7. The length that [sr_xpath_len_no_predicates] computes leaves out the
    brackets, the quotes and the quoted value of a predicate, but counts
    the rest of the predicate (the name of the key and the equals sign): it
    exceeds the length of what [sr_get_trim_predicates] returns for the same
    XPath by the length of that rest. *)
Theorem sr_xpath_len_no_predicates_counts_key (q : ascii) (a k v b : string) :
  is_quote q = true ->
  free_of specials a = true ->
  free_of specials k = true ->
  free_of [q; NUL] v = true ->
  free_of specials b = true ->
  sr_xpath_len_no_predicates NDEBUG (a ++ "[" ++ k ++ String q (v ++ String q ("]" ++ b)))
  = Val (Z.of_nat (String.length a + String.length k + String.length b))
  /\ sr_get_trim_predicates (a ++ "[" ++ k ++ String q (v ++ String q ("]" ++ b)))
     = Val (a ++ b).
Proof.
  intros Q Fa Fk Fv Fb. split.
  - unfold sr_xpath_len_no_predicates.
    rewrite (len_no_predicates_loop_plain a _ 0 0 Fa). cbn [append].
    change (len_no_predicates_loop NDEBUG (String "[" ?s)
              {| ls_len := ?l; ls_predicate := 0; ls_quoted := NUL |})
      with (len_no_predicates_loop NDEBUG s
              {| ls_len := l; ls_predicate := 1; ls_quoted := NUL |}).
    rewrite (len_no_predicates_loop_plain k _ _ 1 Fk).
    rewrite (len_no_predicates_loop_quote q _ _ 1 Q ltac:(discriminate)).
    rewrite (len_no_predicates_loop_literal q v _ _ 1 Q Fv).
    change (len_no_predicates_loop NDEBUG (String "]" b)
              {| ls_len := ?l; ls_predicate := 1; ls_quoted := NUL |})
      with (len_no_predicates_loop NDEBUG b
              {| ls_len := l; ls_predicate := 0; ls_quoted := NUL |}).
    rewrite <- (append_nil_r b) at 1.
    rewrite (len_no_predicates_loop_plain b "" _ 0 Fb).
    cbn [len_no_predicates_loop bind ls_quoted ls_predicate ls_len].
    change (Ascii.eqb NUL NUL) with true. cbn [negb orb Z.eqb]. f_equal. lia.
  - rewrite sr_get_trim_predicates_chars, (trim_chars_predicate q a k v b Q Fa Fk Fv).
    rewrite <- (append_nil_r b) at 1. rewrite (trim_chars_plain b "" 0%Z Fb).
    cbn. now rewrite append_nil_r.
Qed.

End Build.

(** *** [sr_xpath_next_name], [sr_xpath_next_predicate], [sr_xpath_trim_last_node] *)

(** The characters that end a name or its prefix. *)
Definition name_stops : list ascii := ["/"%char; ":"%char; "["%char; NUL].

Lemma ch_app_head (s t : string) (bad : list ascii) (c : ascii) :
  free_of bad s = true -> s <> "" -> In c bad -> Ascii.eqb (ch (s ++ t)) c = false.
Proof.
  intros F N I. destruct s as [|x s]; [contradiction|].
  free_head F x s F1 F2. cbn [append ch]. now apply F1.
Qed.

(** A run of name characters is passed; the test for a predicate is made on
    the character that follows the run. *)
Lemma next_name_scan_run (s t x : string) (mp : option string) (ml : Z) :
  free_of name_stops s = true -> s <> "" ->
  next_name_scan (s ++ t) x mp ml
  = if Ascii.eqb (ch t) "[" then (t, x, mp, ml, true) else next_name_scan t x mp ml.
Proof.
  induction s as [|c s IH]; intros F N; [contradiction|].
  pose proof F as F'. free_head F c s F1 F2. cbn [append next_name_scan].
  rewrite (F1 NUL) by (cbn; tauto). rewrite (F1 "/"%char) by (cbn; tauto).
  rewrite (F1 ":"%char) by (cbn; tauto). cbn [orb].
  destruct s as [|c' s].
  - cbn [append]. reflexivity.
  - rewrite (ch_app_head (String c' s) t name_stops "["%char F2 ltac:(discriminate))
      by (cbn; tauto).
    apply IH; [exact F2|discriminate].
Qed.

Lemma next_name_scan_stop (t x : string) (mp : option string) (ml : Z) :
  ch t = NUL \/ ch t = "/"%char ->
  next_name_scan t x mp ml = (t, x, mp, ml, false).
Proof.
  intro H. destruct t as [|c t]; [reflexivity|]. cbn [ch] in H. cbn [next_name_scan].
  destruct H as [-> | ->]; reflexivity.
Qed.

(** After the name: the end, a slash, or the bracket of a predicate. *)
Lemma next_name_scan_name (n rest x : string) (mp : option string) (ml : Z) :
  free_of name_stops n = true -> n <> "" ->
  ch rest = NUL \/ ch rest = "/"%char \/ ch rest = "["%char ->
  next_name_scan (n ++ rest) x mp ml = (rest, x, mp, ml, Ascii.eqb (ch rest) "[").
Proof.
  intros F N R. rewrite (next_name_scan_run n rest x mp ml F N).
  destruct (Ascii.eqb (ch rest) "[") eqn:B; [reflexivity|].
  apply next_name_scan_stop. destruct R as [R|[R|R]]; [now left|now right|].
  rewrite R in B. discriminate.
Qed.

Lemma ptrdiff_app (a b : string) : ptrdiff b (a ++ b) = Z.of_nat (String.length a).
Proof. unfold ptrdiff. rewrite length_append. lia. Qed.

(** The characters that end or quote a predicate. *)
Definition pred_stops : list ascii := ["]"%char; SQUOT; DQUOT; NUL].

Lemma next_predicate_scan_plain (a t : string) :
  free_of pred_stops a = true ->
  next_predicate_scan (a ++ t) NUL = next_predicate_scan t NUL.
Proof.
  induction a as [|c a IH]; intro F; [reflexivity|].
  free_head F c a F1 F2. cbn [append next_predicate_scan].
  rewrite (F1 NUL) by (cbn; tauto). rewrite (F1 "]"%char) by (cbn; tauto).
  rewrite (F1 SQUOT) by (cbn; tauto). rewrite (F1 DQUOT) by (cbn; tauto).
  cbn. apply IH, F2.
Qed.

Lemma next_predicate_scan_quote (q : ascii) (t : string) :
  is_quote q = true -> next_predicate_scan (String q t) NUL = next_predicate_scan t q.
Proof.
  intro Q. cbn [next_predicate_scan].
  assert (Qn : Ascii.eqb q NUL = false /\ Ascii.eqb q "]" = false).
  { unfold is_quote in Q. apply orb_true_iff in Q as [Q|Q]; apply Ascii.eqb_eq in Q;
      subst q; split; reflexivity. }
  destruct Qn as [-> ->]. change (Ascii.eqb NUL NUL) with true. cbn [andb negb].
  unfold is_quote in Q. now rewrite Q.
Qed.

Lemma next_predicate_scan_literal (q : ascii) (v t : string) :
  is_quote q = true -> free_of [q; NUL] v = true ->
  next_predicate_scan (v ++ String q t) q = next_predicate_scan t NUL.
Proof.
  intros Q. pose proof (is_quote_not_NUL q Q) as Qn.
  induction v as [|c v IH]; intro F.
  - cbn [append next_predicate_scan]. rewrite Qn. cbn [andb negb]. rewrite Ascii.eqb_refl.
    reflexivity.
  - free_head F c v F1 F2. cbn [append next_predicate_scan].
    rewrite (F1 NUL) by (cbn; tauto). rewrite (F1 q) by (cbn; tauto).
    rewrite Qn. cbn. apply IH, F2.
Qed.

Lemma next_predicate_scan_open (q : ascii) (v : string) :
  is_quote q = true -> free_of [q; NUL] v = true ->
  next_predicate_scan v q = ("", q).
Proof.
  intros Q. pose proof (is_quote_not_NUL q Q) as Qn.
  induction v as [|c v IH]; intro F; [reflexivity|].
  free_head F c v F1 F2. cbn [next_predicate_scan].
  rewrite (F1 NUL) by (cbn; tauto). rewrite (F1 q) by (cbn; tauto).
  rewrite Qn. cbn. apply IH, F2.
Qed.

(** The walk of [sr_xpath_trim_last_node] over reversed text. *)
Definition rev_chars (s : string) : list ascii := rev (list_ascii_of_string s).

Lemma list_ascii_of_string_app (a b : string) :
  list_ascii_of_string (a ++ b) = (list_ascii_of_string a ++ list_ascii_of_string b)%list.
Proof. induction a as [|c a IH]; cbn; [reflexivity|]. now rewrite IH. Qed.

Lemma rev_chars_app (a b : string) : rev_chars (a ++ b) = (rev_chars b ++ rev_chars a)%list.
Proof. unfold rev_chars. rewrite list_ascii_of_string_app. apply rev_app_distr. Qed.

Lemma rev_chars_length (a : string) : List.length (rev_chars a) = String.length a.
Proof.
  unfold rev_chars. rewrite length_rev. induction a as [|c a IH]; cbn; [reflexivity|].
  now rewrite IH.
Qed.

Lemma rev_chars_free (bad : list ascii) (a : string) (c : ascii) :
  free_of bad a = true -> In c (rev_chars a) -> forall b, In b bad -> Ascii.eqb c b = false.
Proof.
  unfold free_of, rev_chars. intros F I. apply in_rev in I.
  rewrite forallb_forall in F. specialize (F c I). apply negb_true_iff in F.
  now apply existsb_eqb_false.
Qed.

(** Inside a predicate the walk goes on until the opening bracket. *)
Lemma trim_scan_skip (l1 l2 : list ascii) :
  (forall c, In c l1 -> Ascii.eqb c "[" = false) ->
  Oper.trim_scan (l1 ++ "["%char :: l2)%list true "["
  = option_map (Nat.add (S (List.length l1))) (Oper.trim_scan l2 false "[").
Proof.
  induction l1 as [|c l1 IH]; intro F.
  - cbn [app Oper.trim_scan orb andb List.length]. change (Ascii.eqb "[" "[") with true.
    cbn iota. destruct (Oper.trim_scan l2 false "["); reflexivity.
  - cbn [app Oper.trim_scan orb andb List.length].
    rewrite (F c (or_introl eq_refl)).
    rewrite IH by (intros x Hx; apply F; now right).
    destruct (Ascii.eqb c "]"); destruct (Oper.trim_scan l2 false "["); reflexivity.
Qed.

(** Outside a predicate the walk goes on until a slash. *)
Lemma trim_scan_walk (l1 l2 : list ascii) (skip_end : ascii) :
  (forall c, In c l1 -> Ascii.eqb c "/" = false /\ Ascii.eqb c "]" = false) ->
  Oper.trim_scan (l1 ++ l2)%list false skip_end
  = option_map (Nat.add (List.length l1)) (Oper.trim_scan l2 false skip_end).
Proof.
  induction l1 as [|c l1 IH]; intro F.
  - cbn [app List.length]. destruct (Oper.trim_scan l2 false skip_end); reflexivity.
  - cbn [app Oper.trim_scan orb andb List.length].
    destruct (F c (or_introl eq_refl)) as [-> ->]. cbn [negb].
    rewrite IH by (intros x Hx; apply F; now right).
    destruct (Oper.trim_scan l2 false skip_end); reflexivity.
Qed.

(** Outside a predicate the character that ends a predicate plays no part. *)
Lemma trim_scan_false_any (l : list ascii) (a b : ascii) :
  Oper.trim_scan l false a = Oper.trim_scan l false b.
Proof.
  induction l as [|c l IH]; [reflexivity|]. cbn [Oper.trim_scan orb andb].
  destruct (negb (Ascii.eqb c "/")); [|reflexivity].
  destruct (Ascii.eqb c "]"); [reflexivity|]. now rewrite IH.
Qed.

(** The predicates of a step, each in its brackets. *)
Fixpoint brackets (preds : list string) : string :=
  match preds with
  | [] => ""
  | b :: preds' => "[" ++ b ++ "]" ++ brackets preds'
  end.

(** The walk passes predicates that hold no opening bracket. *)
Lemma trim_scan_brackets (preds : list string) :
  forallb (free_of ["["%char]) preds = true ->
  forall l2 skip_end,
    Oper.trim_scan (rev_chars (brackets preds) ++ l2)%list false skip_end
    = option_map (Nat.add (String.length (brackets preds)))
        (Oper.trim_scan l2 false skip_end).
Proof.
  induction preds as [|b preds IH]; intros F l2 skip_end.
  - cbn [brackets]. change (rev_chars "") with (@nil ascii). cbn [app String.length].
    destruct (Oper.trim_scan l2 false skip_end); reflexivity.
  - cbn [forallb] in F. apply andb_true_iff in F as [Fb Fp]. cbn [brackets].
    rewrite !rev_chars_app. change (rev_chars "]") with ["]"%char].
    change (rev_chars "[") with ["["%char]. rewrite <- !app_assoc. cbn [app].
    rewrite (IH Fp). cbn [Oper.trim_scan orb andb].
    change (Ascii.eqb "]" "/") with false. cbn [negb].
    change (Ascii.eqb "]" "]") with true. cbn iota.
    rewrite trim_scan_skip
      by (intros c Hc; apply (rev_chars_free _ b c Fb Hc); cbn; tauto).
    rewrite (trim_scan_false_any l2 "[" skip_end).
    destruct (Oper.trim_scan l2 false skip_end) as [k|]; cbn [option_map]; [|reflexivity].
    f_equal. rewrite rev_chars_length.
    repeat (progress (rewrite ?length_append; cbn [String.length append])). lia.
Qed.

Section Build.

Variable NDEBUG : bool.

(** X8. [sr_xpath_next_name] splits a step with a module prefix into the
    prefix and the name, tells a double slash, returns what follows the name,
    and sets [has_predicate] exactly when that starts with a bracket. *)
Theorem sr_xpath_next_name_qualified (ds : bool) (m n rest : string) :
  free_of name_stops m = true ->
  free_of name_stops n = true ->
  ch rest = NUL \/ ch rest = "/"%char \/ ch rest = "["%char ->
  sr_xpath_next_name NDEBUG ((if ds then "//" else "/") ++ m ++ ":" ++ n ++ rest)
  = Val {| nn_ret := rest;
           nn_mod := Some (m ++ ":" ++ n ++ rest);
           nn_mod_len := Z.of_nat (String.length m);
           nn_name := n ++ rest;
           nn_len := Z.of_nat (String.length n);
           nn_double_slash := ds;
           nn_has_predicate := Ascii.eqb (ch rest) "[" |}.
Proof.
  intros Fm Fn R. unfold sr_xpath_next_name.
  assert (S0 : Ascii.eqb (ch (m ++ ":" ++ n ++ rest)) "/" = false).
  { destruct m as [|c m]; [reflexivity|].
    apply (ch_app_head (String c m) _ name_stops); [exact Fm|discriminate|cbn; tauto]. }
  assert (Sc : next_name_scan (m ++ ":" ++ n ++ rest) (m ++ ":" ++ n ++ rest) None 0
               = (rest, n ++ rest, Some (m ++ ":" ++ n ++ rest),
                  Z.of_nat (String.length m), Ascii.eqb (ch rest) "[")).
  { set (x := m ++ ":" ++ n ++ rest).
    assert (C : next_name_scan (":" ++ n ++ rest) x None 0
                = (rest, n ++ rest, Some x, Z.of_nat (String.length m),
                   Ascii.eqb (ch rest) "[")).
    { cbn [append next_name_scan]. change (Ascii.eqb ":" NUL || Ascii.eqb ":" "/") with false.
      change (Ascii.eqb ":" ":") with true. cbn iota.
      replace (ptrdiff (String ":" (n ++ rest)) x) with (Z.of_nat (String.length m))
        by (subst x; symmetry; apply (ptrdiff_app m (String ":" (n ++ rest)))).
      destruct n as [|c n].
      - cbn [append]. destruct (Ascii.eqb (ch rest) "[") eqn:B; [reflexivity|].
        apply next_name_scan_stop. destruct R as [R|[R|R]]; [now left|now right|].
        rewrite R in B. discriminate.
      - rewrite (ch_app_head (String c n) rest name_stops "["%char Fn ltac:(discriminate))
          by (cbn; tauto).
        apply next_name_scan_name; [exact Fn|discriminate|exact R]. }
    destruct m as [|c m]; [exact C|].
    subst x. rewrite (next_name_scan_run (String c m) _ _ None 0 Fm ltac:(discriminate)).
    change (Ascii.eqb (ch (":" ++ n ++ rest)) "[") with false. cbn iota. exact C. }
  destruct ds; cbn [append ch incr]; change (Ascii.eqb "/" "/") with true;
    rewrite c_assert_true.
  - cbn [append] in Sc. rewrite Sc. rewrite ptrdiff_app. reflexivity.
  - cbn [append] in S0, Sc. rewrite S0, Sc. rewrite ptrdiff_app. reflexivity.
Qed.

(** X9. [sr_xpath_next_predicate] reads a predicate up to the bracket that
    closes it: a closing bracket inside the quoted value does not end it.  The
    content and its length are handed out, and what follows the bracket is
    returned; with a quote that is never closed the result is NULL. *)
Theorem sr_xpath_next_predicate_literal (q : ascii) (k v rest : string) :
  is_quote q = true ->
  free_of pred_stops k = true ->
  free_of [q; NUL] v = true ->
  sr_xpath_next_predicate NDEBUG ("[" ++ k ++ String q (v ++ String q ("]" ++ rest)))
  = Val (Some {| np_ret := rest;
                 np_pred := k ++ String q (v ++ String q ("]" ++ rest));
                 np_len := Z.of_nat (String.length k + String.length v + 2);
                 np_has_predicate := false |})
  /\ sr_xpath_next_predicate NDEBUG ("[" ++ k ++ String q v) = Val None.
Proof.
  intros Q Fk Fv. pose proof (is_quote_not_NUL q Q) as Qn.
  unfold sr_xpath_next_predicate. cbn [append ch incr].
  change (Ascii.eqb "[" "[") with true. rewrite !c_assert_true. split.
  - rewrite (next_predicate_scan_plain k _ Fk), (next_predicate_scan_quote q _ Q),
      (next_predicate_scan_literal q v _ Q Fv).
    cbn [next_predicate_scan]. change (Ascii.eqb "]" NUL) with false.
    change (Ascii.eqb NUL NUL && Ascii.eqb "]" "]") with true. cbn iota.
    change (Ascii.eqb NUL NUL) with true. cbn [negb incr ch].
    do 2 f_equal. f_equal.
    + unfold ptrdiff. rewrite !length_append. cbn [String.length].
      rewrite !length_append. cbn [String.length]. lia.
  - rewrite (next_predicate_scan_plain k _ Fk), (next_predicate_scan_quote q _ Q),
      (next_predicate_scan_open q v Q Fv). now rewrite Qn.
Qed.

(** The result of [sr_xpath_trim_last_node] when the walk stops at the slash
    in front of [rest]. *)
Lemma sr_xpath_trim_last_node_at (front rest : string) :
  Ascii.eqb (ch (front ++ "/" ++ rest)) "/" = true ->
  Oper.trim_scan (rev_chars rest ++ "/"%char :: rev_chars front)%list false NUL
  = Some (String.length rest) ->
  Oper.sr_xpath_trim_last_node NDEBUG (front ++ "/" ++ rest)
  = Val (match front with EmptyString => None | _ => Some front end).
Proof.
  intros A T. unfold Oper.sr_xpath_trim_last_node. rewrite A, c_assert_true.
  fold (rev_chars (front ++ "/" ++ rest)). rewrite !rev_chars_app.
  change (rev_chars "/") with ["/"%char]. rewrite <- !app_assoc. cbn [app]. rewrite T.
  assert (E : (String.length (front ++ "/" ++ rest) - 1 - String.length rest
               = String.length front)%nat).
  { repeat (progress (rewrite ?length_append; cbn [String.length append])). lia. }
  rewrite E. destruct front as [|c front]; [reflexivity|].
  cbn [String.length Nat.eqb]. f_equal. f_equal.
  exact (substring_prefix (String c front) ("/" ++ rest)).
Qed.

(** X10. [sr_xpath_trim_last_node] walks back from the end to the last slash
    outside brackets and returns what is in front of it: when no predicate of
    the last step holds an opening bracket, that is the XPath of the parent,
    whatever slashes the predicates hold, and NULL for a top-level node.  The
    walk knows no quotes: an opening bracket inside a predicate, quoted or
    not, ends the predicate for it, so that a slash in front of that bracket
    inside the predicate is taken for the last slash, and the XPath is cut
    there, also for a top-level node. *)
Theorem sr_xpath_trim_last_node_parent (parent n : string) (preds : list string) :
  parent = "" \/ ch parent = "/"%char ->
  (free_of ["/"%char; "]"%char] n = true ->
   forallb (free_of ["["%char]) preds = true ->
   Oper.sr_xpath_trim_last_node NDEBUG (parent ++ "/" ++ n ++ brackets preds)
   = Val (match parent with EmptyString => None | _ => Some parent end))
  /\ (forall b1 b2 b3,
        free_of ["/"%char; "]"%char] b2 = true ->
        free_of ["["%char] b3 = true ->
        Oper.sr_xpath_trim_last_node NDEBUG
          (parent ++ "/" ++ n ++ "[" ++ b1 ++ "/" ++ b2 ++ "[" ++ b3 ++ "]")
        = Val (Some (parent ++ "/" ++ n ++ "[" ++ b1))).
Proof.
  intro P.
  assert (A : forall t, Ascii.eqb (ch (parent ++ "/" ++ t)) "/" = true).
  { intro t. destruct P as [-> | P]; [reflexivity|].
    destruct parent as [|c parent]; [reflexivity|]. cbn [append ch] in *. now rewrite P. }
  split.
  - intros Fn Fp. apply sr_xpath_trim_last_node_at; [apply A|].
    rewrite rev_chars_app, <- app_assoc, (trim_scan_brackets preds Fp).
    rewrite trim_scan_walk
      by (intros c Hc; split; apply (rev_chars_free _ n c Fn Hc); cbn; tauto).
    cbn [Oper.trim_scan orb negb andb]. change (Ascii.eqb "/" "/") with true.
    cbn [negb option_map]. f_equal. rewrite rev_chars_length, length_append. lia.
  - intros b1 b2 b3 F2 F3.
    pose proof (sr_xpath_trim_last_node_at (parent ++ "/" ++ n ++ "[" ++ b1)
                  (b2 ++ "[" ++ b3 ++ "]")) as T.
    repeat (progress (rewrite ?append_assoc in T; cbn [append] in T)).
    repeat (progress (rewrite ?append_assoc; cbn [append])).
    rewrite T.
    + destruct parent as [|c parent]; reflexivity.
    + pose proof (A (n ++ String "[" (b1 ++ String "/" (b2 ++ String "[" (b3 ++ "]"))))) as A'.
      cbn [append] in A'. exact A'.
    + change (String "[" (b3 ++ "]")) with ("[" ++ b3 ++ "]").
      rewrite !rev_chars_app. change (rev_chars "]") with ["]"%char].
      change (rev_chars "[") with ["["%char]. rewrite <- !app_assoc. cbn [app].
      cbn [Oper.trim_scan orb negb andb]. change (Ascii.eqb "]" "/") with false.
      cbn [negb]. change (Ascii.eqb "]" "]") with true. cbn iota.
      rewrite trim_scan_skip
        by (intros c Hc; apply (rev_chars_free _ b3 c F3 Hc); cbn; tauto).
      rewrite trim_scan_walk
        by (intros c Hc; split; apply (rev_chars_free _ b2 c F2 Hc); cbn; tauto).
      cbn [Oper.trim_scan orb negb andb]. change (Ascii.eqb "/" "/") with true.
      cbn [negb option_map]. f_equal. rewrite !rev_chars_length.
      repeat (progress (rewrite ?length_append; cbn [String.length append])). lia.
Qed.

End Build.

(** *** Examples *)

Lemma sr_xpath_first_node_with_predicates_prefix_witness :
  exists rest,
    "/if:interfaces/if:interface" = "/if:interfaces" ++ rest
    /\ ch "/if:interfaces" = ch "/if:interfaces/if:interface"
    /\ (ch rest = NUL \/ ch rest = "/"%char).
Proof.
  exact (sr_xpath_first_node_with_predicates_prefix false
           "/if:interfaces/if:interface" "/if:interfaces" eq_refl).
Defined.

Lemma sr_xpath_first_node_with_predicates_literal_witness :
  sr_xpath_first_node_with_predicates false "/interface[name='eth0/1']/mtu"
  = Val (Some "/interface[name='eth0/1']")
  /\ sr_xpath_first_node_with_predicates false "/interface[name='eth0/1" = Val None.
Proof.
  exact (sr_xpath_first_node_with_predicates_literal false "'"%char
           "interface[name=" "eth0/1" "]" "mtu" eq_refl eq_refl eq_refl eq_refl).
Defined.

Lemma sr_get_first_ns_identifier_witness :
  sr_get_first_ns "/ietf-interfaces:interfaces/interface" = Some "ietf-interfaces".
Proof.
  apply (proj2 (sr_get_first_ns_identifier "/ietf-interfaces:interfaces/interface"
                  "ietf-interfaces")).
  split; [reflexivity|]. exists "interfaces/interface". left. reflexivity.
Defined.

Lemma sr_get_trim_predicates_idempotent_witness :
  sr_get_trim_predicates "/a/b" = Val "/a/b"
  /\ (String.length "/a/b" <= String.length "/a[k='[x]']/b")%nat.
Proof.
  exact (sr_get_trim_predicates_idempotent "/a[k='[x]']/b" "/a/b" eq_refl).
Defined.

Lemma sr_get_trim_predicates_literal_witness :
  sr_get_trim_predicates "/a[k='x]/y']/b[n='1']"
  = (t <- sr_get_trim_predicates "/b[n='1']" ;; Val ("/a" ++ t)).
Proof.
  exact (sr_get_trim_predicates_literal "'"%char "/a" "k=" "x]/y" "/b[n='1']"
           eq_refl eq_refl eq_refl eq_refl).
Defined.

Lemma sr_get_trim_predicates_unbalanced_witness :
  sr_get_trim_predicates "/a]/b" = Err SR_ERR_INVAL_ARG
  /\ sr_get_trim_predicates "/a[k=1" = Err SR_ERR_INVAL_ARG
  /\ sr_get_trim_predicates "/a'k]" = Err SR_ERR_INVAL_ARG.
Proof.
  exact (sr_get_trim_predicates_unbalanced "'"%char "/a" "k=1" "k]" "/b"
           eq_refl eq_refl eq_refl eq_refl).
Defined.

Lemma sr_xpath_len_no_predicates_counts_key_witness :
  sr_xpath_len_no_predicates false "/a[name='eth0']/b" = Val 9%Z
  /\ sr_get_trim_predicates "/a[name='eth0']/b" = Val "/a/b".
Proof.
  exact (sr_xpath_len_no_predicates_counts_key false "'"%char "/a" "name=" "eth0" "/b"
           eq_refl eq_refl eq_refl eq_refl eq_refl).
Defined.

Lemma sr_xpath_next_name_qualified_witness :
  sr_xpath_next_name false "//if:interface[name='eth0']"
  = Val {| nn_ret := "[name='eth0']";
           nn_mod := Some "if:interface[name='eth0']";
           nn_mod_len := 2;
           nn_name := "interface[name='eth0']";
           nn_len := 9;
           nn_double_slash := true;
           nn_has_predicate := true |}.
Proof.
  exact (sr_xpath_next_name_qualified false true "if" "interface" "[name='eth0']"
           eq_refl eq_refl (or_intror (or_intror eq_refl))).
Defined.

Lemma sr_xpath_next_predicate_literal_witness :
  sr_xpath_next_predicate false "[name='a]b']/mtu"
  = Val (Some {| np_ret := "/mtu";
                 np_pred := "name='a]b']/mtu";
                 np_len := 10;
                 np_has_predicate := false |})
  /\ sr_xpath_next_predicate false "[name='a]b" = Val None.
Proof.
  exact (sr_xpath_next_predicate_literal false "'"%char "name=" "a]b" "/mtu"
           eq_refl eq_refl eq_refl).
Defined.

Lemma sr_xpath_trim_last_node_parent_witness :
  Oper.sr_xpath_trim_last_node false "/a/b[k='x/y'][l='z']" = Val (Some "/a")
  /\ Oper.sr_xpath_trim_last_node false "/a/b[k='/[']" = Val (Some "/a/b[k='").
Proof.
  destruct (sr_xpath_trim_last_node_parent false "/a" "b" ["k='x/y'"; "l='z'"]
              (or_intror eq_refl)) as [T1 T2].
  split; [exact (T1 eq_refl eq_refl)|exact (T2 "k='" "" "'" eq_refl eq_refl)].
Defined.

End Expr.

(** ** System helpers of [common.c]: deadlines, sleeping, the lock fallback,
       pointer arrays, directories *)

Module Sys.

Local Open Scope Z_scope.

(** [struct timespec]. *)
Record timespec : Type := {
  tv_sec : Z;
  tv_nsec : Z
}.

(** The time a [timespec] stands for, in nanoseconds. *)
Definition nanoseconds (ts : timespec) : Z := tv_sec ts * 1000000000 + tv_nsec ts.

(** [errno] values of the platform (Linux). *)
Definition EINTR : Z := 4.
Definition EBUSY : Z := 16.
Definition EEXIST : Z := 17.

(** [sr_time_get]: [now] is what [clock_gettime] stores, [None] when it fails
    and [ts] stays as it was.  [add_ms] is a [uint32_t]: the sum with the
    milliseconds of [tv_nsec] (a [long]) is converted back to 32 bits. *)
Definition sr_time_get (now : option timespec) (ts : timespec) (add_ms : Z) : timespec :=
  match now with
  | None => ts
  | Some ts =>
      let add_ms := (add_ms + Z.quot (tv_nsec ts) 1000000) mod 2 ^ 32 in
      let nsec := Z.rem (tv_nsec ts) 1000000 in
      let nsec := nsec + (add_ms mod 1000) * 1000000 in
      {| tv_sec := tv_sec ts + add_ms / 1000; tv_nsec := nsec |}
  end.

(** *** [sr_msleep] *)

(** The condition of the [do ... while] of [sr_msleep] as the code spells it,
    [(ret == -1) && (errno = EINTR)]: the right operand is an assignment,
    whose value is [EINTR].  Yields the truth value and [errno] after the
    evaluation. *)
Definition msleep_again (ret errno : Z) : bool * Z :=
  if ret =? -1 then (negb (EINTR =? 0), EINTR) else (false, errno).

Section Sleep.

(** [nanosleep(&ts, &ts)]: what the [k]-th call returns and the remaining time
    it stores. *)
Variable nanosleep : nat -> timespec -> Perm.sys_result * timespec.

(** The [do ... while] loop from its [k]-th pass on: [ret], [errno] and the
    number of calls made when it is left. *)
Fixpoint msleep_loop (fuel k : nat) (ts : timespec) (errno : Z) : outcome (Z * Z * nat) :=
  match fuel with
  | O => OutOfFuel
  | S fuel' =>
      let '(res, ts') := nanosleep k ts in
      let '(ret, errno) :=
        match res with
        | Perm.SysOk => (0, errno)
        | Perm.SysFail e => (-1, e)
        end in
      let '(again, errno) := msleep_again ret errno in
      if again then msleep_loop fuel' (S k) ts' errno else Val (ret, errno, S k)
  end.

(** [sr_msleep]: its [err_info] (NULL is [None]) and the number of calls of
    [nanosleep].  [msec] is a [uint32_t]. *)
Definition sr_msleep (fuel : nat) (msec : Z) (errno : Z) : outcome (option sr_error_t * nat) :=
  let ts := {| tv_sec := msec / 1000; tv_nsec := (msec mod 1000) * 1000000 |} in
  r <- msleep_loop fuel 0 ts errno ;;
  let '(ret, _, calls) := r in
  if ret =? -1 then Val (Some SR_ERR_SYS, calls) else Val (None, calls).

End Sleep.

(** *** [pthread_mutex_timedlock], the fallback for platforms without it *)

(** Conversion of a 64-bit value to [int32_t]. *)
Definition int32 (z : Z) : Z :=
  let w := z mod 2 ^ 32 in if w <? 2 ^ 31 then w else w - 2 ^ 32.

(** The body of the loop after a busy [pthread_mutex_trylock]: [None] is the
    timeout ([break]), otherwise the nanoseconds handed to [nanosleep].  The
    seconds are taken to be such that the 64-bit difference does not
    overflow. *)
Definition timedlock_sleep (abstime cur : timespec) : option Z :=
  let nsec_diff :=
    (tv_sec abstime - tv_sec cur) * 1000000000 + (tv_nsec abstime - tv_nsec cur) in
  let diff := int32 (if nsec_diff =? 0 then 0 else Z.quot nsec_diff 1000000) in
  if diff <? 1 then None
  else if diff <? 5 then Some (diff * 1000000)
  else Some 5000000.

Section TimedLock.

(** What the [k]-th call of [pthread_mutex_trylock] returns, and the time that
    [clock_gettime] reads after it. *)
Variable pthread_mutex_trylock : nat -> Z.
Variable clock_gettime : nat -> timespec.

(** The loop from its [k]-th pass on: the result and the sleeps made, each with
    the pass in which it was made. *)
Fixpoint timedlock_loop (fuel k : nat) (abstime : timespec) (sleeps : list (nat * Z))
  : outcome (Z * list (nat * Z)) :=
  match fuel with
  | O => OutOfFuel
  | S fuel' =>
      let rc := pthread_mutex_trylock k in
      if rc =? EBUSY then
        match timedlock_sleep abstime (clock_gettime k) with
        | None => Val (rc, sleeps)
        | Some dur => timedlock_loop fuel' (S k) abstime (sleeps ++ [(k, dur)])
        end
      else Val (rc, sleeps)
  end.

Definition pthread_mutex_timedlock (fuel : nat) (abstime : timespec)
  : outcome (Z * list (nat * Z)) :=
  timedlock_loop fuel 0 abstime [].

End TimedLock.

(** *** [sr_ptr_add], [sr_ptr_del] *)

(** The first loop of both functions: the index of the pointer in the array,
    [ptr_count] when it is not there. *)
Fixpoint ptr_find (ptrs : list Z) (p : Z) : nat :=
  match ptrs with
  | [] => O
  | x :: ptrs' => if x =? p then O else S (ptr_find ptrs' p)
  end.

Section Ptr.

(** The outcome of taking the lock ([sr_mlock]; NULL is [None]) and of
    [realloc]. *)
Variable ptr_lock : option sr_error_t.
Variable realloc_ok : bool.

(** [sr_ptr_add]: the array after the call and the [err_info].  [ptr_count] is
    the length of the list (taken to stay below 2^32). *)
Definition sr_ptr_add (ptrs : list Z) (add_ptr : Z) : list Z * option sr_error_t :=
  match ptr_lock with
  | Some e => (ptrs, Some e)
  | None =>
      let i := ptr_find ptrs add_ptr in
      if Nat.eqb i (List.length ptrs) then
        if realloc_ok then (ptrs ++ [add_ptr], None)
        else (ptrs, Some SR_ERR_NOMEM)
      else (ptrs, None)
  end.

(** [sr_ptr_del]: a pointer that is found is overwritten by the last one
    unless it is the last one, and the count is decremented; a pointer that is
    not found gives an internal error. *)
Definition sr_ptr_del (ptrs : list Z) (del_ptr : Z) : list Z * option sr_error_t :=
  match ptr_lock with
  | Some e => (ptrs, Some e)
  | None =>
      let i := ptr_find ptrs del_ptr in
      if (i <? List.length ptrs)%nat then
        let ptrs :=
          if (i <? List.length ptrs - 1)%nat
          then ModInfo.upd_nth i (fun _ => last ptrs 0) ptrs
          else ptrs in
        (removelast ptrs, None)
      else (ptrs, Some SR_ERR_INTERNAL)
  end.

End Ptr.

(** *** [sr_mkpath] *)

(** What [sr_mkpath] asks of the system, in order. *)
Inductive sys_call : Type :=
| CallUmask (mask : Z)
| CallMkdir (path : string) (mode : Z).

Section Mkpath.

(** [SR_UMASK] (a macro of [common.h]), the mask that the first [umask]
    returns, and [mkdir]. *)
Variable SR_UMASK : Z.
Variable um : Z.
Variable mkdir : string -> Z -> Perm.sys_result.

(** [mkdir(path, mode) == -1] with [errno != EEXIST]. *)
Definition mkdir_failed (path : string) (mode : Z) : bool :=
  match mkdir path mode with
  | Perm.SysOk => false
  | Perm.SysFail errno => negb (errno =? EEXIST)
  end.

(** The [for] loop over the slashes: [s] is [path + i].  Yields the calls made
    and whether one of them failed. *)
Fixpoint mkpath_loop (path : string) (i : nat) (s : string) (mode : Z)
  : list sys_call * bool :=
  match s with
  | EmptyString => ([], false)
  | String c s' =>
      if Ascii.eqb c XPath.NUL then ([], false)
      else if Ascii.eqb c "/" then
        let dir := substring 0 i path in
        if mkdir_failed dir mode then ([CallMkdir dir mode], true)
        else
          let '(calls, failed) := mkpath_loop path (S i) s' mode in
          (CallMkdir dir mode :: calls, failed)
      else mkpath_loop path (S i) s' mode
  end.

(** [sr_mkpath]: the calls made and the [err_info]. *)
Definition sr_mkpath (path : string) (mode : Z) : outcome (list sys_call * option sr_error_t) :=
  if negb (Ascii.eqb (XPath.ch path) "/") then AssertFail
  else
    let '(calls, failed) := mkpath_loop path 1 (XPath.incr path) mode in
    if failed then
      Val ([CallUmask SR_UMASK] ++ calls ++ [CallUmask um], Some SR_ERR_SYS)
    else if mkdir_failed path mode then
      Val ([CallUmask SR_UMASK] ++ calls ++ [CallMkdir path mode; CallUmask um],
           Some SR_ERR_SYS)
    else
      Val ([CallUmask SR_UMASK] ++ calls ++ [CallMkdir path mode; CallUmask um], None).

End Mkpath.

(** *** Deadlines and sleeping *)

(** X11. The deadline that [sr_time_get] computes is a normalised time
    ([tv_nsec] below one second) that lies exactly [add_ms] milliseconds after
    the time read, unless the sum of [add_ms] and the milliseconds of the time
    read wraps in 32 bits; then it lies 2^32 milliseconds earlier. *)
Theorem sr_time_get_deadline (now ts : timespec) (add_ms : Z) :
  0 <= tv_nsec now < 1000000000 ->
  0 <= add_ms < 2 ^ 32 ->
  0 <= tv_nsec (sr_time_get (Some now) ts add_ms) < 1000000000
  /\ (add_ms + tv_nsec now / 1000000 < 2 ^ 32 ->
      nanoseconds (sr_time_get (Some now) ts add_ms)
      = nanoseconds now + add_ms * 1000000)
  /\ (2 ^ 32 <= add_ms + tv_nsec now / 1000000 ->
      nanoseconds (sr_time_get (Some now) ts add_ms)
      = nanoseconds now + (add_ms - 2 ^ 32) * 1000000).
Proof.
  intros Hn Ha. unfold sr_time_get, nanoseconds. cbn [tv_sec tv_nsec].
  rewrite Z.quot_div_nonneg, Z.rem_mod_nonneg by lia.
  set (q := tv_nsec now / 1000000). set (r := tv_nsec now mod 1000000).
  assert (Hq : tv_nsec now = 1000000 * q + r /\ 0 <= r < 1000000 /\ 0 <= q <= 999).
  { subst q r. pose proof (Z.div_mod (tv_nsec now) 1000000 ltac:(lia)).
    pose proof (Z.mod_pos_bound (tv_nsec now) 1000000 ltac:(lia)).
    assert (0 <= tv_nsec now / 1000000) by (apply Z.div_pos; lia).
    assert (tv_nsec now / 1000000 < 1000) by (apply Z.div_lt_upper_bound; lia).
    lia. }
  destruct Hq as (En & Hr & Hq). clearbody q r.
  set (a := (add_ms + q) mod 2 ^ 32).
  assert (Hm : a = 1000 * (a / 1000) + a mod 1000 /\ 0 <= a mod 1000 < 1000).
  { split; [apply Z.div_mod; lia|apply Z.mod_pos_bound; lia]. }
  destruct Hm as (Ea & Hm).
  split; [lia|]. split; intro W.
  - assert (a = add_ms + q) by (subst a; apply Z.mod_small; lia). lia.
  - assert (a = add_ms + q - 2 ^ 32).
    { subst a. rewrite <- (Z.mod_add (add_ms + q) (-1) (2 ^ 32)) by lia.
      rewrite Z.mod_small; lia. }
    lia.
Qed.

Section Sleep.

Variable nanosleep : nat -> timespec -> Perm.sys_result * timespec.

(** The loop is left only after a call that succeeded. *)
Lemma msleep_loop_ret (fuel : nat) :
  forall k ts errno r, msleep_loop nanosleep fuel k ts errno = Val r -> fst (fst r) = 0.
Proof.
  induction fuel as [|fuel IH]; intros k ts errno r H; [discriminate|].
  cbn [msleep_loop] in H. destruct (nanosleep k ts) as [res ts'].
  destruct res as [|e]; cbn in H.
  - injection H as <-. reflexivity.
  - now apply IH in H.
Qed.

Lemma msleep_loop_no_err (fuel : nat) :
  forall k ts errno e, msleep_loop nanosleep fuel k ts errno <> Err e.
Proof.
  induction fuel as [|fuel IH]; intros k ts errno e H; [discriminate|].
  cbn [msleep_loop] in H. destruct (nanosleep k ts) as [res ts'].
  destruct res as [|x]; cbn in H; [discriminate|]. now apply IH in H.
Qed.

(** A failed call is followed by another one, whatever [errno] it left. *)
Lemma msleep_loop_retry (fuel k : nat) (ts : timespec) (errno : Z) :
  fst (nanosleep k ts) <> Perm.SysOk ->
  exists errno',
    msleep_loop nanosleep (S fuel) k ts errno
    = msleep_loop nanosleep fuel (S k) (snd (nanosleep k ts)) errno'.
Proof.
  intro F. cbn [msleep_loop]. destruct (nanosleep k ts) as [res ts']. cbn [fst snd] in *.
  destruct res as [|e]; [contradiction|]. exists EINTR. reflexivity.
Qed.

Lemma msleep_loop_first_success (n : nat) :
  (forall ts, fst (nanosleep n ts) = Perm.SysOk) ->
  forall k fuel ts errno,
    (k <= n)%nat ->
    (forall j ts, (k <= j < n)%nat -> fst (nanosleep j ts) <> Perm.SysOk) ->
    (n - k < fuel)%nat ->
    exists errno', msleep_loop nanosleep fuel k ts errno = Val (0, errno', S n).
Proof.
  intros Ok k fuel. revert k. induction fuel as [|fuel IH]; intros k ts errno Hk Hf Hl; [lia|].
  destruct (Nat.eq_dec k n) as [->|Hn].
  - cbn [msleep_loop]. specialize (Ok ts). destruct (nanosleep n ts) as [res ts'].
    cbn [fst] in Ok. subst res. cbn. eexists. reflexivity.
  - destruct (msleep_loop_retry fuel k ts errno (Hf k ts ltac:(lia))) as (e' & ->).
    apply IH; [lia| |lia]. intros j ts' Hj. apply Hf. lia.
Qed.

Lemma msleep_loop_forever :
  (forall j ts, fst (nanosleep j ts) <> Perm.SysOk) ->
  forall fuel k ts errno, msleep_loop nanosleep fuel k ts errno = OutOfFuel.
Proof.
  intros F fuel. induction fuel as [|fuel IH]; intros k ts errno; [reflexivity|].
  destruct (msleep_loop_retry fuel k ts errno (F k ts)) as (e' & ->). apply IH.
Qed.

(** X12. [sr_msleep] never reports an error: a call of [nanosleep] that fails
    is repeated whatever [errno] it left, not only after an interruption; the
    function returns NULL after the first call that succeeds, and does not
    return while every call fails. *)
Theorem sr_msleep_retries_every_failure (msec errno : Z) :
  (forall fuel r, sr_msleep nanosleep fuel msec errno = Val r -> fst r = None)
  /\ (forall fuel e, sr_msleep nanosleep fuel msec errno <> Err e)
  /\ (forall n fuel,
        (forall j ts, (j < n)%nat -> fst (nanosleep j ts) <> Perm.SysOk) ->
        (forall ts, fst (nanosleep n ts) = Perm.SysOk) ->
        (n < fuel)%nat ->
        sr_msleep nanosleep fuel msec errno = Val (None, S n))
  /\ ((forall j ts, fst (nanosleep j ts) <> Perm.SysOk) ->
      forall fuel, sr_msleep nanosleep fuel msec errno = OutOfFuel).
Proof.
  unfold sr_msleep. split; [|split; [|split]].
  - intros fuel r H.
    destruct (msleep_loop nanosleep fuel 0 _ errno) as [[[ret e] calls]| | | |] eqn:E;
      try discriminate.
    apply msleep_loop_ret in E. cbn [fst] in E. subst ret. cbn in H.
    injection H as <-. reflexivity.
  - intros fuel e H.
    destruct (msleep_loop nanosleep fuel 0 _ errno) as [[[ret e'] calls]| | | |] eqn:E;
      try discriminate.
    + cbn in H. destruct (ret =? -1); discriminate.
    + now apply msleep_loop_no_err in E.
  - intros n fuel Hf Ok Hl.
    destruct (msleep_loop_first_success n Ok 0%nat fuel
                {| tv_sec := msec / 1000; tv_nsec := msec mod 1000 * 1000000 |} errno
                ltac:(lia) ltac:(intros j ts Hj; apply Hf; lia) ltac:(lia)) as (e' & ->).
    reflexivity.
  - intros F fuel. rewrite msleep_loop_forever by exact F. reflexivity.
Qed.

End Sleep.

(** *** The lock fallback *)

(** The deadline is less than 2^31 milliseconds away from the time read. *)
Definition in_reach (abstime cur : timespec) : Prop :=
  - (2 ^ 31 * 1000000) < nanoseconds abstime - nanoseconds cur < 2 ^ 31 * 1000000.

Lemma int32_small (z : Z) : - 2 ^ 31 <= z < 2 ^ 31 -> int32 z = z.
Proof.
  intro H. unfold int32. destruct (Z_lt_le_dec z 0) as [N|N].
  - replace (z mod 2 ^ 32) with (z + 2 ^ 32).
    + destruct (z + 2 ^ 32 <? 2 ^ 31) eqn:L; [apply Z.ltb_lt in L; lia|lia].
    + symmetry. rewrite <- (Z.mod_add z 1 (2 ^ 32)) by lia. apply Z.mod_small. lia.
  - rewrite Z.mod_small by lia.
    destruct (z <? 2 ^ 31) eqn:L; [reflexivity|apply Z.ltb_ge in L; lia].
Qed.

(** The milliseconds left, rounded towards zero. *)
Lemma quot_milliseconds (d : Z) :
  - (2 ^ 31 * 1000000) < d < 2 ^ 31 * 1000000 ->
  - 2 ^ 31 <= Z.quot d 1000000 < 2 ^ 31
  /\ (d < 1000000 -> Z.quot d 1000000 < 1)
  /\ (1 <= Z.quot d 1000000 -> Z.quot d 1000000 * 1000000 <= d).
Proof.
  intro H. destruct (Z_lt_le_dec d 0) as [N|N].
  - assert (E : Z.quot d 1000000 = - ((- d) / 1000000)).
    { rewrite <- Z.quot_div_nonneg by lia. rewrite Z.quot_opp_l by lia. lia. }
    assert (0 <= (- d) / 1000000) by (apply Z.div_pos; lia).
    assert ((- d) / 1000000 < 2 ^ 31) by (apply Z.div_lt_upper_bound; lia).
    lia.
  - rewrite Z.quot_div_nonneg by lia.
    assert (0 <= d / 1000000) by (apply Z.div_pos; lia).
    assert (d / 1000000 < 2 ^ 31) by (apply Z.div_lt_upper_bound; lia).
    pose proof (Z.div_mod d 1000000 ltac:(lia)).
    pose proof (Z.mod_pos_bound d 1000000 ltac:(lia)).
    split; [lia|]. split; intro; [|lia].
    apply Z.div_lt_upper_bound; lia.
Qed.

Lemma timedlock_sleep_bounds (abstime cur : timespec) :
  in_reach abstime cur ->
  match timedlock_sleep abstime cur with
  | None => nanoseconds abstime - nanoseconds cur < 1000000
  | Some dur =>
      1000000 <= dur <= 5000000 /\ nanoseconds cur + dur <= nanoseconds abstime
  end.
Proof.
  unfold in_reach, timedlock_sleep, nanoseconds. intro H.
  set (d := (tv_sec abstime - tv_sec cur) * 1000000000 + (tv_nsec abstime - tv_nsec cur)).
  assert (Ed : tv_sec abstime * 1000000000 + tv_nsec abstime
               - (tv_sec cur * 1000000000 + tv_nsec cur) = d) by (subst d; ring).
  rewrite Ed in H. clearbody d.
  replace (if d =? 0 then 0 else Z.quot d 1000000) with (Z.quot d 1000000).
  2:{ destruct (Z.eqb_spec d 0) as [->|]; reflexivity. }
  destruct (quot_milliseconds d H) as (B & L & U).
  rewrite (int32_small _ B).
  destruct (Z.quot d 1000000 <? 1) eqn:T1.
  - apply Z.ltb_lt in T1. destruct (Z_lt_le_dec d 1000000) as [?|G]; [lia|].
    exfalso. assert (1 <= Z.quot d 1000000); [|lia].
    rewrite Z.quot_div_nonneg by lia. apply Z.div_le_lower_bound; lia.
  - apply Z.ltb_ge in T1. specialize (U T1).
    destruct (Z.quot d 1000000 <? 5) eqn:T5.
    + apply Z.ltb_lt in T5. lia.
    + apply Z.ltb_ge in T5. lia.
Qed.

(** With 2^31 milliseconds or more to the deadline the difference no longer
    fits the [int32_t]: it is read as negative, and as a timeout. *)
Lemma timedlock_sleep_wraps (abstime cur : timespec) :
  2 ^ 31 * 1000000 <= nanoseconds abstime - nanoseconds cur < 2 ^ 32 * 1000000 ->
  timedlock_sleep abstime cur = None.
Proof.
  unfold timedlock_sleep, nanoseconds. intro H.
  set (d := (tv_sec abstime - tv_sec cur) * 1000000000 + (tv_nsec abstime - tv_nsec cur)).
  assert (Ed : tv_sec abstime * 1000000000 + tv_nsec abstime
               - (tv_sec cur * 1000000000 + tv_nsec cur) = d) by (subst d; ring).
  rewrite Ed in H. clearbody d.
  replace (if d =? 0 then 0 else Z.quot d 1000000) with (Z.quot d 1000000).
  2:{ destruct (Z.eqb_spec d 0) as [->|]; reflexivity. }
  rewrite Z.quot_div_nonneg by lia.
  assert (L : 2 ^ 31 <= d / 1000000) by (apply Z.div_le_lower_bound; lia).
  assert (U : d / 1000000 < 2 ^ 32) by (apply Z.div_lt_upper_bound; lia).
  unfold int32. rewrite Z.mod_small by lia.
  destruct (d / 1000000 <? 2 ^ 31) eqn:T; [apply Z.ltb_lt in T; lia|].
  destruct (d / 1000000 - 2 ^ 32 <? 1) eqn:T1; [reflexivity|apply Z.ltb_ge in T1; lia].
Qed.

Section TimedLock.

Variable pthread_mutex_trylock : nat -> Z.
Variable clock_gettime : nat -> timespec.

(** A sleep of the fallback: at least one and at most five milliseconds, and
    over by the deadline. *)
Definition sleep_ok (abstime : timespec) (s : nat * Z) : Prop :=
  1000000 <= snd s <= 5000000
  /\ nanoseconds (clock_gettime (fst s)) + snd s <= nanoseconds abstime.

Lemma timedlock_loop_sleeps (abstime : timespec) :
  forall fuel k sleeps rc sleeps',
    (forall j, (k <= j < k + fuel)%nat -> in_reach abstime (clock_gettime j)) ->
    Forall (sleep_ok abstime) sleeps ->
    timedlock_loop pthread_mutex_trylock clock_gettime fuel k abstime sleeps
    = Val (rc, sleeps') ->
    Forall (sleep_ok abstime) sleeps'
    /\ (rc = EBUSY ->
        exists j, (k <= j < k + fuel)%nat
                  /\ nanoseconds abstime - nanoseconds (clock_gettime j) < 1000000)
    /\ (rc <> EBUSY -> exists j, (k <= j < k + fuel)%nat /\ pthread_mutex_trylock j = rc).
Proof.
  induction fuel as [|fuel IH]; intros k sleeps rc sleeps' R F H; [discriminate|].
  cbn [timedlock_loop] in H.
  destruct (pthread_mutex_trylock k =? EBUSY) eqn:B.
  - pose proof (timedlock_sleep_bounds abstime (clock_gettime k) (R k ltac:(lia))) as T.
    destruct (timedlock_sleep abstime (clock_gettime k)) as [dur|].
    + apply IH in H.
      * destruct H as (H1 & H2 & H3). split; [exact H1|]. split.
        -- intro E. destruct (H2 E) as (j & Hj & Hd). exists j. split; [lia|exact Hd].
        -- intro E. destruct (H3 E) as (j & Hj & Hd). exists j. split; [lia|exact Hd].
      * intros j Hj. apply R. lia.
      * apply Forall_app. split; [exact F|]. constructor; [|constructor]. exact T.
    + injection H as <- <-. split; [exact F|]. split.
      * intros _. exists k. split; [lia|exact T].
      * intro N. apply Z.eqb_eq in B. contradiction.
  - injection H as <- <-. split; [exact F|]. split.
    + intro E. apply Z.eqb_neq in B. contradiction.
    + intros _. exists k. split; [lia|reflexivity].
Qed.

(** The loop ends when the clock advances by a millisecond or more from one
    reading to the next. *)
Lemma timedlock_loop_ends (abstime : timespec) :
  forall fuel k sleeps,
    (forall j, (k <= j < k + fuel)%nat -> in_reach abstime (clock_gettime j)) ->
    (forall j, (k <= j)%nat -> (S j < k + fuel)%nat ->
       nanoseconds (clock_gettime j) + 1000000 <= nanoseconds (clock_gettime (S j))) ->
    (0 < fuel)%nat ->
    nanoseconds abstime - nanoseconds (clock_gettime k) < Z.of_nat fuel * 1000000 ->
    exists rc sleeps',
      timedlock_loop pthread_mutex_trylock clock_gettime fuel k abstime sleeps
      = Val (rc, sleeps').
Proof.
  induction fuel as [|fuel IH]; intros k sleeps R A P L; [lia|].
  cbn [timedlock_loop].
  destruct (pthread_mutex_trylock k =? EBUSY); [|do 2 eexists; reflexivity].
  pose proof (timedlock_sleep_bounds abstime (clock_gettime k) (R k ltac:(lia))) as T.
  destruct (timedlock_sleep abstime (clock_gettime k)) as [dur|];
    [|do 2 eexists; reflexivity].
  assert (P' : (0 < fuel)%nat) by (destruct fuel; [lia|lia]).
  pose proof (A k ltac:(lia) ltac:(lia)) as Ak.
  apply IH.
  - intros j Hj. apply R. lia.
  - intros j H1 H2. apply A; lia.
  - exact P'.
  - lia.
Qed.

(** X13. As long as the deadline is less than 2^31 milliseconds away from the
    clock, the fallback of [pthread_mutex_timedlock] sleeps between its
    attempts for at least one and at most five milliseconds and never past
    the deadline; it gives up with EBUSY only at a time that is less than a
    millisecond before the deadline (or after it), and any other result is
    that of an attempt; it returns within one pass per millisecond that is
    left when each pass takes a millisecond or more.  With 2^31 milliseconds
    or more to the deadline (and less than 2^32) the difference does not fit
    the [int32_t] it is kept in: the fallback gives up with EBUSY at once,
    without a sleep. *)
Theorem pthread_mutex_timedlock_sleeps (abstime : timespec) (fuel : nat) :
  ((forall k, (k < fuel)%nat -> in_reach abstime (clock_gettime k)) ->
   (forall rc sleeps,
      pthread_mutex_timedlock pthread_mutex_trylock clock_gettime fuel abstime
      = Val (rc, sleeps) ->
      Forall (sleep_ok abstime) sleeps
      /\ (rc = EBUSY ->
          exists j, (j < fuel)%nat
                    /\ nanoseconds abstime - nanoseconds (clock_gettime j) < 1000000)
      /\ (rc <> EBUSY -> exists j, (j < fuel)%nat /\ pthread_mutex_trylock j = rc))
   /\ ((forall k, (S k < fuel)%nat ->
          nanoseconds (clock_gettime k) + 1000000 <= nanoseconds (clock_gettime (S k))) ->
       (0 < fuel)%nat ->
       nanoseconds abstime - nanoseconds (clock_gettime 0) < Z.of_nat fuel * 1000000 ->
       exists rc sleeps,
         pthread_mutex_timedlock pthread_mutex_trylock clock_gettime fuel abstime
         = Val (rc, sleeps)))
  /\ (pthread_mutex_trylock 0%nat = EBUSY ->
      2 ^ 31 * 1000000
      <= nanoseconds abstime - nanoseconds (clock_gettime 0) < 2 ^ 32 * 1000000 ->
      (0 < fuel)%nat ->
      pthread_mutex_timedlock pthread_mutex_trylock clock_gettime fuel abstime
      = Val (EBUSY, [])).
Proof.
  split.
  - intro R. split.
    + intros rc sleeps H.
      destruct (timedlock_loop_sleeps abstime fuel 0%nat [] rc sleeps) as (H1 & H2 & H3).
      * intros j Hj. apply R. lia.
      * constructor.
      * exact H.
      * split; [exact H1|]. split.
        -- intro E. destruct (H2 E) as (j & Hj & Hd). exists j. split; [lia|exact Hd].
        -- intro E. destruct (H3 E) as (j & Hj & Hd). exists j. split; [lia|exact Hd].
    + intros A P L. apply timedlock_loop_ends.
      * intros j Hj. apply R. lia.
      * intros j _ Hj. apply A. lia.
      * exact P.
      * exact L.
  - intros B W P. unfold pthread_mutex_timedlock. destruct fuel as [|fuel]; [lia|].
    cbn [timedlock_loop]. rewrite B, Z.eqb_refl, (timedlock_sleep_wraps _ _ W). reflexivity.
Qed.

End TimedLock.

(** *** Pointer arrays *)

Lemma ptr_find_present (ptrs : list Z) (p : Z) :
  In p ptrs ->
  exists pre post,
    ptrs = pre ++ p :: post /\ ~ In p pre /\ ptr_find ptrs p = List.length pre.
Proof.
  induction ptrs as [|x l IH]; intro H; [contradiction|]. cbn [ptr_find].
  destruct (Z.eqb_spec x p) as [->|N].
  - exists [], l. repeat split. intros [].
  - destruct H as [H|H]; [contradiction|].
    destruct (IH H) as (pre & post & -> & Hn & E).
    exists (x :: pre), post. cbn [app List.length]. rewrite E. repeat split.
    intros [?|?]; [contradiction|]. now apply Hn.
Qed.

Lemma ptr_find_absent (ptrs : list Z) (p : Z) :
  ~ In p ptrs -> ptr_find ptrs p = List.length ptrs.
Proof.
  induction ptrs as [|x l IH]; intro H; [reflexivity|]. cbn [ptr_find List.length].
  destruct (Z.eqb_spec x p) as [->|N]; [exfalso; apply H; now left|].
  f_equal. apply IH. intro I. apply H. now right.
Qed.

Lemma ptr_find_le (ptrs : list Z) (p : Z) : (ptr_find ptrs p <= List.length ptrs)%nat.
Proof.
  induction ptrs as [|x l IH]; cbn [ptr_find List.length]; [lia|].
  destruct (x =? p); lia.
Qed.

Lemma ptr_find_In (ptrs : list Z) (p : Z) :
  (ptr_find ptrs p < List.length ptrs)%nat -> In p ptrs.
Proof.
  induction ptrs as [|x l IH]; cbn [ptr_find List.length]; [lia|].
  destruct (Z.eqb_spec x p) as [->|N]; [now left|]. intro H. right. apply IH. lia.
Qed.

Lemma upd_nth_middle {A : Type} (f : A -> A) (pre post : list A) (x : A) :
  ModInfo.upd_nth (List.length pre) f (pre ++ x :: post) = pre ++ f x :: post.
Proof. induction pre as [|y pre IH]; cbn; [reflexivity|]. now rewrite IH. Qed.

Lemma last_app_tail {A : Type} (l l' : list A) (d : A) :
  l' <> [] -> last (l ++ l') d = last l' d.
Proof.
  intro N. induction l as [|a l IH]; [reflexivity|]. cbn [app last].
  destruct (l ++ l') eqn:E; [|exact IH].
  apply app_eq_nil in E as [_ E]. contradiction.
Qed.

(** What [sr_ptr_del] leaves of an array that holds the pointer. *)
Lemma ptr_del_array (pre post : list Z) (p : Z) :
  let ptrs := pre ++ p :: post in
  removelast
    (if (List.length pre <? List.length ptrs - 1)%nat
     then ModInfo.upd_nth (List.length pre) (fun _ => last ptrs 0) ptrs
     else ptrs)
  = match post with
    | [] => pre
    | _ :: _ => pre ++ last post 0 :: removelast post
    end.
Proof.
  cbn zeta. rewrite length_app.
  destruct post as [|y post]; cbn [List.length].
  - replace (List.length pre <? List.length pre + 1 - 1)%nat with false
      by (symmetry; apply Nat.ltb_ge; lia).
    apply removelast_last.
  - replace (List.length pre <? List.length pre + S (S (List.length post)) - 1)%nat
      with true by (symmetry; apply Nat.ltb_lt; lia).
    rewrite upd_nth_middle.
    replace (last (pre ++ p :: y :: post) 0) with (last (y :: post) 0).
    + rewrite removelast_app by discriminate.
      change (removelast (last (y :: post) 0 :: y :: post))
        with (last (y :: post) 0 :: removelast (y :: post)).
      reflexivity.
    + change (pre ++ p :: y :: post) with (pre ++ [p] ++ y :: post).
      rewrite app_assoc. symmetry. apply last_app_tail. discriminate.
Qed.

Lemma last_removelast_Permutation (l : list Z) :
  l <> [] -> Permutation l (last l 0 :: removelast l).
Proof.
  intro N. destruct (exists_last N) as (l' & x & ->).
  rewrite last_last, removelast_last. apply Permutation_sym, Permutation_cons_append.
Qed.

Section Ptr.

Variable ptr_lock : option sr_error_t.
Variable realloc_ok : bool.

(** X14. After a successful [sr_ptr_add] the pointer is in the array, once:
    a pointer that was there already is not added again, the other elements
    stay, and an array without repetition stays without repetition.  A failed
    call leaves the array as it was. *)
Theorem sr_ptr_add_once (ptrs ptrs' : list Z) (p : Z) (e : option sr_error_t) :
  sr_ptr_add ptr_lock realloc_ok ptrs p = (ptrs', e) ->
  (e <> None -> ptrs' = ptrs)
  /\ (e = None ->
      In p ptrs'
      /\ (In p ptrs -> ptrs' = ptrs)
      /\ (~ In p ptrs -> ptrs' = ptrs ++ [p])
      /\ (NoDup ptrs -> NoDup ptrs')).
Proof.
  unfold sr_ptr_add. destruct ptr_lock as [x|].
  { intro H. injection H as <- <-. split; [reflexivity|discriminate]. }
  destruct (Nat.eqb_spec (ptr_find ptrs p) (List.length ptrs)) as [E|E].
  - assert (A : ~ In p ptrs).
    { intro I. destruct (ptr_find_present ptrs p I) as (pre & post & -> & _ & F).
      rewrite F, length_app in E. cbn [List.length] in E. lia. }
    destruct realloc_ok; intro H; injection H as <- <-.
    + split; [congruence|]. intros _. repeat split.
      * apply in_or_app. right. now left.
      * intro I. contradiction.
      * intros D. apply NoDup_app; [exact D|repeat constructor; intros []|].
        intros x Hx [<-|[]]. contradiction.
    + split; [reflexivity|discriminate].
  - assert (I : In p ptrs).
    { apply ptr_find_In. pose proof (ptr_find_le ptrs p). lia. }
    intro H. injection H as <- <-. split; [reflexivity|]. intros _. repeat split; tauto.
Qed.

(** X15. Removing a pointer that was just added restores the array: after
    [sr_ptr_add] of a pointer that was not there, [sr_ptr_del] of it succeeds
    and yields the array as it was before, in the same order. *)
Theorem sr_ptr_add_del_round_trip (ptrs ptrs' : list Z) (p : Z) :
  ~ In p ptrs ->
  sr_ptr_add ptr_lock realloc_ok ptrs p = (ptrs', None) ->
  sr_ptr_del ptr_lock ptrs' p = (ptrs, None).
Proof.
  unfold sr_ptr_add, sr_ptr_del. intros A. destruct ptr_lock as [x|]; [discriminate|].
  rewrite (ptr_find_absent ptrs p A), Nat.eqb_refl.
  destruct realloc_ok; [|discriminate]. intro H. injection H as <-.
  assert (F : ptr_find (ptrs ++ [p]) p = List.length ptrs).
  { destruct (ptr_find_present (ptrs ++ [p]) p ltac:(apply in_or_app; right; now left))
      as (pre & post & E & Hn & F).
    rewrite F. destruct post as [|y post].
    - apply app_inj_tail in E as [E _]. now subst.
    - exfalso. assert (I : In p (removelast (pre ++ p :: y :: post))).
      { rewrite removelast_app by discriminate. apply in_or_app. right. now left. }
      rewrite <- E, removelast_last in I. contradiction. }
  rewrite F, length_app. cbn [List.length].
  replace (List.length ptrs <? List.length ptrs + 1)%nat with true
    by (symmetry; apply Nat.ltb_lt; lia).
  replace (List.length ptrs <? List.length ptrs + 1 - 1)%nat with false
    by (symmetry; apply Nat.ltb_ge; lia).
  now rewrite removelast_last.
Qed.

(** X16. [sr_ptr_del] removes one occurrence of a pointer that is in the
    array and keeps every other element, though not the order: the last
    element takes the place of the removed one.  For a pointer that is not in
    the array it changes nothing and returns an internal error. *)
Theorem sr_ptr_del_removes (ptrs : list Z) (p : Z) :
  ptr_lock = None ->
  (In p ptrs ->
   exists ptrs',
     sr_ptr_del ptr_lock ptrs p = (ptrs', None)
     /\ Permutation ptrs (p :: ptrs')
     /\ List.length ptrs = S (List.length ptrs')
     /\ (NoDup ptrs -> ~ In p ptrs'))
  /\ (~ In p ptrs -> sr_ptr_del ptr_lock ptrs p = (ptrs, Some SR_ERR_INTERNAL)).
Proof.
  intro L. unfold sr_ptr_del. rewrite L. split.
  - intro I. destruct (ptr_find_present ptrs p I) as (pre & post & E & Hn & F).
    rewrite F. subst ptrs.
    assert (C : (List.length pre <? List.length (pre ++ p :: post))%nat = true).
    { apply Nat.ltb_lt. rewrite length_app. cbn [List.length]. lia. }
    eexists. split; [rewrite C, (ptr_del_array pre post p); reflexivity|].
    assert (P : Permutation (pre ++ p :: post)
                  (p :: match post with
                        | [] => pre
                        | _ :: _ => pre ++ last post 0 :: removelast post
                        end)).
    { apply Permutation_sym, Permutation_cons_app.
      destruct post as [|y post]; [now rewrite app_nil_r|].
      apply Permutation_app_head, Permutation_sym, last_removelast_Permutation.
      discriminate. }
    split; [exact P|]. split.
    + apply Permutation_length in P. rewrite P. reflexivity.
    + intros D I'. apply (Permutation_NoDup P) in D. inversion D. contradiction.
  - intro A. rewrite (ptr_find_absent ptrs p A), Nat.ltb_irrefl. reflexivity.
Qed.

End Ptr.

(** *** Directories *)

(** The directories above [path]: its proper prefixes that end before a
    slash. *)
Definition ancestors (path : string) : list string :=
  map (fun i => substring 0 i path)
      (filter (fun i => Ascii.eqb (Expr.at_index path i) "/")
              (seq 1 (String.length path - 1))).

Section Mkpath.

Variable SR_UMASK : Z.
Variable um : Z.
Variable mkdir : string -> Z -> Perm.sys_result.

(** Directories are made one after the other until one cannot be made. *)
Fixpoint mkdir_until (dirs : list string) (mode : Z) : list sys_call * bool :=
  match dirs with
  | [] => ([], false)
  | d :: dirs' =>
      if mkdir_failed mkdir d mode then ([CallMkdir d mode], true)
      else
        let '(calls, failed) := mkdir_until dirs' mode in
        (CallMkdir d mode :: calls, failed)
  end.

Lemma mkdir_until_last (dirs : list string) (d : string) (mode : Z) :
  mkdir_until (dirs ++ [d]) mode
  = (let '(calls, failed) := mkdir_until dirs mode in
     if failed then (calls, true)
     else (calls ++ [CallMkdir d mode], mkdir_failed mkdir d mode)).
Proof.
  induction dirs as [|x dirs IH]; cbn [app mkdir_until].
  - destruct (mkdir_failed mkdir d mode); reflexivity.
  - destruct (mkdir_failed mkdir x mode); [reflexivity|].
    rewrite IH. destruct (mkdir_until dirs mode) as [calls failed].
    destruct failed; reflexivity.
Qed.

Lemma mkdir_until_all (dirs : list string) (mode : Z) :
  (forall d, In d dirs -> mkdir_failed mkdir d mode = false) ->
  mkdir_until dirs mode = (map (fun d => CallMkdir d mode) dirs, false).
Proof.
  induction dirs as [|x dirs IH]; intro H; [reflexivity|]. cbn [mkdir_until map].
  rewrite (H x (or_introl eq_refl)), IH; [reflexivity|].
  intros d Hd. apply H. now right.
Qed.

(** The loop visits the slashes from left to right. *)
Lemma mkpath_loop_dirs (path : string) (mode : Z) (s : string) :
  forall pre,
    path = (pre ++ s)%string ->
    Expr.free_of [XPath.NUL] s = true ->
    mkpath_loop mkdir path (String.length pre) s mode
    = mkdir_until
        (map (fun i => substring 0 i path)
             (filter (fun i => Ascii.eqb (Expr.at_index path i) "/")
                     (seq (String.length pre) (String.length s))))
        mode.
Proof.
  induction s as [|c s IH]; intros pre E F; [reflexivity|].
  cbn [mkpath_loop String.length seq filter].
  assert (A : Expr.at_index path (String.length pre) = c).
  { rewrite E. apply Expr.at_index_app. }
  rewrite A. rewrite Expr.free_of_cons in F. apply andb_true_iff in F as [F1 F2].
  assert (N : Ascii.eqb c XPath.NUL = false).
  { cbn in F1. destruct (Ascii.eqb c XPath.NUL); [discriminate|reflexivity]. }
  rewrite N.
  assert (IH' : mkpath_loop mkdir path (S (String.length pre)) s mode
                = mkdir_until
                    (map (fun i => substring 0 i path)
                         (filter (fun i => Ascii.eqb (Expr.at_index path i) "/")
                                 (seq (S (String.length pre)) (String.length s))))
                    mode).
  { specialize (IH (pre ++ String c "")%string).
    rewrite Expr.length_append in IH. cbn [String.length] in IH.
    replace (String.length pre + 1)%nat with (S (String.length pre)) in IH by lia.
    apply IH; [|exact F2]. rewrite E, Expr.append_assoc. reflexivity. }
  destruct (Ascii.eqb c "/").
  - cbn [map mkdir_until]. rewrite IH'. reflexivity.
  - exact IH'.
Qed.

(** X17. [sr_mkpath] makes the directories from the root down: every
    directory above [path], from the shortest on, and then [path]; it stops at
    the first one that cannot be made (an existing one counts as made) and
    reports SYS; in every case it restores the [umask] at the end. *)
Theorem sr_mkpath_parents_first (path : string) (mode : Z) :
  XPath.ch path = "/"%char ->
  Expr.free_of [XPath.NUL] path = true ->
  sr_mkpath SR_UMASK um mkdir path mode
  = (let '(calls, failed) := mkdir_until (ancestors path ++ [path]) mode in
     Val ([CallUmask SR_UMASK] ++ calls ++ [CallUmask um],
          if failed then Some SR_ERR_SYS else None))
  /\ ((forall d, In d (ancestors path ++ [path]) -> mkdir_failed mkdir d mode = false) ->
      sr_mkpath SR_UMASK um mkdir path mode
      = Val ([CallUmask SR_UMASK]
               ++ map (fun d => CallMkdir d mode) (ancestors path ++ [path])
               ++ [CallUmask um], None)).
Proof.
  intros C F.
  assert (G : sr_mkpath SR_UMASK um mkdir path mode
              = (let '(calls, failed) := mkdir_until (ancestors path ++ [path]) mode in
                 Val ([CallUmask SR_UMASK] ++ calls ++ [CallUmask um],
                      if failed then Some SR_ERR_SYS else None))).
  { unfold sr_mkpath. rewrite C. change (Ascii.eqb "/" "/") with true. cbn [negb].
    destruct path as [|c rest]; [discriminate|]. cbn [XPath.ch] in C. subst c.
    cbn [XPath.incr].
    rewrite Expr.free_of_cons in F. apply andb_true_iff in F as [_ F].
    pose proof (mkpath_loop_dirs (String "/" rest) mode rest "/"%string eq_refl F) as M.
    cbn [String.length] in M. rewrite M.
    rewrite mkdir_until_last. unfold ancestors. cbn [String.length].
    replace (S (String.length rest) - 1)%nat with (String.length rest) by lia.
    destruct (mkdir_until _ mode) as [calls failed].
    destruct failed; [reflexivity|].
    destruct (mkdir_failed mkdir (String "/" rest) mode).
    - rewrite <- !app_assoc. reflexivity.
    - rewrite <- !app_assoc. reflexivity. }
  split; [exact G|]. intro A. rewrite G, (mkdir_until_all _ mode A). reflexivity.
Qed.

End Mkpath.

(** *** Examples *)

(** Half a millisecond before a full second, one second is added. *)
Definition ex_now : timespec := {| tv_sec := 100; tv_nsec := 999500000 |}.

Lemma sr_time_get_deadline_witness :
  0 <= tv_nsec (sr_time_get (Some ex_now) ex_now 1000) < 1000000000
  /\ (1000 + tv_nsec ex_now / 1000000 < 2 ^ 32 ->
      nanoseconds (sr_time_get (Some ex_now) ex_now 1000)
      = nanoseconds ex_now + 1000 * 1000000)
  /\ (2 ^ 32 <= 1000 + tv_nsec ex_now / 1000000 ->
      nanoseconds (sr_time_get (Some ex_now) ex_now 1000)
      = nanoseconds ex_now + (1000 - 2 ^ 32) * 1000000).
Proof.
  apply (sr_time_get_deadline ex_now ex_now 1000); cbn; lia.
Defined.

(** The lock is busy twice; the clock reads five milliseconds more in every
    pass, and the deadline is eight milliseconds after the first reading.  A
    second deadline lies 25 days (2160000 seconds) ahead. *)
Definition ex_trylock (k : nat) : Z := if (k <? 2)%nat then EBUSY else 0.
Definition ex_clock (k : nat) : timespec :=
  {| tv_sec := 5; tv_nsec := Z.of_nat k * 5000000 |}.
Definition ex_abstime : timespec := {| tv_sec := 5; tv_nsec := 8000000 |}.
Definition ex_far : timespec := {| tv_sec := 2160005; tv_nsec := 0 |}.

Lemma pthread_mutex_timedlock_sleeps_witness :
  (exists rc sleeps,
     pthread_mutex_timedlock ex_trylock ex_clock 9 ex_abstime = Val (rc, sleeps))
  /\ (Forall (sleep_ok ex_clock ex_abstime) [(0%nat, 5000000); (1%nat, 3000000)]
      /\ (0 = EBUSY ->
          exists j, (j < 9)%nat
                    /\ nanoseconds ex_abstime - nanoseconds (ex_clock j) < 1000000)
      /\ (0 <> EBUSY -> exists j, (j < 9)%nat /\ ex_trylock j = 0))
  /\ pthread_mutex_timedlock ex_trylock ex_clock 9 ex_far = Val (EBUSY, []).
Proof.
  destruct (pthread_mutex_timedlock_sleeps ex_trylock ex_clock ex_abstime 9) as [A _].
  destruct A as [S T].
  { intros k Hk. unfold in_reach, nanoseconds, ex_clock, ex_abstime.
    cbn [tv_sec tv_nsec]. lia. }
  split; [|split].
  - apply T.
    + intros k Hk. unfold nanoseconds, ex_clock. cbn [tv_sec tv_nsec]. lia.
    + lia.
    + unfold nanoseconds, ex_clock, ex_abstime. cbn [tv_sec tv_nsec]. lia.
  - apply (S 0 [(0%nat, 5000000); (1%nat, 3000000)]). reflexivity.
  - apply (proj2 (pthread_mutex_timedlock_sleeps ex_trylock ex_clock ex_far 9)).
    + reflexivity.
    + unfold nanoseconds, ex_clock, ex_far. cbn [tv_sec tv_nsec]. lia.
    + lia.
Defined.

Lemma sr_ptr_add_once_witness :
  (@None sr_error_t <> None -> [1; 2; 3] = [1; 2])
  /\ (@None sr_error_t = None ->
      In 3 [1; 2; 3]
      /\ (In 3 [1; 2] -> [1; 2; 3] = [1; 2])
      /\ (~ In 3 [1; 2] -> [1; 2; 3] = [1; 2] ++ [3])
      /\ (NoDup [1; 2] -> NoDup [1; 2; 3])).
Proof.
  exact (sr_ptr_add_once None true [1; 2] [1; 2; 3] 3 None eq_refl).
Defined.

Lemma sr_ptr_add_del_round_trip_witness :
  sr_ptr_del None [1; 2; 3] 3 = ([1; 2], None).
Proof.
  apply (sr_ptr_add_del_round_trip None true [1; 2] [1; 2; 3] 3); [|reflexivity].
  intros [H|[H|[]]]; discriminate H.
Defined.

Lemma sr_ptr_del_removes_witness :
  (In 1 [1; 2; 3] ->
   exists ptrs',
     sr_ptr_del None [1; 2; 3] 1 = (ptrs', None)
     /\ Permutation [1; 2; 3] (1 :: ptrs')
     /\ List.length [1; 2; 3] = S (List.length ptrs')
     /\ (NoDup [1; 2; 3] -> ~ In 1 ptrs'))
  /\ (~ In 1 [1; 2; 3] -> sr_ptr_del None [1; 2; 3] 1 = ([1; 2; 3], Some SR_ERR_INTERNAL)).
Proof.
  exact (sr_ptr_del_removes None [1; 2; 3] 1 eq_refl).
Defined.

Lemma sr_mkpath_parents_first_witness :
  sr_mkpath 18 2 (fun _ _ => Perm.SysOk) "/etc/sysrepo/data" 493
  = Val ([CallUmask 18; CallMkdir "/etc" 493; CallMkdir "/etc/sysrepo" 493;
          CallMkdir "/etc/sysrepo/data" 493; CallUmask 2], None).
Proof.
  apply (proj2 (sr_mkpath_parents_first 18 2 (fun _ _ => Perm.SysOk)
                  "/etc/sysrepo/data" 493 eq_refl eq_refl)).
  intros d _. reflexivity.
Defined.

End Sys.

(** ** The files of the datastores: paths in SHM, writing and reading back,
       the reset of the candidate *)

Module Files.

Local Open Scope string_scope.

(** [strchr(prefix, '/') != NULL]. *)
Fixpoint has_slash (s : string) : bool :=
  match s with
  | EmptyString => false
  | String c s' =>
      if Ascii.eqb c XPath.NUL then false
      else if Ascii.eqb c "/" then true
      else has_slash s'
  end.

Section Paths.

(** [SR_SHM_DIR] and [SR_SHM_PREFIX_DEFAULT] (macros of the build), and what
    [getenv(SR_SHM_PREFIX_ENV)] returns. *)
Variable SR_SHM_DIR : string.
Variable SR_SHM_PREFIX_DEFAULT : string.
Variable shm_prefix_env : option string.

(** [sr_shm_prefix]. *)
Definition sr_shm_prefix : sr_error_t + string :=
  match shm_prefix_env with
  | None => inr SR_SHM_PREFIX_DEFAULT
  | Some prefix => if has_slash prefix then inl SR_ERR_INVAL_ARG else inr prefix
  end.

(** [sr_path_ds_shm]: ["%s/%s_%s.%s"]; the string is taken to be allocated. *)
Definition sr_path_ds_shm (mod_name : string) (ds : sr_datastore_t) : outcome string :=
  if negb (ds_eqb ds SR_DS_RUNNING || ds_eqb ds SR_DS_CANDIDATE || ds_eqb ds SR_DS_OPERATIONAL)
  then AssertFail
  else
    match sr_shm_prefix with
    | inl e => Err e
    | inr prefix =>
        Val (SR_SHM_DIR ++ "/" ++ prefix ++ "_" ++ mod_name ++ "." ++ Notif.sr_ds2str ds)
    end.

End Paths.

Section Files.

Variable lyd_node : Type.

Local Abbreviation forest := (Cache.forest lyd_node).
Local Abbreviation files_t := (Store.files_t lyd_node).

Variable SR_SHM_DIR : string.
Variable SR_SHM_PREFIX_DEFAULT : string.
Variable shm_prefix_env : option string.

(** Whether [unlink] of a file that is there is permitted. *)
Variable unlink_permitted : string -> sr_datastore_t -> bool.

(** [unlink(path)] of the file of a datastore: a file that is not there gives
    ENOENT, which the caller passes over; another failure leaves the file and
    is only logged. *)
Definition unlink (fs : files_t) (mod_name : string) (ds : sr_datastore_t) : files_t :=
  match fs mod_name ds with
  | Store.NoFile => fs
  | _ =>
      if unlink_permitted mod_name ds
      then Store.set_file lyd_node fs mod_name ds Store.NoFile
      else fs
  end.

(** [sr_modinfo_candidate_reset]: the files after the call and the
    [err_info]. *)
Fixpoint sr_modinfo_candidate_reset (mods : list ModInfo.sr_mod_info_mod_s) (fs : files_t)
  : outcome (files_t * option sr_error_t) :=
  match mods with
  | [] => Val (fs, None)
  | m :: mods' =>
      if negb (Z.land (ModInfo.state m) ModInfo.MOD_INFO_REQ =? 0)%Z then
        match sr_path_ds_shm SR_SHM_DIR SR_SHM_PREFIX_DEFAULT shm_prefix_env
                (ModInfo.ly_mod m) SR_DS_CANDIDATE with
        | Val _ => sr_modinfo_candidate_reset mods' (unlink fs (ModInfo.ly_mod m) SR_DS_CANDIDATE)
        | Err e => Val (fs, Some e)
        | AssertFail => AssertFail
        | Fault => Fault
        | OutOfFuel => OutOfFuel
        end
      else sr_modinfo_candidate_reset mods' fs
  end.

End Files.

(** *** Paths *)

Lemma append_inv_head (a x y : string) : a ++ x = a ++ y -> x = y.
Proof. induction a as [|c a IH]; cbn; intro H; [exact H|]. injection H as H. now apply IH. Qed.

Lemma list_ascii_of_string_inj (x y : string) :
  list_ascii_of_string x = list_ascii_of_string y -> x = y.
Proof.
  intro H. rewrite <- (string_of_list_ascii_of_string x), <- (string_of_list_ascii_of_string y).
  now rewrite H.
Qed.

(** The text read from its end. *)
Lemma rev_chars_eq (m1 m2 t1 t2 : string) :
  m1 ++ t1 = m2 ++ t2 ->
  (Expr.rev_chars t1 ++ Expr.rev_chars m1 = Expr.rev_chars t2 ++ Expr.rev_chars m2)%list.
Proof. intro H. rewrite <- !Expr.rev_chars_app. now rewrite H. Qed.

Lemma append_inv_tail (m1 m2 t : string) : m1 ++ t = m2 ++ t -> m1 = m2.
Proof.
  intro H. apply rev_chars_eq, app_inv_head in H. unfold Expr.rev_chars in H.
  apply (f_equal (@rev ascii)) in H. rewrite !rev_involutive in H.
  now apply list_ascii_of_string_inj.
Qed.

(** The name of a datastore tells the datastore, at the end of any text. *)
Lemma ds_suffix_inj (m1 m2 : string) (ds1 ds2 : sr_datastore_t) :
  m1 ++ "." ++ Notif.sr_ds2str ds1 = m2 ++ "." ++ Notif.sr_ds2str ds2 ->
  m1 = m2 /\ ds1 = ds2.
Proof.
  intro H.
  assert (D : ds1 = ds2).
  { apply rev_chars_eq in H. destruct ds1, ds2; try reflexivity; cbn in H; discriminate H. }
  subst ds2. split; [|reflexivity]. now apply append_inv_tail in H.
Qed.

Section Paths.

Variable SR_SHM_DIR : string.
Variable SR_SHM_PREFIX_DEFAULT : string.
Variable shm_prefix_env : option string.

(** X18. Two modules, or two datastores of a module, never share a file in
    SHM: [sr_path_ds_shm] builds the same path only for the same module name
    and the same datastore. *)
Theorem sr_path_ds_shm_injective (m1 m2 : string) (ds1 ds2 : sr_datastore_t) (path : string) :
  sr_path_ds_shm SR_SHM_DIR SR_SHM_PREFIX_DEFAULT shm_prefix_env m1 ds1 = Val path ->
  sr_path_ds_shm SR_SHM_DIR SR_SHM_PREFIX_DEFAULT shm_prefix_env m2 ds2 = Val path ->
  m1 = m2 /\ ds1 = ds2.
Proof.
  unfold sr_path_ds_shm.
  destruct (negb (ds_eqb ds1 SR_DS_RUNNING || ds_eqb ds1 SR_DS_CANDIDATE
                  || ds_eqb ds1 SR_DS_OPERATIONAL)); [discriminate|].
  destruct (negb (ds_eqb ds2 SR_DS_RUNNING || ds_eqb ds2 SR_DS_CANDIDATE
                  || ds_eqb ds2 SR_DS_OPERATIONAL)); [discriminate|].
  destruct (sr_shm_prefix SR_SHM_PREFIX_DEFAULT shm_prefix_env) as [e|prefix];
    [discriminate|].
  intros H1 H2. injection H1 as <-. injection H2 as H2.
  apply append_inv_head in H2. injection H2 as H2.
  apply append_inv_head in H2. injection H2 as H2.
  symmetry in H2. now apply ds_suffix_inj.
Qed.

End Paths.

(** *** Writing and reading back *)

Section Files.

Variable lyd_node : Type.

Local Abbreviation forest := (Cache.forest lyd_node).
Local Abbreviation files_t := (Store.files_t lyd_node).

Variable open_rd_permitted : string -> sr_datastore_t -> bool.
Variable open_wr_permitted : string -> sr_datastore_t -> bool.
Variable print_ok : string -> sr_datastore_t -> forest -> bool.
Variable parse_torn : string -> sr_datastore_t -> sr_error_t + forest.

Local Abbreviation sr_module_file_data_set :=
  (Store.sr_module_file_data_set lyd_node open_wr_permitted print_ok).
Local Abbreviation sr_module_file_data_append :=
  (Store.sr_module_file_data_append lyd_node open_rd_permitted parse_torn).
Local Abbreviation file_read := (Store.file_read lyd_node open_rd_permitted parse_torn).

Lemma set_file_same (fs : files_t) (n : string) (ds : sr_datastore_t)
  (f : Store.file forest) :
  Store.set_file lyd_node fs n ds f n ds = f.
Proof.
  unfold Store.set_file. rewrite String.eqb_refl.
  replace (ds_eqb ds ds) with true by (symmetry; now apply ds_eqb_eq). reflexivity.
Qed.

Lemma set_file_other (fs : files_t) (n n' : string) (ds ds' : sr_datastore_t)
  (f : Store.file forest) :
  n' <> n \/ ds' <> ds -> Store.set_file lyd_node fs n ds f n' ds' = fs n' ds'.
Proof.
  unfold Store.set_file. intros [H|H].
  - apply String.eqb_neq in H. now rewrite H.
  - destruct (ds_eqb ds' ds) eqn:E; [apply ds_eqb_eq in E; contradiction|].
    now rewrite andb_false_r.
Qed.

(** X19. What [sr_module_file_data_set] has written is what
    [sr_module_file_data_append] reads: after a successful write of the data
    of a module in a datastore, a read of that module and datastore (when
    reading is permitted) appends exactly these data to the tree, and the
    files of the other modules and datastores are as before.  A write that
    failed at [open] changes no file. *)
Theorem sr_module_file_data_set_append_round_trip (fs fs' : files_t) (mod_name : string)
  (ds : sr_datastore_t) (mod_data tree : forest) (o_creat : bool)
  (res : Store.file_set_result) :
  sr_module_file_data_set fs mod_name ds mod_data o_creat = (fs', res) ->
  (res = Store.Written ->
   open_rd_permitted mod_name ds = true ->
   sr_module_file_data_append fs' mod_name ds tree
   = inr (Cache.lyd_insert_sibling lyd_node tree mod_data))
  /\ (forall n d, n <> mod_name \/ d <> ds -> fs' n d = fs n d)
  /\ (res = Store.OpenFailed -> fs' = fs).
Proof.
  unfold Store.sr_module_file_data_set.
  destruct (negb _) eqn:O.
  { intro H. injection H as <- <-. repeat split; try discriminate; reflexivity. }
  destruct (print_ok mod_name ds mod_data); intro H; injection H as <- <-.
  - split; [|split; [|discriminate]].
    + intros _ R. unfold Store.sr_module_file_data_append, Store.file_read.
      destruct ds; cbv beta zeta; rewrite !set_file_same, R; reflexivity.
    + intros n d N. now apply set_file_other.
  - split; [discriminate|]. split; [|discriminate].
    intros n d N. now apply set_file_other.
Qed.

(** *** The reset of the candidate *)

Variable SR_SHM_DIR : string.
Variable SR_SHM_PREFIX_DEFAULT : string.
Variable shm_prefix_env : option string.
Variable unlink_permitted : string -> sr_datastore_t -> bool.

Local Abbreviation sr_modinfo_candidate_reset :=
  (sr_modinfo_candidate_reset lyd_node SR_SHM_DIR SR_SHM_PREFIX_DEFAULT shm_prefix_env
     unlink_permitted).

Definition requested (m : ModInfo.sr_mod_info_mod_s) : bool :=
  negb (Z.land (ModInfo.state m) ModInfo.MOD_INFO_REQ =? 0)%Z.

(** The files after a reset that returned no error: only candidate files were
    touched, those of the requested modules, and each of them is gone unless
    its [unlink] was refused. *)
Definition reset_of (mods : list ModInfo.sr_mod_info_mod_s) (fs fs' : files_t) : Prop :=
  (forall n ds, ds <> SR_DS_CANDIDATE -> fs' n ds = fs n ds)
  /\ (forall n, (forall m, In m mods -> requested m = true -> ModInfo.ly_mod m <> n) ->
                fs' n SR_DS_CANDIDATE = fs n SR_DS_CANDIDATE)
  /\ (forall n, fs' n SR_DS_CANDIDATE = fs n SR_DS_CANDIDATE
                \/ fs' n SR_DS_CANDIDATE = Store.NoFile)
  /\ (forall m, In m mods -> requested m = true ->
                unlink_permitted (ModInfo.ly_mod m) SR_DS_CANDIDATE = true ->
                fs' (ModInfo.ly_mod m) SR_DS_CANDIDATE = Store.NoFile).

Lemma unlink_spec (fs : files_t) (n : string) :
  (forall n' ds, n' <> n \/ ds <> SR_DS_CANDIDATE ->
                 unlink lyd_node unlink_permitted fs n SR_DS_CANDIDATE n' ds = fs n' ds)
  /\ (unlink lyd_node unlink_permitted fs n SR_DS_CANDIDATE n SR_DS_CANDIDATE
      = fs n SR_DS_CANDIDATE
      \/ unlink lyd_node unlink_permitted fs n SR_DS_CANDIDATE n SR_DS_CANDIDATE
         = Store.NoFile)
  /\ (unlink_permitted n SR_DS_CANDIDATE = true ->
      unlink lyd_node unlink_permitted fs n SR_DS_CANDIDATE n SR_DS_CANDIDATE = Store.NoFile).
Proof.
  unfold unlink. split; [|split].
  - intros n' ds N.
    destruct (fs n SR_DS_CANDIDATE), (unlink_permitted n SR_DS_CANDIDATE);
      try reflexivity; now apply set_file_other.
  - destruct (unlink_permitted n SR_DS_CANDIDATE).
    + right. destruct (fs n SR_DS_CANDIDATE) eqn:E; [exact E| |]; apply set_file_same.
    + left. destruct (fs n SR_DS_CANDIDATE) eqn:E; cbv beta iota; now rewrite ?E.
  - intro P. rewrite P.
    destruct (fs n SR_DS_CANDIDATE) eqn:E; [exact E| |]; apply set_file_same.
Qed.

Lemma sr_modinfo_candidate_reset_files (mods : list ModInfo.sr_mod_info_mod_s) :
  forall fs fs',
    sr_modinfo_candidate_reset mods fs = Val (fs', None) -> reset_of mods fs fs'.
Proof.
  induction mods as [|m mods IH]; intros fs fs' H; cbn [Files.sr_modinfo_candidate_reset] in H.
  - injection H as <-. repeat split; try reflexivity; try (now left). intros m [].
  - fold (requested m) in H. destruct (requested m) eqn:R.
    + destruct (sr_path_ds_shm _ _ _ _ _) as [p|e| | |]; try discriminate.
      apply IH in H. destruct H as (A & B & C & D).
      destruct (unlink_spec fs (ModInfo.ly_mod m)) as (U1 & U2 & U3).
      split; [|split; [|split]].
      * intros n ds N. rewrite (A n ds N). apply U1. now right.
      * intros n N. rewrite B by (intros x Hx; apply N; now right).
        apply U1. left. intro E. apply (N m (or_introl eq_refl) R). now symmetry.
      * intro n. destruct (C n) as [E|E]; [|now right]. rewrite E.
        destruct (String.eqb_spec n (ModInfo.ly_mod m)) as [->|N].
        -- exact U2.
        -- left. apply U1. now left.
      * intros x [<-|Hx] Rx P; [|now apply D].
        destruct (C (ModInfo.ly_mod m)) as [E|E]; [|exact E]. rewrite E. now apply U3.
    + apply IH in H. destruct H as (A & B & C & D).
      split; [exact A|]. split; [|split; [exact C|]].
      * intros n N. apply B. intros x Hx. apply N. now right.
      * intros x [<-|Hx] Rx P; [congruence|now apply D].
Qed.

(** X20. After [sr_modinfo_candidate_reset] the candidate datastore of every
    requested module whose file could be removed mirrors running: reading the
    candidate of the module yields what reading its running data yields.  No
    file of another datastore is touched. *)
Theorem sr_modinfo_candidate_reset_mirrors_running (mods : list ModInfo.sr_mod_info_mod_s)
  (fs fs' : files_t) :
  sr_modinfo_candidate_reset mods fs = Val (fs', None) ->
  (forall n ds, ds <> SR_DS_CANDIDATE -> fs' n ds = fs n ds)
  /\ (forall m tree,
        In m mods -> requested m = true ->
        unlink_permitted (ModInfo.ly_mod m) SR_DS_CANDIDATE = true ->
        sr_module_file_data_append fs' (ModInfo.ly_mod m) SR_DS_CANDIDATE tree
        = sr_module_file_data_append fs (ModInfo.ly_mod m) SR_DS_RUNNING tree).
Proof.
  intro H. apply sr_modinfo_candidate_reset_files in H. destruct H as (A & _ & _ & D).
  split; [exact A|]. intros m tree I R P.
  unfold Store.sr_module_file_data_append, Store.file_read.
  rewrite (D m I R P), (A (ModInfo.ly_mod m) SR_DS_RUNNING ltac:(discriminate)).
  reflexivity.
Qed.

End Files.

(** *** Examples *)

Lemma sr_path_ds_shm_injective_witness :
  "ietf-interfaces" = "ietf-interfaces" /\ SR_DS_RUNNING = SR_DS_RUNNING.
Proof.
  exact (sr_path_ds_shm_injective "/dev/shm" "sr" None "ietf-interfaces" "ietf-interfaces"
           SR_DS_RUNNING SR_DS_RUNNING "/dev/shm/sr_ietf-interfaces.running"
           eq_refl eq_refl).
Defined.

(** One module with a running and a candidate file. *)
Definition ex_files : Store.files_t string :=
  fun n ds =>
    if String.eqb n "m" then
      match ds with
      | SR_DS_RUNNING => Store.FileData [("m", "running data")]
      | SR_DS_CANDIDATE => Store.FileData [("m", "candidate data")]
      | _ => Store.NoFile
      end
    else Store.NoFile.

Definition ex_permitted (n : string) (ds : sr_datastore_t) : bool := true.

Lemma sr_module_file_data_set_append_round_trip_witness :
  (Store.Written = Store.Written ->
   ex_permitted "m" SR_DS_RUNNING = true ->
   Store.sr_module_file_data_append string ex_permitted (fun _ _ => inl SR_ERR_LY)
     (fst (Store.sr_module_file_data_set string ex_permitted (fun _ _ _ => true)
             ex_files "m" SR_DS_RUNNING [("m", "new data")] false))
     "m" SR_DS_RUNNING []
   = inr (Cache.lyd_insert_sibling string [] [("m", "new data")]))
  /\ (forall n d, n <> "m" \/ d <> SR_DS_RUNNING ->
        fst (Store.sr_module_file_data_set string ex_permitted (fun _ _ _ => true)
               ex_files "m" SR_DS_RUNNING [("m", "new data")] false) n d
        = ex_files n d)
  /\ (Store.Written = Store.OpenFailed ->
      fst (Store.sr_module_file_data_set string ex_permitted (fun _ _ _ => true)
             ex_files "m" SR_DS_RUNNING [("m", "new data")] false)
      = ex_files).
Proof.
  exact (sr_module_file_data_set_append_round_trip string ex_permitted ex_permitted
           (fun _ _ _ => true) (fun _ _ => inl SR_ERR_LY) ex_files _ "m" SR_DS_RUNNING
           [("m", "new data")] [] false Store.Written eq_refl).
Defined.

Definition ex_mods : list ModInfo.sr_mod_info_mod_s :=
  [{| ModInfo.shm_mod := 0; ModInfo.ly_mod := "m"; ModInfo.state := ModInfo.MOD_INFO_REQ |}].

Lemma sr_modinfo_candidate_reset_mirrors_running_witness :
  Store.sr_module_file_data_append string ex_permitted (fun _ _ => inl SR_ERR_LY)
    (Store.set_file string ex_files "m" SR_DS_CANDIDATE Store.NoFile) "m" SR_DS_CANDIDATE []
  = Store.sr_module_file_data_append string ex_permitted (fun _ _ => inl SR_ERR_LY)
      ex_files "m" SR_DS_RUNNING [].
Proof.
  refine (proj2 (sr_modinfo_candidate_reset_mirrors_running string ex_permitted
                   (fun _ _ => inl SR_ERR_LY) "/dev/shm" "sr" None ex_permitted
                   ex_mods ex_files _ eq_refl)
            (nth 0 ex_mods {| ModInfo.shm_mod := 0; ModInfo.ly_mod := "";
                              ModInfo.state := 0 |})
            [] (or_introl eq_refl) eq_refl eq_refl).
Defined.

End Files.

(** ** Data trees: the data of a module among the siblings, the order of
       removal, trimming by options *)

Module Trees.

Local Open Scope string_scope.
Local Open Scope list_scope.

(** A data node as [sr_oper_data_trim_r] sees it: the flags [LYS_CONFIG_R]
    and [LYS_CONFIG_W] of its schema node, its metadata (name of the
    annotation and name of its module) and its children other than keys
    ([lyd_child_no_keys]).  The keys of a list instance are not part of the
    model: the function never visits a key (it asserts so), and a key goes or
    stays with its list instance; what is said of the nodes of a tree below is
    said of its nodes other than keys. *)
#[local] Unset Elimination Schemes.
Inductive lyd_node : Type :=
| Node (config_r config_w : bool) (meta : list (string * string)) (children : list lyd_node).
#[local] Set Elimination Schemes.

Definition config_r (n : lyd_node) : bool := match n with Node r _ _ _ => r end.
Definition config_w (n : lyd_node) : bool := match n with Node _ w _ _ => w end.
Definition meta (n : lyd_node) : list (string * string) := match n with Node _ _ m _ => m end.
Definition children (n : lyd_node) : list lyd_node := match n with Node _ _ _ c => c end.

(** The [LY_LIST_FOR(elem->meta, meta)] loop: the first [origin] annotation of
    [ietf-origin] is freed. *)
Fixpoint trim_origin (m : list (string * string)) : list (string * string) :=
  match m with
  | [] => []
  | (name, module) :: m' =>
      if String.eqb name "origin" && String.eqb module "ietf-origin" then m'
      else (name, module) :: trim_origin m'
  end.

(** The loop of [sr_oper_data_trim_r] over the siblings, with the recursive
    call for the children of a node.  A node that is freed yields [None]; the
    pointer [*data] follows the first sibling that is left.  The test at the
    head of the function has the same outcome in every call, the options
    being the same. *)
Fixpoint trim_node (opts : Oper.sr_get_oper_options_t) (elem : lyd_node) : option lyd_node :=
  match elem with
  | Node r w m c =>
      if r && Oper.SR_OPER_NO_STATE opts then None
      else if r && Oper.SR_OPER_WITH_ORIGIN opts then Some elem
      else
        let c' :=
          (fix trim_list (l : list lyd_node) : list lyd_node :=
             match l with
             | [] => []
             | x :: l' =>
                 match trim_node opts x with
                 | None => trim_list l'
                 | Some x' => x' :: trim_list l'
                 end
             end) c in
        if w && Oper.SR_OPER_NO_CONFIG opts && match c' with [] => true | _ => false end
        then None
        else Some (Node r w (if Oper.SR_OPER_WITH_ORIGIN opts then m else trim_origin m) c')
  end.

Definition trim_list (opts : Oper.sr_get_oper_options_t) : list lyd_node -> list lyd_node :=
  fix trim_list (l : list lyd_node) : list lyd_node :=
    match l with
    | [] => []
    | x :: l' =>
        match trim_node opts x with
        | None => trim_list l'
        | Some x' => x' :: trim_list l'
        end
    end.

(** [sr_oper_data_trim_r(data, *data, opts)]: the siblings that are left. *)
Definition sr_oper_data_trim_r (opts : Oper.sr_get_oper_options_t) (data : list lyd_node)
  : list lyd_node :=
  if negb (Oper.SR_OPER_NO_STATE opts || Oper.SR_OPER_NO_CONFIG opts)
     && Oper.SR_OPER_WITH_ORIGIN opts
  then data
  else trim_list opts data.

(** *** Shapes of trees *)

(** Every node of the tree (keys apart) satisfies [P]. *)
Fixpoint every (P : lyd_node -> bool) (n : lyd_node) : bool :=
  match n with
  | Node _ _ _ c =>
      P n && (fix every_list (l : list lyd_node) : bool :=
                match l with
                | [] => true
                | x :: l' => every P x && every_list l'
                end) c
  end.

Definition every_list (P : lyd_node -> bool) : list lyd_node -> bool :=
  fix every_list (l : list lyd_node) : bool :=
    match l with
    | [] => true
    | x :: l' => every P x && every_list l'
    end.

(** The node is not a state node. *)
Definition no_state (n : lyd_node) : bool := negb (config_r n).

(** The node is not a configuration node without children other than keys. *)
Definition no_bare_config (n : lyd_node) : bool :=
  negb (config_w n && match children n with [] => true | _ => false end).

(** The node carries no [origin] annotation. *)
Definition no_origin (n : lyd_node) : bool :=
  negb (existsb (fun a => String.eqb (fst a) "origin" && String.eqb (snd a) "ietf-origin")
          (meta n)).

(** The node carries at most one [origin] annotation. *)
Fixpoint origins (m : list (string * string)) : nat :=
  match m with
  | [] => 0
  | (name, module) :: m' =>
      (if String.eqb name "origin" && String.eqb module "ietf-origin" then 1 else 0)
      + origins m'
  end.

Definition one_origin (n : lyd_node) : bool := Nat.leb (origins (meta n)) 1.

(** A state node has no configuration node below it (a rule of YANG). *)
Definition state_below (n : lyd_node) : bool :=
  negb (config_r n) || every (fun x => negb (config_w x)) n.

(** The node is a configuration node and not a state node. *)
Definition is_config (n : lyd_node) : bool := config_w n && negb (config_r n).

(** *** [sr_oper_data_trim_r] *)

Lemma lyd_node_ind' (P : lyd_node -> Prop) :
  (forall r w m c, Forall P c -> P (Node r w m c)) -> forall n, P n.
Proof.
  intro H. fix IH 1. intros [r w m c]. apply H.
  induction c as [|x c IHc]; constructor; [apply IH|exact IHc].
Qed.

Lemma trim_node_eq (opts : Oper.sr_get_oper_options_t) (r w : bool)
  (m : list (string * string)) (c : list lyd_node) :
  trim_node opts (Node r w m c)
  = if r && Oper.SR_OPER_NO_STATE opts then None
    else if r && Oper.SR_OPER_WITH_ORIGIN opts then Some (Node r w m c)
    else
      if w && Oper.SR_OPER_NO_CONFIG opts
         && match trim_list opts c with [] => true | _ => false end
      then None
      else Some (Node r w (if Oper.SR_OPER_WITH_ORIGIN opts then m else trim_origin m)
                   (trim_list opts c)).
Proof. reflexivity. Qed.

Lemma trim_list_cons (opts : Oper.sr_get_oper_options_t) (x : lyd_node) (l : list lyd_node) :
  trim_list opts (x :: l)
  = match trim_node opts x with
    | None => trim_list opts l
    | Some x' => x' :: trim_list opts l
    end.
Proof. reflexivity. Qed.

Lemma every_list_cons (P : lyd_node -> bool) (x : lyd_node) (l : list lyd_node) :
  every_list P (x :: l) = every P x && every_list P l.
Proof. reflexivity. Qed.

Lemma every_eq (P : lyd_node -> bool) (r w : bool) (m : list (string * string))
  (c : list lyd_node) :
  every P (Node r w m c) = P (Node r w m c) && every_list P c.
Proof. reflexivity. Qed.

(** A property that [trim_node] establishes for the nodes it keeps holds for
    the siblings that [trim_list] keeps. *)
Lemma trim_list_every (opts : Oper.sr_get_oper_options_t) (P : lyd_node -> bool)
  (c : list lyd_node) :
  Forall (fun n => forall n', trim_node opts n = Some n' -> every P n' = true) c ->
  every_list P (trim_list opts c) = true.
Proof.
  induction 1 as [|x c Hx _ IH]; [reflexivity|]. rewrite ?trim_list_cons.
  destruct (trim_node opts x) as [x'|] eqn:E; [|exact IH].
  rewrite ?every_list_cons. now rewrite (Hx x' eq_refl), IH.
Qed.

(** The same with a condition on the nodes that come in. *)
Lemma trim_list_every_if (opts : Oper.sr_get_oper_options_t) (P Q : lyd_node -> bool)
  (c : list lyd_node) :
  Forall (fun n => every Q n = true ->
                   forall n', trim_node opts n = Some n' -> every P n' = true) c ->
  every_list Q c = true ->
  every_list P (trim_list opts c) = true.
Proof.
  induction 1 as [|x c Hx _ IH]; [reflexivity|]. rewrite ?trim_list_cons, ?every_list_cons. intro H.
  apply andb_true_iff in H as [H1 H2].
  destruct (trim_node opts x) as [x'|] eqn:E; [|now apply IH].
  rewrite ?every_list_cons. now rewrite (Hx H1 x' eq_refl), IH.
Qed.

Lemma trim_origin_none (m : list (string * string)) :
  (origins m <= 1)%nat ->
  existsb (fun a => String.eqb (fst a) "origin" && String.eqb (snd a) "ietf-origin")
    (trim_origin m) = false.
Proof.
  induction m as [|[name module] m IH]; intro H; [reflexivity|].
  cbn [trim_origin origins] in *.
  destruct (String.eqb name "origin" && String.eqb module "ietf-origin") eqn:E.
  - assert (Z0 : origins m = 0%nat) by lia. clear -Z0.
    induction m as [|[a b] m IH]; [reflexivity|]. cbn [origins existsb fst snd] in *.
    destruct (String.eqb a "origin" && String.eqb b "ietf-origin"); [discriminate|].
    now apply IH.
  - cbn [existsb fst snd]. rewrite E. apply IH. lia.
Qed.

(** X21. With [SR_OPER_NO_STATE] no state node is left anywhere in the data
    that [sr_oper_data_trim_r] returns. *)
Theorem sr_oper_data_trim_r_no_state (opts : Oper.sr_get_oper_options_t)
  (data : list lyd_node) :
  Oper.SR_OPER_NO_STATE opts = true ->
  every_list no_state (sr_oper_data_trim_r opts data) = true.
Proof.
  intro S. unfold sr_oper_data_trim_r. rewrite S. cbn [orb negb andb].
  apply trim_list_every. apply Forall_forall. intros n _. revert n.
  apply (lyd_node_ind' (fun n => forall n', trim_node opts n = Some n' ->
                                            every no_state n' = true)).
  intros r w m c IH n'. rewrite trim_node_eq, S, andb_true_r.
  destruct r; [discriminate|]. cbn [andb].
  destruct (w && Oper.SR_OPER_NO_CONFIG opts && _); [discriminate|].
  intro H. injection H as <-. rewrite every_eq. cbn [no_state config_r negb andb].
  now apply trim_list_every.
Qed.

Lemma every_impl (P Q : lyd_node -> bool) :
  (forall x, P x = true -> Q x = true) ->
  forall n, every P n = true -> every Q n = true.
Proof.
  intro I. apply (lyd_node_ind' (fun n => every P n = true -> every Q n = true)).
  intros r w m c IH. rewrite !every_eq. intro H. apply andb_true_iff in H as [H1 H2].
  rewrite (I _ H1). cbn [andb]. clear H1. induction IH as [|x c Hx _ IHc]; [reflexivity|].
  rewrite every_list_cons in *. apply andb_true_iff in H2 as [A B].
  now rewrite (Hx A), IHc.
Qed.

(** X22. With [SR_OPER_NO_CONFIG], in data that hold no configuration below
    state, [sr_oper_data_trim_r] leaves no configuration node, list keys
    apart, that has no child other than keys: a configuration node stays only
    above a node that is not one.  Data that hold configuration nodes only
    are removed altogether. *)
Theorem sr_oper_data_trim_r_no_config (opts : Oper.sr_get_oper_options_t)
  (data : list lyd_node) :
  Oper.SR_OPER_NO_CONFIG opts = true ->
  (every_list state_below data = true ->
   every_list no_bare_config (sr_oper_data_trim_r opts data) = true)
  /\ (every_list is_config data = true -> sr_oper_data_trim_r opts data = []).
Proof.
  intro C. unfold sr_oper_data_trim_r. rewrite C, orb_true_r. cbn [negb andb]. split.
  - apply trim_list_every_if. apply Forall_forall. intros n _. revert n.
    apply (lyd_node_ind' (fun n => every state_below n = true ->
                                   forall n', trim_node opts n = Some n' ->
                                              every no_bare_config n' = true)).
    intros r w m c IH B n'. rewrite trim_node_eq, C, andb_true_r.
    destruct (r && Oper.SR_OPER_NO_STATE opts); [discriminate|].
    rewrite every_eq in B. apply andb_true_iff in B as [B1 B2].
    destruct (r && Oper.SR_OPER_WITH_ORIGIN opts) eqn:RO.
    + intro H. injection H as <-. apply andb_true_iff in RO as [R _]. subst r.
      cbn [state_below config_r negb orb] in B1. revert B1. apply every_impl.
      intros x Hx. unfold no_bare_config. apply negb_true_iff in Hx. now rewrite Hx.
    + destruct (w && match trim_list opts c with [] => true | _ => false end) eqn:W;
        [discriminate|].
      intro H. injection H as <-. rewrite every_eq.
      unfold no_bare_config at 1. cbn [config_w children]. rewrite W. cbn [negb andb].
      now apply trim_list_every_if with (Q := state_below).
  - revert data.
    assert (G : forall n, every is_config n = true -> trim_node opts n = None).
    { apply (lyd_node_ind' (fun n => every is_config n = true -> trim_node opts n = None)).
      intros r w m c IH. rewrite every_eq, trim_node_eq, C, andb_true_r.
      unfold is_config at 1. cbn [config_w config_r]. intro H.
      apply andb_true_iff in H as [H1 H2]. apply andb_true_iff in H1 as [-> R].
      apply negb_true_iff in R. subst r. cbn [andb].
      assert (E : trim_list opts c = []).
      { clear -IH H2. induction IH as [|x c Hx _ IHc]; [reflexivity|].
        rewrite every_list_cons in H2. apply andb_true_iff in H2 as [A B].
        rewrite trim_list_cons, (Hx A). now apply IHc. }
      now rewrite E. }
    induction data as [|x data IH]; [reflexivity|].
    rewrite trim_list_cons, every_list_cons. intro H.
    apply andb_true_iff in H as [A B]. rewrite (G x A). now apply IH.
Qed.

(** X23. Without [SR_OPER_WITH_ORIGIN], in data whose nodes carry at most one
    [origin] annotation, no node of what [sr_oper_data_trim_r] returns, list
    keys apart, carries an [origin] annotation. *)
Theorem sr_oper_data_trim_r_no_origin (opts : Oper.sr_get_oper_options_t)
  (data : list lyd_node) :
  Oper.SR_OPER_WITH_ORIGIN opts = false ->
  every_list one_origin data = true ->
  every_list no_origin (sr_oper_data_trim_r opts data) = true.
Proof.
  intro O. unfold sr_oper_data_trim_r. rewrite O, andb_false_r.
  apply trim_list_every_if. apply Forall_forall. intros n _. revert n.
  apply (lyd_node_ind' (fun n => every one_origin n = true ->
                                 forall n', trim_node opts n = Some n' ->
                                            every no_origin n' = true)).
  intros r w m c IH B n'. rewrite trim_node_eq, O, andb_false_r.
  destruct (r && Oper.SR_OPER_NO_STATE opts); [discriminate|].
  destruct (w && Oper.SR_OPER_NO_CONFIG opts && _); [discriminate|].
  rewrite every_eq in B. apply andb_true_iff in B as [B1 B2].
  intro H. injection H as <-. rewrite every_eq.
  unfold no_origin at 1. cbn [meta]. unfold one_origin in B1. cbn [meta] in B1.
  apply Nat.leb_le in B1. rewrite (trim_origin_none m B1). cbn [negb andb].
  now apply trim_list_every_if with (Q := one_origin).
Qed.

(** *** [sr_module_data_unlink] *)

Section Unlink.

Variable lyd_node : Type.

Local Abbreviation forest := (Cache.forest lyd_node).
Local Abbreviation sr_module_data_unlink := (Cache.sr_module_data_unlink lyd_node).

(** Once the first node of the module was met, the nodes of the module are
    taken up to the first node of another module. *)
Lemma unlink_started (d : forest) (lm : string) :
  forall mod_data rest,
    sr_module_data_unlink d lm true = (mod_data, rest) ->
    d = mod_data ++ rest
    /\ Forall (fun n => fst n = lm) mod_data
    /\ match rest with
       | [] => True
       | n :: _ => fst n <> lm
       end.
Proof.
  induction d as [|[owner n] d IH]; intros mod_data rest H; cbn [Cache.sr_module_data_unlink] in H.
  - injection H as <- <-. repeat split. constructor.
  - destruct (String.eqb_spec owner lm) as [E|E].
    + destruct (sr_module_data_unlink d lm true) as [md r] eqn:U.
      injection H as <- <-. destruct (IH md r eq_refl) as (-> & F & R).
      repeat split; [constructor; [exact E|exact F]|exact R].
    + injection H as <- <-. repeat split; [constructor|exact E].
Qed.

(** X24. [sr_module_data_unlink] takes the first run of sibling nodes that the
    module owns, in their order, and leaves every other node in its place;
    nodes of the module that follow a node of another module stay in the
    tree.  When the nodes of the module are next to each other, none of them
    is left. *)
Theorem sr_module_data_unlink_first_run (d mod_data rest : forest) (lm : string) :
  sr_module_data_unlink d lm false = (mod_data, rest) ->
  exists pre post,
    d = pre ++ mod_data ++ post
    /\ rest = pre ++ post
    /\ Forall (fun n => fst n = lm) mod_data
    /\ Forall (fun n => fst n <> lm) pre
    /\ match post with
       | [] => True
       | n :: _ => fst n <> lm /\ mod_data <> []
       end
    /\ (Forall (fun n => fst n <> lm) post -> Forall (fun n => fst n <> lm) rest).
Proof.
  revert mod_data rest.
  induction d as [|[owner n] d IH]; intros mod_data rest H; cbn [Cache.sr_module_data_unlink] in H.
  - injection H as <- <-. exists [], []. repeat split; constructor.
  - destruct (String.eqb_spec owner lm) as [E|E].
    + destruct (sr_module_data_unlink d lm true) as [md r] eqn:U.
      injection H as <- <-. destruct (unlink_started d lm md r U) as (-> & F & R).
      exists [], r. cbn [app]. repeat split.
      * constructor; [exact E|exact F].
      * constructor.
      * destruct r as [|x r]; [exact I|]. split; [exact R|discriminate].
      * intro P. exact P.
    + destruct (sr_module_data_unlink d lm false) as [md r] eqn:U.
      injection H as <- <-.
      destruct (IH md r eq_refl) as (pre & post & -> & -> & F & P & M & _).
      exists ((owner, n) :: pre), post. cbn [app]. repeat split.
      * exact F.
      * constructor; [exact E|exact P].
      * exact M.
      * intro Q. constructor; [exact E|]. apply Forall_app. split; assumption.
Qed.

End Unlink.

(** *** [sr_lyd_xpath_complement] *)

Section Complement.

Variable lyd_data : Type.
Variable lyd_node : Type.
Variable is_null : lyd_data -> bool.
Variable lyd_find_xpath : lyd_data -> string -> option (list lyd_node).
Variable lyd_depth : lyd_data -> lyd_node -> nat.
Variable lyd_free_tree : lyd_node -> lyd_data -> lyd_data.
Variable ly_set_new_ok : bool.
Variable ly_set_add_ok : bool.

Local Abbreviation sr_lyd_xpath_complement :=
  (Oper.sr_lyd_xpath_complement lyd_data lyd_node is_null lyd_find_xpath lyd_depth
     lyd_free_tree ly_set_new_ok ly_set_add_ok).
Local Abbreviation matched := (Oper.matched lyd_data lyd_node is_null lyd_find_xpath).
Local Abbreviation free_all := (Oper.free_all lyd_data lyd_node lyd_free_tree).
Local Abbreviation depth16 := (Oper.depth16 lyd_data lyd_node lyd_depth).
Local Abbreviation frees_from_depth := (Oper.frees_from_depth lyd_data lyd_node lyd_depth).

(** Every node is freed before the nodes that are less deep than it. *)
Definition deeper_first (d0 : lyd_data) (frees : list lyd_node) : Prop :=
  StronglySorted (fun a b => (depth16 d0 b <= depth16 d0 a)%nat) frees.

Lemma frees_from_depth_bound (d0 : lyd_data) (node_set : list lyd_node) (depth : nat) :
  forall n, In n (frees_from_depth d0 depth node_set) -> (depth16 d0 n <= depth)%nat.
Proof.
  induction depth as [|k IH]; intros n H; cbn [Oper.frees_from_depth] in H; [contradiction|].
  apply in_app_or in H as [H|H].
  - apply filter_In in H as [_ H]. apply Nat.eqb_eq in H. lia.
  - specialize (IH n H). lia.
Qed.

Lemma StronglySorted_app {A : Type} (R : A -> A -> Prop) (l1 l2 : list A) :
  StronglySorted R l1 -> StronglySorted R l2 ->
  (forall a b, In a l1 -> In b l2 -> R a b) ->
  StronglySorted R (l1 ++ l2).
Proof.
  intros S1 S2 H. induction S1 as [|a l1 S1 IH F]; [exact S2|]. cbn [app].
  constructor.
  - apply IH. intros x y Hx Hy. apply H; [now right|exact Hy].
  - apply Forall_app. split; [exact F|]. apply Forall_forall. intros y Hy.
    apply H; [now left|exact Hy].
Qed.

Lemma filter_depth_sorted (d0 : lyd_data) (k : nat) (node_set : list lyd_node) :
  deeper_first d0 (filter (fun n => Nat.eqb k (depth16 d0 n)) node_set).
Proof.
  induction node_set as [|x l IH]; [constructor|]. cbn [filter].
  destruct (Nat.eqb_spec k (depth16 d0 x)) as [E|E]; [|exact IH].
  constructor; [exact IH|]. apply Forall_forall. intros y Hy.
  apply filter_In in Hy as [_ Hy]. apply Nat.eqb_eq in Hy. lia.
Qed.

Lemma frees_from_depth_sorted (d0 : lyd_data) (node_set : list lyd_node) (depth : nat) :
  deeper_first d0 (frees_from_depth d0 depth node_set).
Proof.
  induction depth as [|k IH]; cbn [Oper.frees_from_depth]; [constructor|].
  apply StronglySorted_app; [apply filter_depth_sorted|exact IH|].
  intros a b Ha Hb. apply filter_In in Ha as [_ Ha]. apply Nat.eqb_eq in Ha.
  apply frees_from_depth_bound in Hb. lia.
Qed.

(** X25. [sr_lyd_xpath_complement] frees the selected nodes from the most
    nested to the top level: by the depth that the function counts (in 16
    bits), no node is freed after a node that is less deep, so that a selected
    descendant is freed before its selected ancestor.  Only selected nodes are
    freed, and all of them when their depths fit 16 bits. *)
Theorem sr_lyd_xpath_complement_deeper_first (s s' : Oper.st lyd_data lyd_node)
  (xpath : string) :
  sr_lyd_xpath_complement s xpath = (s', None) ->
  exists frees,
    s' = free_all s frees
    /\ deeper_first (Oper.data s) frees
    /\ (forall n, In n frees -> In n (matched s xpath))
    /\ ((forall n, In n (matched s xpath) ->
                   (1 <= lyd_depth (Oper.data s) n < 2 ^ 16)%nat) ->
        Permutation frees (matched s xpath)).
Proof.
  unfold Oper.sr_lyd_xpath_complement, Oper.matched.
  destruct (is_null (Oper.data s)).
  { intro H. injection H as <-. exists []. repeat split; try constructor. intros n []. }
  destruct (lyd_find_xpath (Oper.data s) xpath) as [node_set|]; [|discriminate].
  destruct ly_set_new_ok; cbn [negb]; [|discriminate].
  destruct node_set as [|n0 l].
  { intro H. injection H as <-. exists []. repeat split; try constructor. intros n []. }
  destruct ly_set_add_ok; cbn [negb]; [|discriminate].
  intro H. injection H as <-.
  set (node_set := n0 :: l).
  exists (frees_from_depth (Oper.data s)
            (Oper.max_depth lyd_data lyd_node lyd_depth (Oper.data s) node_set) node_set).
  split; [apply Oper.free_from_depth_spec|]. split; [apply frees_from_depth_sorted|].
  split.
  - intros n Hn.
    apply (Permutation_in _ (Oper.frees_from_depth_Permutation _ _ _ _ _ _)) in Hn.
    now apply filter_In in Hn.
  - intro R. eapply Permutation_trans; [apply Oper.frees_from_depth_Permutation|].
    replace (filter _ node_set) with node_set; [apply Permutation_refl|].
    symmetry. apply forallb_filter_id. apply forallb_forall. intros n Hn.
    pose proof (R n Hn) as Rn.
    pose proof (Oper.max_depth_ge _ _ lyd_depth (Oper.data s) node_set n Hn) as M.
    assert (E : depth16 (Oper.data s) n = lyd_depth (Oper.data s) n).
    { unfold Oper.depth16. apply Nat.mod_small. lia. }
    apply andb_true_intro. split; apply Nat.leb_le; lia.
Qed.

End Complement.

(** *** Examples *)

(** A container of configuration with a configuration leaf and a state leaf,
    next to a state leaf at the top level. *)
Definition ex_leaf (r w : bool) : lyd_node := Node r w [("origin", "ietf-origin")] [].
Definition ex_data : list lyd_node :=
  [Node false true [("origin", "ietf-origin")] [ex_leaf false true; ex_leaf true false];
   ex_leaf true false].

Definition ex_opts (no_state no_config with_origin : bool) : Oper.sr_get_oper_options_t :=
  {| Oper.SR_OPER_NO_STATE := no_state; Oper.SR_OPER_NO_CONFIG := no_config;
     Oper.SR_OPER_NO_SUBS := false; Oper.SR_OPER_NO_STORED := false;
     Oper.SR_OPER_WITH_ORIGIN := with_origin |}.

Lemma sr_oper_data_trim_r_no_state_witness :
  every_list no_state (sr_oper_data_trim_r (ex_opts true false true) ex_data) = true.
Proof.
  exact (sr_oper_data_trim_r_no_state (ex_opts true false true) ex_data eq_refl).
Defined.

Lemma sr_oper_data_trim_r_no_config_witness :
  (every_list state_below ex_data = true ->
   every_list no_bare_config (sr_oper_data_trim_r (ex_opts false true true) ex_data) = true)
  /\ (every_list is_config ex_data = true ->
      sr_oper_data_trim_r (ex_opts false true true) ex_data = []).
Proof.
  exact (sr_oper_data_trim_r_no_config (ex_opts false true true) ex_data eq_refl).
Defined.

Lemma sr_oper_data_trim_r_no_origin_witness :
  every_list no_origin (sr_oper_data_trim_r (ex_opts false false false) ex_data) = true.
Proof.
  exact (sr_oper_data_trim_r_no_origin (ex_opts false false false) ex_data eq_refl eq_refl).
Defined.

(** Two nodes of a module, a node of another one, and one more of the
    first. *)
Definition ex_forest : Cache.forest string :=
  [("a", "a1"); ("a", "a2"); ("b", "b1"); ("a", "a3")].

Lemma sr_module_data_unlink_first_run_witness :
  exists pre post,
    ex_forest = pre ++ [("a", "a1"); ("a", "a2")] ++ post
    /\ [("b", "b1"); ("a", "a3")] = pre ++ post
    /\ Forall (fun n => fst n = "a") [("a", "a1"); ("a", "a2")]
    /\ Forall (fun n => fst n <> "a") pre
    /\ match post with
       | [] => True
       | n :: _ => fst n <> "a" /\ [("a", "a1"); ("a", "a2")] <> []
       end
    /\ (Forall (fun n => fst n <> "a") post ->
        Forall (fun n => fst n <> "a") [("b", "b1"); ("a", "a3")]).
Proof.
  exact (sr_module_data_unlink_first_run string ex_forest [("a", "a1"); ("a", "a2")]
           [("b", "b1"); ("a", "a3")] "a" eq_refl).
Defined.

(** A tree given by the depths of its nodes: the nodes are numbers, the XPath
    selects the nodes 3, 1 and 2 in this order, and a node is as deep as its
    number. *)
Definition ex_st : Oper.st unit nat :=
  {| Oper.data := tt; Oper.cb_error_info := None; Oper.log := [] |}.

Lemma sr_lyd_xpath_complement_deeper_first_witness :
  exists frees,
    fst (Oper.sr_lyd_xpath_complement unit nat (fun _ => false)
           (fun _ _ => Some [3; 1; 2]) (fun _ n => n) (fun _ d => d) true true ex_st "/x")
    = Oper.free_all unit nat (fun _ d => d) ex_st frees
    /\ deeper_first unit nat (fun _ n => n) tt frees
    /\ (forall n, In n frees ->
                  In n (Oper.matched unit nat (fun _ => false) (fun _ _ => Some [3; 1; 2])
                          ex_st "/x"))
    /\ ((forall n, In n (Oper.matched unit nat (fun _ => false)
                           (fun _ _ => Some [3; 1; 2]) ex_st "/x") ->
                   (1 <= n < 2 ^ 16)%nat) ->
        Permutation frees
          (Oper.matched unit nat (fun _ => false) (fun _ _ => Some [3; 1; 2]) ex_st "/x")).
Proof.
  exact (sr_lyd_xpath_complement_deeper_first unit nat (fun _ => false)
           (fun _ _ => Some [3; 1; 2]) (fun _ n => n) (fun _ d => d) true true ex_st _ "/x"
           eq_refl).
Defined.

End Trees.

(** ** The modules of a set one after the other: applying an edit
       ([sr_modinfo_next_mod], [sr_modinfo_edit_apply]), loading the data
       ([sr_modinfo_data_load]) *)

Module Edit.

Local Open Scope string_scope.
Local Open Scope list_scope.

Import ModInfo.

(** [lyd_owner_module(node) == ly_mod]; the owner is NULL ([None]) for a node
    without a module. *)
Definition owner_is (owner : option string) (lm : string) : bool :=
  match owner with
  | Some n => String.eqb n lm
  | None => false
  end.

(** The loop [for (i = 0; i < mod_info->mod_count; ++i)] of
    [sr_modinfo_next_mod]: the index of the first entry of the module. *)
Fixpoint find_mod (l : list sr_mod_info_mod_s) (owner : option string) (i : nat)
  : option nat :=
  match l with
  | [] => None
  | m :: l' => if owner_is owner (ly_mod m) then Some i else find_mod l' owner (S i)
  end.

(** [mods[i].ly_mod]. *)
Definition ly_mod_at (l : list sr_mod_info_mod_s) (i : nat) : string :=
  match nth_error l i with
  | Some m => ly_mod m
  | None => ""
  end.

(** The mark of entry [i] of the array [aux] is set to 1. *)
Definition mark (aux : list bool) (i : nat) : list bool := upd_nth i (fun _ => true) aux.

Section Edit.

(** Whether the code is compiled with [NDEBUG]. *)
Variable NDEBUG : bool.

(** A top-level node of the edit with the module that owns it, and the trees
    [mod_info->data] and [mod_info->diff]. *)
Variable lyd_node : Type.
Variable lyd_owner_module : lyd_node -> option string.
Variable lyd_data : Type.

(** [sr_edit_mod_apply] ([edit_diff.h]): it is given the edit, the module, the
    data and, when a diff is asked for, the diff; it yields the data, the diff
    and either an error or whether there was a change. *)
Variable sr_edit_mod_apply :
  list lyd_node -> string -> lyd_data -> option lyd_data ->
  lyd_data * option lyd_data * (sr_error_t + bool).

(** The first loop of [sr_modinfo_next_mod], which looks for the first node of
    the module returned last; running off the list dereferences NULL. *)
Fixpoint find_last (node : list lyd_node) (lm : string) : option (list lyd_node) :=
  match node with
  | [] => None
  | n :: node' =>
      if owner_is (lyd_owner_module n) lm then Some node else find_last node' lm
  end.

(** From the label [next_mod] on.  [skip] is the module whose nodes the loop
    at the label passes ([None] in the first call, which does not go through
    the label).  When the module of a node was returned before, [last] is set
    to it and the code jumps back to the label: the node, owned by the new
    [last], is passed at once.  Yields the index of the module and the marks,
    or NULL and the marks freed.  For a node whose module is not in the set,
    [assert(mod)] fails; without the assert the code reads [aux] past its
    end. *)
Fixpoint next_mod_scan (node : list lyd_node) (skip : option string)
  (l : list sr_mod_info_mod_s) (aux : list bool)
  : outcome (option (nat * list bool)) :=
  match node with
  | [] => Val None
  | n :: node' =>
      if match skip with
         | Some lm => owner_is (lyd_owner_module n) lm
         | None => false
         end
      then next_mod_scan node' skip l aux
      else
        match find_mod l (lyd_owner_module n) 0 with
        | None => if NDEBUG then Fault else AssertFail
        | Some i =>
            if nth i aux false then next_mod_scan node' (Some (ly_mod_at l i)) l aux
            else Val (Some (i, mark aux i))
        end
  end.

(** [sr_modinfo_next_mod]: [last] is the index of the module returned last.
    Without [assert(data)] the first loop dereferences NULL. *)
Definition sr_modinfo_next_mod (last : option nat) (l : list sr_mod_info_mod_s)
  (data : list lyd_node) (aux : list bool) : outcome (option (nat * list bool)) :=
  match last with
  | None => next_mod_scan data None l (repeat false (List.length l))
  | Some li =>
      match data with
      | [] => if NDEBUG then Fault else AssertFail
      | _ :: _ =>
          match find_last data (ly_mod_at l li) with
          | None => Fault
          | Some node => next_mod_scan node (Some (ly_mod_at l li)) l aux
          end
      end
  end.

(** The state of [sr_modinfo_edit_apply]: the entries of the set, the data,
    the diff, and the modules that [sr_edit_mod_apply] was called for. *)
Record st : Type := {
  mods : list sr_mod_info_mod_s;
  data : lyd_data;
  diff : lyd_data;
  applied : list string
}.

(** The [while] loop of [sr_modinfo_edit_apply]. *)
Fixpoint apply_loop (fuel : nat) (last : option nat) (aux : list bool)
  (edit : list lyd_node) (create_diff : bool) (s : st) : outcome (st * option sr_error_t) :=
  match fuel with
  | O => OutOfFuel
  | S fuel' =>
      r <- sr_modinfo_next_mod last (mods s) edit aux ;;
      match r with
      | None => Val (s, None)
      | Some (i, aux) =>
          match nth_error (mods s) i with
          | None => Fault
          | Some m =>
              XPath.c_assert NDEBUG (negb (Z.land (state m) MOD_INFO_REQ =? 0)%Z)
                (let '(data', diff', res) :=
                   sr_edit_mod_apply edit (ly_mod m) (data s)
                     (if create_diff then Some (diff s) else None) in
                 let diff' := match diff' with Some d => d | None => diff s end in
                 match res with
                 | inl e =>
                     Val ({| mods := mods s; data := data'; diff := diff';
                             applied := applied s ++ [ly_mod m] |}, Some e)
                 | inr change =>
                     let l :=
                       if change
                       then upd_nth i
                              (fun m => set_state m (Z.lor (state m) MOD_INFO_CHANGED))
                              (mods s)
                       else mods s in
                     apply_loop fuel' (Some i) aux edit create_diff
                       {| mods := l; data := data'; diff := diff';
                          applied := applied s ++ [ly_mod m] |}
                 end)
          end
      end
  end.

(** [sr_modinfo_edit_apply]: the state after the call and the [err_info].
    Every pass of the loop but the last returns a module that was not
    returned before, so that there are at most as many passes as nodes, and
    one more. *)
Definition sr_modinfo_edit_apply (mod_info : sr_mod_info_s) (mi_data mi_diff : lyd_data)
  (edit : list lyd_node) (create_diff : bool) : outcome (st * option sr_error_t) :=
  let s := {| mods := ModInfo.mods mod_info; data := mi_data; diff := mi_diff;
              applied := [] |} in
  XPath.c_assert NDEBUG (negb (data_cached mod_info))
    (if existsb (fun n => owner_is (lyd_owner_module n) SR_YANG_MOD) edit
     then Val (s, Some SR_ERR_UNSUPPORTED)
     else apply_loop (S (List.length edit)) None [] edit create_diff s).

End Edit.

(** *** What the theorems speak of *)

(** The elements of a list without repetition, in the order in which they
    first occur. *)
Fixpoint firsts (l : list string) : list string :=
  match l with
  | [] => []
  | x :: l' => x :: filter (fun y => negb (String.eqb y x)) (firsts l')
  end.

(** The owners of the nodes that have one. *)
Fixpoint owners {lyd_node : Type} (lyd_owner_module : lyd_node -> option string)
  (edit : list lyd_node) : list string :=
  match edit with
  | [] => []
  | n :: edit' =>
      match lyd_owner_module n with
      | Some lm => lm :: owners lyd_owner_module edit'
      | None => owners lyd_owner_module edit'
      end
  end.

(** *** Lists *)

Definition mem (x : string) (l : list string) : bool := existsb (String.eqb x) l.

Definition unmarked (marked : list string) (x : string) : bool := negb (mem x marked).

Lemma mem_In (x : string) (l : list string) : mem x l = true <-> In x l.
Proof.
  unfold mem. rewrite existsb_exists. split.
  - intros (y & Hy & E). apply String.eqb_eq in E. now subst.
  - intro H. exists x. split; [exact H|apply String.eqb_refl].
Qed.

Lemma mem_app (x : string) (l1 l2 : list string) : mem x (l1 ++ l2) = mem x l1 || mem x l2.
Proof. apply existsb_app. Qed.

Lemma find_filter {A : Type} (p q : A -> bool) (l : list A) :
  find p (filter q l) = find (fun x => q x && p x) l.
Proof.
  induction l as [|x l IH]; [reflexivity|]. cbn [filter find].
  destruct (q x); cbn [andb find]; [now rewrite IH|exact IH].
Qed.

Lemma find_ext {A : Type} (p q : A -> bool) (l : list A) :
  (forall x, p x = q x) -> find p l = find q l.
Proof.
  intro E. induction l as [|x l IH]; [reflexivity|]. cbn [find]. now rewrite E, IH.
Qed.

Lemma find_split {A : Type} (p : A -> bool) (l : list A) (x : A) :
  find p l = Some x ->
  exists pre post, l = pre ++ x :: post /\ (forall y, In y pre -> p y = false) /\ p x = true.
Proof.
  induction l as [|a l IH]; [discriminate|]. cbn [find]. destruct (p a) eqn:E.
  - intro H. injection H as <-. exists [], l. repeat split; [intros y []|exact E].
  - intro H. destruct (IH H) as (pre & post & -> & Hp & Hx).
    exists (a :: pre), post. repeat split; [|exact Hx].
    intros y [<-|Hy]; [exact E|now apply Hp].
Qed.

Lemma find_app_skip {A : Type} (p : A -> bool) (pre l : list A) :
  (forall y, In y pre -> p y = false) -> find p (pre ++ l) = find p l.
Proof.
  induction pre as [|a pre IH]; intro H; [reflexivity|]. cbn [app find].
  rewrite (H a (or_introl eq_refl)). apply IH. intros y Hy. apply H. now right.
Qed.

Lemma firsts_filter (q : string -> bool) (l : list string) :
  firsts (filter q l) = filter q (firsts l).
Proof.
  induction l as [|x l IH]; [reflexivity|]. cbn [filter firsts].
  destruct (q x) eqn:E; cbn [firsts filter].
  - rewrite IH. f_equal.
    clear. induction (firsts l) as [|y f IHf]; [reflexivity|]. cbn [filter].
    destruct (q y) eqn:Q, (negb (String.eqb y x)) eqn:N; cbn [filter];
      rewrite ?Q, ?N, ?IHf; reflexivity.
  - rewrite IH.
    assert (G : forall f, (forall y, In y f -> True) ->
                filter q (filter (fun y => negb (String.eqb y x)) f) = filter q f).
    { clear -E. intros f _. induction f as [|y f IHf]; [reflexivity|]. cbn [filter].
      destruct (String.eqb_spec y x) as [->|N]; cbn [negb filter].
      - rewrite E. exact IHf.
      - destruct (q y); now rewrite IHf. }
    symmetry. apply G. intros; exact I.
Qed.

Lemma firsts_In (x : string) (l : list string) : In x (firsts l) <-> In x l.
Proof.
  induction l as [|a l IH]; [reflexivity|]. cbn [firsts In]. rewrite filter_In, IH.
  destruct (String.eqb_spec x a) as [->|N]; [tauto|].
  split; [tauto|]. intros [H|H]; [now left|]. right. split; [exact H|reflexivity].
Qed.

Lemma firsts_NoDup (l : list string) : NoDup (firsts l).
Proof.
  induction l as [|a l IH]; [constructor|]. cbn [firsts]. constructor.
  - rewrite filter_In. intros [_ H]. now rewrite String.eqb_refl in H.
  - now apply NoDup_filter.
Qed.

Lemma firsts_length (l : list string) : (List.length (firsts l) <= List.length l)%nat.
Proof.
  induction l as [|a l IH]; [reflexivity|]. cbn [firsts List.length].
  pose proof (filter_length_le (fun y => negb (String.eqb y a)) (firsts l)). lia.
Qed.

(** The first element that is not among the first [k] distinct ones is the
    next distinct one. *)
Lemma find_unmarked_firsts (k : nat) :
  forall l, find (unmarked (firstn k (firsts l))) l = nth_error (firsts l) k.
Proof.
  induction k as [|k IH]; intro l.
  - destruct l as [|x l]; reflexivity.
  - destruct l as [|x l]; [reflexivity|]. cbn [firsts firstn nth_error find].
    unfold unmarked at 1. cbn [mem existsb]. fold (mem x). rewrite String.eqb_refl.
    cbn [orb negb]. rewrite <- firsts_filter, <- IH, find_filter.
    apply find_ext. intro y. unfold unmarked. cbn [mem existsb].
    fold (mem y (firstn k (firsts (filter (fun y0 => negb (String.eqb y0 x)) l)))).
    rewrite negb_orb. reflexivity.
Qed.

Lemma firstn_snoc {A : Type} (l : list A) (k : nat) (x : A) :
  nth_error l k = Some x -> firstn (S k) l = firstn k l ++ [x].
Proof.
  revert k. induction l as [|a l IH]; intros [|k] H; try discriminate.
  - injection H as <-. reflexivity.
  - cbn [firstn app]. f_equal. now apply IH.
Qed.

Lemma nth_upd_nth_same {A : Type} (f : A -> A) (i : nat) (l : list A) (d : A) :
  (i < List.length l)%nat -> nth i (upd_nth i f l) d = f (nth i l d).
Proof.
  revert i. induction l as [|a l IH]; intros [|i] H; cbn in *; try lia; [reflexivity|].
  apply IH. lia.
Qed.

Lemma nth_upd_nth_other {A : Type} (f : A -> A) (i j : nat) (l : list A) (d : A) :
  i <> j -> nth j (upd_nth i f l) d = nth j l d.
Proof.
  revert i j. induction l as [|a l IH]; intros [|i] [|j] H; cbn; try reflexivity; try lia.
  apply IH. lia.
Qed.

(** *** The entry of a module *)

Lemma owner_is_eq (lm x : string) : owner_is (Some lm) x = true <-> lm = x.
Proof. apply String.eqb_eq. Qed.

Lemma find_mod_found (l : list sr_mod_info_mod_s) (owner : option string) :
  forall k i, find_mod l owner k = Some i ->
    (k <= i < k + List.length l)%nat /\ owner_is owner (ly_mod_at l (i - k)) = true.
Proof.
  induction l as [|m l IH]; intros k i H; [discriminate|]. cbn [find_mod] in H.
  destruct (owner_is owner (ly_mod m)) eqn:E.
  - injection H as <-. cbn [List.length]. split; [lia|].
    now rewrite Nat.sub_diag.
  - destruct (IH _ _ H) as [B O]. cbn [List.length]. split; [lia|].
    replace (i - k)%nat with (S (i - S k)) by lia. exact O.
Qed.

Lemma find_mod_at (l : list sr_mod_info_mod_s) (lm : string) (i : nat) :
  find_mod l (Some lm) 0 = Some i -> (i < List.length l)%nat /\ ly_mod_at l i = lm.
Proof.
  intro H. destruct (find_mod_found _ _ _ _ H) as [B O]. split; [lia|].
  rewrite Nat.sub_0_r in O. symmetry. now apply owner_is_eq.
Qed.

Lemma find_mod_some (l : list sr_mod_info_mod_s) (lm : string) :
  In lm (map ly_mod l) -> forall k, exists i, find_mod l (Some lm) k = Some i.
Proof.
  induction l as [|m l IH]; intros H k; [destruct H|]. cbn [find_mod].
  destruct (owner_is (Some lm) (ly_mod m)) eqn:E; [now exists k|].
  apply IH. destruct H as [H|H]; [|exact H].
  subst lm. cbn [owner_is] in E. rewrite String.eqb_refl in E. discriminate.
Qed.

Lemma find_mod_names (l l' : list sr_mod_info_mod_s) (owner : option string) :
  map ly_mod l = map ly_mod l' -> forall k, find_mod l owner k = find_mod l' owner k.
Proof.
  revert l'. induction l as [|m l IH]; intros [|m' l'] H k; try discriminate; [reflexivity|].
  cbn [map] in H. injection H as Hm Hl. cbn [find_mod]. rewrite Hm.
  destruct (owner_is owner (ly_mod m')); [reflexivity|]. now apply IH.
Qed.

Lemma ly_mod_at_names (l l' : list sr_mod_info_mod_s) (i : nat) :
  map ly_mod l = map ly_mod l' -> ly_mod_at l i = ly_mod_at l' i.
Proof.
  intro H. unfold ly_mod_at.
  pose proof (nth_error_map ly_mod i l) as A. pose proof (nth_error_map ly_mod i l') as B.
  rewrite H in A. rewrite A in B.
  destruct (nth_error l i), (nth_error l' i); cbn in B; congruence.
Qed.

Lemma ly_mod_at_entry (l : list sr_mod_info_mod_s) (i : nat) :
  (i < List.length l)%nat -> exists m, nth_error l i = Some m /\ ly_mod m = ly_mod_at l i.
Proof.
  intro H. unfold ly_mod_at. destruct (nth_error l i) as [m|] eqn:E.
  - now exists m.
  - apply nth_error_None in E. lia.
Qed.

(** *** The marks *)

(** [aux] marks the modules of [marked], and no other. *)
Definition marks (l : list sr_mod_info_mod_s) (aux : list bool) (marked : list string) : Prop :=
  List.length aux = List.length l
  /\ forall lm i, find_mod l (Some lm) 0 = Some i -> nth i aux false = mem lm marked.

Lemma marks_calloc (l : list sr_mod_info_mod_s) : marks l (repeat false (List.length l)) [].
Proof.
  split; [apply repeat_length|]. intros lm i _. cbn.
  generalize (List.length l). clear. intro n. revert i.
  induction n as [|n IH]; intros [|i]; cbn; auto.
Qed.

Lemma marks_mark (l : list sr_mod_info_mod_s) (aux : list bool) (marked : list string)
  (lm : string) (i : nat) :
  marks l aux marked -> find_mod l (Some lm) 0 = Some i ->
  marks l (mark aux i) (marked ++ [lm]).
Proof.
  intros [L M] F. split; [unfold mark; now rewrite length_upd_nth|].
  intros lm' i' F'. rewrite mem_app. cbn [mem existsb]. rewrite orb_false_r.
  destruct (find_mod_at _ _ _ F) as [B A]. destruct (find_mod_at _ _ _ F') as [B' A'].
  destruct (String.eqb_spec lm' lm) as [->|N].
  - assert (i' = i) by congruence. subst i'. unfold mark.
    rewrite nth_upd_nth_same by lia. now rewrite orb_true_r.
  - assert (i <> i') by congruence. unfold mark.
    rewrite nth_upd_nth_other by assumption. rewrite orb_false_r. now apply M.
Qed.

(** *** The states of the entries *)

(** An entry after the call: the same but for the bit [MOD_INFO_CHANGED], which
    may have been set. *)
Definition changed_only (m m' : sr_mod_info_mod_s) : Prop :=
  shm_mod m' = shm_mod m /\ ly_mod m' = ly_mod m
  /\ (state m' = state m \/ state m' = Z.lor (state m) MOD_INFO_CHANGED).

Lemma changed_only_refl (l : list sr_mod_info_mod_s) : Forall2 changed_only l l.
Proof. induction l; constructor; [now repeat split; try left|assumption]. Qed.

Lemma changed_only_upd (l0 l : list sr_mod_info_mod_s) (i : nat) :
  Forall2 changed_only l0 l ->
  Forall2 changed_only l0
    (upd_nth i (fun m => set_state m (Z.lor (state m) MOD_INFO_CHANGED)) l).
Proof.
  intro H. revert i. induction H as [|m m' l0 l R H IH]; intros [|i]; cbn [upd_nth];
    constructor; try assumption; [|apply IH].
  destruct R as (S1 & S2 & S3). repeat split; [exact S1|exact S2|]. cbn [state set_state].
  right. destruct S3 as [->| ->]; [reflexivity|].
  rewrite <- Z.lor_assoc. reflexivity.
Qed.

Lemma changed_only_names (l0 l : list sr_mod_info_mod_s) :
  Forall2 changed_only l0 l -> map ly_mod l = map ly_mod l0.
Proof.
  induction 1 as [|m m' l0 l R H IH]; [reflexivity|]. cbn [map].
  destruct R as (_ & -> & _). now rewrite IH.
Qed.

Lemma req_kept (s : Z) :
  Z.land (Z.lor s MOD_INFO_CHANGED) MOD_INFO_REQ = Z.land s MOD_INFO_REQ.
Proof. rewrite Z.land_lor_distr_l. cbn. apply Z.lor_0_r. Qed.

Section Apply.

Variable NDEBUG : bool.
Variable lyd_node : Type.
Variable lyd_owner_module : lyd_node -> option string.
Variable lyd_data : Type.
Variable sr_edit_mod_apply :
  list lyd_node -> string -> lyd_data -> option lyd_data ->
  lyd_data * option lyd_data * (sr_error_t + bool).

(** Every top-level node of the edit belongs to a module of the set. *)
Definition known (l : list sr_mod_info_mod_s) (edit : list lyd_node) : Prop :=
  forall n, In n edit ->
    exists lm, lyd_owner_module n = Some lm /\ In lm (map ly_mod l).

(** The entry of a module with a node in the edit is a required one. *)
Definition req_ok (edit : list lyd_node) (m : sr_mod_info_mod_s) : Prop :=
  In (ly_mod m) (owners lyd_owner_module edit) -> Z.land (state m) MOD_INFO_REQ <> 0%Z.

Lemma next_mod_scan_names (l l' : list sr_mod_info_mod_s) (aux : list bool) :
  map ly_mod l = map ly_mod l' ->
  forall node skip,
    next_mod_scan NDEBUG lyd_node lyd_owner_module node skip l aux
    = next_mod_scan NDEBUG lyd_node lyd_owner_module node skip l' aux.
Proof.
  intro H. induction node as [|n node IH]; intro skip; [reflexivity|].
  cbn [next_mod_scan]. rewrite (find_mod_names l l' _ H).
  destruct (match skip with Some lm => owner_is (lyd_owner_module n) lm | None => false end);
    [apply IH|].
  destruct (find_mod l' (lyd_owner_module n) 0) as [i|]; [|reflexivity].
  rewrite (ly_mod_at_names l l' i H), IH. reflexivity.
Qed.

Lemma sr_modinfo_next_mod_names (l l' : list sr_mod_info_mod_s) (last : option nat)
  (edit : list lyd_node) (aux : list bool) :
  map ly_mod l = map ly_mod l' ->
  sr_modinfo_next_mod NDEBUG lyd_node lyd_owner_module last l edit aux
  = sr_modinfo_next_mod NDEBUG lyd_node lyd_owner_module last l' edit aux.
Proof.
  intro H. unfold sr_modinfo_next_mod. destruct last as [li|].
  - rewrite (ly_mod_at_names l l' li H). destruct edit; [reflexivity|].
    destruct (find_last _ _ _ _); [|reflexivity]. now apply next_mod_scan_names.
  - replace (List.length l) with (List.length l').
    + now apply next_mod_scan_names.
    + rewrite <- (length_map ly_mod l'), <- H. apply length_map.
Qed.

(** The scan yields the module of the first node whose module is not
    marked. *)
Lemma next_mod_scan_spec (l : list sr_mod_info_mod_s) (aux : list bool)
  (marked : list string) :
  marks l aux marked ->
  forall node skip,
    known l node ->
    (forall lm, skip = Some lm -> mem lm marked = true) ->
    next_mod_scan NDEBUG lyd_node lyd_owner_module node skip l aux
    = match find (unmarked marked) (owners lyd_owner_module node) with
      | None => Val None
      | Some lm =>
          match find_mod l (Some lm) 0 with
          | Some i => Val (Some (i, mark aux i))
          | None => if NDEBUG then Fault else AssertFail
          end
      end.
Proof.
  intros [L M]. induction node as [|n node IH]; intros skip K S; [reflexivity|].
  assert (K' : known l node) by (intros x Hx; apply K; now right).
  destruct (K n (or_introl eq_refl)) as (lm & O & I).
  destruct (find_mod_some l lm I 0) as [i F].
  cbn [next_mod_scan owners]. rewrite O. cbn [find].
  assert (U : unmarked marked lm = negb (mem lm marked)) by reflexivity. rewrite U.
  destruct (match skip with Some lm0 => owner_is (Some lm) lm0 | None => false end) eqn:E.
  - destruct skip as [lm0|]; [|discriminate]. apply owner_is_eq in E. subst lm0.
    rewrite (S lm eq_refl). cbn [negb]. now apply IH.
  - rewrite F, (M lm i F).
    destruct (mem lm marked) eqn:Mk; cbn [negb].
    + apply IH; [exact K'|]. intros lm0 H. injection H as <-.
      destruct (find_mod_at _ _ _ F) as [_ ->]. exact Mk.
    + now rewrite F.
Qed.

Lemma find_last_spec (l : list sr_mod_info_mod_s) (lm : string) :
  forall edit pre post,
    known l edit ->
    owners lyd_owner_module edit = pre ++ lm :: post ->
    exists node pre',
      find_last lyd_node lyd_owner_module edit lm = Some node
      /\ owners lyd_owner_module edit = pre' ++ owners lyd_owner_module node
      /\ (forall y, In y pre' -> In y pre)
      /\ (forall n, In n node -> In n edit).
Proof.
  induction edit as [|n edit IH]; intros pre post K E.
  - destruct pre; discriminate.
  - assert (K' : known l edit) by (intros x Hx; apply K; now right).
    destruct (K n (or_introl eq_refl)) as (x & O & _).
    cbn [find_last owners] in *. rewrite O in *.
    destruct (owner_is (Some x) lm) eqn:Q.
    + exists (n :: edit), []. cbn [owners app]. rewrite O.
      repeat split; [intros y []|auto].
    + destruct pre as [|p pre].
      * cbn [app] in E. injection E as E _. apply owner_is_eq in E. congruence.
      * cbn [app] in E. injection E as <- E.
        destruct (IH pre post K' E) as (node & pre' & F & Ow & Sub & Sn).
        exists node, (x :: pre'). rewrite F. cbn [app]. rewrite <- Ow.
        repeat split.
        -- intros y [<-|Hy]; [now left|right; now apply Sub].
        -- intros y Hy. right. now apply Sn.
Qed.

(** What holds between two calls of [sr_modinfo_next_mod]: [last] is marked,
    and so is the module of every node before its first node. *)
Definition between (l : list sr_mod_info_mod_s) (edit : list lyd_node)
  (last : option nat) (aux : list bool) (marked : list string) : Prop :=
  match last with
  | None => marked = []
  | Some li =>
      marks l aux marked
      /\ mem (ly_mod_at l li) marked = true
      /\ exists pre post,
           owners lyd_owner_module edit = pre ++ ly_mod_at l li :: post
           /\ forall y, In y pre -> mem y marked = true
  end.

(** The marks that the call works on. *)
Definition marks_of (l : list sr_mod_info_mod_s) (last : option nat) (aux : list bool)
  : list bool :=
  match last with
  | None => repeat false (List.length l)
  | Some _ => aux
  end.

Lemma sr_modinfo_next_mod_spec (l : list sr_mod_info_mod_s) (edit : list lyd_node)
  (last : option nat) (aux : list bool) (marked : list string) :
  known l edit ->
  between l edit last aux marked ->
  marks l (marks_of l last aux) marked
  /\ sr_modinfo_next_mod NDEBUG lyd_node lyd_owner_module last l edit aux
     = match find (unmarked marked) (owners lyd_owner_module edit) with
       | None => Val None
       | Some lm =>
           match find_mod l (Some lm) 0 with
           | Some i => Val (Some (i, mark (marks_of l last aux) i))
           | None => if NDEBUG then Fault else AssertFail
           end
       end.
Proof.
  intros K B. unfold sr_modinfo_next_mod, between, marks_of in *.
  destruct last as [li|].
  - destruct B as (M & Mk & pre & post & E & P). split; [exact M|].
    destruct (find_last_spec l _ edit pre post K E) as (node & pre' & F & Ow & Sub & Sn).
    destruct edit as [|n0 edit0]; [destruct pre; discriminate|].
    rewrite F, Ow, find_app_skip.
    + apply next_mod_scan_spec; [exact M| |].
      * intros x Hx. apply K. now apply Sn.
      * intros lm H. now injection H as <-.
    + intros y Hy. unfold unmarked. rewrite (P y (Sub y Hy)). reflexivity.
  - subst marked. split; [apply marks_calloc|].
    apply next_mod_scan_spec; [apply marks_calloc|exact K|discriminate].
Qed.

Local Abbreviation F edit := (firsts (owners lyd_owner_module edit)).

(** The loop applies the modules that are left, in the order of their first
    nodes, and stops. *)
Lemma apply_loop_spec (l0 : list sr_mod_info_mod_s) (edit : list lyd_node)
  (create_diff : bool) :
  known l0 edit ->
  forall fuel k (s : st lyd_data) last aux,
    (List.length (F edit) - k < fuel)%nat ->
    Forall2 changed_only l0 (mods _ s) ->
    Forall (req_ok edit) (mods _ s) ->
    applied _ s = firstn k (F edit) ->
    between l0 edit last aux (firstn k (F edit)) ->
    exists s' e,
      apply_loop NDEBUG lyd_node lyd_owner_module lyd_data sr_edit_mod_apply
        fuel last aux edit create_diff s = Val (s', e)
      /\ (exists rest, F edit = applied _ s' ++ rest /\ (e = None -> rest = []))
      /\ Forall2 changed_only l0 (mods _ s').
Proof.
  intro K. induction fuel as [|fuel IH]; intros k s last aux Hf R Q A B; [lia|].
  cbn [apply_loop].
  rewrite (sr_modinfo_next_mod_names (mods _ s) l0 last edit aux (changed_only_names _ _ R)).
  destruct (sr_modinfo_next_mod_spec l0 edit last aux _ K B) as [M ->].
  rewrite find_unmarked_firsts.
  destruct (nth_error (F edit) k) as [lm|] eqn:N.
  - assert (Hk : (k < List.length (F edit))%nat) by (apply nth_error_Some; congruence).
    assert (Io : In lm (owners lyd_owner_module edit)).
    { apply firsts_In. eapply nth_error_In. exact N. }
    assert (Il : In lm (map ly_mod l0)).
    { clear -K Io. induction edit as [|n edit IHe]; [destruct Io|].
      assert (K' : known l0 edit) by (intros x Hx; apply K; now right).
      destruct (K n (or_introl eq_refl)) as (x & O & I).
      cbn [owners] in Io. rewrite O in Io. destruct Io as [<-|Io]; [exact I|].
      now apply IHe. }
    destruct (find_mod_some l0 lm Il 0) as [i Fi]. rewrite Fi. cbn [bind].
    destruct (find_mod_at _ _ _ Fi) as [Bi Ai].
    assert (Bs : (i < List.length (mods _ s))%nat).
    { rewrite <- (length_map ly_mod), (changed_only_names _ _ R), length_map. exact Bi. }
    destruct (ly_mod_at_entry _ _ Bs) as (m & Nm & Lm).
    rewrite (ly_mod_at_names _ l0 i (changed_only_names _ _ R)), Ai in Lm.
    rewrite Nm.
    assert (Rq : (Z.land (state m) MOD_INFO_REQ =? 0)%Z = false).
    { apply Z.eqb_neq. rewrite Forall_forall in Q. apply (Q m).
      - eapply nth_error_In. exact Nm.
      - now rewrite Lm. }
    rewrite Rq. cbn [negb]. rewrite Expr.c_assert_true, Lm.
    destruct (sr_edit_mod_apply edit lm (data _ s)
                (if create_diff then Some (diff _ s) else None)) as [[data' diff'] res].
    assert (A' : applied _ s ++ [lm] = firstn (S k) (F edit)).
    { rewrite A. symmetry. now apply firstn_snoc. }
    destruct res as [e|change].
    + eexists _, _. split; [reflexivity|]. cbn [applied mods]. split; [|exact R].
      exists (skipn (S k) (F edit)). split; [|discriminate].
      rewrite A'. symmetry. apply firstn_skipn.
    + apply (IH (S k)).
      * lia.
      * cbn [mods]. destruct change; [now apply changed_only_upd|exact R].
      * cbn [mods]. destruct change; [|exact Q].
        apply Forall_upd_nth; [|exact Q]. intros x Hx Ix.
        cbn [state set_state ly_mod] in *. rewrite req_kept. now apply Hx.
      * exact A'.
      * unfold between. rewrite (firstn_snoc _ _ _ N), Ai.
        split; [now apply marks_mark|]. split.
        -- rewrite mem_app. cbn [mem existsb]. now rewrite String.eqb_refl, orb_true_r.
        -- pose proof (find_unmarked_firsts k (owners lyd_owner_module edit)) as Fu.
           rewrite N in Fu. destruct (find_split _ _ _ Fu) as (pre & post & E & P & _).
           exists pre, post. split; [exact E|]. intros y Hy. rewrite mem_app.
           specialize (P y Hy). unfold unmarked in P. apply negb_false_iff in P.
           now rewrite P.
  - cbn [bind]. eexists _, _. split; [reflexivity|]. split; [|exact R].
    exists []. split; [|reflexivity]. rewrite A, app_nil_r. symmetry.
    apply firstn_all2. now apply nth_error_None.
Qed.

(** X26. [sr_modinfo_edit_apply] returns, and unless a node of the edit belongs
    to the module [sysrepo] it calls [sr_edit_mod_apply] for the modules of
    the top-level nodes of the edit, each once and in the order of their first
    nodes, up to the first call that fails; when it reports no error it has
    called it for all of them.  An edit with a node of [sysrepo] is refused
    with [SR_ERR_UNSUPPORTED] before any call.  The entries of the set stay
    as they were but for the bit [MOD_INFO_CHANGED]. *)
Theorem sr_modinfo_edit_apply_module_by_module (mod_info : sr_mod_info_s)
  (mi_data mi_diff : lyd_data) (edit : list lyd_node) (create_diff : bool) :
  data_cached mod_info = false ->
  known (ModInfo.mods mod_info) edit ->
  Forall (req_ok edit) (ModInfo.mods mod_info) ->
  exists s' e,
    sr_modinfo_edit_apply NDEBUG lyd_node lyd_owner_module lyd_data sr_edit_mod_apply
      mod_info mi_data mi_diff edit create_diff = Val (s', e)
    /\ (if existsb (fun n => owner_is (lyd_owner_module n) SR_YANG_MOD) edit
        then e = Some SR_ERR_UNSUPPORTED /\ applied _ s' = []
        else exists rest,
               firsts (owners lyd_owner_module edit) = applied _ s' ++ rest
               /\ (e = None -> rest = []))
    /\ NoDup (applied _ s')
    /\ Forall2 changed_only (ModInfo.mods mod_info) (mods _ s').
Proof.
  intros C K Q. unfold sr_modinfo_edit_apply. rewrite C. cbn [negb].
  rewrite Expr.c_assert_true.
  destruct (existsb _ edit) eqn:E.
  - eexists _, _. split; [reflexivity|]. cbn [applied mods].
    repeat split; [constructor|apply changed_only_refl].
  - destruct (apply_loop_spec (ModInfo.mods mod_info) edit create_diff K
                (S (List.length edit)) 0
                {| mods := ModInfo.mods mod_info; data := mi_data; diff := mi_diff;
                   applied := [] |} None [])
      as (s' & e & Run & (rest & Fr & Fe) & R).
    + pose proof (firsts_length (owners lyd_owner_module edit)) as L1.
      assert (L2 : (List.length (owners lyd_owner_module edit) <= List.length edit)%nat).
      { clear. induction edit as [|n edit IHe]; [reflexivity|]. cbn [owners List.length].
        destruct (lyd_owner_module n); cbn [List.length]; lia. }
      lia.
    + apply changed_only_refl.
    + exact Q.
    + reflexivity.
    + reflexivity.
    + exists s', e. split; [exact Run|]. split; [now exists rest|]. split; [|exact R].
      pose proof (firsts_NoDup (owners lyd_owner_module edit)) as D.
      rewrite Fr in D. now apply NoDup_app_remove_r in D.
Qed.

End Apply.

(** *** Loading the data of the modules ([sr_modinfo_data_load]) *)

(** The data of the module were loaded. *)
Definition loaded (m : sr_mod_info_mod_s) : Prop := Z.land (state m) MOD_INFO_DATA <> 0%Z.

(** An entry after the loading: as it was when its data had been loaded
    before, and with the bit [MOD_INFO_DATA] set otherwise. *)
Definition load_of (m m' : sr_mod_info_mod_s) : Prop :=
  (loaded m /\ m' = m)
  \/ (Z.land (state m) MOD_INFO_DATA = 0%Z
      /\ m' = set_state m (Z.lor (state m) MOD_INFO_DATA)).

Lemma loaded_set (s : Z) : Z.land (Z.lor s MOD_INFO_DATA) MOD_INFO_DATA <> 0%Z.
Proof.
  rewrite Z.land_lor_distr_l. intro H. apply Z.lor_eq_0_iff in H. destruct H as [_ H].
  discriminate H.
Qed.

Lemma data_load_loop_loads
  (load : sr_mod_info_s -> sr_mod_info_mod_s -> option sr_error_t ->
          option sr_error_t * option sr_error_t)
  (mi : sr_mod_info_s) (todo : list sr_mod_info_mod_s) :
  forall done cb l cb',
    data_load_loop load mi done todo cb = Val (l, cb') ->
    exists todo', l = done ++ todo' /\ Forall loaded todo' /\ Forall2 load_of todo todo'.
Proof.
  induction todo as [|m todo IH]; intros done cb l cb' H; cbn [data_load_loop] in H.
  - injection H as <- _. exists []. now rewrite app_nil_r.
  - destruct (Z.land (state m) MOD_INFO_DATA =? 0)%Z eqn:D; cbn [negb] in H.
    + destruct (load _ m cb) as [[e|] cb1]; [discriminate|].
      destruct (IH _ _ _ _ H) as (todo' & -> & Fl & F2).
      exists (set_state m (Z.lor (state m) MOD_INFO_DATA) :: todo').
      rewrite <- app_assoc. split; [reflexivity|]. split; constructor; try assumption.
      * apply loaded_set.
      * right. split; [now apply Z.eqb_eq|reflexivity].
    + destruct (IH _ _ _ _ H) as (todo' & -> & Fl & F2).
      exists (m :: todo'). rewrite <- app_assoc. apply Z.eqb_neq in D.
      split; [reflexivity|]. split; constructor; try assumption. now left.
Qed.

Lemma data_load_loop_loaded
  (load : sr_mod_info_s -> sr_mod_info_mod_s -> option sr_error_t ->
          option sr_error_t * option sr_error_t)
  (mi : sr_mod_info_s) (todo : list sr_mod_info_mod_s) :
  Forall loaded todo ->
  forall done cb, data_load_loop load mi done todo cb = Val (done ++ todo, cb).
Proof.
  induction 1 as [|m todo L _ IH]; intros done cb; cbn [data_load_loop].
  - now rewrite app_nil_r.
  - apply Z.eqb_neq in L. rewrite L. cbn [negb]. rewrite IH, <- app_assoc. reflexivity.
Qed.

(** X27. After [sr_modinfo_data_load] has succeeded, the data of every module
    of the set are marked as loaded, the entries being otherwise as they
    were; and a further call with the same set changes nothing, whatever the
    loader and the cache lock would return: the data of a module are loaded
    once. *)
Theorem sr_modinfo_data_load_once (conn_cache_running : bool)
  (cache_read_lock : option sr_error_t)
  (load : sr_mod_info_s -> sr_mod_info_mod_s -> option sr_error_t ->
          option sr_error_t * option sr_error_t)
  (mod_info mod_info' : sr_mod_info_s) (cache : bool) (cb cb' : option sr_error_t) :
  sr_modinfo_data_load conn_cache_running cache_read_lock load mod_info cache cb
  = Val (mod_info', cb') ->
  Forall loaded (ModInfo.mods mod_info')
  /\ Forall2 load_of (ModInfo.mods mod_info) (ModInfo.mods mod_info')
  /\ forall lock2 load2 cb2,
       sr_modinfo_data_load conn_cache_running lock2 load2 mod_info' cache cb2
       = Val (mod_info', cb2).
Proof.
  unfold sr_modinfo_data_load at 1.
  destruct (negb (data_cached mod_info) && cache && conn_cache_running
            && ds_eqb (ds mod_info) SR_DS_RUNNING) eqn:C.
  - destruct cache_read_lock as [e|]; cbn [bind]; [discriminate|].
    destruct (data_load_loop load _ [] _ cb) as [[l c1]| | | |] eqn:L; cbn [bind];
      try discriminate.
    intro H. injection H as <- <-. cbn [fst snd].
    destruct (data_load_loop_loads _ _ _ _ _ _ _ L) as (todo' & -> & Fl & F2).
    cbn [app set_mods set_data_cached ModInfo.mods] in *.
    repeat split; [exact Fl|exact F2|].
    intros lock2 load2 cb2. unfold sr_modinfo_data_load.
    cbn [data_cached set_mods set_data_cached negb andb bind ModInfo.mods].
    rewrite (data_load_loop_loaded load2 _ _ Fl). reflexivity.
  - cbn [bind].
    destruct (data_load_loop load _ [] _ cb) as [[l c1]| | | |] eqn:L; cbn [bind];
      try discriminate.
    intro H. injection H as <- <-. cbn [fst snd].
    destruct (data_load_loop_loads _ _ _ _ _ _ _ L) as (todo' & -> & Fl & F2).
    cbn [app set_mods ModInfo.mods] in *.
    repeat split; [exact Fl|exact F2|].
    intros lock2 load2 cb2. unfold sr_modinfo_data_load.
    cbn [data_cached ds set_mods]. rewrite C. cbn [bind ModInfo.mods].
    rewrite (data_load_loop_loaded load2 _ _ Fl). reflexivity.
Qed.

(** *** Examples *)

(** An edit of three nodes, each standing for the name of its module, over a
    set of two required modules; every call reports a change. *)
Definition ex_edit : list string := ["b"; "a"; "b"].

Definition ex_info : sr_mod_info_s := ex_set [ex_entry 0 "a" MOD_INFO_REQ; ex_entry 1 "b" MOD_INFO_REQ].

Definition ex_apply (edit : list string) (lm : string) (d : nat) (diff : option nat)
  : nat * option nat * (sr_error_t + bool) :=
  (S d, diff, inr true).

Lemma sr_modinfo_edit_apply_module_by_module_witness :
  exists s' e,
    sr_modinfo_edit_apply false string Some nat ex_apply ex_info 0%nat 0%nat ex_edit true
    = Val (s', e)
    /\ (if existsb (fun n => owner_is (Some n) SR_YANG_MOD) ex_edit
        then e = Some SR_ERR_UNSUPPORTED /\ applied _ s' = []
        else exists rest,
               firsts (owners Some ex_edit) = applied _ s' ++ rest
               /\ (e = None -> rest = []))
    /\ NoDup (applied _ s')
    /\ Forall2 changed_only (ModInfo.mods ex_info) (mods _ s').
Proof.
  apply (sr_modinfo_edit_apply_module_by_module false string Some nat ex_apply ex_info 0%nat 0%nat
           ex_edit true eq_refl).
  - intros n [<-|[<-|[<-|[]]]]; eexists; (split; [reflexivity|]); cbn; auto.
  - repeat constructor; intros _; cbn; discriminate.
Defined.

(** The loader fails for no module and leaves no callback error. *)
Definition ex_load (mi : sr_mod_info_s) (m : sr_mod_info_mod_s) (cb : option sr_error_t)
  : option sr_error_t * option sr_error_t :=
  (None, cb).

Lemma sr_modinfo_data_load_once_witness :
  Forall loaded [ex_entry 0 "a" 12; ex_entry 1 "b" 12]
  /\ Forall2 load_of (ModInfo.mods ex_info) [ex_entry 0 "a" 12; ex_entry 1 "b" 12]
  /\ forall lock2 load2 cb2,
       sr_modinfo_data_load false lock2 load2
         (ex_set [ex_entry 0 "a" 12; ex_entry 1 "b" 12]) false cb2
       = Val (ex_set [ex_entry 0 "a" 12; ex_entry 1 "b" 12], cb2).
Proof.
  exact (sr_modinfo_data_load_once false None ex_load ex_info
           (ex_set [ex_entry 0 "a" 12; ex_entry 1 "b" 12]) false None None eq_refl).
Defined.

End Edit.
